(** * PythonDSA: the graph algorithms cluster

    A shallow embedding of [graphs.py], [maximum_flow.py],
    [advanced_graph_algorithms.py] and [minimum_spanning_trees.py], and the
    properties of the natural-language specification stated over it.

    Conventions of the embedding.
    - A vertex is any hashable, comparable Python value: a type [V] with
      decidable equality and a countable encoding, and the boolean [vleb]
      standing for [<=] on vertices (used only where tuples holding vertices
      are compared inside [heapq]).
    - Weights and capacities are Python integers: [Z].  [float('infinity')]
      is the extra point [Inf] of [num].  Where a total of float weights is
      at stake (the two spanning-tree algorithms), [kruskal] and [prim] are
      embedded a second time over binary64 floats.
    - A Python [set] is a [gset]; a [dict] whose iteration order is never
      observed is a [gmap]; a [dict] that the code iterates over is an
      insertion-ordered association list ([odict]).
    - [list(some_set)] has no specified order: the snapshot [self.vertices]
      taken by the algorithm classes is a parameter [vs], constrained to be a
      permutation of the elements of the set.
    - [graph.adj_list] is a [defaultdict(list)]: reading a missing key stores
      an empty list under it.  The algorithm classes alias this object, so the
      functions below thread it explicitly.
    - A [while] loop or a recursion takes a [fuel] bound; the result [None]
      stands for "no value returned" (fuel exhausted, or an exception such as
      [KeyError]).  [returns f r] says that the Python call returns [r]. *)

From Stdlib Require Import ZArith Lia String Relations Wellfounded Classical.
From Stdlib Require PrimFloat.
From stdpp Require Import gmap strings list fin_maps sorting.

Set Default Proof Using "Type*".
#[global] Set Warnings "-clear-no-such-hyp".

(** ** Control operators *)

(** [while cond: body], with the loop body returning either the next state
    ([inl]) or the value returned by the enclosing function ([inr]). *)
Fixpoint while_loop {S R : Type} (body : S → option (S + R)) (fuel : nat) (s : S)
  : option R :=
  match fuel with
  | O => None
  | Datatypes.S n =>
      match body s with
      | None => None
      | Some (inl s') => while_loop body n s'
      | Some (inr r) => Some r
      end
  end.

(** [for x in l: s = f x s], where [f] may fail. *)
Fixpoint for_each {A S : Type} (f : A → S → option S) (l : list A) (s : S) : option S :=
  match l with
  | [] => Some s
  | x :: l' => match f x s with None => None | Some s' => for_each f l' s' end
  end.

(** The Python call modelled by the fuelled function [f] returns [r]. *)
Definition returns {R : Type} (f : nat → option R) (r : R) : Prop :=
  ∃ fuel, f fuel = Some r.

(** ** Numbers with [float('infinity')] *)

Inductive num := Fin (z : Z) | Inf.

Definition num_ltb (a b : num) : bool :=
  match a, b with
  | Fin x, Fin y => (x <? y)%Z
  | Fin _, Inf => true
  | Inf, _ => false
  end.

Definition num_min (a b : num) : num := if num_ltb b a then b else a.

(** ** [heapq] on a list

    [heapq] keeps a binary heap inside a Python list; the only behaviour the
    algorithms observe is that [heappop] removes and returns a least item.
    The heap is modelled by the list of its items. *)

Fixpoint extract_min {A : Type} (leb : A → A → bool) (x : A) (l : list A) : A * list A :=
  match l with
  | [] => (x, [])
  | y :: l' =>
      let '(m, r) := extract_min leb y l' in
      if leb x m then (x, y :: l') else (m, x :: r)
  end.

Definition heappush {A : Type} (h : list A) (x : A) : list A := h ++ [x].

Definition heappop {A : Type} (leb : A → A → bool) (h : list A) : option (A * list A) :=
  match h with
  | [] => None
  | x :: l => Some (extract_min leb x l)
  end.

Section GraphAlgorithms.

Context {V : Type} `{Countable V}.
(** [vleb a b] is Python's [a <= b] on vertices. *)
Context (vleb : V → V → bool).

Implicit Types (u v w : V) (c : Z).

(** ** [defaultdict(list)] *)

Definition adj_of (d : gmap V (list (V * Z))) (v : V) : list (V * Z) :=
  default [] (d !! v).

(** The state of the dictionary after [d[v]] has been read. *)
Definition dd_touch (d : gmap V (list (V * Z))) (v : V) : gmap V (list (V * Z)) :=
  match d !! v with
  | Some _ => d
  | None => <[v := []]> d
  end.

(** [d[v]]: the value and the dictionary afterwards. *)
Definition dd_get (d : gmap V (list (V * Z))) (v : V)
  : list (V * Z) * gmap V (list (V * Z)) :=
  (adj_of d v, dd_touch d v).

(** [d[v].append(x)] *)
Definition dd_append (d : gmap V (list (V * Z))) (v : V) (x : V * Z)
  : gmap V (list (V * Z)) :=
  <[v := adj_of d v ++ [x]]> d.

(** ** graphs.py: class Graph *)

Record Graph := mkGraph {
  directed : bool;
  adj_list : gmap V (list (V * Z));
  vertices : gset V;
  edges : list (V * V * Z)
}.

Definition Graph_init (is_directed : bool) : Graph := mkGraph is_directed ∅ ∅ [].

Definition set_adj_list (g : Graph) (d : gmap V (list (V * Z))) : Graph :=
  mkGraph (directed g) d (vertices g) (edges g).

Definition add_vertex (g : Graph) (vertex : V) : Graph :=
  mkGraph (directed g) (adj_list g) ({[vertex]} ∪ vertices g) (edges g).

Definition add_edge (g : Graph) (from_vertex to_vertex : V) (weight : Z) : Graph :=
  let vs := {[to_vertex]} ∪ ({[from_vertex]} ∪ vertices g) in
  let d1 := dd_append (adj_list g) from_vertex (to_vertex, weight) in
  let es := edges g ++ [(from_vertex, to_vertex, weight)] in
  let d2 := if directed g then d1 else dd_append d1 to_vertex (from_vertex, weight) in
  mkGraph (directed g) d2 vs es.

(** [list(self.vertices)]: some enumeration of the set. *)
Definition get_vertices (g : Graph) (vs : list V) : Prop := vs ≡ₚ elements (vertices g).

Definition get_edges (g : Graph) : list (V * V * Z) := edges g.

(** A construction script: the calls a caller makes on a fresh graph. *)
Inductive graph_op :=
| AddVertex (v : V)
| AddEdge (u v : V) (weight : Z).

Definition apply_op (g : Graph) (o : graph_op) : Graph :=
  match o with
  | AddVertex v => add_vertex g v
  | AddEdge u v weight => add_edge g u v weight
  end.

Definition build (is_directed : bool) (ops : list graph_op) : Graph :=
  fold_left apply_op ops (Graph_init is_directed).

(** *** bfs *)

Record bfs_state := mkBfs {
  bfs_adj : gmap V (list (V * Z));
  bfs_visited : gset V;
  bfs_queue : list V;
  bfs_order : list V
}.

(** The [for neighbor, _ in self.adj_list[vertex]] loop of [bfs]. *)
Definition bfs_neighbors (nbrs : list (V * Z)) (visited : gset V) (queue : list V)
  : gset V * list V :=
  fold_left
    (λ (acc : gset V * list V) (e : V * Z),
       if decide (e.1 ∈ acc.1) then acc else ({[e.1]} ∪ acc.1, acc.2 ++ [e.1]))
    nbrs (visited, queue).

Definition bfs_body (st : bfs_state) : option (bfs_state + list V) :=
  match bfs_queue st with
  | [] => Some (inr (bfs_order st))
  | vertex :: queue =>
      let order := bfs_order st ++ [vertex] in
      let '(nbrs, d) := dd_get (bfs_adj st) vertex in
      let '(visited, queue) := bfs_neighbors nbrs (bfs_visited st) queue in
      Some (inl (mkBfs d visited queue order))
  end.

Definition bfs (g : Graph) (start_vertex : V) (fuel : nat) : option (list V) :=
  if decide (start_vertex ∈ vertices g) then
    while_loop bfs_body fuel (mkBfs (adj_list g) {[start_vertex]} [start_vertex] [])
  else Some [].

(** *** dfs *)

Record dfs_state := mkDfs {
  dfs_adj : gmap V (list (V * Z));
  dfs_visited : gset V;
  dfs_order : list V
}.

Fixpoint dfs_recursive (fuel : nat) (vertex : V) (st : dfs_state) : option dfs_state :=
  match fuel with
  | O => None
  | S n =>
      let '(nbrs, d) := dd_get (dfs_adj st) vertex in
      for_each
        (λ (e : V * Z) (st' : dfs_state),
           if decide (e.1 ∈ dfs_visited st') then Some st' else dfs_recursive n e.1 st')
        nbrs
        (mkDfs d ({[vertex]} ∪ dfs_visited st) (dfs_order st ++ [vertex]))
  end.

Definition dfs (g : Graph) (start_vertex : V) (fuel : nat) : option (list V) :=
  if decide (start_vertex ∈ vertices g) then
    dfs_order <$> dfs_recursive fuel start_vertex (mkDfs (adj_list g) ∅ [])
  else Some [].

(** *** dijkstra *)

(** What [dijkstra] returns: the empty dictionary [{}] for an unknown start
    vertex, the pair [(distances, paths)] otherwise. *)
Inductive dijkstra_result :=
| DijkstraEmpty
| DijkstraPair (distances : gmap V num) (paths : gmap V (list V)).

Record dijkstra_state := mkDijkstra {
  dj_adj : gmap V (list (V * Z));
  dj_distances : gmap V num;
  dj_paths : gmap V (list V);
  dj_queue : list (Z * V)
}.

(** Python's [<=] on the tuples [(distance, vertex)]. *)
Definition entry_leb (a b : Z * V) : bool :=
  (a.1 <? b.1)%Z || ((a.1 =? b.1)%Z && vleb a.2 b.2).

(** One round of [for neighbor, weight in self.adj_list[current_vertex]]. *)
Definition dijkstra_relax (current_distance : Z) (current_vertex : V)
    (e : V * Z) (st : dijkstra_state) : option dijkstra_state :=
  let '(neighbor, weight) := e in
  let distance := (current_distance + weight)%Z in
  dn ← dj_distances st !! neighbor;
  if num_ltb (Fin distance) dn then
    pc ← dj_paths st !! current_vertex;
    Some (mkDijkstra (dj_adj st)
            (<[neighbor := Fin distance]> (dj_distances st))
            (<[neighbor := pc ++ [neighbor]]> (dj_paths st))
            (heappush (dj_queue st) (distance, neighbor)))
  else Some st.

Definition dijkstra_body (st : dijkstra_state) : option (dijkstra_state + dijkstra_result) :=
  match heappop entry_leb (dj_queue st) with
  | None => Some (inr (DijkstraPair (dj_distances st) (dj_paths st)))
  | Some ((current_distance, current_vertex), queue) =>
      dc ← dj_distances st !! current_vertex;
      if num_ltb dc (Fin current_distance) then
        Some (inl (mkDijkstra (dj_adj st) (dj_distances st) (dj_paths st) queue))
      else
        let '(nbrs, d) := dd_get (dj_adj st) current_vertex in
        st' ← for_each (dijkstra_relax current_distance current_vertex) nbrs
                (mkDijkstra d (dj_distances st) (dj_paths st) queue);
        Some (inl st')
  end.

Definition dijkstra_init (g : Graph) (start_vertex : V) : dijkstra_state :=
  mkDijkstra (adj_list g)
    (<[start_vertex := Fin 0]> (gset_to_gmap Inf (vertices g)))
    (<[start_vertex := [start_vertex]]> (gset_to_gmap [] (vertices g)))
    [(0%Z, start_vertex)].

Definition dijkstra (g : Graph) (start_vertex : V) (fuel : nat) : option dijkstra_result :=
  if decide (start_vertex ∈ vertices g) then
    while_loop dijkstra_body fuel (dijkstra_init g start_vertex)
  else Some DijkstraEmpty.

Definition result_distance (r : dijkstra_result) (v : V) : option num :=
  match r with
  | DijkstraEmpty => None
  | DijkstraPair distances _ => distances !! v
  end.

Definition result_path (r : dijkstra_result) (v : V) : option (list V) :=
  match r with
  | DijkstraEmpty => None
  | DijkstraPair _ paths => paths !! v
  end.

(** ** Insertion-ordered dictionaries

    A Python [dict] keeps its keys in insertion order, and assigning to a key
    that is present keeps its position. *)

Fixpoint od_get {A : Type} (d : list (V * A)) (k : V) : option A :=
  match d with
  | [] => None
  | (k', a) :: d' => if decide (k = k') then Some a else od_get d' k
  end.

Fixpoint od_set {A : Type} (d : list (V * A)) (k : V) (a : A) : list (V * A) :=
  match d with
  | [] => [(k, a)]
  | (k', a') :: d' => if decide (k = k') then (k, a) :: d' else (k', a') :: od_set d' k a
  end.

(** [defaultdict(dict)]: [d[u]], creating [{}] when [u] is missing. *)
Definition ddd_row (d : gmap V (list (V * Z))) (u : V) : list (V * Z) :=
  default [] (d !! u).

(** [d[u][v] = c] on a [defaultdict(dict)]. *)
Definition ddd_set (d : gmap V (list (V * Z))) (u v : V) (c : Z) : gmap V (list (V * Z)) :=
  <[u := od_set (ddd_row d u) v c]> d.

(** [d[u][v] += c] on a [defaultdict(dict)]; [KeyError] when [d[u]] has no [v]. *)
Definition ddd_add (d : gmap V (list (V * Z))) (u v : V) (c : Z)
  : option (gmap V (list (V * Z))) :=
  old ← od_get (ddd_row d u) v;
  Some (<[u := od_set (ddd_row d u) v (old + c)%Z]> d).

(** ** maximum_flow.py: class MaxFlow *)

Record MaxFlow := mkMaxFlow {
  mf_graph : Graph;
  mf_vertices : list V;
  residual_graph : gmap V (list (V * Z))
}.

(** The body of the inner loop of [initialize_residual_graph]. *)
Definition init_residual_edge (vertex : V) (e : V * Z) (res : gmap V (list (V * Z)))
  : gmap V (list (V * Z)) :=
  let '(neighbor, capacity) := e in
  let res1 := ddd_set res vertex neighbor capacity in
  let res2 := if decide (is_Some (res1 !! neighbor)) then res1 else <[neighbor := []]> res1 in
  ddd_set res2 neighbor vertex 0.

(** The body of the outer loop: the state is the shared adjacency dictionary
    and the residual graph. *)
Definition init_residual_vertex
    (st : gmap V (list (V * Z)) * gmap V (list (V * Z))) (vertex : V)
  : gmap V (list (V * Z)) * gmap V (list (V * Z)) :=
  let '(nbrs, d) := dd_get st.1 vertex in
  (d, fold_left (λ (res : gmap V (list (V * Z))) (e : V * Z), init_residual_edge vertex e res) nbrs st.2).

Definition initialize_residual_graph (mf : MaxFlow) : MaxFlow :=
  let '(d, res) :=
    fold_left init_residual_vertex (mf_vertices mf)
      (adj_list (mf_graph mf), residual_graph mf) in
  mkMaxFlow (set_adj_list (mf_graph mf) d) (mf_vertices mf) res.

(** [MaxFlow(graph)], where [vs] is what [graph.get_vertices()] returned. *)
Definition MaxFlow_init (g : Graph) (vs : list V) : MaxFlow :=
  initialize_residual_graph (mkMaxFlow g vs ∅).

Record aug_state := mkAug {
  aug_res : gmap V (list (V * Z));
  aug_parent : gmap V (option V);
  aug_min_capacity : gmap V num;
  aug_queue : list V
}.

(** The [while current is not None] loop that rebuilds the path. *)
Definition reconstruct_body (parent : gmap V (option V)) (st : option V * list V)
  : option ((option V * list V) + list V) :=
  match st.1 with
  | None => Some (inr (reverse st.2))
  | Some current =>
      p ← parent !! current;
      Some (inl (p, st.2 ++ [current]))
  end.

(** The [for neighbor, capacity in self.residual_graph[current].items()] loop:
    either the scan goes on ([inl]) or the function returns ([inr]). *)
Fixpoint aug_scan (fuel : nat) (sink current : V) (items : list (V * Z)) (st : aug_state)
  : option (aug_state + (list V * num)) :=
  match items with
  | [] => Some (inl st)
  | (neighbor, capacity) :: items' =>
      if bool_decide (0 < capacity)%Z && bool_decide (aug_parent st !! neighbor = None) then
        mc ← aug_min_capacity st !! current;
        let parent := <[neighbor := Some current]> (aug_parent st) in
        let min_capacity := <[neighbor := num_min mc (Fin capacity)]> (aug_min_capacity st) in
        if decide (neighbor = sink) then
          path ← while_loop (reconstruct_body parent) fuel (Some sink, []);
          ms ← min_capacity !! sink;
          Some (inr (path, ms))
        else
          aug_scan fuel sink current items'
            (mkAug (aug_res st) parent min_capacity (aug_queue st ++ [neighbor]))
      else aug_scan fuel sink current items' st
  end.

Definition aug_body (fuel : nat) (sink : V) (st : aug_state)
  : option (aug_state + (gmap V (list (V * Z)) * option (list V * num))) :=
  match aug_queue st with
  | [] => Some (inr (aug_res st, None))
  | current :: queue =>
      let items := ddd_row (aug_res st) current in
      let res := if decide (is_Some (aug_res st !! current)) then aug_res st
                 else <[current := []]> (aug_res st) in
      r ← aug_scan fuel sink current items
            (mkAug res (aug_parent st) (aug_min_capacity st) queue);
      match r with
      | inl st' => Some (inl st')
      | inr found => Some (inr (res, Some found))
      end
  end.

(** [bfs_augmenting_path]: the residual graph afterwards (reading a missing
    row creates it) and [Some (path, min_capacity)], or [None] for the Python
    result [(None, 0)]. *)
Definition bfs_augmenting_path (res : gmap V (list (V * Z))) (source sink : V) (fuel : nat)
  : option (gmap V (list (V * Z)) * option (list V * num)) :=
  while_loop (aug_body fuel sink) fuel
    (mkAug res {[source := None]} {[source := Inf]} [source]).

Record ff_state := mkFF {
  ff_res : gmap V (list (V * Z));
  ff_flow : gmap V (list (V * Z));
  ff_max_flow : Z
}.

(** The [for i in range(len(path) - 1)] loop. *)
Fixpoint augment (path : list V) (m : Z)
    (st : gmap V (list (V * Z)) * gmap V (list (V * Z)))
  : option (gmap V (list (V * Z)) * gmap V (list (V * Z))) :=
  match path with
  | u :: ((v :: _) as path') =>
      res1 ← ddd_add st.1 u v (- m);
      res2 ← ddd_add res1 v u m;
      flow ← ddd_add st.2 u v m;
      augment path' m (res2, flow)
  | _ => Some st
  end.

Definition ff_body (fuel : nat) (source sink : V) (st : ff_state)
  : option (ff_state + (Z * gmap V (list (V * Z)) * gmap V (list (V * Z)))) :=
  r ← bfs_augmenting_path (ff_res st) source sink fuel;
  match r.2 with
  | None => Some (inr (ff_max_flow st, ff_flow st, r.1))
  | Some (path, Fin m) =>
      st' ← augment path m (r.1, ff_flow st);
      Some (inl (mkFF st'.1 st'.2 (ff_max_flow st + m)))
  | Some (_, Inf) => None
  end.

(** The initial [flow_network]. *)
Definition init_flow_network (vs : list V) (res : gmap V (list (V * Z)))
  : gmap V (list (V * Z)) * gmap V (list (V * Z)) :=
  fold_left
    (λ (st : gmap V (list (V * Z)) * gmap V (list (V * Z))) vertex,
       let row := ddd_row st.2 vertex in
       let res' := if decide (is_Some (st.2 !! vertex)) then st.2 else <[vertex := []]> st.2 in
       (fold_left (λ (flow : gmap V (list (V * Z))) (e : V * Z), ddd_set flow vertex e.1 0)
          row st.1, res'))
    vs (∅, res).

(** [ford_fulkerson]: the value, the flow network and the object afterwards. *)
Definition ford_fulkerson (mf : MaxFlow) (source sink : V) (fuel : nat)
  : option (Z * gmap V (list (V * Z)) * MaxFlow) :=
  let '(flow, res) := init_flow_network (mf_vertices mf) (residual_graph mf) in
  r ← while_loop (ff_body fuel source sink) fuel (mkFF res flow 0);
  Some (r.1.1, r.1.2, mkMaxFlow (mf_graph mf) (mf_vertices mf) r.2).

(** The capacity that the residual graph of a [MaxFlow] object records for
    the pair [(u, v)]. *)
Definition residual_of (mf : MaxFlow) (u v : V) : option Z :=
  od_get (ddd_row (residual_graph mf) u) v.

(** The flow recorded for the pair [(u, v)]; the capacity of [u -> v] in the
    graph (the sum over parallel edges, [0] without an edge). *)
Definition flow_of (flow : gmap V (list (V * Z))) (u v : V) : option Z :=
  od_get (ddd_row flow u) v.

Definition capacity_of (g : Graph) (u v : V) : Z :=
  foldr Z.add 0%Z
    (omap (λ e : V * Z, if decide (e.1 = v) then Some e.2 else None)
       (adj_of (adj_list g) u)).

(** ** advanced_graph_algorithms.py: class AdvancedGraphAlgorithms *)

Record AdvancedGraphAlgorithms := mkAGA {
  aga_graph : Graph;
  aga_vertices : list V
}.

(** [AdvancedGraphAlgorithms(graph)], with [vs] the result of [get_vertices]. *)
Definition AGA_init (g : Graph) (vs : list V) : AdvancedGraphAlgorithms := mkAGA g vs.

(** [_reverse_graph]: the state is the shared adjacency dictionary and the
    reversed adjacency being built. *)
Definition reverse_vertex
    (st : gmap V (list (V * Z)) * gmap V (list (V * Z))) (vertex : V)
  : gmap V (list (V * Z)) * gmap V (list (V * Z)) :=
  let '(nbrs, d) := dd_get st.1 vertex in
  (d, fold_left (λ (rev : gmap V (list (V * Z))) (e : V * Z), dd_append rev e.1 (vertex, e.2)) nbrs st.2).

Definition reverse_graph (vs : list V) (d : gmap V (list (V * Z)))
  : gmap V (list (V * Z)) * gmap V (list (V * Z)) :=
  fold_left reverse_vertex vs (d, ∅).

(** The three mutable objects a Kosaraju pass works on: the dictionary it
    reads neighbours from, the [visited] set and the list it appends to. *)
Record pass_state := mkPass {
  ps_adj : gmap V (list (V * Z));
  ps_visited : gset V;
  ps_out : list V
}.

Fixpoint dfs_first_pass (fuel : nat) (vertex : V) (st : pass_state) : option pass_state :=
  match fuel with
  | O => None
  | S n =>
      let '(nbrs, d) := dd_get (ps_adj st) vertex in
      st' ← for_each
               (λ (e : V * Z) (s : pass_state),
                  if decide (e.1 ∈ ps_visited s) then Some s else dfs_first_pass n e.1 s)
               nbrs (mkPass d ({[vertex]} ∪ ps_visited st) (ps_out st));
      Some (mkPass (ps_adj st') (ps_visited st') (ps_out st' ++ [vertex]))
  end.

Fixpoint dfs_second_pass (fuel : nat) (vertex : V) (st : pass_state) : option pass_state :=
  match fuel with
  | O => None
  | S n =>
      let '(nbrs, d) := dd_get (ps_adj st) vertex in
      for_each
        (λ (e : V * Z) (s : pass_state),
           if decide (e.1 ∈ ps_visited s) then Some s else dfs_second_pass n e.1 s)
        nbrs (mkPass d ({[vertex]} ∪ ps_visited st) (ps_out st ++ [vertex]))
  end.

(** The first loop of [find_scc]. *)
Definition first_pass_root (fuel : nat) (vertex : V) (st : pass_state) : option pass_state :=
  if decide (vertex ∈ ps_visited st) then Some st else dfs_first_pass fuel vertex st.

(** The second loop of [find_scc]: the state is the reversed adjacency, the
    [visited] set and [scc_list]. *)
Definition second_pass_root (fuel : nat) (vertex : V)
    (st : gmap V (list (V * Z)) * gset V * list (list V))
  : option (gmap V (list (V * Z)) * gset V * list (list V)) :=
  let '(rev, visited, scc_list) := st in
  if decide (vertex ∈ visited) then Some st
  else
    r ← dfs_second_pass fuel vertex (mkPass rev visited []);
    Some (ps_adj r, ps_visited r, scc_list ++ [ps_out r]).

Definition find_scc (a : AdvancedGraphAlgorithms) (fuel : nat)
  : option (list (list V) * AdvancedGraphAlgorithms) :=
  p1 ← for_each (first_pass_root fuel) (aga_vertices a)
         (mkPass (adj_list (aga_graph a)) ∅ []);
  let '(d, reversed_adj) := reverse_graph (aga_vertices a) (ps_adj p1) in
  p2 ← for_each (second_pass_root fuel) (reverse (ps_out p1)) (reversed_adj, ∅, []);
  Some (p2.2, mkAGA (set_adj_list (aga_graph a) d) (aga_vertices a)).

Record topo_state := mkTopo {
  ts_adj : gmap V (list (V * Z));
  ts_visited : gset V;
  ts_temp : gset V;
  ts_order : list V
}.

(** The neighbour loop of [_dfs_topological], given the recursive call [rec]:
    the boolean is [True] when the function returns [True] from inside the
    loop. *)
Fixpoint topo_neighbors (rec : V → topo_state → option (bool * topo_state))
    (nbrs : list (V * Z)) (st : topo_state) : option (bool * topo_state) :=
  match nbrs with
  | [] => Some (false, st)
  | (neighbor, _) :: nbrs' =>
      if decide (neighbor ∈ ts_visited st) then
        if decide (neighbor ∈ ts_temp st) then Some (true, st)
        else topo_neighbors rec nbrs' st
      else
        '(cycle, st') ← rec neighbor st;
        if (cycle : bool) then Some (true, st') else topo_neighbors rec nbrs' st'
  end.

Fixpoint dfs_topological (fuel : nat) (vertex : V) (st : topo_state)
  : option (bool * topo_state) :=
  match fuel with
  | O => None
  | S n =>
      let '(nbrs, d) := dd_get (ts_adj st) vertex in
      '(cycle, st') ← topo_neighbors (dfs_topological n) nbrs
            (mkTopo d ({[vertex]} ∪ ts_visited st) ({[vertex]} ∪ ts_temp st) (ts_order st));
      if (cycle : bool) then Some (true, st')
      else if decide (vertex ∈ ts_temp st') then
        Some (false, mkTopo (ts_adj st') (ts_visited st') (ts_temp st' ∖ {[vertex]})
                       (vertex :: ts_order st'))
      else None
  end.

(** The loop of [topological_sort], with the same convention as
    [topo_neighbors]. *)
Fixpoint topo_roots (fuel : nat) (vs : list V) (st : topo_state) : option (bool * topo_state) :=
  match vs with
  | [] => Some (false, st)
  | vertex :: vs' =>
      if decide (vertex ∈ ts_visited st) then topo_roots fuel vs' st
      else
        '(cycle, st') ← dfs_topological fuel vertex st;
        if (cycle : bool) then Some (true, st') else topo_roots fuel vs' st'
  end.

(** [topological_sort]: [None] inside is Python's [None] (a cycle was met). *)
Definition topological_sort (a : AdvancedGraphAlgorithms) (fuel : nat)
  : option (option (list V) * AdvancedGraphAlgorithms) :=
  '(cycle, st) ← topo_roots fuel (aga_vertices a) (mkTopo (adj_list (aga_graph a)) ∅ ∅ []);
  Some (if (cycle : bool) then None else Some (ts_order st),
        mkAGA (set_adj_list (aga_graph a) (ts_adj st)) (aga_vertices a)).

(** ** minimum_spanning_trees.py *)

Record DisjointSet := mkDS {
  ds_parent : gmap V V;
  ds_rank : gmap V nat
}.

Definition DisjointSet_init (vs : list V) : DisjointSet :=
  mkDS (list_to_map ((λ v, (v, v)) <$> vs)) (list_to_map ((λ v, (v, 0)) <$> vs)).

Fixpoint ds_find (fuel : nat) (ds : DisjointSet) (vertex : V) : option (V * DisjointSet) :=
  match fuel with
  | O => None
  | S n =>
      p ← ds_parent ds !! vertex;
      if decide (p ≠ vertex) then
        r ← ds_find n ds p;
        Some (r.1, mkDS (<[vertex := r.1]> (ds_parent r.2)) (ds_rank r.2))
      else Some (p, ds)
  end.

Definition ds_union (fuel : nat) (ds : DisjointSet) (vertex1 vertex2 : V)
  : option DisjointSet :=
  r1 ← ds_find fuel ds vertex1;
  r2 ← ds_find fuel r1.2 vertex2;
  let root1 := r1.1 in
  let root2 := r2.1 in
  let ds := r2.2 in
  if decide (root1 = root2) then Some ds
  else
    k1 ← ds_rank ds !! root1;
    k2 ← ds_rank ds !! root2;
    if decide (k1 < k2) then Some (mkDS (<[root1 := root2]> (ds_parent ds)) (ds_rank ds))
    else if decide (k2 < k1) then Some (mkDS (<[root2 := root1]> (ds_parent ds)) (ds_rank ds))
    else Some (mkDS (<[root2 := root1]> (ds_parent ds)) (<[root1 := k1 + 1]> (ds_rank ds))).

Record MST := mkMST {
  mst_graph : Graph;
  mst_vertices : list V;
  mst_edges : list (V * V * Z)
}.

(** [MST(graph)], with [vs] the result of [get_vertices]. *)
Definition MST_init (g : Graph) (vs : list V) : MST := mkMST g vs (get_edges g).

(** [sorted(self.edges, key=lambda x: x[2])]: a stable sort on the weight. *)
Fixpoint insert_by_weight (e : V * V * Z) (l : list (V * V * Z)) : list (V * V * Z) :=
  match l with
  | [] => [e]
  | x :: l' => if (e.2 <=? x.2)%Z then e :: x :: l' else x :: insert_by_weight e l'
  end.

Definition sorted_by_weight (l : list (V * V * Z)) : list (V * V * Z) :=
  foldr insert_by_weight [] l.

Record kruskal_state := mkKruskal {
  ks_ds : DisjointSet;
  ks_edges : list (V * V * Z);
  ks_total : Z
}.

Definition kruskal_edge (fuel : nat) (e : V * V * Z) (st : kruskal_state)
  : option kruskal_state :=
  let '(from_vertex, to_vertex, weight) := e in
  r1 ← ds_find fuel (ks_ds st) from_vertex;
  r2 ← ds_find fuel r1.2 to_vertex;
  if decide (r1.1 ≠ r2.1) then
    ds ← ds_union fuel r2.2 from_vertex to_vertex;
    Some (mkKruskal ds (ks_edges st ++ [(from_vertex, to_vertex, weight)])
            (ks_total st + weight))
  else Some (mkKruskal r2.2 (ks_edges st) (ks_total st)).

(** [kruskal]: the edges, the total weight and the object afterwards. *)
Definition kruskal (m : MST) (fuel : nat) : option (list (V * V * Z) * Z * MST) :=
  st ← for_each (kruskal_edge fuel) (sorted_by_weight (mst_edges m))
         (mkKruskal (DisjointSet_init (mst_vertices m)) [] 0);
  Some (ks_edges st, ks_total st, m).

(** Python's [<=] on the tuples [(weight, from_vertex, to_vertex)]. *)
Definition vltb (a b : V) : bool := vleb a b && bool_decide (a ≠ b).

Definition edge_leb (a b : Z * V * V) : bool :=
  (a.1.1 <? b.1.1)%Z
  || ((a.1.1 =? b.1.1)%Z
      && (vltb a.1.2 b.1.2 || (bool_decide (a.1.2 = b.1.2) && vleb a.2 b.2))).

Record prim_state := mkPrim {
  pr_adj : gmap V (list (V * Z));
  pr_visited : gset V;
  pr_edges : list (V * V * Z);
  pr_total : Z;
  pr_heap : list (Z * V * V)
}.

(** The loop that pushes the edges of [vertex] to unvisited neighbours. *)
Definition prim_push (vertex : V) (visited : gset V) (nbrs : list (V * Z))
    (heap : list (Z * V * V)) : list (Z * V * V) :=
  fold_left
    (λ (h : list (Z * V * V)) (e : V * Z),
       if decide (e.1 ∈ visited) then h else heappush h (e.2, vertex, e.1))
    nbrs heap.

Definition prim_body (n_vertices : nat) (st : prim_state)
  : option (prim_state + (list (V * V * Z) * Z * gmap V (list (V * Z)))) :=
  let stop := Some (inr (pr_edges st, pr_total st, pr_adj st)) in
  if decide (size (pr_visited st) < n_vertices) then
    match heappop edge_leb (pr_heap st) with
    | None => stop
    | Some ((weight, from_vertex, to_vertex), heap) =>
        if decide (to_vertex ∈ pr_visited st) then
          Some (inl (mkPrim (pr_adj st) (pr_visited st) (pr_edges st) (pr_total st) heap))
        else
          let visited := {[to_vertex]} ∪ pr_visited st in
          let '(nbrs, d) := dd_get (pr_adj st) to_vertex in
          Some (inl (mkPrim d visited (pr_edges st ++ [(from_vertex, to_vertex, weight)])
                       (pr_total st + weight) (prim_push to_vertex visited nbrs heap)))
    end
  else stop.

(** [prim(start_vertex)]: the edges, the total weight and the object
    afterwards; [start_vertex = None] is the default argument. *)
Definition prim (m : MST) (start_vertex : option V) (fuel : nat)
  : option (list (V * V * Z) * Z * MST) :=
  match mst_vertices m with
  | [] => Some ([], 0%Z, m)
  | first :: _ =>
      let start := default first start_vertex in
      let '(nbrs, d) := dd_get (adj_list (mst_graph m)) start in
      let heap := fold_left (λ (h : list (Z * V * V)) (e : V * Z), heappush h (e.2, start, e.1)) nbrs [] in
      r ← while_loop (prim_body (length (mst_vertices m))) fuel
            (mkPrim d {[start]} [] 0 heap);
      Some (r.1.1, r.1.2, mkMST (set_adj_list (mst_graph m) r.2) (mst_vertices m) (mst_edges m))
  end.

(** ** graphs.py: get_adjacency_matrix *)

(** [sorted(list(self.vertices))]: a stable sort that only asks for [<]. *)
Fixpoint insert_vertex (x : V) (l : list V) : list V :=
  match l with
  | [] => [x]
  | y :: l' => if vltb y x then y :: insert_vertex x l' else x :: y :: l'
  end.

Definition sorted_vertices (vs : list V) : list V := foldr insert_vertex [] vs.

(** [enumerate(vertices)], counting from [k]. *)
Fixpoint enumerate_from (k : nat) (l : list V) : list (nat * V) :=
  match l with
  | [] => []
  | x :: l' => (k, x) :: enumerate_from (S k) l'
  end.

(** [{vertex: i for i, vertex in enumerate(vertices)}] *)
Definition vertex_to_index (vertices : list V) : gmap V nat :=
  fold_left (λ (m : gmap V nat) (iv : nat * V), <[iv.2 := iv.1]> m)
    (enumerate_from 0 vertices) ∅.

(** [matrix[i][j] = weight]; [IndexError] outside the matrix. *)
Definition matrix_set (matrix : list (list Z)) (i j : nat) (weight : Z)
  : option (list (list Z)) :=
  row ← matrix !! i;
  if decide (j < length row) then Some (<[i := <[j := weight]> row]> matrix) else None.

(** The body of the loop over the edges; [KeyError] for an endpoint without
    an index. *)
Definition matrix_edge (is_directed : bool) (index : gmap V nat) (e : V * V * Z)
    (matrix : list (list Z)) : option (list (list Z)) :=
  let '(from_vertex, to_vertex, weight) := e in
  i ← index !! from_vertex;
  j ← index !! to_vertex;
  m ← matrix_set matrix i j weight;
  if is_directed then Some m else matrix_set m j i weight.

(** [get_adjacency_matrix], with [vs] what [list(self.vertices)] gives: the
    matrix and the sorted vertices. *)
Definition get_adjacency_matrix (g : Graph) (vs : list V)
  : option (list (list Z) * list V) :=
  let vertices := sorted_vertices vs in
  let n := length vertices in
  let matrix := replicate n (replicate n 0%Z) in
  let index := vertex_to_index vertices in
  m ← for_each (matrix_edge (directed g) index) (edges g) matrix;
  Some (m, vertices).

End GraphAlgorithms.

(** The demonstration graph of [graphs.py]'s [main]. *)
Definition main_graph : Graph (V := string) :=
  build true
    [AddEdge "A" "B" 4; AddEdge "A" "C" 2; AddEdge "B" "C" 1; AddEdge "B" "D" 5;
     AddEdge "C" "D" 8; AddEdge "C" "E" 10; AddEdge "D" "E" 2; AddEdge "E" "D" 7]%string%Z.


(** Two vertices joined by antiparallel edges. *)
Definition antiparallel_graph : Graph (V := string) :=
  build true [AddEdge "A" "B" 10; AddEdge "B" "A" 4]%string%Z.

(** A network on which the shortest augmenting path [S A B T] has to be
    undone: the maximum flow uses [S A E F T] and [S C D B T]. *)
Definition detour_graph : Graph (V := string) :=
  build true
    [AddEdge "S" "A" 1; AddEdge "A" "B" 1; AddEdge "B" "T" 1;
     AddEdge "S" "C" 1; AddEdge "C" "D" 1; AddEdge "D" "B" 1;
     AddEdge "A" "E" 1; AddEdge "E" "F" 1; AddEdge "F" "T" 1]%string%Z.

Definition detour_vertices : list string :=
  ["S"; "A"; "B"; "T"; "C"; "D"; "E"; "F"]%string.

(** A single directed edge. *)
Definition one_edge_graph : Graph (V := string) :=
  build true [AddEdge "A" "B" 1]%string%Z.

(** ** Specification predicates *)

Section Specification.

Context {V : Type} `{Countable V}.

(** Every vertex named by the edge list or by the adjacency dictionary is in
    the vertex set. *)
Definition graph_closed (g : Graph (V := V)) : Prop :=
  (∀ u v c, (u, v, c) ∈ edges g → u ∈ vertices g ∧ v ∈ vertices g) ∧
  (∀ u l, adj_list g !! u = Some l →
     u ∈ vertices g ∧ ∀ v c, (v, c) ∈ l → v ∈ vertices g).

(** The adjacency entries that [add_edge] stores under [u] for the edge [e]. *)
Definition edge_entries (is_directed : bool) (u : V) (e : V * V * Z) : list (V * Z) :=
  (if decide (e.1.1 = u) then [(e.1.2, e.2)] else [])
  ++ (if is_directed then [] else if decide (e.1.2 = u) then [(e.1.1, e.2)] else []).

(** The state of a graph that only [add_vertex] and [add_edge] have written
    to: closed, and with the adjacency lists that the edge list dictates. *)
Record wf_graph (g : Graph (V := V)) : Prop := mk_wf_graph {
  wf_closed : graph_closed g;
  wf_adj : ∀ u, adj_of (adj_list g) u = flat_map (edge_entries (directed g) u) (edges g)
}.

(** What an algorithm may do to the graph it is handed: read it, which on a
    [defaultdict] may store an empty list under a key that was missing. *)
Record graph_frame (g g' : Graph (V := V)) : Prop := mk_graph_frame {
  frame_directed : directed g' = directed g;
  frame_vertices : vertices g' = vertices g;
  frame_edges : edges g' = edges g;
  frame_adj : ∀ v, adj_of (adj_list g') v = adj_of (adj_list g) v;
  frame_keys : adj_list g ⊆ adj_list g'
}.

End Specification.

(** ** Control operators: fuel *)

Section Fuel.

Context {S R : Type}.

Lemma while_loop_mono (body : S → option (S + R)) (n m : nat) (s : S) (r : R) :
  while_loop body n s = Some r → n ≤ m → while_loop body m s = Some r.
Proof.
  revert m s. induction n as [|n IH]; intros m s Hn Hle; [done|].
  destruct m as [|m]; [lia|]. simpl in *.
  destruct (body s) as [[s'|r']|]; try done.
  apply IH; [done|lia].
Qed.

Lemma while_loop_det (body : S → option (S + R)) (n m : nat) (s : S) (r r' : R) :
  while_loop body n s = Some r → while_loop body m s = Some r' → r = r'.
Proof.
  intros Hn Hm.
  apply (while_loop_mono _ _ (n `max` m)) in Hn; [|lia].
  apply (while_loop_mono _ _ (n `max` m)) in Hm; [|lia].
  congruence.
Qed.

(** Invariant rule for [while_loop]. *)
Lemma while_loop_invariant (body : S → option (S + R)) (P : S → Prop) (Q : R → Prop) :
  (∀ s s', P s → body s = Some (inl s') → P s') →
  (∀ s r, P s → body s = Some (inr r) → Q r) →
  ∀ n s r, P s → while_loop body n s = Some r → Q r.
Proof.
  intros Hstep Hexit n. induction n as [|n IH]; intros s r Hs Hrun; [done|].
  simpl in Hrun. destruct (body s) as [[s'|r']|] eqn:Hb; [|injection Hrun as ->|done].
  - by eapply IH; [eapply Hstep|].
  - by eapply Hexit.
Qed.

End Fuel.

(** Invariant rule for [for_each]. *)
Lemma for_each_invariant {A S : Type} (f : A → S → option S) (P : S → Prop) (l : list A) :
  (∀ x s s', x ∈ l → P s → f x s = Some s' → P s') →
  ∀ s s', P s → for_each f l s = Some s' → P s'.
Proof.
  induction l as [|x l IH]; intros Hf s s' Hs Hrun; simpl in Hrun; [congruence|].
  destruct (f x s) as [s1|] eqn:Hx; [|done].
  eapply IH; [|by eapply (Hf x); [left| |]|done].
  intros y t t' Hy. apply Hf. by right.
Qed.

Lemma fold_left_invariant {A B : Type} (f : B → A → B) (P : B → Prop) (l : list A) (b : B) :
  (∀ x b, x ∈ l → P b → P (f b x)) → P b → P (fold_left f l b).
Proof.
  revert b. induction l as [|x l IH]; intros b Hf Hb; [done|]. simpl.
  apply IH; [|apply Hf; [left|done]]. intros y c Hy. apply Hf. by right.
Qed.

(** ** The Graph class *)

Section GraphFacts.

Context {V : Type} `{Countable V}.
Implicit Types (g : Graph (V := V)) (d : gmap V (list (V * Z))).

Lemma adj_of_touch d u v : adj_of (dd_touch d u) v = adj_of d v.
Proof.
  unfold adj_of, dd_touch. destruct (d !! u) eqn:Hu; [done|].
  destruct (decide (u = v)) as [->|Hne].
  - by rewrite lookup_insert_eq, Hu.
  - by rewrite lookup_insert_ne.
Qed.

Lemma dd_touch_subseteq d u : d ⊆ dd_touch d u.
Proof.
  unfold dd_touch. destruct (d !! u) eqn:Hu; [done|]. by apply insert_subseteq.
Qed.

Lemma dd_touch_lookup d u v l :
  dd_touch d u !! v = Some l → d !! v = Some l ∨ (v = u ∧ l = [] ∧ d !! v = None).
Proof.
  unfold dd_touch. destruct (d !! u) eqn:Hu; [by left|].
  destruct (decide (u = v)) as [->|Hne].
  - rewrite lookup_insert_eq. intros [= <-]. by right.
  - rewrite lookup_insert_ne by done. by left.
Qed.

Lemma adj_of_append d u x v :
  adj_of (dd_append d u x) v = if decide (u = v) then adj_of d u ++ [x] else adj_of d v.
Proof.
  unfold dd_append, adj_of at 1. destruct (decide (u = v)) as [->|Hne].
  - by rewrite lookup_insert_eq.
  - by rewrite lookup_insert_ne.
Qed.

Lemma dd_append_lookup d u x v l :
  dd_append d u x !! v = Some l →
  (v = u ∧ l = adj_of d u ++ [x]) ∨ (v ≠ u ∧ d !! v = Some l).
Proof.
  unfold dd_append. destruct (decide (u = v)) as [->|Hne].
  - rewrite lookup_insert_eq. intros [= <-]. by left.
  - rewrite lookup_insert_ne by done. right. split; [congruence|done].
Qed.

Lemma adj_of_elem d u x : x ∈ adj_of d u → ∃ l, d !! u = Some l ∧ x ∈ l.
Proof.
  unfold adj_of. destruct (d !! u) as [l|]; simpl; [eauto|]. by intros ?%elem_of_nil.
Qed.

(** [d'] is [d] after some reads. *)
Definition dd_ext d d' : Prop := d ⊆ d' ∧ ∀ v, adj_of d' v = adj_of d v.

Lemma dd_ext_refl d : dd_ext d d.
Proof. by split. Qed.

Lemma dd_ext_trans d1 d2 d3 : dd_ext d1 d2 → dd_ext d2 d3 → dd_ext d1 d3.
Proof.
  intros [Hs1 Ha1] [Hs2 Ha2]. split; [by etrans|]. intros v. by rewrite Ha2, Ha1.
Qed.

Lemma dd_ext_touch d u : dd_ext d (dd_touch d u).
Proof. split; [apply dd_touch_subseteq|intros v; apply adj_of_touch]. Qed.

Lemma dd_ext_touch_r d d' u : dd_ext d d' → dd_ext d (dd_touch d' u).
Proof. intros Hd. eapply dd_ext_trans; [done|apply dd_ext_touch]. Qed.

Lemma graph_frame_set_adj g d : dd_ext (adj_list g) d → graph_frame g (set_adj_list g d).
Proof. intros [Hs Ha]. by split. Qed.

Lemma graph_frame_refl g : graph_frame g g.
Proof. by split. Qed.

Lemma graph_closed_init (b : bool) : graph_closed (Graph_init (V := V) b).
Proof.
  split; simpl.
  - by intros u v c ?%elem_of_nil.
  - intros u l Hl. by rewrite lookup_empty in Hl.
Qed.

Lemma graph_closed_add_vertex g v : graph_closed g → graph_closed (add_vertex g v).
Proof.
  intros [He Ha]. split; simpl.
  - intros a b c Hin. destruct (He a b c Hin). set_solver.
  - intros a l Hl. destruct (Ha a l Hl) as [? Hn]. split; [set_solver|].
    intros b c Hb. specialize (Hn b c Hb). set_solver.
Qed.

Lemma graph_closed_append g d u x (X : gset V) :
  (∀ a l, d !! a = Some l → a ∈ X ∧ ∀ b c, (b, c) ∈ l → b ∈ X) →
  u ∈ X → x.1 ∈ X →
  ∀ a l, dd_append d u x !! a = Some l → a ∈ X ∧ ∀ b c, (b, c) ∈ l → b ∈ X.
Proof.
  intros Hd Hu Hx a l [[-> ->]|[Hne Hl]]%dd_append_lookup; [|by eauto].
  split; [done|]. intros b c [Hin|Hin]%elem_of_app.
  - apply adj_of_elem in Hin as (l & Hl & Hin). by apply (Hd _ _ Hl) in Hin.
  - apply list_elem_of_singleton in Hin. by subst x.
Qed.

Lemma graph_closed_add_edge g u v c : graph_closed g → graph_closed (add_edge g u v c).
Proof.
  intros [He Ha]. split; simpl.
  - intros a b k [Hin|Hin]%elem_of_app.
    + destruct (He a b k Hin). set_solver.
    + apply list_elem_of_singleton in Hin. injection Hin as -> -> ->. set_solver.
  - set (X := {[v]} ∪ ({[u]} ∪ vertices g)).
    assert (H1 : ∀ a l, dd_append (adj_list g) u (v, c) !! a = Some l →
                 a ∈ X ∧ ∀ b k, (b, k) ∈ l → b ∈ X).
    { apply (graph_closed_append g); [|set_solver|set_solver].
      intros a l Hl. destruct (Ha a l Hl) as [? Hn]. split; [set_solver|].
      intros b k Hb. specialize (Hn b k Hb). set_solver. }
    destruct (directed g); [done|].
    apply (graph_closed_append g); [done|set_solver|set_solver].
Qed.

Lemma wf_graph_init (b : bool) : wf_graph (Graph_init (V := V) b).
Proof. split; [apply graph_closed_init|done]. Qed.

Lemma wf_graph_add_vertex g v : wf_graph g → wf_graph (add_vertex g v).
Proof. intros [Hc Ha]. split; [by apply graph_closed_add_vertex|done]. Qed.

Lemma wf_graph_add_edge g u v c : wf_graph g → wf_graph (add_edge g u v c).
Proof.
  intros [Hc Ha]. split; [by apply graph_closed_add_edge|].
  intros a. simpl. rewrite flat_map_app. simpl. rewrite app_nil_r.
  unfold edge_entries at 2. simpl.
  destruct (directed g) eqn:Hd.
  - rewrite adj_of_append, app_nil_r.
    destruct (decide (u = a)) as [->|Hne]; by rewrite Ha, ?app_nil_r.
  - rewrite !adj_of_append.
    destruct (decide (v = a)) as [->|Hva], (decide (u = a)) as [Hua|Hua];
      subst; rewrite ?decide_True by done; rewrite ?decide_False by done;
      rewrite ?Ha, ?Hd, ?app_nil_r, <- ?app_assoc; done.
Qed.

Lemma wf_graph_build (b : bool) (ops : list graph_op) : wf_graph (build (V := V) b ops).
Proof.
  unfold build. generalize (wf_graph_init b).
  generalize (Graph_init (V := V) b) as g.
  induction ops as [|o ops IH]; intros g Hg; [done|]. simpl. apply IH.
  destruct o; [by apply wf_graph_add_vertex|by apply wf_graph_add_edge].
Qed.

(** C8.  After any sequence of [add_vertex] and [add_edge] calls on a fresh
    graph, every endpoint of an edge in the edge list, every key of the
    adjacency dictionary and every neighbour stored in it belongs to the
    vertex set. *)
Theorem build_vertices_closed (is_directed : bool) (ops : list graph_op) :
  graph_closed (build (V := V) is_directed ops).
Proof. apply wf_closed, wf_graph_build. Qed.

(** C9.  When the start vertex is not in the vertex set, [bfs] and [dfs]
    return the empty list and [dijkstra] returns the empty dictionary; they do
    so at once, whatever the fuel, so no exception is raised on the way. *)
Theorem invalid_start_neutral (vleb : V → V → bool) g (start_vertex : V) (fuel : nat) :
  start_vertex ∉ vertices g →
  bfs g start_vertex fuel = Some []
  ∧ dfs g start_vertex fuel = Some []
  ∧ dijkstra vleb g start_vertex fuel = Some DijkstraEmpty.
Proof.
  intros Hs. unfold bfs, dfs, dijkstra. by rewrite !decide_False by done.
Qed.

End GraphFacts.

Lemma invalid_start_neutral_witness :
  bfs main_graph "Z"%string 0 = Some []
  ∧ dfs main_graph "Z"%string 0 = Some []
  ∧ dijkstra String.leb main_graph "Z"%string 0 = Some DijkstraEmpty.
Proof.
  apply (invalid_start_neutral String.leb main_graph "Z"%string 0).
  apply (bool_decide_unpack _). vm_compute. exact I.
Defined.

Lemma returns_while_loop_det {S R : Type} (body : S → option (S + R)) (s : S) (r r' : R) :
  returns (λ fuel, while_loop body fuel s) r →
  returns (λ fuel, while_loop body fuel s) r' → r = r'.
Proof. intros [n Hn] [m Hm]. exact (while_loop_det _ _ _ _ _ _ Hn Hm). Qed.

Lemma dijkstra_det {V : Type} `{Countable V} (vleb : V → V → bool)
    (g : Graph) (start_vertex : V) (r r' : dijkstra_result) :
  returns (dijkstra vleb g start_vertex) r →
  returns (dijkstra vleb g start_vertex) r' → r = r'.
Proof.
  unfold returns, dijkstra. destruct (decide (start_vertex ∈ vertices g)).
  - apply returns_while_loop_det.
  - intros [_ ?] [_ ?]. congruence.
Qed.

Lemma main_dijkstra_run :
  ∃ r, dijkstra String.leb main_graph "A"%string 20 = Some r
       ∧ result_distance r "E"%string = Some (Fin 11)
       ∧ result_path r "E"%string = Some ["A"; "B"; "D"; "E"]%string.
Proof.
  assert (Hrun : (r ← dijkstra String.leb main_graph "A"%string 20;
                  Some (result_distance r "E"%string, result_path r "E"%string))
                 = Some (Some (Fin 11), Some ["A"; "B"; "D"; "E"]%string))
    by (vm_compute; reflexivity).
  destruct (dijkstra String.leb main_graph "A"%string 20) as [r|]; [|discriminate Hrun].
  exists r. simpl in Hrun. injection Hrun as Hd Hp. by rewrite Hd, Hp.
Qed.

(** C3 (as stated).  On the demonstration graph the distance of [E] from [A]
    that [dijkstra] returns is not 12. *)
Lemma main_dijkstra_E_not_12 :
  ¬ ∃ r, returns (dijkstra String.leb main_graph "A"%string) r
         ∧ result_distance r "E"%string = Some (Fin 12).
Proof.
  intros (r & Hr & Hd).
  destruct main_dijkstra_run as (r0 & Hr0 & Hd0 & _).
  assert (r = r0) as -> by (eapply dijkstra_det; [exact Hr|by exists 20]).
  congruence.
Qed.

(** C3 (amended).  On the demonstration graph [dijkstra('A')] returns, and
    whatever it returns gives [E] the distance 11 along the path
    [A, B, D, E]. *)
Theorem main_dijkstra_E :
  (∃ r, returns (dijkstra String.leb main_graph "A"%string) r)
  ∧ ∀ r, returns (dijkstra String.leb main_graph "A"%string) r →
      result_distance r "E"%string = Some (Fin 11)
      ∧ result_path r "E"%string = Some ["A"; "B"; "D"; "E"]%string.
Proof.
  destruct main_dijkstra_run as (r0 & Hr0 & Hd0 & Hp0). split.
  - exists r0, 20. exact Hr0.
  - intros r Hr.
    assert (r = r0) as -> by (eapply dijkstra_det; [exact Hr|by exists 20]).
    split; assumption.
Qed.

(** ** maximum_flow.py on concrete networks *)

Section FlowExamples.

Local Open Scope string_scope.

(** C1 (evaluation).  With the antiparallel edges [A -> B] of capacity 10 and
    [B -> A] of capacity 4, the residual graph built by the constructor loses
    one of the two capacities, whichever order [get_vertices] lists the two
    vertices in: the edge of the vertex visited first is overwritten with the
    zero of the reverse edge of the other. *)
Theorem residual_init_antiparallel :
  ("B", 10%Z) ∈ adj_of (adj_list antiparallel_graph) "A"
  ∧ ("A", 4%Z) ∈ adj_of (adj_list antiparallel_graph) "B"
  ∧ residual_of (MaxFlow_init antiparallel_graph ["A"; "B"]) "A" "B" = Some 0%Z
  ∧ residual_of (MaxFlow_init antiparallel_graph ["B"; "A"]) "B" "A" = Some 0%Z.
Proof.
  split; [|split; [|split]]; try (vm_compute; reflexivity);
    vm_compute; apply list_elem_of_here.
Qed.

(** C2 (evaluation).  On the detour network [ford_fulkerson('S', 'T')]
    returns the value 2 and a flow network that records one unit on the pair
    [(B, A)], although the graph has no edge [B -> A], and still records the
    cancelled unit on [A -> B]. *)
Theorem detour_flow_on_missing_edge :
  ∃ flow mf,
    ford_fulkerson (MaxFlow_init detour_graph detour_vertices) "S" "T" 30
      = Some (2%Z, flow, mf)
    ∧ flow_of flow "B" "A" = Some 1%Z
    ∧ capacity_of detour_graph "B" "A" = 0%Z
    ∧ flow_of flow "A" "B" = Some 1%Z.
Proof.
  assert (Hrun : (r ← ford_fulkerson (MaxFlow_init detour_graph detour_vertices) "S" "T" 30;
                  Some (r.1.1, flow_of r.1.2 "B" "A", flow_of r.1.2 "A" "B"))
                 = Some (2%Z, Some 1%Z, Some 1%Z))
    by (vm_compute; reflexivity).
  destruct (ford_fulkerson _ _ _ _) as [[[value flow] mf]|]; [|discriminate Hrun].
  simpl in Hrun. injection Hrun as -> Hba Hab. exists flow, mf.
  split; [reflexivity|]. split; [exact Hba|]. split; [vm_compute; reflexivity|exact Hab].
Qed.

End FlowExamples.

(** ** What the algorithm classes do to the graph they are handed *)

Section Frame.

Context {V : Type} `{Countable V}.
Context (vleb : V → V → bool).
Implicit Types (g : Graph (V := V)) (d : gmap V (list (V * Z))).

Lemma initialize_residual_graph_adj (vs : list V) d res :
  dd_ext d (fold_left init_residual_vertex vs (d, res)).1.
Proof.
  apply (fold_left_invariant _ (λ st, dd_ext d st.1)); [|apply dd_ext_refl].
  intros v [d' res'] _ Hd. simpl in *. by apply dd_ext_touch_r.
Qed.

Lemma MaxFlow_init_frame g (vs : list V) : graph_frame g (mf_graph (MaxFlow_init g vs)).
Proof.
  unfold MaxFlow_init, initialize_residual_graph. simpl.
  pose proof (initialize_residual_graph_adj vs (adj_list g) ∅) as Hd.
  destruct (fold_left _ _ _) as [d res]. by apply graph_frame_set_adj.
Qed.

Lemma ford_fulkerson_graph (mf mf' : MaxFlow) (source sink : V) (fuel : nat)
    (value : Z) (flow : gmap V (list (V * Z))) :
  ford_fulkerson mf source sink fuel = Some (value, flow, mf') →
  mf_graph mf' = mf_graph mf.
Proof.
  unfold ford_fulkerson. destruct (init_flow_network _ _) as [fl res].
  destruct (while_loop _ _ _) as [r|]; simpl; [|done]. intros Heq. by simplify_eq.
Qed.

Lemma kruskal_graph (m m' : MST) (fuel : nat) (r : list (V * V * Z) * Z) :
  kruskal m fuel = Some (r, m') → m' = m.
Proof.
  unfold kruskal. destruct (for_each _ _ _) as [st|]; simpl; [|done]. by intros [= _ <-].
Qed.

Lemma reverse_graph_adj (vs : list V) d : dd_ext d (reverse_graph vs d).1.
Proof.
  unfold reverse_graph.
  apply (fold_left_invariant _ (λ st, dd_ext d st.1)); [|apply dd_ext_refl].
  intros v [d' rev] _ Hd. simpl in *. by apply dd_ext_touch_r.
Qed.

Lemma dfs_first_pass_adj (fuel : nat) (vertex : V) (st st' : pass_state) d :
  dd_ext d (ps_adj st) → dfs_first_pass fuel vertex st = Some st' → dd_ext d (ps_adj st').
Proof.
  revert vertex st st'. induction fuel as [|n IH]; intros vertex st st' Hd Hrun; [done|].
  simpl in Hrun. destruct (for_each _ _ _) as [s1|] eqn:Hloop; simpl in Hrun; [|done].
  injection Hrun as <-. simpl.
  revert Hloop. apply (for_each_invariant _ (λ s, dd_ext d (ps_adj s))).
  - intros e s s' _ Hs. destruct (decide _); [by intros [= <-]|by apply IH].
  - simpl. by apply dd_ext_touch_r.
Qed.

Lemma find_scc_frame (a a' : AdvancedGraphAlgorithms) (fuel : nat) (r : list (list V)) :
  find_scc a fuel = Some (r, a') → graph_frame (aga_graph a) (aga_graph a').
Proof.
  unfold find_scc. destruct (for_each _ _ _) as [p1|] eqn:Hp1; simpl; [|done].
  pose proof (reverse_graph_adj (aga_vertices a) (ps_adj p1)) as Hrev.
  destruct (reverse_graph _ _) as [d rev]. simpl in Hrev.
  destruct (for_each (second_pass_root _) _ _) as [p2|]; simpl; [|done].
  intros ?; simplify_eq. simpl.
  apply graph_frame_set_adj. eapply dd_ext_trans; [|exact Hrev].
  revert Hp1. apply (for_each_invariant _ (λ s, dd_ext (adj_list (aga_graph a)) (ps_adj s)));
    [|apply dd_ext_refl].
  intros v s s' _ Hs. unfold first_pass_root.
  destruct (decide _); [by intros [= <-]|by apply dfs_first_pass_adj].
Qed.

Lemma topo_neighbors_adj (rec : V → topo_state → option (bool * topo_state))
    (nbrs : list (V * Z)) d :
  (∀ v s b s', dd_ext d (ts_adj s) → rec v s = Some (b, s') → dd_ext d (ts_adj s')) →
  ∀ s b s', dd_ext d (ts_adj s) → topo_neighbors rec nbrs s = Some (b, s') →
    dd_ext d (ts_adj s').
Proof.
  intros Hrec. induction nbrs as [|[n c] nbrs IH]; intros s b s' Hs Hrun; simpl in Hrun.
  - by injection Hrun as <- <-.
  - destruct (decide (n ∈ ts_visited s)).
    + destruct (decide (n ∈ ts_temp s)); [by injection Hrun as <- <-|by eapply IH].
    + destruct (rec n s) as [[cyc s1]|] eqn:Hr; simpl in Hrun; [|done].
      apply Hrec in Hr; [|done].
      destruct cyc; [by injection Hrun as <- <-|by eapply IH].
Qed.

Lemma dfs_topological_adj (fuel : nat) (vertex : V) (st st' : topo_state) (b : bool) d :
  dd_ext d (ts_adj st) → dfs_topological fuel vertex st = Some (b, st') →
  dd_ext d (ts_adj st').
Proof.
  revert vertex st st' b. induction fuel as [|n IH]; intros vertex st st' b Hd Hrun; [done|].
  simpl in Hrun.
  destruct (topo_neighbors _ _ _) as [[cyc s1]|] eqn:Hloop; simpl in Hrun; [|done].
  apply (topo_neighbors_adj _ _ d) in Hloop; [|by intros; eapply IH|by apply dd_ext_touch_r].
  destruct cyc; [by injection Hrun as <- <-|].
  destruct (decide _); [|done]. by injection Hrun as <- <-.
Qed.

Lemma topo_roots_adj (fuel : nat) (vs : list V) (st st' : topo_state) (b : bool) d :
  dd_ext d (ts_adj st) → topo_roots fuel vs st = Some (b, st') → dd_ext d (ts_adj st').
Proof.
  revert st. induction vs as [|v vs IH]; intros st Hd Hrun; simpl in Hrun.
  - by injection Hrun as <- <-.
  - destruct (decide _); [by eapply IH|].
    destruct (dfs_topological _ _ _) as [[cyc s1]|] eqn:Hr; simpl in Hrun; [|done].
    apply (dfs_topological_adj _ _ _ _ _ d) in Hr; [|done].
    destruct cyc; [by injection Hrun as <- <-|by eapply IH].
Qed.

Lemma topological_sort_frame (a a' : AdvancedGraphAlgorithms) (fuel : nat)
    (r : option (list V)) :
  topological_sort a fuel = Some (r, a') → graph_frame (aga_graph a) (aga_graph a').
Proof.
  unfold topological_sort.
  destruct (topo_roots _ _ _) as [[cyc st]|] eqn:Hr; simpl; [|done].
  intros ?; simplify_eq. simpl. apply graph_frame_set_adj.
  eapply topo_roots_adj; [|exact Hr]. apply dd_ext_refl.
Qed.

Lemma prim_frame (m m' : MST) (start_vertex : option V) (fuel : nat)
    (r : list (V * V * Z) * Z) :
  prim vleb m start_vertex fuel = Some (r, m') → graph_frame (mst_graph m) (mst_graph m').
Proof.
  unfold prim. destruct (mst_vertices m) as [|first vs] eqn:Hvs.
  { intros [= _ <-]. apply graph_frame_refl. }
  simpl. destruct (while_loop _ _ _) as [[[es total] d]|] eqn:Hloop; simpl; [|done].
  intros ?; simplify_eq. simpl. apply graph_frame_set_adj.
  revert Hloop.
  apply (while_loop_invariant _ (λ s, dd_ext (adj_list (mst_graph m)) (pr_adj s))
           (λ r, dd_ext (adj_list (mst_graph m)) r.2)).
  - intros s s' Hs. unfold prim_body. destruct (decide _); [|done].
    destruct (heappop _ _) as [[[[wt fv] tv] heap]|]; [|done].
    destruct (decide _); intros [= <-]; simpl; [done|by apply dd_ext_touch_r].
  - intros s r' Hs. unfold prim_body. destruct (decide _); [|by intros [= <-]].
    destruct (heappop _ _) as [[[[wt fv] tv] heap]|]; [|by intros [= <-]].
    by destruct (decide _).
  - simpl. apply dd_ext_touch.
Qed.

(** C4 (amended).  Constructing a [MaxFlow] object and running
    [ford_fulkerson], [kruskal], [prim], [find_scc] or [topological_sort], with
    any arguments and any snapshot [vs] of the vertices, leaves the directed
    flag, the vertex set, the edge list and the adjacency list read under
    every vertex as they were; the adjacency dictionary keeps all its entries
    and can only gain keys bound to the empty list. *)
Theorem algorithms_frame_graph g (vs : list V) :
  graph_frame g (mf_graph (MaxFlow_init g vs))
  ∧ (∀ (mf mf' : MaxFlow (V := V)) source sink fuel value flow,
       ford_fulkerson mf source sink fuel = Some (value, flow, mf') →
       mf_graph mf' = mf_graph mf)
  ∧ (∀ fuel r m', kruskal (MST_init g vs) fuel = Some (r, m') → mst_graph m' = g)
  ∧ (∀ start_vertex fuel r m',
       prim vleb (MST_init g vs) start_vertex fuel = Some (r, m') →
       graph_frame g (mst_graph m'))
  ∧ (∀ fuel r a', find_scc (AGA_init g vs) fuel = Some (r, a') →
       graph_frame g (aga_graph a'))
  ∧ (∀ fuel r a', topological_sort (AGA_init g vs) fuel = Some (r, a') →
       graph_frame g (aga_graph a')).
Proof.
  split; [apply MaxFlow_init_frame|].
  split; [intros; by eapply ford_fulkerson_graph|].
  split; [intros fuel r m' ->%kruskal_graph; done|].
  split; [intros ? ? ? ?; apply prim_frame|].
  split; [intros ? ? ?; apply find_scc_frame|intros ? ? ?; apply topological_sort_frame].
Qed.

End Frame.

Section FrameExamples.

Local Open Scope string_scope.

(** C4 (as stated).  Constructing [MaxFlow] on the graph with the single edge
    [A -> B] changes the graph: the adjacency dictionary, which had no key
    [B], now binds [B] to the empty list. *)
Lemma MaxFlow_init_adds_key :
  adj_list one_edge_graph !! "B" = None
  ∧ adj_list (mf_graph (MaxFlow_init one_edge_graph ["A"; "B"])) !! "B" = Some []
  ∧ mf_graph (MaxFlow_init one_edge_graph ["A"; "B"]) ≠ one_edge_graph.
Proof.
  assert (H1 : adj_list one_edge_graph !! "B" = None) by (vm_compute; reflexivity).
  assert (H2 : adj_list (mf_graph (MaxFlow_init one_edge_graph ["A"; "B"])) !! "B" = Some [])
    by (vm_compute; reflexivity).
  split; [done|]. split; [done|]. intros Heq. rewrite Heq in H2. congruence.
Qed.

End FrameExamples.

(** ** dijkstra: the distances and the paths agree *)

Section DijkstraSpec.

Context {V : Type} `{Countable V}.

(** [walk_to g s p v d]: the sequence [p] starts with [s], ends with [v],
    each step of it follows an entry of the adjacency list of the vertex it
    leaves, and the weights of the entries followed add up to [d]. *)
Inductive walk_to (g : Graph (V := V)) (s : V) : list V → V → Z → Prop :=
| walk_start : walk_to g s [s] s 0
| walk_snoc p u v w d :
    walk_to g s p u d → (v, w) ∈ adj_of (adj_list g) u →
    walk_to g s (p ++ [v]) v (d + w).

Definition nonneg_weights (g : Graph (V := V)) : Prop :=
  ∀ u v w, (u, v, w) ∈ edges g → (0 ≤ w)%Z.

(** The result is internally consistent. *)
Definition dijkstra_consistent (g : Graph (V := V)) (s : V)
    (r : dijkstra_result (V := V)) : Prop :=
  match r with
  | DijkstraEmpty => False
  | DijkstraPair distances paths =>
      ∀ v, v ∈ vertices g →
        match distances !! v with
        | Some (Fin d) => ∃ p, paths !! v = Some p ∧ walk_to g s p v d
        | Some Inf => paths !! v = Some []
        | None => False
        end
  end.

Lemma walk_to_ends (g : Graph (V := V)) (s v : V) (p : list V) (d : Z) :
  walk_to g s p v d → head p = Some s ∧ last p = Some v.
Proof.
  induction 1 as [|p u v w d Hw [IHh IHl] He]; [done|]. split.
  - destruct p; [done|]. done.
  - apply last_snoc.
Qed.

End DijkstraSpec.

Section Termination.

Context {S R A : Type}.

(** A loop whose every round keeps an invariant and decreases a well-founded
    measure returns. *)
Lemma while_loop_terminates (body : S → option (S + R)) (lt : A → A → Prop)
    (μ : S → A) (P : S → Prop) :
  well_founded lt →
  (∀ s, P s → (∃ r, body s = Some (inr r))
              ∨ (∃ s', body s = Some (inl s') ∧ P s' ∧ lt (μ s') (μ s))) →
  ∀ s, P s → ∃ n r, while_loop body n s = Some r.
Proof.
  intros Hwf Hstep s. remember (μ s) as a eqn:Ha. revert s Ha.
  induction (Hwf a) as [a _ IH]. intros s -> Hs.
  destruct (Hstep s Hs) as [[r Hr]|(s' & Hb & Hs' & Hlt)].
  - exists 1, r. simpl. by rewrite Hr.
  - destruct (IH _ Hlt s' eq_refl Hs') as (n & r & Hn).
    exists (Datatypes.S n), r. simpl. by rewrite Hb.
Qed.

End Termination.

(** A [for_each] whose every step succeeds and keeps an invariant returns. *)
Lemma for_each_total {A S : Type} (f : A → S → option S) (P : S → Prop) (l : list A) :
  (∀ x s, x ∈ l → P s → ∃ s', f x s = Some s' ∧ P s') →
  ∀ s, P s → ∃ s', for_each f l s = Some s' ∧ P s'.
Proof.
  induction l as [|x l IH]; intros Hf s Hs; simpl; [eauto|].
  destruct (Hf x s) as (s1 & Hx & Hs1); [left|done|]. rewrite Hx.
  apply IH; [|done]. intros y t Hy. apply Hf. by right.
Qed.

Lemma extract_min_perm {A : Type} (leb : A → A → bool) (x : A) (l : list A) :
  x :: l ≡ₚ (extract_min leb x l).1 :: (extract_min leb x l).2.
Proof.
  revert x. induction l as [|y l IH]; intros x; simpl; [done|].
  specialize (IH y). destruct (extract_min leb y l) as [m r]. simpl in IH.
  destruct (leb x m); simpl; [done|].
  rewrite IH. apply Permutation_swap.
Qed.

Lemma heappop_perm {A : Type} (leb : A → A → bool) (h r : list A) (m : A) :
  heappop leb h = Some (m, r) → h ≡ₚ m :: r.
Proof.
  destruct h as [|x l]; simpl; [done|]. intros [= Heq].
  pose proof (extract_min_perm leb x l) as Hp. by rewrite Heq in Hp.
Qed.

Lemma sum_list_cons (x : nat) (l : list nat) : sum_list (x :: l) = x + sum_list l.
Proof. reflexivity. Qed.

Lemma sum_list_fmap_ext {A : Type} (f f' : A → nat) (l : list A) :
  (∀ v, v ∈ l → f' v = f v) → sum_list (f' <$> l) = sum_list (f <$> l).
Proof.
  induction l as [|x l IH]; intros Hf; [done|]. rewrite !fmap_cons, !sum_list_cons.
  rewrite Hf by left. rewrite IH; [done|]. intros v Hv. apply Hf. by right.
Qed.

Lemma sum_list_fmap_update {A : Type} (f f' : A → nat) (l : list A) (n : A) :
  NoDup l → n ∈ l → (∀ v, v ≠ n → f' v = f v) →
  sum_list (f' <$> l) + f n = sum_list (f <$> l) + f' n.
Proof.
  induction 1 as [|x l Hx Hnd IH]; intros Hn Hf; [by apply elem_of_nil in Hn|].
  rewrite !fmap_cons, !sum_list_cons. apply elem_of_cons in Hn as [->|Hn].
  - rewrite (sum_list_fmap_ext f f' l); [lia|].
    intros v Hv. apply Hf. intros ->. done.
  - rewrite (Hf x) by (intros ->; done). specialize (IH Hn Hf). lia.
Qed.

Section DijkstraProof.

Context {V : Type} `{Countable V}.
Context (vleb : V → V → bool).
Context (g : Graph (V := V)) (start : V).
Context (Hwf : wf_graph g) (Hnn : nonneg_weights g).

Local Open Scope Z_scope.

Lemma adj_neighbor_vertex (u v : V) (w : Z) :
  (v, w) ∈ adj_of (adj_list g) u → v ∈ vertices g.
Proof.
  intros (l & Hl & Hin)%adj_of_elem.
  destruct (wf_closed g Hwf) as [_ Ha]. destruct (Ha u l Hl) as [_ Hn]. by eapply Hn.
Qed.

Lemma adj_weight_nonneg (u v : V) (w : Z) : (v, w) ∈ adj_of (adj_list g) u → 0 ≤ w.
Proof.
  rewrite (wf_adj g Hwf). rewrite list_elem_of_In, in_flat_map.
  intros ([[a b] c] & Hin%list_elem_of_In & Hent%list_elem_of_In).
  specialize (Hnn a b c Hin). unfold edge_entries in Hent. simpl in Hent.
  apply elem_of_app in Hent as [Hent|Hent].
  - destruct (decide _); [|by apply elem_of_nil in Hent].
    apply list_elem_of_singleton in Hent. by injection Hent as _ ->.
  - destruct (directed g); [by apply elem_of_nil in Hent|].
    destruct (decide _); [|by apply elem_of_nil in Hent].
    apply list_elem_of_singleton in Hent. by injection Hent as _ ->.
Qed.

(** The loop invariant. *)
Record dj_inv (st : dijkstra_state (V := V)) : Prop := mk_dj_inv {
  dji_adj : ∀ u, adj_of (dj_adj st) u = adj_of (adj_list g) u;
  dji_dom : ∀ v, v ∈ vertices g → is_Some (dj_distances st !! v);
  dji_fin : ∀ v d, dj_distances st !! v = Some (Fin d) →
            0 ≤ d ∧ v ∈ vertices g ∧ ∃ p, dj_paths st !! v = Some p ∧ walk_to g start p v d;
  dji_inf : ∀ v, dj_distances st !! v = Some Inf → dj_paths st !! v = Some [];
  dji_queue : ∀ d v, (d, v) ∈ dj_queue st →
              ∃ d', dj_distances st !! v = Some (Fin d') ∧ d' ≤ d
}.

(** The measure: how many distances are still infinite, the sum of the finite
    ones, and the length of the queue. *)
Definition inf_count (dist : gmap V num) : nat :=
  sum_list ((λ v, match dist !! v with Some Inf => 1%nat | _ => 0%nat end)
              <$> elements (vertices g)).

Definition fin_sum (dist : gmap V num) : nat :=
  sum_list ((λ v, match dist !! v with Some (Fin d) => Z.to_nat d | _ => 0%nat end)
              <$> elements (vertices g)).

Definition dist_lt : relation (nat * nat) := slexprod nat nat lt lt.

Definition dj_lt : relation (nat * nat * nat) := slexprod (nat * nat) nat dist_lt lt.

Definition dist_measure (st : dijkstra_state (V := V)) : nat * nat :=
  (inf_count (dj_distances st), fin_sum (dj_distances st)).

Definition dj_measure (st : dijkstra_state (V := V)) : nat * nat * nat :=
  (dist_measure st, length (dj_queue st)).

Lemma dj_lt_wf : well_founded dj_lt.
Proof. apply wf_slexprod; [apply wf_slexprod|]; apply lt_wf. Qed.

Lemma dist_measure_relax (dist : gmap V num) (n : V) (dn : num) (d : Z) :
  n ∈ vertices g → dist !! n = Some dn → 0 ≤ d → num_ltb (Fin d) dn = true →
  (∀ d', dn = Fin d' → 0 ≤ d') →
  dist_lt (inf_count (<[n := Fin d]> dist), fin_sum (<[n := Fin d]> dist))
          (inf_count dist, fin_sum dist).
Proof.
  intros Hn Hdn Hd Hlt Hpos. unfold inf_count, fin_sum.
  assert (Hel : n ∈ elements (vertices g)) by by apply elem_of_elements.
  pose proof (NoDup_elements (vertices g)) as Hnd.
  pose proof (sum_list_fmap_update
    (λ v, match dist !! v with Some Inf => 1%nat | _ => 0%nat end)
    (λ v, match <[n := Fin d]> dist !! v with Some Inf => 1%nat | _ => 0%nat end)
    _ n Hnd Hel) as H1.
  pose proof (sum_list_fmap_update
    (λ v, match dist !! v with Some (Fin d) => Z.to_nat d | _ => 0%nat end)
    (λ v, match <[n := Fin d]> dist !! v with Some (Fin d) => Z.to_nat d | _ => 0%nat end)
    _ n Hnd Hel) as H2.
  simpl in H1, H2. rewrite lookup_insert_eq, Hdn in H1, H2.
  specialize (H1 ltac:(intros v Hv; by rewrite lookup_insert_ne)).
  specialize (H2 ltac:(intros v Hv; by rewrite lookup_insert_ne)).
  destruct dn as [d'|].
  - specialize (Hpos d' eq_refl). simpl in Hlt. apply Z.ltb_lt in Hlt.
    replace (sum_list _) with
      (sum_list ((λ v, match dist !! v with Some Inf => 1%nat | _ => 0%nat end)
                   <$> elements (vertices g))) by lia.
    apply right_slex. lia.
  - apply left_slex. lia.
Qed.

(** What one round of the neighbour loop does to the state [s0] it starts
    from: nothing, or a decrease of the distances. *)
Definition relax_rel (s0 st : dijkstra_state (V := V)) : Prop :=
  (dj_distances st = dj_distances s0 ∧ dj_queue st = dj_queue s0)
  ∨ dist_lt (dist_measure st) (dist_measure s0).

Lemma dist_lt_trans (a b c : nat * nat) : dist_lt a b → dist_lt b c → dist_lt a c.
Proof.
  intros Hab Hbc. inversion Hab; subst; inversion Hbc; subst.
  - apply left_slex. lia.
  - by apply left_slex.
  - by apply left_slex.
  - apply right_slex. lia.
Qed.

Lemma relax_rel_step (s0 s1 s2 : dijkstra_state (V := V)) :
  relax_rel s0 s1 → dist_lt (dist_measure s2) (dist_measure s1) → relax_rel s0 s2.
Proof.
  intros [[Hd Hq]|Hlt] H12; right.
  - unfold dist_measure in *. by rewrite <- Hd.
  - by eapply dist_lt_trans.
Qed.

Lemma dijkstra_relax_spec (cd : Z) (cv : V) (e : V * Z) (st : dijkstra_state) :
  dj_inv st → dj_distances st !! cv = Some (Fin cd) →
  e ∈ adj_of (adj_list g) cv →
  ∃ st', dijkstra_relax cd cv e st = Some st'
         ∧ dj_inv st' ∧ dj_distances st' !! cv = Some (Fin cd)
         ∧ (st' = st ∨ dist_lt (dist_measure st') (dist_measure st)).
Proof.
  intros Hinv Hcv He. destruct e as [n w]. unfold dijkstra_relax.
  pose proof (adj_neighbor_vertex _ _ _ He) as Hn.
  pose proof (adj_weight_nonneg _ _ _ He) as Hw.
  destruct (dji_dom st Hinv n Hn) as [dn Hdn]. rewrite Hdn. cbn [mbind option_bind].
  destruct (dji_fin st Hinv cv cd Hcv) as (Hcd & Hcvv & p & Hp & Hwalk).
  destruct (num_ltb (Fin (cd + w)) dn) eqn:Hlt; [|by eauto 6].
  rewrite Hp. simpl. eexists. split; [done|].
  assert (Hne : n ≠ cv).
  { intros ->. rewrite Hcv in Hdn. injection Hdn as <-. simpl in Hlt.
    apply Z.ltb_lt in Hlt. lia. }
  split; [|split].
  - split; simpl.
    + apply (dji_adj st Hinv).
    + intros v Hv. destruct (decide (n = v)) as [->|Hnv].
      * rewrite lookup_insert_eq. eauto.
      * rewrite lookup_insert_ne by done. by apply (dji_dom st Hinv).
    + intros v d. destruct (decide (n = v)) as [->|Hnv].
      * rewrite !lookup_insert_eq. intros [= <-]. split; [lia|]. split; [done|].
        eexists. split; [done|]. by eapply walk_snoc.
      * rewrite !lookup_insert_ne by done. apply (dji_fin st Hinv).
    + intros v. destruct (decide (n = v)) as [->|Hnv].
      * by rewrite lookup_insert_eq.
      * rewrite !lookup_insert_ne by done. apply (dji_inf st Hinv).
    + intros d v [Hin|Hin]%elem_of_app.
      * destruct (dji_queue st Hinv d v Hin) as (d' & Hd' & Hle).
        destruct (decide (n = v)) as [->|Hnv].
        -- rewrite lookup_insert_eq. rewrite Hd' in Hdn. injection Hdn as <-.
           simpl in Hlt. apply Z.ltb_lt in Hlt. eexists. split; [done|lia].
        -- rewrite lookup_insert_ne by done. eauto.
      * apply list_elem_of_singleton in Hin. injection Hin as -> ->.
        rewrite lookup_insert_eq. eexists. split; [done|lia].
  - simpl. by rewrite lookup_insert_ne.
  - right. unfold dist_measure. simpl.
    apply (dist_measure_relax _ _ dn); [done|done|lia|done|].
    intros d' ->. by apply (dji_fin st Hinv n d').
Qed.

Lemma dijkstra_relax_loop (cd : Z) (cv : V) (nbrs : list (V * Z)) (s0 : dijkstra_state) :
  dj_inv s0 → dj_distances s0 !! cv = Some (Fin cd) →
  (∀ e, e ∈ nbrs → e ∈ adj_of (adj_list g) cv) →
  ∃ st', for_each (dijkstra_relax cd cv) nbrs s0 = Some st'
         ∧ dj_inv st' ∧ relax_rel s0 st'.
Proof.
  intros Hinv Hcv Hn.
  destruct (for_each_total (dijkstra_relax cd cv)
              (λ st, dj_inv st ∧ dj_distances st !! cv = Some (Fin cd) ∧ relax_rel s0 st)
              nbrs) with (s := s0) as (st' & Hrun & Hi & _ & Hr).
  - intros e st He (Hi & Hc & Hr).
    destruct (dijkstra_relax_spec cd cv e st Hi Hc (Hn e He)) as (st' & Hrun & Hi' & Hc' & Hd).
    exists st'. split; [done|]. split; [done|]. split; [done|].
    destruct Hd as [->|Hd]; [done|by eapply relax_rel_step].
  - split; [done|]. split; [done|]. by left.
  - eauto.
Qed.

Lemma dijkstra_body_spec (st : dijkstra_state) :
  dj_inv st →
  (∃ r, dijkstra_body vleb st = Some (inr r))
  ∨ (∃ st', dijkstra_body vleb st = Some (inl st') ∧ dj_inv st'
            ∧ dj_lt (dj_measure st') (dj_measure st)).
Proof.
  intros Hinv. unfold dijkstra_body.
  destruct (heappop _ _) as [[[cd cv] queue]|] eqn:Hpop; [right|left; eauto].
  apply heappop_perm in Hpop.
  assert (Hlen : length (dj_queue st) = Datatypes.S (length queue)) by by rewrite Hpop.
  assert (Hq : ∀ d v, (d, v) ∈ queue → (d, v) ∈ dj_queue st).
  { intros d v Hin. rewrite Hpop. by right. }
  destruct (dji_queue st Hinv cd cv) as (d' & Hd' & Hle); [rewrite Hpop; left|].
  rewrite Hd'. simpl.
  set (popped := mkDijkstra (dj_adj st) (dj_distances st) (dj_paths st) queue).
  assert (Hpinv : ∀ d, (∀ u, adj_of d u = adj_of (adj_list g) u) →
            dj_inv (mkDijkstra d (dj_distances st) (dj_paths st) queue)).
  { intros d Hd. destruct Hinv. split; simpl; eauto. }
  destruct (d' <? cd) eqn:Hlt.
  - eexists. split; [done|]. split; [apply Hpinv, (dji_adj st Hinv)|].
    unfold dj_measure, dist_measure. simpl. apply right_slex. lia.
  - apply Z.ltb_ge in Hlt. assert (d' = cd) as -> by lia.
    destruct (dijkstra_relax_loop cd cv (adj_of (dj_adj st) cv)
                (mkDijkstra (dd_touch (dj_adj st) cv) (dj_distances st) (dj_paths st) queue))
      as (st' & Hrun & Hi' & Hr).
    + apply Hpinv. intros u. rewrite adj_of_touch. apply (dji_adj st Hinv).
    + done.
    + intros e. by rewrite (dji_adj st Hinv).
    + rewrite Hrun. simpl. eexists. split; [done|]. split; [done|].
      unfold dj_measure. destruct Hr as [[Hd Hq']|Hr].
      * unfold dist_measure. rewrite Hd, Hq'. simpl. apply right_slex. lia.
      * by apply left_slex.
Qed.

Lemma dijkstra_init_inv : start ∈ vertices g → dj_inv (dijkstra_init g start).
Proof.
  intros Hs. split; simpl.
  - done.
  - intros v Hv. destruct (decide (start = v)) as [->|Hne].
    + rewrite lookup_insert_eq. eauto.
    + rewrite lookup_insert_ne by done. exists Inf. by apply lookup_gset_to_gmap_Some.
  - intros v d. destruct (decide (start = v)) as [->|Hne].
    + rewrite !lookup_insert_eq. intros [= <-]. split; [done|]. split; [done|].
      eexists. split; [done|]. constructor.
    + rewrite lookup_insert_ne by done. by intros [_ ?]%lookup_gset_to_gmap_Some.
  - intros v. destruct (decide (start = v)) as [->|Hne].
    + by rewrite lookup_insert_eq.
    + rewrite !lookup_insert_ne by done. intros [Hv _]%lookup_gset_to_gmap_Some.
      by apply lookup_gset_to_gmap_Some.
  - intros d v Hin%list_elem_of_singleton. injection Hin as -> ->.
    rewrite lookup_insert_eq. by exists 0.
Qed.

Lemma dijkstra_body_exit (st : dijkstra_state) (r : dijkstra_result) :
  dj_inv st → dijkstra_body vleb st = Some (inr r) → dijkstra_consistent g start r.
Proof.
  intros Hinv. unfold dijkstra_body.
  destruct (heappop _ _) as [[[cd cv] queue]|].
  - destruct (dj_distances st !! cv) as [dc|]; simpl; [|done].
    destruct (num_ltb _ _); [done|].
    by destruct (for_each _ _ _).
  - intros [= <-]. simpl. intros v Hv.
    destruct (dji_dom st Hinv v Hv) as [[d|] Hd]; rewrite Hd.
    + by destruct (dji_fin st Hinv v d Hd) as (_ & _ & ?).
    + by apply (dji_inf st Hinv).
Qed.

Lemma dijkstra_body_step (st st' : dijkstra_state) :
  dj_inv st → dijkstra_body vleb st = Some (inl st') → dj_inv st'.
Proof.
  intros Hinv Hb. destruct (dijkstra_body_spec st Hinv) as [[r Hr]|(s & Hs & Hi & _)];
    congruence.
Qed.

End DijkstraProof.

Section DijkstraTheorem.

Context {V : Type} `{Countable V}.

(** C10.  On a graph with non-negative weights (in the state that [add_vertex]
    and [add_edge] leave it in) and for a start vertex of the graph,
    [dijkstra] returns a pair [(distances, paths)], and in whatever it returns
    every vertex with a finite distance [d] has a path that begins at the
    start vertex, ends at the vertex, follows adjacency entries of the graph
    and whose weights add up to [d], while every vertex with an infinite
    distance has the empty path. *)
Theorem dijkstra_paths_consistent (vleb : V → V → bool) (g : Graph (V := V))
    (start_vertex : V) :
  wf_graph g → nonneg_weights g → start_vertex ∈ vertices g →
  (∃ r, returns (dijkstra vleb g start_vertex) r)
  ∧ ∀ r, returns (dijkstra vleb g start_vertex) r →
      dijkstra_consistent g start_vertex r.
Proof.
  intros Hwf Hnn Hs.
  assert (Hret : ∀ r, returns (dijkstra vleb g start_vertex) r →
                 dijkstra_consistent g start_vertex r).
  { intros r [fuel Hr]. unfold dijkstra in Hr. rewrite decide_True in Hr by done.
    revert Hr. apply (while_loop_invariant _ (dj_inv g start_vertex)).
    - intros s s'. by apply dijkstra_body_step.
    - intros s r'. by apply dijkstra_body_exit.
    - by apply dijkstra_init_inv. }
  split; [|done].
  destruct (while_loop_terminates (dijkstra_body vleb) (dj_lt) (dj_measure g)
              (dj_inv g start_vertex) (dj_lt_wf)
              (dijkstra_body_spec vleb g start_vertex Hwf Hnn)
              (dijkstra_init g start_vertex)) as (n & r & Hrun).
  { by apply dijkstra_init_inv. }
  exists r, n. unfold dijkstra. by rewrite decide_True.
Qed.

End DijkstraTheorem.

Lemma nonneg_weights_Forall {V : Type} `{Countable V} (g : Graph (V := V)) :
  Forall (λ e : V * V * Z, (0 ≤ e.2)%Z) (edges g) → nonneg_weights g.
Proof. intros Hall u v w Hin. by apply (proj1 (Forall_forall _ _) Hall (u, v, w)). Qed.

Lemma dijkstra_paths_consistent_witness :
  (∃ r, returns (dijkstra String.leb main_graph "A"%string) r)
  ∧ ∀ r, returns (dijkstra String.leb main_graph "A"%string) r →
      dijkstra_consistent main_graph "A"%string r.
Proof.
  apply (dijkstra_paths_consistent String.leb main_graph "A"%string).
  - apply wf_graph_build.
  - apply nonneg_weights_Forall. apply (bool_decide_unpack _). vm_compute. exact I.
  - apply (bool_decide_unpack _). vm_compute. exact I.
Defined.

(** ** topological_sort *)

Section TopoSpec.

Context {V : Type} `{Countable V}.

(** The graph has an edge from [u] to [v] in its edge list. *)
Definition graph_edge (g : Graph (V := V)) (u v : V) : Prop :=
  ∃ w, (u, v, w) ∈ edges g.

(** The adjacency list of [u] has an entry for [v]. *)
Definition adj_edge (g : Graph (V := V)) (u v : V) : Prop :=
  ∃ w, (v, w) ∈ adj_of (adj_list g) u.

Definition has_cycle (g : Graph (V := V)) : Prop := ∃ v, tc (graph_edge g) v v.

Definition acyclic (g : Graph (V := V)) : Prop := ¬ has_cycle g.

(** [u] stands strictly before [v] in [order]. *)
Definition before (order : list V) (u v : V) : Prop :=
  ∃ i j, i < j ∧ order !! i = Some u ∧ order !! j = Some v.

(** Every successor of an element of the list stands later in the list. *)
Fixpoint topo_ok (g : Graph (V := V)) (l : list V) : Prop :=
  match l with
  | [] => True
  | u :: l' => (∀ v, adj_edge g u v → v ∈ l') ∧ topo_ok g l'
  end.

End TopoSpec.

Section GraphEdges.

Context {V : Type} `{Countable V}.
Context (g : Graph (V := V)) (Hwf : wf_graph g).

Lemma adj_edge_vertices (u v : V) : adj_edge g u v → u ∈ vertices g ∧ v ∈ vertices g.
Proof.
  intros [w (l & Hl & Hin)%adj_of_elem].
  destruct (wf_closed g Hwf) as [_ Ha]. destruct (Ha u l Hl) as [Hu Hn].
  split; [done|by eapply Hn].
Qed.

Lemma adj_edge_directed (u v : V) :
  directed g = true → adj_edge g u v ↔ graph_edge g u v.
Proof.
  intros Hd. unfold adj_edge, graph_edge. setoid_rewrite (wf_adj g Hwf).
  rewrite Hd. split; intros [w Hw]; exists w.
  - apply list_elem_of_In, in_flat_map in Hw as ([[a b] c] & Hin & Hent).
    unfold edge_entries in Hent. simpl in Hent. rewrite app_nil_r in Hent.
    destruct (decide (a = u)) as [->|]; [|done].
    destruct Hent as [[= -> ->]|[]]. by apply list_elem_of_In.
  - apply list_elem_of_In, in_flat_map. exists (u, v, w).
    split; [by apply list_elem_of_In|].
    unfold edge_entries. simpl. rewrite decide_True by done. by left.
Qed.

Lemma tc_adj_edge_directed (u v : V) :
  directed g = true → tc (adj_edge g) u v ↔ tc (graph_edge g) u v.
Proof.
  intros Hd. split; induction 1 as [x y Hxy|x y z Hxy _ IH].
  - apply tc_once. by apply adj_edge_directed.
  - eapply tc_l; [|done]. by apply adj_edge_directed.
  - apply tc_once. by apply adj_edge_directed.
  - eapply tc_l; [|done]. by apply adj_edge_directed.
Qed.

(** The number of vertices outside [X]: the recursion depth still available. *)
Definition unvisited (X : gset V) : nat := size (vertices g ∖ X).

Lemma unvisited_mono (X Y : gset V) : X ⊆ Y → unvisited Y ≤ unvisited X.
Proof. intros HXY. unfold unvisited. apply subseteq_size. set_solver. Qed.

Lemma unvisited_add (v : V) (X : gset V) :
  v ∈ vertices g → v ∉ X → unvisited ({[v]} ∪ X) < unvisited X.
Proof.
  intros Hv HX. unfold unvisited. apply subset_size. split; [set_solver|].
  intros Hsub. specialize (Hsub v). set_solver.
Qed.

Lemma unvisited_empty : unvisited ∅ = size (vertices g).
Proof. unfold unvisited. f_equal. set_solver. Qed.

End GraphEdges.

Section BeforeFacts.

Context {V : Type} `{Countable V}.
Context (g : Graph (V := V)).

Lemma topo_ok_before (l : list V) (u v : V) :
  topo_ok g l → u ∈ l → adj_edge g u v → before l u v.
Proof.
  induction l as [|x l IH]; intros Hok Hu He; [by apply elem_of_nil in Hu|].
  destruct Hok as [Hx Hok]. apply elem_of_cons in Hu as [->|Hu].
  - apply Hx, list_elem_of_lookup in He as [j Hj]. exists 0, (S j). split; [lia|done].
  - destruct (IH Hok Hu He) as (i & j & Hij & Hi & Hj).
    exists (S i), (S j). split; [lia|done].
Qed.

Lemma before_trans (l : list V) (u v w : V) :
  NoDup l → before l u v → before l v w → before l u w.
Proof.
  intros Hnd (i & j & Hij & Hi & Hj) (j' & k & Hjk & Hj' & Hk).
  assert (j = j') as <- by by eapply NoDup_lookup.
  exists i, k. split; [lia|done].
Qed.

Lemma before_irrefl (l : list V) (u : V) : NoDup l → ¬ before l u u.
Proof.
  intros Hnd (i & j & Hij & Hi & Hj).
  assert (i = j) by by eapply NoDup_lookup. lia.
Qed.

Lemma before_elem_of_r (l : list V) (u v : V) : before l u v → v ∈ l.
Proof. intros (i & j & _ & _ & Hj). apply list_elem_of_lookup. eauto. Qed.

Lemma topo_ok_tc_before (l : list V) (u v : V) :
  topo_ok g l → NoDup l → u ∈ l → tc (adj_edge g) u v → before l u v.
Proof.
  intros Hok Hnd Hu Htc. induction Htc as [x y Hxy|x y z Hxy _ IH].
  - by apply topo_ok_before.
  - pose proof (topo_ok_before l x y Hok Hu Hxy) as Hb.
    eapply before_trans; [done|done|]. apply IH. by eapply before_elem_of_r.
Qed.

End BeforeFacts.

Section TopoProof.

Context {V : Type} `{Countable V}.
Context (g : Graph (V := V)) (Hwf : wf_graph g).

Definition adj_cycle : Prop := ∃ v, tc (adj_edge g) v v.

Record topo_inv (st : topo_state (V := V)) : Prop := mk_topo_inv {
  ti_adj : ∀ u, adj_of (ts_adj st) u = adj_of (adj_list g) u;
  ti_visited : ts_visited st = ts_temp st ∪ list_to_set (ts_order st);
  ti_disjoint : ∀ v, v ∈ ts_temp st → v ∉ ts_order st;
  ti_vertices : ts_visited st ⊆ vertices g;
  ti_nodup : NoDup (ts_order st);
  ti_ok : topo_ok g (ts_order st)
}.

(** What a call that returns [False] has done to the state. *)
Definition topo_post (st st' : topo_state (V := V)) : Prop :=
  topo_inv st' ∧ ts_temp st' = ts_temp st ∧ ts_visited st ⊆ ts_visited st'
  ∧ ∀ x, x ∈ ts_order st → x ∈ ts_order st'.

(** The call returns: [True] only on a graph with a cycle, [False] with the
    postcondition [P] on the state. *)
Definition topo_result (st : topo_state (V := V)) (P : topo_state → Prop)
    (r : option (bool * topo_state)) : Prop :=
  ∃ b st', r = Some (b, st') ∧ if (b : bool) then adj_cycle else topo_post st st' ∧ P st'.

Lemma topo_post_refl (st : topo_state) : topo_inv st → topo_post st st.
Proof. by intros Hi. Qed.

Lemma topo_post_trans (s1 s2 s3 : topo_state) :
  topo_post s1 s2 → topo_post s2 s3 → topo_post s1 s3.
Proof.
  intros (_ & Ht1 & Hv1 & Ho1) (Hi & Ht2 & Hv2 & Ho2).
  split; [done|]. split; [congruence|]. split; [set_solver|]. intros x Hx. by apply Ho2, Ho1.
Qed.

(** The specification of a call on an unvisited vertex. *)
Definition dfs_topological_ok (n : nat) : Prop :=
  ∀ v st,
    topo_inv st → v ∈ vertices g → v ∉ ts_visited st →
    (∀ t, t ∈ ts_temp st → rtc (adj_edge g) t v) →
    unvisited g (ts_visited st) ≤ n →
    topo_result st (λ st', v ∈ ts_order st') (dfs_topological n v st).

Lemma topo_neighbors_spec (n : nat) (v : V) :
  dfs_topological_ok n →
  ∀ nbrs st,
    topo_inv st → v ∈ ts_temp st →
    (∀ t, t ∈ ts_temp st → rtc (adj_edge g) t v) →
    (∀ e, e ∈ nbrs → e ∈ adj_of (adj_list g) v) →
    unvisited g (ts_visited st) ≤ n →
    topo_result st (λ st', ∀ e, e ∈ nbrs → e.1 ∈ ts_order st')
      (topo_neighbors (dfs_topological n) nbrs st).
Proof.
  intros IHn nbrs. induction nbrs as [|[n0 c] nbrs IH]; intros st Hi Hv Hreach Hadj Hfuel.
  { exists false, st. split; [done|]. split; [by apply topo_post_refl|].
    by intros e ?%elem_of_nil. }
  assert (He0 : adj_edge g v n0) by (exists c; apply Hadj; left).
  assert (Hrest : ∀ e, e ∈ nbrs → e ∈ adj_of (adj_list g) v)
    by (intros e He; apply Hadj; by right).
  simpl. destruct (decide (n0 ∈ ts_visited st)) as [Hvis|Hvis].
  - destruct (decide (n0 ∈ ts_temp st)) as [Htemp|Htemp].
    + exists true, st. split; [done|]. exists n0.
      eapply tc_rtc_l; [by apply Hreach|by apply tc_once].
    + assert (Hord : n0 ∈ ts_order st).
      { rewrite (ti_visited st Hi) in Hvis. set_solver. }
      destruct (IH st Hi Hv Hreach Hrest Hfuel) as (b & st' & Hrun & Hres).
      exists b, st'. split; [done|]. destruct b; [done|].
      destruct Hres as [Hpost Hall]. split; [done|].
      intros e [->|He]%elem_of_cons; [|by apply Hall].
      destruct Hpost as (_ & _ & _ & Ho). by apply Ho.
  - destruct (IHn n0 st) as (b1 & s1 & Hrun1 & Hres1); try done.
    { by apply (adj_edge_vertices g Hwf v n0). }
    { intros t Ht. eapply rtc_r; [by apply Hreach|done]. }
    rewrite Hrun1. simpl. destruct b1; [by exists true, s1|].
    destruct Hres1 as [Hpost1 Hn0].
    destruct Hpost1 as (Hi1 & Ht1 & Hv1 & Ho1).
    destruct (IH s1) as (b & st' & Hrun & Hres); try done.
    { by rewrite Ht1. }
    { intros t. rewrite Ht1. apply Hreach. }
    { etrans; [by apply unvisited_mono|done]. }
    exists b, st'. split; [done|]. destruct b; [done|].
    destruct Hres as [Hpost Hall]. split.
    + eapply topo_post_trans; [|done]. by split.
    + intros e [->|He]%elem_of_cons; [|by apply Hall].
      destruct Hpost as (_ & _ & _ & Ho). by apply Ho.
Qed.

Lemma dfs_topological_spec (n : nat) : dfs_topological_ok n.
Proof.
  induction n as [|n IHn]; intros v st Hi Hv Hvis Hreach Hfuel.
  { pose proof (unvisited_add g Hwf v _ Hv Hvis). lia. }
  simpl.
  set (s1 := mkTopo (dd_touch (ts_adj st) v) ({[v]} ∪ ts_visited st)
               ({[v]} ∪ ts_temp st) (ts_order st)).
  assert (Hvt : v ∉ ts_temp st).
  { rewrite (ti_visited st Hi) in Hvis. set_solver. }
  assert (Hi1 : topo_inv s1).
  { destruct Hi. split; simpl; try done.
    - intros u. by rewrite adj_of_touch.
    - set_solver.
    - intros x [->%elem_of_singleton|Hx]%elem_of_union; [|by auto].
      rewrite ti_visited0 in Hvis. set_solver.
    - set_solver. }
  destruct (topo_neighbors_spec n v IHn (adj_of (ts_adj st) v) s1)
    as (b & s' & Hrun & Hres); try done.
  { simpl. set_solver. }
  { simpl. intros t [->%elem_of_singleton|Ht]%elem_of_union; [done|by apply Hreach]. }
  { intros e. by rewrite (ti_adj st Hi). }
  { simpl. pose proof (unvisited_add g Hwf v _ Hv Hvis). lia. }
  rewrite Hrun. simpl. destruct b; [by exists true, s'|].
  destruct Hres as [(Hi' & Ht' & Hv' & Ho') Hall]. simpl in Ht', Hv', Ho'.
  rewrite decide_True by (rewrite Ht'; set_solver).
  eexists false, _. split; [done|]. split; [|simpl; by left].
  assert (Hvo : v ∉ ts_order s') by (apply (ti_disjoint s' Hi'); rewrite Ht'; set_solver).
  split; [|split; [|split]]; simpl.
  - destruct Hi'. split; simpl; try done.
    + rewrite ti_visited0, Ht'. apply set_eq. intros x.
      destruct (decide (x = v)) as [->|]; set_solver.
    + intros x Hx. apply not_elem_of_cons. split; [set_solver|]. apply ti_disjoint0.
      set_solver.
    + by apply NoDup_cons.
    + split; [|done]. intros x [w Hx]. apply (Hall (x, w)). by rewrite (ti_adj st Hi).
  - rewrite Ht'. set_solver.
  - set_solver.
  - intros x Hx. right. by apply Ho'.
Qed.

Lemma topo_roots_spec (fuel : nat) (vs : list V) (st : topo_state) :
  topo_inv st → ts_temp st = ∅ → (∀ v, v ∈ vs → v ∈ vertices g) →
  unvisited g (ts_visited st) ≤ fuel →
  topo_result st (λ st', ∀ v, v ∈ vs → v ∈ ts_visited st') (topo_roots fuel vs st).
Proof.
  revert st. induction vs as [|v vs IH]; intros st Hi Ht Hvs Hfuel.
  { exists false, st. split; [done|]. split; [by apply topo_post_refl|].
    by intros e ?%elem_of_nil. }
  assert (Hrest : ∀ x, x ∈ vs → x ∈ vertices g) by (intros x Hx; apply Hvs; by right).
  simpl. destruct (decide (v ∈ ts_visited st)) as [Hvis|Hvis].
  - destruct (IH st Hi Ht Hrest Hfuel) as (b & st' & Hrun & Hres).
    exists b, st'. split; [done|]. destruct b; [done|].
    destruct Hres as [Hpost Hall]. split; [done|].
    intros x [->|Hx]%elem_of_cons; [|by apply Hall].
    destruct Hpost as (_ & _ & Hv & _). by apply Hv.
  - destruct (dfs_topological_spec fuel v st) as (b1 & s1 & Hrun1 & Hres1); try done.
    { apply Hvs. by left. }
    { intros t. rewrite Ht. set_solver. }
    rewrite Hrun1. simpl. destruct b1; [by exists true, s1|].
    destruct Hres1 as [(Hi1 & Ht1 & Hv1 & Ho1) Hin].
    destruct (IH s1) as (b & st' & Hrun & Hres); try done.
    { congruence. }
    { etrans; [by apply unvisited_mono|done]. }
    exists b, st'. split; [done|]. destruct b; [done|].
    destruct Hres as [Hpost Hall]. split.
    + eapply topo_post_trans; [|done]. by split.
    + intros x [->|Hx]%elem_of_cons; [|by apply Hall].
      destruct Hpost as (Hi' & _ & Hv' & Ho'). rewrite (ti_visited _ Hi').
      apply elem_of_union_r, elem_of_list_to_set. by apply Ho'.
Qed.

End TopoProof.

Section TopoFuel.

Context {V : Type} `{Countable V}.

Lemma topo_neighbors_mono (rec rec' : V → topo_state → option (bool * topo_state))
    (nbrs : list (V * Z)) (st : topo_state) (r : bool * topo_state) :
  (∀ v s r, rec v s = Some r → rec' v s = Some r) →
  topo_neighbors rec nbrs st = Some r → topo_neighbors rec' nbrs st = Some r.
Proof.
  intros Hrec. revert st. induction nbrs as [|[n c] nbrs IH]; intros st; simpl; [done|].
  destruct (decide _); [destruct (decide _); [done|apply IH]|].
  destruct (rec n st) as [[b s1]|] eqn:Hr; simpl; [|done].
  rewrite (Hrec _ _ _ Hr). simpl. destruct b; [done|apply IH].
Qed.

Lemma dfs_topological_mono (n m : nat) (v : V) (st : topo_state) (r : bool * topo_state) :
  dfs_topological n v st = Some r → n ≤ m → dfs_topological m v st = Some r.
Proof.
  revert m v st r. induction n as [|n IH]; intros m v st r Hrun Hle; [done|].
  destruct m as [|m]; [lia|]. simpl in *.
  destruct (topo_neighbors (dfs_topological n) _ _) as [[b s1]|] eqn:Hloop; [|done].
  erewrite topo_neighbors_mono; [exact Hrun| |exact Hloop].
  intros u s r' Hr. apply IH; [done|lia].
Qed.

Lemma topo_roots_mono (n m : nat) (vs : list V) (st : topo_state) (r : bool * topo_state) :
  topo_roots n vs st = Some r → n ≤ m → topo_roots m vs st = Some r.
Proof.
  intros Hrun Hle. revert st Hrun. induction vs as [|v vs IH]; intros st; simpl; [done|].
  destruct (decide _); [apply IH|].
  destruct (dfs_topological n v st) as [[b s1]|] eqn:Hr; simpl; [|done].
  rewrite (dfs_topological_mono _ _ _ _ _ Hr Hle). simpl. destruct b; [done|apply IH].
Qed.

Lemma topological_sort_mono (a : AdvancedGraphAlgorithms) (n m : nat)
    (r : option (list V) * AdvancedGraphAlgorithms) :
  topological_sort a n = Some r → n ≤ m → topological_sort a m = Some r.
Proof.
  unfold topological_sort. intros Hrun Hle.
  destruct (topo_roots n _ _) as [[b st]|] eqn:Hr; [|done].
  by rewrite (topo_roots_mono _ _ _ _ _ Hr Hle).
Qed.

Lemma topological_sort_det (a : AdvancedGraphAlgorithms)
    (r r' : option (list V) * AdvancedGraphAlgorithms) :
  returns (topological_sort a) r → returns (topological_sort a) r' → r = r'.
Proof.
  intros [n Hn] [m Hm].
  apply (topological_sort_mono _ _ (n `max` m)) in Hn; [|lia].
  apply (topological_sort_mono _ _ (n `max` m)) in Hm; [|lia].
  congruence.
Qed.

Lemma topological_sort_run (g : Graph (V := V)) (vs : list V) :
  wf_graph g → directed g = true → get_vertices g vs →
  ∃ r a', topological_sort (AGA_init g vs) (size (vertices g)) = Some (r, a')
    ∧ match r with
      | None => has_cycle g
      | Some order => (∀ u v, graph_edge g u v → before order u v) ∧ acyclic g
      end.
Proof.
  intros Hwf Hd Hvs. unfold topological_sort. simpl.
  destruct (topo_roots_spec g Hwf (size (vertices g)) vs (mkTopo (adj_list g) ∅ ∅ []))
    as (b & st & Hrun & Hres).
  - split; simpl; [done|set_solver|set_solver|set_solver|constructor|done].
  - done.
  - intros v Hv. apply elem_of_elements. by rewrite <- Hvs.
  - simpl. by rewrite unvisited_empty.
  - rewrite Hrun. simpl. do 2 eexists. split; [done|]. destruct b.
    + destruct Hres as [v Hv]. exists v. by apply (tc_adj_edge_directed g Hwf).
    + destruct Hres as [(Hi & Ht & _ & _) Hall]. simpl in Ht.
      assert (Hin : ∀ u, u ∈ vertices g → u ∈ ts_order st).
      { intros u Hu. assert (Hu' : u ∈ ts_visited st).
        { apply Hall. rewrite Hvs. by apply elem_of_elements. }
        rewrite (ti_visited g st Hi), Ht in Hu'. set_solver. }
      split.
      * intros u v Huv%(adj_edge_directed g Hwf); [|done].
        apply (topo_ok_before g); [apply (ti_ok g st Hi)| |done].
        apply Hin. by apply (adj_edge_vertices g Hwf u v).
      * intros [v Hv%(tc_adj_edge_directed g Hwf)]; [|done].
        apply (before_irrefl g (ts_order st) v); [apply (ti_nodup g st Hi)|].
        apply (topo_ok_tc_before g); [apply (ti_ok g st Hi)|apply (ti_nodup g st Hi)| |done].
        assert (∃ y, adj_edge g v y) as [y Hy] by (inversion Hv; eauto).
        apply Hin. by apply (adj_edge_vertices g Hwf v y).
Qed.

(** C5.  On a directed graph (in the state that [add_vertex] and [add_edge]
    leave it in) [topological_sort] returns.  When the graph is acyclic it
    returns an order in which, for every edge [(u, v)], [u] stands strictly
    before [v]; when the graph has a cycle it returns [None]. *)
Theorem topological_sort_correct (g : Graph (V := V)) (vs : list V) :
  wf_graph g → directed g = true → get_vertices g vs →
  (∃ r, returns (topological_sort (AGA_init g vs)) r)
  ∧ ∀ r a', returns (topological_sort (AGA_init g vs)) (r, a') →
      (acyclic g → ∃ order, r = Some order ∧ ∀ u v, graph_edge g u v → before order u v)
      ∧ (has_cycle g → r = None).
Proof.
  intros Hwf Hd Hvs.
  destruct (topological_sort_run g vs Hwf Hd Hvs) as (r0 & a0 & Hrun & Hres).
  split; [by exists (r0, a0), (size (vertices g))|].
  intros r a' Hr.
  assert ((r, a') = (r0, a0)) as [= -> ->].
  { eapply topological_sort_det; [done|by exists (size (vertices g))]. }
  destruct r0 as [order|].
  - destruct Hres as [Hord Hac]. split; [by eauto|]. intros Hc. by destruct Hac.
  - split; [|done]. intros Hac. by destruct Hac.
Qed.

End TopoFuel.

(** The two demonstration graphs of [advanced_graph_algorithms.py]'s [main]
    for the topological sort. *)
Definition dag_graph : Graph (V := string) :=
  build true
    [AddEdge "A" "B" 1; AddEdge "A" "C" 1; AddEdge "B" "D" 1; AddEdge "C" "D" 1;
     AddEdge "D" "E" 1; AddEdge "E" "F" 1; AddEdge "G" "E" 1]%string%Z.

Lemma topological_sort_correct_witness :
  (∃ r, returns (topological_sort (AGA_init dag_graph (elements (vertices dag_graph)))) r)
  ∧ ∀ r a',
      returns (topological_sort (AGA_init dag_graph (elements (vertices dag_graph)))) (r, a') →
      (acyclic dag_graph →
       ∃ order, r = Some order ∧ ∀ u v, graph_edge dag_graph u v → before order u v)
      ∧ (has_cycle dag_graph → r = None).
Proof.
  apply (topological_sort_correct dag_graph (elements (vertices dag_graph))).
  - apply wf_graph_build.
  - reflexivity.
  - unfold get_vertices. reflexivity.
Defined.

(** ** Reachability that avoids a set of vertices *)

Section ReachAvoid.

Context {V : Type} `{Countable V}.
Context (E : V → V → Prop).

(** [reach_avoid S x y]: a path of [E] leads from [x] to [y] and none of its
    vertices, ends included, is in [S]. *)
Inductive reach_avoid (S : gset V) : V → V → Prop :=
| ra_refl x : x ∉ S → reach_avoid S x x
| ra_step x z y : x ∉ S → E x z → reach_avoid S z y → reach_avoid S x y.

(** Each of the two vertices reaches the other outside [S]. *)
Definition mutual_avoid (S : gset V) (x y : V) : Prop :=
  reach_avoid S x y ∧ reach_avoid S y x.

(** [M] is closed under the steps of [E] that stay outside [S]. *)
Definition closed_avoid (S : gset V) (M : list V) : Prop :=
  ∀ a b, a ∈ M → E a b → b ∉ S → b ∈ M.

Lemma ra_src (S : gset V) (x y : V) : reach_avoid S x y → x ∉ S.
Proof. by destruct 1. Qed.

Lemma ra_dst (S : gset V) (x y : V) : reach_avoid S x y → y ∉ S.
Proof. by induction 1. Qed.

Lemma ra_mono (S S' : gset V) (x y : V) :
  S ⊆ S' → reach_avoid S' x y → reach_avoid S x y.
Proof.
  intros Hsub. induction 1 as [x Hx|x z y Hx Hxz _ IH].
  - apply ra_refl. set_solver.
  - eapply ra_step; [set_solver|done|done].
Qed.

Lemma ra_trans (S : gset V) (x y z : V) :
  reach_avoid S x y → reach_avoid S y z → reach_avoid S x z.
Proof.
  induction 1 as [x Hx|x z' y Hx Hxz _ IH]; [done|].
  intros Hyz. eapply ra_step; [done|done|by apply IH].
Qed.

Lemma ra_snoc (S : gset V) (x y z : V) :
  reach_avoid S x y → E y z → z ∉ S → reach_avoid S x z.
Proof.
  intros Hxy Hyz Hz. eapply ra_trans; [done|].
  eapply ra_step; [by eapply ra_dst|done|by apply ra_refl].
Qed.

Lemma ra_rtc (S : gset V) (x y : V) : reach_avoid S x y → rtc E x y.
Proof. induction 1; [done|by eapply rtc_l]. Qed.

Lemma rtc_ra (x y : V) : rtc E x y → reach_avoid ∅ x y.
Proof.
  induction 1 as [x|x z y Hxz _ IH]; [by apply ra_refl|].
  eapply ra_step; [set_solver|done|done].
Qed.

Lemma mutual_avoid_mono (S S' : gset V) (x y : V) :
  S ⊆ S' → mutual_avoid S' x y → mutual_avoid S x y.
Proof. intros Hsub [H1 H2]. split; by eapply ra_mono. Qed.

(** A path from [x] that avoids [S] either is empty or leaves [x] for good
    along one of its edges. *)
Lemma ra_last_visit (S : gset V) (x0 x y : V) :
  reach_avoid S x y →
  reach_avoid ({[x0]} ∪ S) x y
  ∨ y = x0
  ∨ ∃ n, E x0 n ∧ reach_avoid ({[x0]} ∪ S) n y.
Proof.
  induction 1 as [x Hx|x z y Hx Hxz _ IH].
  - destruct (decide (x = x0)) as [->|Hne]; [by right; left|].
    left. apply ra_refl. set_solver.
  - destruct IH as [IH|[->|IH]]; [|by right; left|by right; right].
    destruct (decide (x = x0)) as [->|Hne]; [right; right; eauto|].
    left. eapply ra_step; [set_solver|done|done].
Qed.

Lemma ra_split (S : gset V) (x y : V) :
  reach_avoid S x y → y = x ∨ ∃ n, E x n ∧ reach_avoid ({[x]} ∪ S) n y.
Proof.
  intros Hxy. destruct (ra_last_visit S x x y Hxy) as [Hbad|[->|?]]; [|by left|by right].
  apply ra_src in Hbad. set_solver.
Qed.

(** A path that avoids [S] either avoids [v] too or reaches [v]. *)
Lemma ra_through (S : gset V) (v x y : V) :
  reach_avoid S x y → reach_avoid ({[v]} ∪ S) x y ∨ reach_avoid S x v.
Proof.
  induction 1 as [x Hx|x z y Hx Hxz _ IH].
  - destruct (decide (x = v)) as [->|Hne]; [right; by apply ra_refl|].
    left. apply ra_refl. set_solver.
  - destruct IH as [IH|IH]; [|right; by eapply ra_step].
    destruct (decide (x = v)) as [->|Hne]; [right; by apply ra_refl|].
    left. eapply ra_step; [set_solver|done|done].
Qed.

Lemma closed_avoid_reach (S : gset V) (M : list V) (a b : V) :
  closed_avoid S M → reach_avoid S a b → a ∈ M → b ∈ M.
Proof.
  intros Hcl. induction 1 as [x Hx|x z y Hx Hxz Hzy IH]; [done|].
  intros Ha. apply IH. eapply Hcl; [done|done|by eapply ra_src].
Qed.

(** A path that ends outside a closed set never enters it. *)
Lemma closed_avoid_outside (S : gset V) (M : list V) (a b : V) :
  closed_avoid S M → reach_avoid S a b → b ∉ M →
  reach_avoid (S ∪ list_to_set M) a b.
Proof.
  intros Hcl. induction 1 as [x Hx|x z y Hx Hxz Hzy IH]; intros Hb.
  - apply ra_refl. set_solver.
  - assert (x ∉ M).
    { intros Hin. apply Hb. eapply closed_avoid_reach; [done| |done]. by eapply ra_step. }
    eapply ra_step; [set_solver|done|by apply IH].
Qed.

(** A path between two vertices that reach each other stays among such
    vertices: it avoids every set that is closed under mutual reachability
    and misses the target. *)
Lemma rtc_ra_scc (W : gset V) (y r : V) :
  (∀ z, rtc E y z → rtc E z r → z ∉ W) → rtc E y r → reach_avoid W y r.
Proof.
  intros HW Hyr. induction Hyr as [x|x z y Hxz Hzy IH].
  - apply ra_refl. by apply HW.
  - eapply ra_step; [by apply HW; [|eapply rtc_l]|done|].
    apply IH. intros u Hzu Huy. apply HW; [by eapply rtc_l|done].
Qed.

End ReachAvoid.

Lemma reach_avoid_flip {V : Type} `{Countable V} (E : V → V → Prop) (S : gset V) (x y : V) :
  reach_avoid (flip E) S x y → reach_avoid E S y x.
Proof.
  induction 1 as [x Hx|x z y Hx Hxz Hzy IH]; [by apply ra_refl|].
  eapply ra_snoc; [done|done|done].
Qed.

(** ** The two depth-first passes of Kosaraju's algorithm *)

Section AfterEq.

Context {V : Type}.

(** [a] stands in [N] at the place of [b] or later. *)
Definition after_eq (N : list V) (b a : V) : Prop :=
  ∃ l1 l2, N = l1 ++ b :: l2 ∧ a ∈ b :: l2.

Lemma after_eq_app_l (M N : list V) (b a : V) : after_eq M b a → after_eq (M ++ N) b a.
Proof.
  intros (l1 & l2 & -> & Ha). exists l1, (l2 ++ N). split; [by rewrite <- app_assoc|].
  rewrite app_comm_cons. apply elem_of_app. by left.
Qed.

Lemma after_eq_app_r (M N : list V) (b a : V) : after_eq N b a → after_eq (M ++ N) b a.
Proof.
  intros (l1 & l2 & -> & Ha). exists (M ++ l1), l2. split; [by rewrite <- app_assoc|done].
Qed.

Lemma after_eq_cross (M N : list V) (b a : V) : b ∈ M → a ∈ N → after_eq (M ++ N) b a.
Proof.
  intros (l1 & l2 & ->)%list_elem_of_split Ha. exists l1, (l2 ++ N).
  split; [by rewrite <- app_assoc|]. right. apply elem_of_app. by right.
Qed.

Lemma after_eq_refl (N : list V) (b : V) : b ∈ N → after_eq N b b.
Proof. intros (l1 & l2 & ->)%list_elem_of_split. exists l1, l2. split; [done|by left]. Qed.

Lemma after_eq_elem_of (N : list V) (b a : V) : after_eq N b a → a ∈ N.
Proof. intros (l1 & l2 & -> & Ha). apply elem_of_app. by right. Qed.

End AfterEq.

Section PassProof.

Context {V : Type} `{Countable V}.
(** The adjacency lists read by the pass, and the set its vertices live in. *)
Context (A : V → list (V * Z)) (Vs : gset V).
Context (HA : ∀ u v w, (v, w) ∈ A u → v ∈ Vs).

Definition adj_rel (u v : V) : Prop := ∃ w, (v, w) ∈ A u.

Definition remaining (X : gset V) : nat := size (Vs ∖ X).

Lemma remaining_mono (X Y : gset V) : X ⊆ Y → remaining Y ≤ remaining X.
Proof. intros HXY. unfold remaining. apply subseteq_size. set_solver. Qed.

Lemma remaining_add (v : V) (X : gset V) :
  v ∈ Vs → v ∉ X → remaining ({[v]} ∪ X) < remaining X.
Proof.
  intros Hv HX. unfold remaining. apply subset_size. split; [set_solver|].
  intros Hsub. specialize (Hsub v). set_solver.
Qed.

(** The order in which a pass finishes vertices: whenever [a] reaches [b]
    outside [S], some vertex that shares a strongly connected component with
    [a] finishes no earlier than [b]. *)
Definition finish_ok (S : gset V) (N : list V) : Prop :=
  ∀ a b, a ∈ N → b ∈ N → reach_avoid adj_rel S a b →
    ∃ a', mutual_avoid adj_rel S a' a ∧ after_eq N b a'.

Definition pass_view (st : pass_state (V := V)) : Prop :=
  ∀ u, adj_of (ps_adj st) u = A u.

(** The invariant of a neighbour loop: [T0] is the visited set the loop
    started with and [M] lists what it has visited since. *)
Record loop_inv (T0 : gset V) (M : list V) (st : pass_state (V := V)) : Prop :=
  mk_loop_inv {
  li_view : pass_view st;
  li_visited : ps_visited st = T0 ∪ list_to_set M;
  li_nodup : NoDup M;
  li_fresh : ∀ y, y ∈ M → y ∉ T0;
  li_closed : closed_avoid adj_rel T0 M
}.

(** What a call on an unvisited vertex [v] does: it visits the list [N] of
    the vertices that [v] reaches outside the visited set. *)
Record call_post (v : V) (st st' : pass_state (V := V)) (N : list V) : Prop :=
  mk_call_post {
  cp_view : pass_view st';
  cp_visited : ps_visited st' = ps_visited st ∪ list_to_set N;
  cp_nodup : NoDup N;
  cp_reach : ∀ y, y ∈ N ↔ reach_avoid adj_rel (ps_visited st) v y
}.

Lemma loop_inv_extend (T0 : gset V) (M N : list V) (n0 : V) (st st' : pass_state) :
  loop_inv T0 M st → call_post n0 st st' N → loop_inv T0 (M ++ N) st'.
Proof.
  intros [Hview Hvis Hnd Hfr Hcl] [Hview' Hvis' Hnd' Hreach].
  assert (HN : ∀ y, y ∈ N → (y ∉ T0) ∧ (y ∉ M)).
  { intros y Hy%Hreach%ra_dst. rewrite Hvis in Hy. set_solver. }
  split.
  - done.
  - rewrite Hvis', Hvis, list_to_set_app_L. set_solver.
  - apply NoDup_app. split; [done|]. split; [|done]. intros y Hy Hy'. by destruct (HN y Hy').
  - intros y [Hy|Hy]%elem_of_app; [by apply Hfr|by destruct (HN y Hy)].
  - intros a b [Ha|Ha]%elem_of_app Hab Hb; apply elem_of_app.
    + left. by eapply Hcl.
    + destruct (decide (b ∈ M)) as [|HbM]; [by left|]. right.
      apply Hreach. eapply ra_snoc; [by apply Hreach|done|].
      rewrite Hvis. set_solver.
Qed.

Lemma finish_ok_extend (T0 : gset V) (M N : list V) (n0 : V) (st st' : pass_state) :
  loop_inv T0 M st → call_post n0 st st' N →
  finish_ok T0 M → finish_ok (ps_visited st) N → finish_ok T0 (M ++ N).
Proof.
  intros [Hview Hvis Hnd Hfr Hcl] [Hview' Hvis' Hnd' Hreach] HokM HokN.
  assert (HN : ∀ y, y ∈ N → (y ∉ T0) ∧ (y ∉ M)).
  { intros y Hy%Hreach%ra_dst. rewrite Hvis in Hy. set_solver. }
  intros a b [Ha|Ha]%elem_of_app Hb Hab.
  - assert (HbM : b ∈ M) by by eapply closed_avoid_reach.
    destruct (HokM a b Ha HbM Hab) as (a' & Hmut & Haft).
    exists a'. split; [done|by apply after_eq_app_l].
  - apply elem_of_app in Hb as [Hb|Hb].
    + exists a. split; [|by apply after_eq_cross].
      split; apply ra_refl; by destruct (HN a Ha).
    + assert (Hab' : reach_avoid adj_rel (ps_visited st) a b).
      { rewrite Hvis. apply closed_avoid_outside; [done|done|by destruct (HN b Hb)]. }
      destruct (HokN a b Ha Hb Hab') as (a' & Hmut & Haft).
      exists a'. split; [|by apply after_eq_app_r].
      eapply mutual_avoid_mono; [|done]. rewrite Hvis. set_solver.
Qed.

(** *** The neighbour loop of either pass

    [call] is the recursive call of the pass and [P] the property of the
    output that the pass maintains besides reachability. *)

Section PassLoop.

Context (call : V → pass_state (V := V) → option (pass_state (V := V))).
Context (P : gset V → list V → Prop).
Context (HP : ∀ T0 M N n0 st st',
  loop_inv T0 M st → call_post n0 st st' N →
  P T0 M → P (ps_visited st) N → P T0 (M ++ N)).

Definition pass_step (e : V * Z) (s : pass_state (V := V)) : option pass_state :=
  if decide (e.1 ∈ ps_visited s) then Some s else call e.1 s.

Definition call_ok (n : nat) : Prop :=
  ∀ v st,
    pass_view st → v ∈ Vs → v ∉ ps_visited st → remaining (ps_visited st) ≤ n →
    ∃ st' N, call v st = Some st'
      ∧ call_post v st st' N
      ∧ ps_out st' = ps_out st ++ N
      ∧ P (ps_visited st) N.

Lemma pass_loop (n : nat) :
  call_ok n →
  ∀ nbrs T0 M st,
    loop_inv T0 M st → P T0 M →
    (∀ e, e ∈ nbrs → e.1 ∈ Vs) → remaining (ps_visited st) ≤ n →
    ∃ st' M', for_each pass_step nbrs st = Some st'
      ∧ loop_inv T0 (M ++ M') st'
      ∧ P T0 (M ++ M')
      ∧ ps_out st' = ps_out st ++ M'
      ∧ ∀ y, y ∈ M ++ M' ↔ y ∈ M ∨ ∃ e, e ∈ nbrs ∧ reach_avoid adj_rel T0 e.1 y.
Proof.
  intros IHn nbrs. induction nbrs as [|[n0 c] nbrs IH]; intros T0 M st Hinv Hok Hvs Hfuel.
  { exists st, []. rewrite !app_nil_r. split_and!; [done..|]. intros y. split; [by left|].
    intros [?|(e & ?%elem_of_nil & _)]; done. }
  assert (Hrest : ∀ e, e ∈ nbrs → e.1 ∈ Vs) by (intros e He; apply Hvs; by right).
  simpl. unfold pass_step at 1. simpl.
  destruct (decide (n0 ∈ ps_visited st)) as [Hvis|Hvis].
  - destruct (IH T0 M st Hinv Hok Hrest Hfuel) as (st' & M' & Hrun & Hinv' & Hok' & Hout & Hch).
    exists st', M'. split_and!; [done..|]. intros y. split.
    + intros Hy. apply Hch in Hy as [Hy|(e & He & Hy)]; [by left|].
      right. exists e. split; [by right|done].
    + intros [Hy|(e & [->|He]%elem_of_cons & Hy)]; apply Hch; [by left| |by eauto].
      left. simpl in Hy. eapply closed_avoid_reach; [apply (li_closed _ _ _ Hinv)|done|].
      rewrite (li_visited _ _ _ Hinv) in Hvis. apply ra_src in Hy. set_solver.
  - destruct (IHn n0 st) as (s1 & N1 & Hrun1 & Hpost1 & Hout1 & Hok1); try done.
    { apply (li_view _ _ _ Hinv). }
    { apply (Hvs (n0, c)). by left. }
    rewrite Hrun1.
    pose proof (loop_inv_extend T0 M N1 n0 st s1 Hinv Hpost1) as Hinv1.
    pose proof (HP T0 M N1 n0 st s1 Hinv Hpost1 Hok Hok1) as Hok1'.
    destruct (IH T0 (M ++ N1) s1 Hinv1 Hok1' Hrest)
      as (st' & M' & Hrun & Hinv' & Hok' & Hout & Hch).
    { etrans; [|exact Hfuel]. apply remaining_mono.
      rewrite (cp_visited _ _ _ _ Hpost1). set_solver. }
    exists st', (N1 ++ M'). rewrite !app_assoc. split_and!; [done|done|done| |].
    { by rewrite Hout, Hout1, <- app_assoc. }
    intros y. split.
    + intros Hy. apply Hch in Hy as [[Hy|Hy]%elem_of_app|(e & He & Hy)]; [by left| |].
      * right. exists (n0, c). split; [by left|]. simpl.
        apply (cp_reach _ _ _ _ Hpost1) in Hy. eapply ra_mono; [|done].
        rewrite (li_visited _ _ _ Hinv). set_solver.
      * right. exists e. split; [by right|done].
    + intros [Hy|(e & [->|He]%elem_of_cons & Hy)]; apply Hch.
      * left. apply elem_of_app. by left.
      * left. apply elem_of_app. simpl in Hy.
        destruct (decide (y ∈ M)) as [|HyM]; [by left|]. right.
        apply (cp_reach _ _ _ _ Hpost1). rewrite (li_visited _ _ _ Hinv).
        apply closed_avoid_outside; [apply (li_closed _ _ _ Hinv)|done|done].
      * right. eauto.
Qed.

End PassLoop.

(** *** The first pass *)

Lemma first_pass_spec (n : nat) : call_ok (dfs_first_pass n) finish_ok n.
Proof.
  induction n as [|n IHn]; intros v st Hview Hv Hvis Hfuel.
  { pose proof (remaining_add v _ Hv Hvis). lia. }
  set (T0 := {[v]} ∪ ps_visited st).
  set (s1 := mkPass (dd_touch (ps_adj st) v) T0 (ps_out st)).
  destruct (pass_loop (dfs_first_pass n) finish_ok finish_ok_extend n IHn
              (adj_of (ps_adj st) v) T0 [] s1)
    as (st' & M' & Hrun & Hinv' & Hok' & Hout & Hch).
  { split; simpl.
    - intros u. simpl. by rewrite adj_of_touch, Hview.
    - set_solver.
    - constructor.
    - by intros y ?%elem_of_nil.
    - by intros a b ?%elem_of_nil. }
  { by intros a b ?%elem_of_nil. }
  { intros [u w] He. rewrite Hview in He. by eapply HA. }
  { simpl. pose proof (remaining_add v _ Hv Hvis). unfold T0. lia. }
  simpl in Hinv', Hok', Hch, Hout.
  assert (Hdef : dfs_first_pass (S n) v st
                 = (s ← for_each (pass_step (dfs_first_pass n)) (adj_of (ps_adj st) v) s1;
                    Some (mkPass (ps_adj s) (ps_visited s) (ps_out s ++ [v]))))
    by reflexivity.
  rewrite Hdef, Hrun. simpl. clear Hdef.
  destruct Hinv' as [Hview' Hvis' Hnd' Hfr' Hcl'].
  assert (HvM : v ∉ M') by (intros Hin%Hfr'; set_solver).
  assert (Hreach : ∀ y, y ∈ M' ++ [v] ↔ reach_avoid adj_rel (ps_visited st) v y).
  { intros y. split.
    - intros [Hy|Hy%list_elem_of_singleton]%elem_of_app; [|subst y; by apply ra_refl].
      apply Hch in Hy as [?%elem_of_nil|([u w] & He & Hy)]; [done|].
      eapply ra_step; [done|exists w; by rewrite <- Hview|].
      eapply ra_mono; [|done]. set_solver.
    - intros [->|(u & [w Hu] & Hy)]%ra_split; apply elem_of_app.
      + right. by left.
      + left. apply Hch. right. exists (u, w). split; [by rewrite Hview|done]. }
  eexists _, (M' ++ [v]). split; [done|]. split; [|split].
  - split; simpl; [done| |by apply NoDup_app; repeat split; [|set_solver|apply NoDup_singleton]|done].
    rewrite Hvis', list_to_set_app_L. set_solver.
  - simpl. by rewrite Hout, <- app_assoc.
  - intros a b Ha Hb Hab.
    destruct (decide (b = v)) as [->|Hbv].
    { exists v. split; [|apply after_eq_refl; set_solver].
      split; [by apply Hreach|done]. }
    assert (HbM : b ∈ M') by set_solver.
    destruct (decide (a = v)) as [->|Hav].
    { exists v. split; [split; by apply ra_refl|]. apply after_eq_cross; [done|by left]. }
    assert (HaM : a ∈ M') by set_solver.
    destruct (ra_through adj_rel (ps_visited st) v a b Hab) as [Hab'|Hav'].
    + destruct (Hok' a b HaM HbM Hab') as (a' & Hmut & Haft).
      exists a'. split; [|by apply after_eq_app_l].
      eapply mutual_avoid_mono; [|done]. set_solver.
    + exists v. split; [|apply after_eq_cross; [done|by left]].
      split; [by apply Hreach|done].
Qed.

(** *** The second pass *)

Definition no_order (S : gset V) (N : list V) : Prop := True.

Lemma second_pass_spec (n : nat) : call_ok (dfs_second_pass n) no_order n.
Proof.
  induction n as [|n IHn]; intros v st Hview Hv Hvis Hfuel.
  { pose proof (remaining_add v _ Hv Hvis). lia. }
  set (T0 := {[v]} ∪ ps_visited st).
  set (s1 := mkPass (dd_touch (ps_adj st) v) T0 (ps_out st ++ [v])).
  destruct (pass_loop (dfs_second_pass n) no_order (λ _ _ _ _ _ _ _ _ _ _, I) n IHn
              (adj_of (ps_adj st) v) T0 [] s1)
    as (st' & M' & Hrun & Hinv' & _ & Hout & Hch).
  { split; simpl.
    - intros u. simpl. by rewrite adj_of_touch, Hview.
    - set_solver.
    - constructor.
    - by intros y ?%elem_of_nil.
    - by intros a b ?%elem_of_nil. }
  { done. }
  { intros [u w] He. rewrite Hview in He. by eapply HA. }
  { simpl. pose proof (remaining_add v _ Hv Hvis). unfold T0. lia. }
  simpl in Hinv', Hch, Hout.
  assert (Hdef : dfs_second_pass (S n) v st
                 = for_each (pass_step (dfs_second_pass n)) (adj_of (ps_adj st) v) s1)
    by reflexivity.
  rewrite Hdef. clear Hdef.
  destruct Hinv' as [Hview' Hvis' Hnd' Hfr' Hcl'].
  assert (HvM : v ∉ M') by (intros Hin%Hfr'; set_solver).
  exists st', (v :: M'). split; [done|]. split; [|split; [|done]].
  - split; [done| |by apply NoDup_cons|].
    + rewrite Hvis'. set_solver.
    + intros y. split.
      * intros [->|Hy]%elem_of_cons; [by apply ra_refl|].
        apply Hch in Hy as [?%elem_of_nil|([u w] & He & Hy)]; [done|].
        eapply ra_step; [done|exists w; by rewrite <- Hview|].
        eapply ra_mono; [|done]. set_solver.
      * intros [->|(u & [w Hu] & Hy)]%ra_split; [by left|]. right.
        apply Hch. right. exists (u, w). split; [by rewrite Hview|done].
  - rewrite Hout. simpl. by rewrite <- app_assoc.
Qed.

End PassProof.

Lemma reach_avoid_ext {V : Type} `{Countable V} (E E' : V → V → Prop) (S : gset V) (x y : V) :
  (∀ a b, E a b → E' a b) → reach_avoid E S x y → reach_avoid E' S x y.
Proof.
  intros HE. induction 1 as [x Hx|x z y Hx Hxz _ IH]; [by apply ra_refl|].
  eapply ra_step; [done|by apply HE|done].
Qed.

Lemma NoDup_split_unique {A : Type} (l1 l2 l1' l2' : list A) (b : A) :
  NoDup (l1 ++ b :: l2) → l1 ++ b :: l2 = l1' ++ b :: l2' → l2 = l2'.
Proof.
  revert l1'. induction l1 as [|a l1 IH]; intros l1' Hnd Heq.
  - destruct l1' as [|c l1']; simpl in Heq; [congruence|].
    injection Heq as <- ->. apply NoDup_cons in Hnd as [Hb _].
    destruct Hb. apply elem_of_app. right. by left.
  - destruct l1' as [|c l1']; simpl in Heq.
    + injection Heq as -> _. apply NoDup_cons in Hnd as [Hb _].
      destruct Hb. apply elem_of_app. right. by left.
    + injection Heq as _ Heq. apply NoDup_cons in Hnd as [_ Hnd]. by eapply IH.
Qed.

(** ** find_scc *)

Section SccSpec.

Context {V : Type} `{Countable V}.

(** Each of the two vertices is reachable from the other along edges. *)
Definition mutually_reachable (g : Graph (V := V)) (u v : V) : Prop :=
  rtc (graph_edge g) u v ∧ rtc (graph_edge g) v u.

(** The components list every vertex exactly once, and two vertices share a
    component exactly when they are mutually reachable. *)
Definition scc_partition (g : Graph (V := V)) (sccs : list (list V)) : Prop :=
  mjoin sccs ≡ₚ elements (vertices g)
  ∧ ∀ u v, u ∈ vertices g → v ∈ vertices g →
      (∃ c, c ∈ sccs ∧ u ∈ c ∧ v ∈ c) ↔ mutually_reachable g u v.

End SccSpec.

Section ReverseGraph.

Context {V : Type} `{Countable V}.

Lemma reverse_edges_spec (x : V) (nbrs : list (V * Z)) (rev : gmap V (list (V * Z)))
    (v u : V) (w : Z) :
  (u, w) ∈ adj_of
    (fold_left (λ (rev : gmap V (list (V * Z))) (e : V * Z), dd_append rev e.1 (x, e.2))
       nbrs rev) v
  ↔ (u, w) ∈ adj_of rev v ∨ (u = x ∧ (v, w) ∈ nbrs).
Proof.
  revert rev. induction nbrs as [|[n c] nbrs IH]; intros rev; simpl.
  - split; [by left|]. intros [?|[_ ?%elem_of_nil]]; done.
  - rewrite IH, adj_of_append. simpl. destruct (decide (n = v)) as [->|Hne].
    + rewrite elem_of_app, list_elem_of_singleton, elem_of_cons. split.
      * intros [[?|[= -> ->]]|[-> ?]]; eauto.
      * intros [?|[-> [[= ->]|?]]]; eauto.
    + rewrite elem_of_cons. split.
      * intros [?|[-> ?]]; eauto.
      * intros [?|[-> [[= -> ->]|?]]]; eauto. done.
Qed.

Lemma reverse_graph_spec (vs : list V) (d rev : gmap V (list (V * Z))) (v u : V) (w : Z) :
  (u, w) ∈ adj_of (fold_left reverse_vertex vs (d, rev)).2 v
  ↔ (u, w) ∈ adj_of rev v ∨ (u ∈ vs ∧ (v, w) ∈ adj_of d u).
Proof.
  revert d rev. induction vs as [|x vs IH]; intros d rev; simpl.
  - split; [by left|]. intros [?|[?%elem_of_nil _]]; done.
  - unfold reverse_vertex at 2. simpl. rewrite IH, reverse_edges_spec, elem_of_cons.
    setoid_rewrite adj_of_touch. split.
    + intros [[?|[-> ?]]|[? ?]]; eauto.
    + intros [?|[[->|?] ?]]; eauto.
Qed.

End ReverseGraph.

Section Kosaraju.

Context {V : Type} `{Countable V}.
Context (g : Graph (V := V)) (Hwf : wf_graph g).
Context (vs : list V) (Hvs : get_vertices g vs).

Lemma vs_vertices (v : V) : v ∈ vs ↔ v ∈ vertices g.
Proof. unfold get_vertices in Hvs. rewrite Hvs. apply elem_of_elements. Qed.

Lemma adj_list_vertices (u v : V) (w : Z) :
  (v, w) ∈ adj_of (adj_list g) u → v ∈ vertices g.
Proof. intros Hin. apply (adj_edge_vertices g Hwf u v). by exists w. Qed.

Lemma rtc_adj_edge_vertices (x y : V) :
  rtc (adj_edge g) x y → x ∈ vertices g → y ∈ vertices g.
Proof.
  induction 1 as [x|x z y Hxz _ IH]; [done|]. intros _. apply IH.
  by apply (adj_edge_vertices g Hwf x z).
Qed.

Lemma first_roots_as_loop (fuel : nat) (l : list V) (st : pass_state) :
  for_each (first_pass_root fuel) l st
  = for_each (pass_step (dfs_first_pass fuel)) ((λ v, (v, 0%Z)) <$> l) st.
Proof.
  revert st. induction l as [|v l IH]; intros st; simpl; [done|].
  unfold first_pass_root at 1, pass_step at 1. simpl.
  destruct (decide _); [apply IH|]. destruct (dfs_first_pass _ _ _); [apply IH|done].
Qed.

(** The first loop of [find_scc] visits every vertex once and leaves them in
    an order that [finish_ok] describes. *)
Lemma first_loop_spec (fuel : nat) :
  size (vertices g) ≤ fuel →
  ∃ p1, for_each (first_pass_root fuel) vs (mkPass (adj_list g) ∅ []) = Some p1
    ∧ pass_view (adj_of (adj_list g)) p1
    ∧ NoDup (ps_out p1)
    ∧ (∀ v, v ∈ ps_out p1 ↔ v ∈ vertices g)
    ∧ finish_ok (adj_of (adj_list g)) ∅ (ps_out p1).
Proof.
  intros Hfuel. rewrite first_roots_as_loop.
  destruct (pass_loop (adj_of (adj_list g)) (vertices g) adj_list_vertices
              (dfs_first_pass fuel) (finish_ok (adj_of (adj_list g)))
              (finish_ok_extend (adj_of (adj_list g)) (vertices g) adj_list_vertices)
              fuel (first_pass_spec _ _ adj_list_vertices fuel)
              ((λ v, (v, 0%Z)) <$> vs) ∅ [] (mkPass (adj_list g) ∅ []))
    as (p1 & M & Hrun & Hinv & Hok & Hout & Hch).
  - split; simpl; [done|set_solver|constructor|by intros y ?%elem_of_nil|].
    by intros a b ?%elem_of_nil.
  - by intros a b ?%elem_of_nil.
  - intros e (v & -> & Hv)%list_elem_of_fmap. simpl. by apply vs_vertices.
  - simpl. etrans; [|exact Hfuel]. unfold remaining. apply subseteq_size. set_solver.
  - simpl in *. subst M. exists p1. split; [done|]. destruct Hinv as [Hview Hvis Hnd Hfr Hcl].
    split; [done|]. split; [done|]. split; [|done]. intros v. rewrite Hch. split.
    + intros [?%elem_of_nil|(e & (u & -> & Hu)%list_elem_of_fmap & Hre)]; [done|].
      simpl in Hre. apply vs_vertices in Hu. apply ra_rtc in Hre.
      by eapply rtc_adj_edge_vertices.
    + intros Hv. right. exists (v, 0%Z). split.
      * apply list_elem_of_fmap. exists v. split; [done|by apply vs_vertices].
      * apply ra_refl. set_solver.
Qed.

(** The adjacency lists of the reversed graph. *)
Lemma reverse_graph_edges (d : gmap V (list (V * Z))) (v u : V) :
  (∀ x, adj_of d x = adj_of (adj_list g) x) →
  adj_rel (adj_of (reverse_graph vs d).2) v u ↔ adj_edge g u v.
Proof.
  intros Hd. unfold adj_rel, adj_edge, reverse_graph.
  setoid_rewrite reverse_graph_spec. setoid_rewrite Hd. split.
  - intros [w [?%elem_of_nil|[_ Hw]]]; [done|]. by exists w.
  - intros [w Hw]. exists w. right. split; [|done].
    apply vs_vertices. apply (adj_edge_vertices g Hwf u v). by exists w.
Qed.

Lemma reverse_graph_vertices (d : gmap V (list (V * Z))) (v u : V) (w : Z) :
  (∀ x, adj_of d x = adj_of (adj_list g) x) →
  (u, w) ∈ adj_of (reverse_graph vs d).2 v → u ∈ vertices g.
Proof.
  intros Hd Hin. assert (Hr : adj_rel (adj_of (reverse_graph vs d).2) v u) by by exists w.
  apply reverse_graph_edges in Hr; [|done]. by apply (adj_edge_vertices g Hwf u v).
Qed.

(** The vertices that reach each other along adjacency entries. *)
Definition adj_mutual (u v : V) : Prop := rtc (adj_edge g) u v ∧ rtc (adj_edge g) v u.

(** The invariant of the second loop of [find_scc]. *)
Record scc_inv (rev0 : gmap V (list (V * Z)))
    (st : gmap V (list (V * Z)) * gset V * list (list V)) : Prop := mk_scc_inv {
  si_view : ∀ u, adj_of st.1.1 u = adj_of rev0 u;
  si_visited : st.1.2 = list_to_set (mjoin st.2);
  si_nodup : NoDup (mjoin st.2);
  si_vertices : st.1.2 ⊆ vertices g;
  si_scc : ∀ c, c ∈ st.2 → ∃ r, ∀ y, y ∈ c ↔ adj_mutual r y
}.

Lemma scc_inv_closed rev0 st (x y : V) :
  scc_inv rev0 st → x ∈ st.1.2 → adj_mutual x y → y ∈ st.1.2.
Proof.
  intros [_ Hvis _ _ Hscc]. rewrite Hvis, !elem_of_list_to_set, !list_elem_of_join.
  intros (c & Hx & Hc) [Hxy Hyx]. exists c. split; [|done].
  destruct (Hscc c Hc) as [r Hr]. apply Hr. apply Hr in Hx as [Hrx Hxr].
  split; by etrans.
Qed.

Lemma second_loop_spec (fuel : nat) (rev0 : gmap V (list (V * Z))) (L : list V) :
  size (vertices g) ≤ fuel →
  (∀ v u, adj_rel (adj_of rev0) v u ↔ adj_edge g u v) →
  NoDup L → (∀ v, v ∈ L ↔ v ∈ vertices g) →
  finish_ok (adj_of (adj_list g)) ∅ L →
  ∀ P Sfx st,
    L = P ++ Sfx → scc_inv rev0 st → (∀ x, x ∈ Sfx → x ∈ st.1.2) →
    ∃ st', for_each (second_pass_root fuel) (reverse P) st = Some st'
      ∧ scc_inv rev0 st' ∧ ∀ x, x ∈ L → x ∈ st'.1.2.
Proof.
  intros Hfuel Hrev HndL HL Hfin P.
  assert (HA : ∀ u v w, (v, w) ∈ adj_of rev0 u → v ∈ vertices g).
  { intros u v w Hin. apply (adj_edge_vertices g Hwf v u). apply Hrev. by exists w. }
  induction P as [|r P IH] using rev_ind; intros Sfx st HLeq Hinv Hsfx.
  { exists st. split; [done|]. split; [done|]. intros x. rewrite HLeq. apply Hsfx. }
  rewrite reverse_snoc. simpl. rewrite <- app_assoc in HLeq. simpl in HLeq.
  destruct st as [[rev W] sccs]. simpl in Hsfx. unfold second_pass_root at 1.
  destruct (decide (r ∈ W)) as [HrW|HrW].
  { apply (IH (r :: Sfx)); [done|done|]. intros x [->|?]%elem_of_cons; [done|by apply Hsfx]. }
  destruct (second_pass_spec (adj_of rev0) (vertices g) HA fuel r (mkPass rev W []))
    as (s1 & N & Hrun & [Hview1 Hvis1 Hnd1 Hreach1] & Hout & _).
  { intros u. apply (si_view _ _ Hinv). }
  { apply HL. rewrite HLeq. apply elem_of_app. right. by left. }
  { done. }
  { simpl. etrans; [|exact Hfuel]. unfold remaining. apply subseteq_size. set_solver. }
  rewrite Hrun. simpl in *. subst N.
  assert (Hscc : ∀ y, y ∈ ps_out s1 ↔ adj_mutual r y).
  { intros y. rewrite Hreach1. split.
    - intros Hry. pose proof (ra_dst _ _ _ _ Hry) as HyW.
      assert (Hyr : reach_avoid (adj_edge g) W y r).
      { apply reach_avoid_flip. eapply reach_avoid_ext; [|exact Hry].
        intros a b. apply Hrev. }
      assert (HrL : r ∈ L) by (rewrite HLeq; apply elem_of_app; right; by left).
      assert (HyL : y ∈ L).
      { apply HL. apply ra_rtc in Hyr. apply HL in HrL.
        destruct (decide (y = r)) as [->|Hne]; [done|].
        apply rtc_inv in Hyr as [->|(z & Hyz & _)]; [done|].
        by apply (adj_edge_vertices g Hwf y z). }
      destruct (Hfin y r HyL HrL) as (y' & [Hy'y Hyy'] & l1 & l2 & HLs & Hy').
      { eapply ra_mono; [|exact Hyr]. set_solver. }
      assert (l2 = Sfx) as ->.
      { eapply NoDup_split_unique; [|by rewrite <- HLs]. by rewrite <- HLs. }
      apply ra_rtc in Hy'y, Hyy', Hyr.
      apply elem_of_cons in Hy' as [->|Hy']; [by split|].
      destruct HyW. apply (scc_inv_closed rev0 (rev, W, sccs) y' y); [done| |by split].
      by apply Hsfx.
    - intros [Hry Hyr]. eapply reach_avoid_ext; [intros a b; apply Hrev|].
      apply (reach_avoid_flip (flip (adj_edge g))).
      eapply (reach_avoid_ext (adj_edge g)); [done|].
      apply rtc_ra_scc; [|done]. intros z Hyz Hzr HzW. apply HrW.
      apply (scc_inv_closed rev0 (rev, W, sccs) z r); [done|done|].
      split; [done|by etrans]. }
  apply (IH (r :: Sfx)); [done| |].
  - destruct Hinv as [Hv Hvis Hnd Hsub Hs]. simpl in *. split; simpl.
    + done.
    + rewrite Hvis1, Hvis, join_app, list_to_set_app_L. simpl. by rewrite app_nil_r.
    + rewrite join_app. simpl. rewrite app_nil_r. apply NoDup_app.
      split; [done|]. split; [|done]. intros y Hy Hy'%Hreach1%ra_dst.
      apply Hy'. rewrite Hvis. by apply elem_of_list_to_set.
    + rewrite Hvis1. intros y [Hy|Hy%elem_of_list_to_set%Hscc]%elem_of_union; [by apply Hsub|].
      destruct Hy as [Hry _]. eapply rtc_adj_edge_vertices; [done|].
      apply HL. rewrite HLeq. apply elem_of_app. right. by left.
    + intros c [Hc|Hc%list_elem_of_singleton]%elem_of_app; [by apply Hs|].
      subst c. by exists r.
  - simpl. intros x [->|Hx]%elem_of_cons.
    + rewrite Hvis1. apply elem_of_union_r, elem_of_list_to_set, Hscc. by split.
    + rewrite Hvis1. apply elem_of_union_l. by apply Hsfx.
Qed.

Lemma rtc_adj_edge_directed (u v : V) :
  directed g = true → rtc (adj_edge g) u v ↔ rtc (graph_edge g) u v.
Proof.
  intros Hd. split; induction 1 as [x|x y z Hxy _ IH]; try done.
  - eapply rtc_l; [|done]. by apply (adj_edge_directed g Hwf).
  - eapply rtc_l; [|done]. by apply (adj_edge_directed g Hwf).
Qed.

Lemma find_scc_run :
  directed g = true →
  ∃ sccs a', find_scc (AGA_init g vs) (size (vertices g)) = Some (sccs, a')
    ∧ scc_partition g sccs.
Proof.
  intros Hd. unfold find_scc. simpl.
  destruct (first_loop_spec (size (vertices g))) as (p1 & Hrun1 & Hview1 & Hnd1 & HL & Hfin);
    [done|].
  rewrite Hrun1. simpl.
  pose proof (reverse_graph_edges (ps_adj p1)) as Hrev.
  destruct (reverse_graph vs (ps_adj p1)) as [d rev] eqn:Hrg. simpl in Hrev.
  destruct (second_loop_spec (size (vertices g)) rev (ps_out p1))
    with (P := ps_out p1) (Sfx := @nil V) (st := (rev, (∅ : gset V), @nil (list V)))
    as ([[rev' W] sccs] & Hrun2 & Hinv & Hall); try done.
  { intros v u. by apply Hrev. }
  { by rewrite app_nil_r. }
  { split; simpl; [done|done|constructor|set_solver|by intros c ?%elem_of_nil]. }
  { by intros x ?%elem_of_nil. }
  rewrite Hrun2. simpl. do 2 eexists. split; [done|].
  destruct Hinv as [_ Hvis Hnd Hsub Hscc]. simpl in *.
  assert (Hcover : ∀ x, x ∈ mjoin sccs ↔ x ∈ vertices g).
  { intros x. split.
    - intros Hx. apply Hsub. rewrite Hvis. by apply elem_of_list_to_set.
    - intros Hx%HL%Hall. rewrite Hvis in Hx. by apply elem_of_list_to_set in Hx. }
  split.
  - apply NoDup_Permutation; [done|apply NoDup_elements|].
    intros x. by rewrite Hcover, elem_of_elements.
  - intros u v Hu Hv. unfold mutually_reachable.
    rewrite <- !(rtc_adj_edge_directed _ _ Hd). split.
    + intros (c & Hc & Huc & Hvc). destruct (Hscc c Hc) as [r Hr].
      apply Hr in Huc as [Hru Hur]. apply Hr in Hvc as [Hrv Hvr].
      split; by etrans.
    + intros [Huv Hvu]. apply Hcover, list_elem_of_join in Hu as (c & Huc & Hc).
      exists c. split; [done|]. split; [done|].
      destruct (Hscc c Hc) as [r Hr]. apply Hr. apply Hr in Huc as [Hru Hur].
      split; by etrans.
Qed.

End Kosaraju.

Section KosarajuFuel.

Context {V : Type} `{Countable V}.

Lemma for_each_mono {A S : Type} (f f' : A → S → option S) (l : list A) (s s' : S) :
  (∀ x t t', f x t = Some t' → f' x t = Some t') →
  for_each f l s = Some s' → for_each f' l s = Some s'.
Proof.
  intros Hf. revert s. induction l as [|x l IH]; intros s; simpl; [done|].
  destruct (f x s) as [t|] eqn:Hx; [|done]. rewrite (Hf _ _ _ Hx). apply IH.
Qed.

Lemma dfs_first_pass_mono (n m : nat) (v : V) (st st' : pass_state) :
  dfs_first_pass n v st = Some st' → n ≤ m → dfs_first_pass m v st = Some st'.
Proof.
  revert m v st st'. induction n as [|n IH]; intros m v st st' Hrun Hle; [done|].
  destruct m as [|m]; [lia|]. simpl in *.
  destruct (for_each _ _ _) as [s1|] eqn:Hloop; [|done].
  erewrite for_each_mono; [exact Hrun| |exact Hloop].
  intros e t t'. simpl. destruct (decide _); [done|]. intros Ht. apply IH; [done|lia].
Qed.

Lemma dfs_second_pass_mono (n m : nat) (v : V) (st st' : pass_state) :
  dfs_second_pass n v st = Some st' → n ≤ m → dfs_second_pass m v st = Some st'.
Proof.
  revert m v st st'. induction n as [|n IH]; intros m v st st' Hrun Hle; [done|].
  destruct m as [|m]; [lia|]. simpl in *.
  eapply for_each_mono; [|exact Hrun].
  intros e t t'. simpl. destruct (decide _); [done|]. intros Ht. apply IH; [done|lia].
Qed.

Lemma find_scc_mono (a : AdvancedGraphAlgorithms) (n m : nat)
    (r : list (list V) * AdvancedGraphAlgorithms) :
  find_scc a n = Some r → n ≤ m → find_scc a m = Some r.
Proof.
  unfold find_scc. intros Hrun Hle.
  destruct (for_each (first_pass_root n) _ _) as [p1|] eqn:Hp1; [|done].
  erewrite (for_each_mono (first_pass_root n)); [| |exact Hp1].
  2:{ intros v t t'. unfold first_pass_root. destruct (decide _); [done|].
      intros Ht. by eapply dfs_first_pass_mono. }
  simpl in *. destruct (reverse_graph _ _) as [d rev].
  destruct (for_each (second_pass_root n) _ _) as [p2|] eqn:Hp2; [|done].
  erewrite (for_each_mono (second_pass_root n)); [exact Hrun| |exact Hp2].
  intros v [[rv W] sccs] t'. unfold second_pass_root.
  destruct (decide _); [done|].
  destruct (dfs_second_pass n _ _) as [s|] eqn:Hs; [|done].
  by rewrite (dfs_second_pass_mono _ _ _ _ _ Hs Hle).
Qed.

(** C6.  On a directed graph (in the state that [add_vertex] and [add_edge]
    leave it in) [find_scc] returns, and the components it returns list every
    vertex of the graph exactly once, two vertices being in the same
    component exactly when each is reachable from the other. *)
Theorem find_scc_correct (g : Graph (V := V)) (vs : list V) :
  wf_graph g → directed g = true → get_vertices g vs →
  (∃ r, returns (find_scc (AGA_init g vs)) r)
  ∧ ∀ sccs a', returns (find_scc (AGA_init g vs)) (sccs, a') → scc_partition g sccs.
Proof.
  intros Hwf Hd Hvs.
  destruct (find_scc_run g Hwf vs Hvs Hd) as (sccs0 & a0 & Hrun & Hres).
  split; [by exists (sccs0, a0), (size (vertices g))|].
  intros sccs a' [n Hn].
  apply (find_scc_mono _ _ (n `max` size (vertices g))) in Hn; [|lia].
  apply (find_scc_mono _ _ (n `max` size (vertices g))) in Hrun; [|lia].
  congruence.
Qed.

End KosarajuFuel.

(** The demonstration graph of [advanced_graph_algorithms.py]'s [main] for
    the strongly connected components. *)
Definition scc_graph : Graph (V := string) :=
  build true
    [AddEdge "A" "B" 1; AddEdge "B" "C" 1; AddEdge "C" "A" 1; AddEdge "B" "D" 1;
     AddEdge "D" "E" 1; AddEdge "E" "F" 1; AddEdge "F" "D" 1; AddEdge "G" "F" 1;
     AddEdge "G" "H" 1; AddEdge "H" "I" 1; AddEdge "I" "J" 1; AddEdge "J" "G" 1]%string%Z.

Lemma find_scc_correct_witness :
  (∃ r, returns (find_scc (AGA_init scc_graph (elements (vertices scc_graph)))) r)
  ∧ ∀ sccs a',
      returns (find_scc (AGA_init scc_graph (elements (vertices scc_graph)))) (sccs, a') →
      scc_partition scc_graph sccs.
Proof.
  apply (find_scc_correct scc_graph (elements (vertices scc_graph))).
  - apply wf_graph_build.
  - reflexivity.
  - unfold get_vertices. reflexivity.
Defined.

(** ** Minimum spanning trees *)

Section Connectivity.

Context {V : Type} `{Countable V}.
Implicit Types (F T : list (V * V * Z)).

(** Two vertices are joined by an edge of the list. *)
Definition edge_rel F (u v : V) : Prop := ∃ w, (u, v, w) ∈ F.

(** Two vertices are connected by edges of the list, taken in either
    direction. *)
Definition conn F : relation V := rtsc (edge_rel F).

Definition weight F : Z := foldr (λ e acc, (e.2 + acc)%Z) 0%Z F.

Lemma weight_app F T : weight (F ++ T) = (weight F + weight T)%Z.
Proof. induction F as [|e F IH]; simpl; [done|]. rewrite IH. lia. Qed.

Lemma weight_perm F T : F ≡ₚ T → weight F = weight T.
Proof. induction 1; simpl; lia. Qed.

#[local] Instance conn_equiv F : Equivalence (conn F).
Proof. apply rtsc_equivalence. Qed.

Lemma conn_edge F (u v : V) (w : Z) : (u, v, w) ∈ F → conn F u v.
Proof. intros Hin. apply rtsc_lr. by exists w. Qed.

(** Connectivity transfers along any map of edges to connections. *)
Lemma conn_sub F T (x y : V) :
  (∀ a b, edge_rel F a b → conn T a b) → conn F x y → conn T x y.
Proof.
  intros Hsub. induction 1 as [x|x z y [Hxz|Hzx] _ IH]; [done| |].
  - etrans; [by apply Hsub|done].
  - etrans; [symmetry; by apply Hsub|done].
Qed.

Lemma conn_mono F T (x y : V) : (∀ e, e ∈ F → e ∈ T) → conn F x y → conn T x y.
Proof.
  intros Hsub. apply conn_sub. intros a b [w Hw]. eapply conn_edge. by apply Hsub.
Qed.

Lemma conn_perm F T (x y : V) : F ≡ₚ T → conn F x y ↔ conn T x y.
Proof.
  intros HFT. split; apply conn_mono; intros e; by rewrite HFT.
Qed.

Lemma conn_nil (x y : V) : conn [] x y → x = y.
Proof.
  induction 1 as [x|x z y [[w Hw]|[w Hw]] _ IH]; [done| |]; by apply elem_of_nil in Hw.
Qed.

(** What one more edge connects. *)
Lemma conn_cons F (a b : V) (w : Z) (x y : V) :
  conn ((a, b, w) :: F) x y
  ↔ conn F x y ∨ (conn F x a ∧ conn F b y) ∨ (conn F x b ∧ conn F a y).
Proof.
  split.
  - induction 1 as [x|x z y Hxz _ IH]; [by left|].
    assert (Hstep : conn F x z ∨ (x = a ∧ z = b) ∨ (x = b ∧ z = a)).
    { destruct Hxz as [[c Hc]|[c Hc]]; apply elem_of_cons in Hc as [Hc|Hc].
      - injection Hc as -> -> ->. by right; left.
      - left. by eapply conn_edge.
      - injection Hc as -> -> ->. by right; right.
      - left. symmetry. by eapply conn_edge. }
    destruct Hstep as [Hstep|[[-> ->]|[-> ->]]].
    + destruct IH as [IH|[[IH1 IH2]|[IH1 IH2]]].
      * left. by etrans.
      * right; left. split; [by etrans|done].
      * right; right. split; [by etrans|done].
    + destruct IH as [IH|[[IH1 IH2]|[IH1 IH2]]].
      * right; left. by split.
      * right; left. by split.
      * by left.
    + destruct IH as [IH|[[IH1 IH2]|[IH1 IH2]]].
      * right; right. by split.
      * by left.
      * right; right. by split.
  - assert (Hab : conn ((a, b, w) :: F) a b) by (eapply conn_edge; left).
    assert (Hm : ∀ u v, conn F u v → conn ((a, b, w) :: F) u v).
    { intros u v. apply conn_mono. intros e He. by right. }
    intros [Hxy|[[Hxa Hby]|[Hxb Hay]]].
    + by apply Hm.
    + etrans; [by apply Hm|]. etrans; [done|by apply Hm].
    + etrans; [by apply Hm|]. etrans; [symmetry; done|by apply Hm].
Qed.

(** A list of distinct vertices, each connected to one of [reps], is no
    longer than the edges and the representatives together. *)
Lemma conn_count T (reps X : list V) :
  NoDup X → (∀ x, x ∈ X → ∃ r, r ∈ reps ∧ conn T x r) →
  length X ≤ length T + length reps.
Proof.
  revert reps. induction T as [|[[a b] w] T IH]; intros reps Hnd Hrep.
  - simpl. apply submseteq_length, NoDup_submseteq; [done|].
    intros x Hx. destruct (Hrep x Hx) as (r & Hr & ->%conn_nil). done.
  - destruct (classic (∃ r, r ∈ reps ∧ conn T b r)) as [(rb & Hrb & Hb)|Hnb].
    + specialize (IH (a :: reps) Hnd). simpl in *. etrans; [apply IH|lia].
      intros x Hx. destruct (Hrep x Hx) as (r & Hr & [Hxr|[[Hxa _]|[Hxb _]]]%conn_cons).
      * exists r. split; [by right|done].
      * exists a. split; [by left|done].
      * exists rb. split; [by right|by etrans].
    + specialize (IH (b :: reps) Hnd). simpl in *. etrans; [apply IH|lia].
      intros x Hx. destruct (Hrep x Hx) as (r & Hr & [Hxr|[[_ Hbr]|[Hxb _]]]%conn_cons).
      * exists r. split; [by right|done].
      * destruct Hnb. eauto.
      * exists b. split; [by left|done].
Qed.

(** *** Simple paths *)

(** [upath F x p z]: stepping along edges of [F], in either direction, from
    [x] through the vertices [p] in turn ends at [z]. *)
Inductive upath F : V → list V → V → Prop :=
| upath_nil x : upath F x [] x
| upath_cons x y p z : sc (edge_rel F) x y → upath F y p z → upath F x (y :: p) z.

Lemma upath_conn F (x z : V) (p : list V) : upath F x p z → conn F x z.
Proof.
  induction 1 as [x|x y p z Hxy _ IH]; [done|]. etrans; [|done].
  by apply rtc_once.
Qed.

Lemma upath_suffix F (x z y : V) (p1 p2 : list V) :
  upath F x (p1 ++ y :: p2) z → upath F y p2 z.
Proof.
  revert x. induction p1 as [|u p1 IH]; intros x Hp; inversion Hp; subst; [done|].
  by eapply IH.
Qed.

Lemma conn_simple_path F (x z : V) :
  conn F x z → ∃ p, upath F x p z ∧ NoDup (x :: p).
Proof.
  induction 1 as [x|x y z Hxy _ (p & Hp & Hnd)].
  { exists []. split; [constructor|apply NoDup_singleton]. }
  destruct (decide (x ∈ y :: p)) as [Hin|Hnin].
  - apply elem_of_cons in Hin as [->|Hin]; [by exists p|].
    apply list_elem_of_split in Hin as (p1 & p2 & ->).
    exists p2. split; [by eapply upath_suffix|].
    apply NoDup_cons in Hnd as [_ Hnd]. by apply NoDup_app in Hnd as (_ & _ & ?).
  - exists (y :: p). split; [by econstructor|by apply NoDup_cons].
Qed.

(** A path all of whose vertices avoid an endpoint of the edge [e] does not
    need [e]. *)
Lemma upath_without F T (e : V * V * Z) (x z : V) (p : list V) :
  F ≡ₚ e :: T → upath F x p z →
  (e.1.1 ∉ x :: p) ∨ (e.1.2 ∉ x :: p) → upath T x p z.
Proof.
  intros HF Hp. induction Hp as [x|x y p z Hxy _ IH]; intros Hav; [constructor|].
  econstructor.
  - destruct e as [[a b] w]. simpl in Hav.
    assert (Hne : ¬ ((a = x ∧ b = y) ∨ (a = y ∧ b = x))).
    { intros [[-> ->]|[-> ->]]; destruct Hav as [Hav|Hav]; apply Hav; set_solver. }
    destruct Hxy as [[c Hc]|[c Hc]]; rewrite HF in Hc;
      apply elem_of_cons in Hc as [Hc|Hc].
    + injection Hc as <- <- <-. destruct Hne. by left.
    + left. by exists c.
    + injection Hc as <- <- <-. destruct Hne. by right.
    + right. by exists c.
  - apply IH. destruct Hav as [Hav|Hav]; [left|right]; set_solver.
Qed.

Lemma upath_end_in F (x z : V) (p : list V) : upath F x p z → z ∈ x :: p.
Proof.
  induction 1 as [x|x y p z _ _ IH]; [by left|]. by right.
Qed.

(** A path that starts inside a set [C] and ends outside it steps over the
    border of [C] somewhere. *)
Lemma upath_crossing F (C : V → Prop) (x z : V) (p : list V) :
  upath F x p z → C x → ¬ C z →
  ∃ a b p1 p2,
    p = p1 ++ b :: p2 ∧ C a ∧ ¬ C b ∧ sc (edge_rel F) a b
    ∧ upath F x p1 a ∧ upath F b p2 z.
Proof.
  induction 1 as [x|x y p z Hxy Hp IH]; intros Hx Hz; [done|].
  destruct (classic (C y)) as [Hy|Hy].
  - destruct (IH Hy Hz) as (a & b & p1 & p2 & -> & Ha & Hb & Hab & Hp1 & Hp2).
    exists a, b, (y :: p1), p2. split_and!; try done. by econstructor.
  - exists x, y, [], p. split_and!; try done. constructor.
Qed.

End Connectivity.

Section SpanningTrees.

Context {V : Type} `{Countable V}.
Context (g : Graph (V := V)).
Implicit Types (F T : list (V * V * Z)).

(** [e] is an edge of the graph, in the orientation it was added in or the
    other one. *)
Definition edge_of (e : V * V * Z) : Prop :=
  e ∈ edges g ∨ (e.1.2, e.1.1, e.2) ∈ edges g.

(** A spanning tree of the graph: edges of the graph, one fewer than there
    are vertices, that connect all vertices. *)
Record spanning_tree T : Prop := mk_spanning_tree {
  st_edges : ∀ e, e ∈ T → edge_of e;
  st_size : length T + 1 = size (vertices g);
  st_spans : ∀ u v, u ∈ vertices g → v ∈ vertices g → conn T u v
}.

(** Every spanning tree can be traded for one that is no heavier and
    contains [F]. *)
Definition promising F : Prop :=
  ∀ T, spanning_tree T →
    ∃ T' rest, spanning_tree T' ∧ (weight T' ≤ weight T)%Z ∧ T' ≡ₚ F ++ rest.

(** The edge has exactly one endpoint in [C]. *)
Definition crosses (C : V → Prop) (e : V * V * Z) : Prop :=
  (C e.1.1 ∧ ¬ C e.1.2) ∨ (C e.1.2 ∧ ¬ C e.1.1).

Lemma promising_nil : promising [].
Proof. intros T HT. exists T, T. by split_and!. Qed.

(** The cut property: a lightest edge across a cut that [F] respects can be
    added to [F]. *)
Lemma promising_add F (C : V → Prop) (e : V * V * Z) :
  promising F → (∀ f, f ∈ F → ¬ crosses C f) →
  edge_of e → e.1.1 ∈ vertices g → e.1.2 ∈ vertices g →
  C e.1.1 → ¬ C e.1.2 →
  (∀ f, edge_of f → crosses C f → (e.2 ≤ f.2)%Z) →
  promising (F ++ [e]).
Proof.
  intros Hprom HF He Hu Hv HCu HCv Hmin T HT.
  destruct (Hprom T HT) as (T' & rest & HT' & Hw & Hperm).
  destruct e as [[u v] w]. simpl in *.
  destruct (conn_simple_path T' u v) as (p & Hp & Hnd); [by apply (st_spans T' HT')|].
  destruct (upath_crossing T' C u v p Hp HCu HCv)
    as (a & b & p1 & p2 & -> & Ha & Hb & Hab & Hp1 & Hp2).
  assert (Hb1 : b ∉ u :: p1).
  { rewrite app_comm_cons in Hnd. apply NoDup_app in Hnd as (_ & Hdis & _).
    intros Hin. apply (Hdis b Hin). by left. }
  assert (Ha2 : a ∉ b :: p2).
  { rewrite app_comm_cons in Hnd. apply NoDup_app in Hnd as (_ & Hdis & _).
    apply Hdis. by eapply upath_end_in. }
  assert (He' : ∃ e', e' ∈ T' ∧ crosses C e'
                ∧ ((e'.1.1 = a ∧ e'.1.2 = b) ∨ (e'.1.1 = b ∧ e'.1.2 = a))).
  { destruct Hab as [[c Hc]|[c Hc]].
    - exists (a, b, c). split; [done|]. split; [by left|by left].
    - exists (b, a, c). split; [done|]. split; [by right|by right]. }
  destruct He' as (e' & He'T & Hcross & Hends).
  assert (He'r : e' ∈ rest).
  { rewrite Hperm in He'T. apply elem_of_app in He'T as [Hin|Hin]; [|done].
    by destruct (HF e' Hin). }
  apply elem_of_Permutation in He'r as [rest' Hrest].
  assert (HT0 : T' ≡ₚ e' :: (F ++ rest')).
  { rewrite Hperm, Hrest. by rewrite Permutation_middle. }
  set (T'' := (F ++ [(u, v, w)]) ++ rest').
  assert (Hsub : ∀ f, f ∈ F ++ rest' → f ∈ T'').
  { intros f. unfold T''. rewrite !elem_of_app. tauto. }
  assert (Hua : conn T'' u a).
  { eapply conn_mono; [exact Hsub|]. eapply upath_conn.
    eapply upath_without; [exact HT0|exact Hp1|].
    destruct Hends as [[_ ->]|[-> _]]; [by right|by left]. }
  assert (Hbv : conn T'' b v).
  { eapply conn_mono; [exact Hsub|]. eapply upath_conn.
    eapply upath_without; [exact HT0|exact Hp2|].
    destruct Hends as [[-> _]|[_ ->]]; [by left|by right]. }
  assert (Huv : conn T'' u v).
  { eapply conn_edge. unfold T''. rewrite !elem_of_app, list_elem_of_singleton. eauto. }
  assert (Hab' : conn T'' a b).
  { etrans; [symmetry; exact Hua|]. etrans; [exact Huv|]. symmetry. by symmetry. }
  exists T'', rest'. split; [|split; [|done]].
  - split.
    + intros f. unfold T''. rewrite !elem_of_app, list_elem_of_singleton.
      intros [[Hf| ->]|Hf]; [|done|]; apply (st_edges T' HT'); rewrite HT0; right;
        apply elem_of_app; [by left|by right].
    + rewrite <- (st_size T' HT'), HT0. unfold T''. simpl. rewrite !length_app. simpl. lia.
    + intros x y Hx Hy. eapply conn_sub; [|by apply (st_spans T' HT')].
      intros c d [k Hk]. rewrite HT0 in Hk. apply elem_of_cons in Hk as [Hk|Hk].
      * subst e'. simpl in Hends. destruct Hends as [[-> ->]|[-> ->]]; [done|by symmetry].
      * eapply conn_edge. by apply Hsub.
  - etrans; [|exact Hw]. rewrite (weight_perm _ _ HT0). unfold T''.
    simpl. rewrite !weight_app. simpl. specialize (Hmin e' (st_edges T' HT' e' He'T) Hcross).
    simpl in Hmin. lia.
Qed.

(** A spanning list of edges that a spanning tree contains is that tree. *)
Lemma promising_minimal F :
  promising F → (∀ u v, u ∈ vertices g → v ∈ vertices g → conn F u v) →
  (∀ e, e ∈ F → edge_of e) →
  (∃ T, spanning_tree T) →
  spanning_tree F ∧ ∀ T, spanning_tree T → (weight F ≤ weight T)%Z.
Proof.
  intros Hprom Hspan Hedges [T0 HT0].
  assert (Hlen : size (vertices g) ≤ length F + 1).
  { assert (size (vertices g) = length (elements (vertices g))) as -> by reflexivity.
    destruct (elements (vertices g)) as [|y l] eqn:Hel; [simpl; lia|].
    rewrite <- Hel. etrans; [apply (conn_count F [y])|simpl; lia].
    - apply NoDup_elements.
    - intros x Hx%elem_of_elements. exists y. split; [by left|].
      apply Hspan; [done|]. apply elem_of_elements. rewrite Hel. by left. }
  assert (Hsame : ∀ T, spanning_tree T →
            ∃ T', spanning_tree T' ∧ (weight T' ≤ weight T)%Z ∧ T' ≡ₚ F).
  { intros T HT. destruct (Hprom T HT) as (T' & rest & HT' & Hw & Hperm).
    exists T'. split; [done|]. split; [done|].
    pose proof (st_size T' HT') as Hsz. rewrite Hperm, length_app in Hsz.
    destruct rest; [by rewrite app_nil_r in Hperm|simpl in Hsz; lia]. }
  split.
  - destruct (Hsame T0 HT0) as (T' & HT' & _ & Hperm). split; [done| |done].
    by rewrite <- (st_size T' HT'), Hperm.
  - intros T HT. destruct (Hsame T HT) as (T' & _ & Hw & Hperm).
    by rewrite <- (weight_perm _ _ Hperm).
Qed.

End SpanningTrees.

(** *** The disjoint-set forest *)

Section DisjointSets.

Context {V : Type} `{Countable V}.
Context (Vs : gset V).

(** Following parent pointers from [x] ends at the root [r]. *)
Inductive ds_root (parent : gmap V V) : V → V → Prop :=
| root_self x : parent !! x = Some x → ds_root parent x x
| root_step x p r :
    parent !! x = Some p → p ≠ x → ds_root parent p r → ds_root parent x r.

Definition same_set (parent : gmap V V) (x y : V) : Prop :=
  ∃ r, ds_root parent x r ∧ ds_root parent y r.

Definition rank_of (ds : DisjointSet (V := V)) (x : V) : nat :=
  default 0 (ds_rank ds !! x).

(** Every vertex has a parent among the vertices and a rank of at most
    [bound], and ranks grow strictly along parent pointers. *)
Record ds_wf (bound : nat) (ds : DisjointSet (V := V)) : Prop := mk_ds_wf {
  dw_parent : ∀ v, v ∈ Vs → ∃ p, ds_parent ds !! v = Some p ∧ p ∈ Vs;
  dw_rank_dom : ∀ v, v ∈ Vs → is_Some (ds_rank ds !! v);
  dw_bound : ∀ v, rank_of ds v ≤ bound;
  dw_rank : ∀ x p, ds_parent ds !! x = Some p → p ≠ x → rank_of ds x < rank_of ds p
}.

Lemma ds_root_det (parent : gmap V V) (x r r' : V) :
  ds_root parent x r → ds_root parent x r' → r = r'.
Proof.
  induction 1 as [x Hx|x p r Hx Hne _ IH]; inversion 1; subst; try congruence.
  apply IH. congruence.
Qed.

Lemma ds_root_is_root (parent : gmap V V) (x r : V) :
  ds_root parent x r → parent !! r = Some r.
Proof. by induction 1. Qed.

Lemma ds_root_rank (bound : nat) (ds : DisjointSet) (x r : V) :
  ds_wf bound ds → ds_root (ds_parent ds) x r → x ≠ r → rank_of ds x < rank_of ds r.
Proof.
  intros Hwf. induction 1 as [x Hx|x p r Hx Hne Hp IH]; intros Hxr; [done|].
  pose proof (dw_rank bound ds Hwf x p Hx Hne).
  destruct (decide (p = r)) as [->|Hpr]; [done|]. specialize (IH Hpr). lia.
Qed.

Lemma ds_root_in (bound : nat) (ds : DisjointSet) (x r : V) :
  ds_wf bound ds → ds_root (ds_parent ds) x r → x ∈ Vs → r ∈ Vs.
Proof.
  intros Hwf. induction 1 as [x Hx|x p r Hx Hne Hp IH]; intros Hin; [done|].
  apply IH. destruct (dw_parent bound ds Hwf x Hin) as (p' & Hp' & Hin'). congruence.
Qed.

(** Redirecting [x] to its root keeps every root. *)
Lemma ds_root_compress (parent : gmap V V) (x r : V) :
  ds_root parent x r →
  ∀ y r', ds_root (<[x := r]> parent) y r' ↔ ds_root parent y r'.
Proof.
  intros Hxr. pose proof (ds_root_is_root _ _ _ Hxr) as Hr.
  destruct (decide (x = r)) as [->|Hne]; [by rewrite insert_id|].
  intros y r'. split.
  - induction 1 as [y Hy|y p r' Hy Hpy _ IH].
    + destruct (decide (x = y)) as [->|Hxy].
      * rewrite lookup_insert_eq in Hy. congruence.
      * rewrite lookup_insert_ne in Hy by done. by constructor.
    + destruct (decide (x = y)) as [->|Hxy].
      * rewrite lookup_insert_eq in Hy. injection Hy as <-.
        assert (r' = r) as -> by (eapply ds_root_det; [done|by constructor]). done.
      * rewrite lookup_insert_ne in Hy by done. by econstructor.
  - induction 1 as [y Hy|y p r' Hy Hpy Hp IH].
    + destruct (decide (x = y)) as [->|Hxy].
      * destruct Hne. eapply ds_root_det; [by constructor|done].
      * constructor. by rewrite lookup_insert_ne.
    + destruct (decide (x = y)) as [->|Hxy].
      * assert (r' = r) as -> by (eapply ds_root_det; [by econstructor|done]).
        eapply (root_step _ y r r); [by rewrite lookup_insert_eq|done|].
        constructor. by rewrite lookup_insert_ne.
      * eapply root_step; [by rewrite lookup_insert_ne|done|done].
Qed.

(** Hanging the root [ra] under the root [rb] moves the vertices of [ra]. *)
Lemma ds_root_link (parent : gmap V V) (ra rb : V) :
  parent !! ra = Some ra → parent !! rb = Some rb → ra ≠ rb →
  ∀ y r', ds_root (<[ra := rb]> parent) y r'
          ↔ (ds_root parent y r' ∧ r' ≠ ra) ∨ (ds_root parent y ra ∧ r' = rb).
Proof.
  intros Hra Hrb Hne y r'. split.
  - induction 1 as [y Hy|y p r' Hy Hpy _ IH].
    + destruct (decide (ra = y)) as [->|Hay].
      * rewrite lookup_insert_eq in Hy. congruence.
      * rewrite lookup_insert_ne in Hy by done. left. split; [by constructor|done].
    + destruct (decide (ra = y)) as [->|Hay].
      * rewrite lookup_insert_eq in Hy. injection Hy as <-. right.
        split; [by constructor|].
        destruct IH as [[Hb _]|[Hb _]].
        -- eapply ds_root_det; [done|by constructor].
        -- destruct Hne. eapply ds_root_det; [done|by constructor].
      * rewrite lookup_insert_ne in Hy by done.
        destruct IH as [[Hp Hr']|[Hp ->]]; [left|right]; (split; [by econstructor|done]).
  - intros [[Hy Hr']|[Hy ->]].
    + induction Hy as [y Hy|y p r' Hy Hpy _ IH].
      * constructor. by rewrite lookup_insert_ne.
      * eapply root_step; [|done|by apply IH].
        rewrite lookup_insert_ne; [done|]. intros <-. congruence.
    + remember ra as r0 eqn:Hr0 in Hy. induction Hy as [y Hy|y p r' Hy Hpy _ IH]; subst.
      * eapply (root_step _ ra rb rb); [by rewrite lookup_insert_eq|done|].
        constructor. by rewrite lookup_insert_ne.
      * eapply root_step; [|done|by apply IH].
        rewrite lookup_insert_ne; [done|]. intros <-. congruence.
Qed.

Lemma same_set_refl (bound : nat) (ds : DisjointSet) (x : V) :
  ds_wf bound ds → x ∈ Vs → same_set (ds_parent ds) x x.
Proof.
  intros Hwf Hx. cut (∃ r, ds_root (ds_parent ds) x r); [intros [r Hr]; by exists r|].
  remember (bound - rank_of ds x) as k eqn:Hk. revert x Hx Hk.
  induction (lt_wf k) as [k _ IH]. intros x Hx ->.
  destruct (dw_parent bound ds Hwf x Hx) as (p & Hp & Hpin).
  destruct (decide (p = x)) as [->|Hne]; [exists x; by constructor|].
  pose proof (dw_rank bound ds Hwf x p Hp Hne) as Hlt.
  pose proof (dw_bound bound ds Hwf p) as Hb.
  destruct (IH (bound - rank_of ds p)) with (x := p) as [r Hr]; [lia|done|done|].
  exists r. by econstructor.
Qed.

(** [find] returns the root and, by path compression, changes no root. *)
Lemma ds_find_spec (bound fuel : nat) (ds : DisjointSet) (x : V) :
  ds_wf bound ds → x ∈ Vs → bound - rank_of ds x < fuel →
  ∃ r ds', ds_find fuel ds x = Some (r, ds')
    ∧ ds_root (ds_parent ds) x r
    ∧ ds_wf bound ds'
    ∧ ds_rank ds' = ds_rank ds
    ∧ ∀ y r', ds_root (ds_parent ds') y r' ↔ ds_root (ds_parent ds) y r'.
Proof.
  revert x. induction fuel as [|n IH]; intros x Hwf Hx Hfuel; [lia|].
  destruct (dw_parent bound ds Hwf x Hx) as (p & Hp & Hpin).
  simpl. rewrite Hp. simpl. destruct (decide (p ≠ x)) as [Hne|Heq].
  - pose proof (dw_rank bound ds Hwf x p Hp Hne) as Hlt.
    pose proof (dw_bound bound ds Hwf p) as Hb.
    destruct (IH p Hwf Hpin) as (r & ds1 & Hrun & Hroot & Hwf1 & Hrk & Hsame); [lia|].
    rewrite Hrun. simpl. do 2 eexists. split; [done|].
    assert (Hxr : ds_root (ds_parent ds) x r) by by econstructor.
    assert (Hxr1 : ds_root (ds_parent ds1) x r) by by apply Hsame.
    split; [done|]. split; [|split; [done|]].
    + destruct Hwf1 as [Hpar Hdom Hbd Hrank]. split; simpl; try done.
      * intros v Hv. destruct (decide (x = v)) as [->|Hxv].
        -- rewrite lookup_insert_eq. exists r. split; [done|].
           by eapply (ds_root_in bound ds).
        -- rewrite lookup_insert_ne by done. by apply Hpar.
      * intros y q. destruct (decide (x = y)) as [->|Hxy].
        -- rewrite lookup_insert_eq. intros [= <-] Hry. unfold rank_of. simpl.
           fold (rank_of ds1 y). fold (rank_of ds1 r). unfold rank_of. rewrite Hrk.
           apply (ds_root_rank bound ds); [done|done|congruence].
        -- rewrite lookup_insert_ne by done. apply Hrank.
    + simpl. intros y r'. rewrite <- Hsame. by apply ds_root_compress.
  - assert (p = x) as -> by (destruct (decide (p = x)); [done|by destruct Heq]).
    do 2 eexists. split; [done|]. split; [by constructor|]. by split_and!.
Qed.

Lemma same_set_link (parent : gmap V V) (ra rb : V) (x y : V) :
  parent !! ra = Some ra → parent !! rb = Some rb → ra ≠ rb →
  same_set (<[ra := rb]> parent) x y
  ↔ same_set parent x y
    ∨ (ds_root parent x ra ∧ ds_root parent y rb)
    ∨ (ds_root parent x rb ∧ ds_root parent y ra).
Proof.
  intros Hra Hrb Hne. unfold same_set. setoid_rewrite (ds_root_link parent ra rb Hra Hrb Hne).
  split.
  - intros (r & [[Hx Hr]|[Hx ->]] & [[Hy Hr']|[Hy Hr']]); subst; eauto 6.
  - intros [(r & Hx & Hy)|[[Hx Hy]|[Hx Hy]]].
    + destruct (decide (r = ra)) as [->|Hr]; [exists rb|exists r]; eauto 6.
    + exists rb. eauto 6.
    + exists rb. eauto 6.
Qed.

Lemma same_set_sym (parent : gmap V V) (x y : V) :
  same_set parent x y → same_set parent y x.
Proof. intros (r & ? & ?). by exists r. Qed.

Lemma same_set_trans (parent : gmap V V) (x y z : V) :
  same_set parent x y → same_set parent y z → same_set parent x z.
Proof.
  intros (r & Hx & Hy) (r' & Hy' & Hz). exists r. split; [done|].
  by rewrite (ds_root_det _ _ _ _ Hy Hy').
Qed.

Lemma same_set_root (parent : gmap V V) (x u r : V) :
  ds_root parent u r → ds_root parent x r ↔ same_set parent x u.
Proof.
  intros Hu. split; [intros Hx; by exists r|].
  intros (r' & Hx & Hu'). by rewrite (ds_root_det _ _ _ _ Hu Hu').
Qed.

(** [union] merges the set of [u] with the set of [v]. *)
Lemma ds_union_spec (bound fuel : nat) (ds : DisjointSet) (u v : V) :
  ds_wf bound ds → u ∈ Vs → v ∈ Vs → bound < fuel →
  ∃ ds', ds_union fuel ds u v = Some ds'
    ∧ ds_wf (S bound) ds'
    ∧ ∀ x y, same_set (ds_parent ds') x y
             ↔ same_set (ds_parent ds) x y
               ∨ (same_set (ds_parent ds) x u ∧ same_set (ds_parent ds) v y)
               ∨ (same_set (ds_parent ds) x v ∧ same_set (ds_parent ds) u y).
Proof.
  intros Hwf Hu Hv Hfuel. unfold ds_union.
  destruct (ds_find_spec bound fuel ds u Hwf Hu) as (r1 & ds1 & Hrun1 & Hroot1 & Hwf1 & Hrk1 & Hs1);
    [lia|].
  rewrite Hrun1. simpl.
  destruct (ds_find_spec bound fuel ds1 v Hwf1 Hv) as (r2 & ds2 & Hrun2 & Hroot2 & Hwf2 & Hrk2 & Hs2);
    [lia|].
  rewrite Hrun2. simpl.
  assert (Hsame : ∀ y r', ds_root (ds_parent ds2) y r' ↔ ds_root (ds_parent ds) y r').
  { intros y r'. by rewrite Hs2, Hs1. }
  assert (Hss : ∀ x y, same_set (ds_parent ds2) x y ↔ same_set (ds_parent ds) x y).
  { intros x y. unfold same_set. by setoid_rewrite Hsame. }
  assert (Hu2 : ds_root (ds_parent ds2) u r1) by by apply Hsame.
  assert (Hv2 : ds_root (ds_parent ds2) v r2) by by apply Hs2.
  pose proof (ds_root_is_root _ _ _ Hu2) as Hr1.
  pose proof (ds_root_is_root _ _ _ Hv2) as Hr2.
  assert (Hr1in : r1 ∈ Vs) by by eapply (ds_root_in bound ds2).
  assert (Hr2in : r2 ∈ Vs) by by eapply (ds_root_in bound ds2).
  destruct (decide (r1 = r2)) as [->|Hne].
  { exists ds2. split; [done|]. split.
    - destruct Hwf2 as [? ? Hb ?]. split; try done. intros x. specialize (Hb x). lia.
    - intros x y. rewrite Hss. split; [by left|].
      assert (Huv : same_set (ds_parent ds) u v) by (apply Hss; by exists r2).
      intros [?|[[Hxu Hvy]|[Hxv Huy]]]; [done| |].
      + eapply same_set_trans; [done|]. by eapply same_set_trans.
      + eapply same_set_trans; [done|]. eapply same_set_trans; [|done].
        by apply same_set_sym. }
  destruct (dw_rank_dom bound ds2 Hwf2 r1 Hr1in) as [k1 Hk1].
  destruct (dw_rank_dom bound ds2 Hwf2 r2 Hr2in) as [k2 Hk2].
  rewrite Hk1, Hk2. simpl.
  assert (Hrank1 : rank_of ds2 r1 = k1) by (unfold rank_of; by rewrite Hk1).
  assert (Hrank2 : rank_of ds2 r2 = k2) by (unfold rank_of; by rewrite Hk2).
  assert (Hchar : ∀ ra rb, (ra = r1 ∧ rb = r2) ∨ (ra = r2 ∧ rb = r1) →
            ∀ x y, same_set (<[ra := rb]> (ds_parent ds2)) x y
             ↔ same_set (ds_parent ds) x y
               ∨ (same_set (ds_parent ds) x u ∧ same_set (ds_parent ds) v y)
               ∨ (same_set (ds_parent ds) x v ∧ same_set (ds_parent ds) u y)).
  { intros ra rb Hab x y.
    assert (Hsym : ∀ a b, same_set (ds_parent ds) a b → same_set (ds_parent ds) b a).
    { intros a b (r & ? & ?). by exists r. }
    destruct Hab as [[-> ->]|[-> ->]].
    - rewrite same_set_link by done.
      rewrite !(same_set_root _ _ u r1 Hu2), !(same_set_root _ _ v r2 Hv2), !Hss.
      split; intros [?|[[? ?]|[? ?]]]; auto 6.
    - rewrite same_set_link by done.
      rewrite !(same_set_root _ _ u r1 Hu2), !(same_set_root _ _ v r2 Hv2), !Hss.
      split; intros [?|[[? ?]|[? ?]]]; auto 6. }
  assert (Hwf_link : ∀ ra rb rank',
            (ra = r1 ∧ rb = r2) ∨ (ra = r2 ∧ rb = r1) →
            (∀ z, z ≠ rb → default 0 (rank' !! z) = rank_of ds2 z) →
            rank_of ds2 rb ≤ default 0 (rank' !! rb) ≤ S bound →
            rank_of ds2 ra < default 0 (rank' !! rb) →
            (∀ z, z ∈ Vs → is_Some (rank' !! z)) →
            ds_wf (S bound) (mkDS (<[ra := rb]> (ds_parent ds2)) rank')).
  { intros ra rb rank' Hab Hother Hrb Hlt Hdom.
    assert (Hrbin : rb ∈ Vs) by (destruct Hab as [[_ ->]|[_ ->]]; done).
    assert (Hrbroot : ds_parent ds2 !! rb = Some rb)
      by (destruct Hab as [[_ ->]|[_ ->]]; done).
    assert (Hab' : ra ≠ rb) by (destruct Hab as [[-> ->]|[-> ->]]; done).
    destruct Hwf2 as [Hpar _ Hbd Hrank]. split; simpl.
    - intros z Hz. destruct (decide (ra = z)) as [->|Hne'].
      + rewrite lookup_insert_eq. eauto.
      + rewrite lookup_insert_ne by done. by apply Hpar.
    - done.
    - intros z. unfold rank_of. simpl. destruct (decide (z = rb)) as [->|Hz]; [lia|].
      rewrite Hother by done. specialize (Hbd z). lia.
    - intros z q. unfold rank_of. simpl. destruct (decide (ra = z)) as [->|Hne'].
      + rewrite lookup_insert_eq. intros [= <-] _. rewrite (Hother z) by done. done.
      + rewrite lookup_insert_ne by done. intros Hz Hqz.
        assert (z ≠ rb) by congruence. rewrite (Hother z) by done.
        specialize (Hrank z q Hz Hqz).
        destruct (decide (q = rb)) as [->|Hq]; [lia|]. by rewrite Hother. }
  destruct (decide (k1 < k2)) as [Hlt|Hge].
  { eexists. split; [done|]. split; [|by apply Hchar; left].
    pose proof (dw_bound bound ds2 Hwf2 r2).
    apply Hwf_link; [by left|done| | |apply (dw_rank_dom bound ds2 Hwf2)];
      rewrite ?Hk2, ?Hrank1, ?Hrank2 in *; simpl; lia. }
  destruct (decide (k2 < k1)) as [Hgt|Hle].
  { eexists. split; [done|]. split; [|by apply Hchar; right].
    pose proof (dw_bound bound ds2 Hwf2 r1).
    apply Hwf_link; [by right|done| | |apply (dw_rank_dom bound ds2 Hwf2)];
      rewrite ?Hk1, ?Hrank1, ?Hrank2 in *; simpl; lia. }
  eexists. split; [done|]. split; [|by apply Hchar; right].
  apply Hwf_link; [by right| | | |].
  - intros z Hz. by rewrite lookup_insert_ne.
  - rewrite lookup_insert_eq. simpl. pose proof (dw_bound bound ds2 Hwf2 r1).
    rewrite Hrank1 in *. lia.
  - rewrite lookup_insert_eq. simpl. rewrite Hrank2. lia.
  - intros z Hz. destruct (decide (r1 = z)) as [->|?].
    + rewrite lookup_insert_eq. eauto.
    + rewrite lookup_insert_ne by done. by apply (dw_rank_dom bound ds2 Hwf2).
Qed.

End DisjointSets.

(** *** Sorting the edges *)

Section SortEdges.

Context {V : Type} `{Countable V}.
Implicit Types (l : list (V * V * Z)).

Definition weight_le (e f : V * V * Z) : Prop := (e.2 ≤ f.2)%Z.

Lemma insert_by_weight_perm (e : V * V * Z) l : insert_by_weight e l ≡ₚ e :: l.
Proof.
  induction l as [|x l IH]; simpl; [done|].
  destruct (e.2 <=? x.2)%Z; [done|]. rewrite IH. apply Permutation_swap.
Qed.

Lemma sorted_by_weight_perm l : sorted_by_weight l ≡ₚ l.
Proof.
  induction l as [|x l IH]; simpl; [done|]. by rewrite insert_by_weight_perm, IH.
Qed.

Lemma insert_by_weight_sorted (e : V * V * Z) l :
  StronglySorted weight_le l → StronglySorted weight_le (insert_by_weight e l).
Proof.
  induction 1 as [|x l Hl IH Hx]; simpl; [by repeat constructor|].
  destruct (e.2 <=? x.2)%Z eqn:Hle.
  - apply Z.leb_le in Hle. constructor; [by constructor|].
    constructor; [done|]. eapply Forall_impl; [done|].
    intros f Hf. unfold weight_le in *. lia.
  - apply Z.leb_gt in Hle. constructor; [done|].
    rewrite insert_by_weight_perm. constructor; [|done]. unfold weight_le. lia.
Qed.

Lemma sorted_by_weight_sorted l : StronglySorted weight_le (sorted_by_weight l).
Proof.
  induction l as [|x l IH]; simpl; [constructor|by apply insert_by_weight_sorted].
Qed.

Lemma sorted_split (p t : list (V * V * Z)) (e : V * V * Z) :
  StronglySorted weight_le (p ++ e :: t) → Forall (weight_le e) (e :: t).
Proof.
  induction p as [|x p IH]; simpl; intros Hs.
  - apply StronglySorted_inv in Hs as [_ Ht]. constructor; [|done]. unfold weight_le. lia.
  - apply StronglySorted_inv in Hs as [Hs _]. by apply IH.
Qed.

End SortEdges.

(** *** Kruskal's algorithm *)

Section Kruskal.

Context {V : Type} `{Countable V}.
Context (g : Graph (V := V)) (Hwf : wf_graph g).
Context (vs : list V) (Hvs : get_vertices g vs).
Context (fuel : nat) (Hfuel : length (edges g) < fuel).

Lemma edge_vertices (u v : V) (w : Z) :
  (u, v, w) ∈ edges g → u ∈ vertices g ∧ v ∈ vertices g.
Proof. destruct (wf_closed g Hwf) as [He _]. apply He. Qed.

Lemma edge_of_vertices (e : V * V * Z) :
  edge_of g e → e.1.1 ∈ vertices g ∧ e.1.2 ∈ vertices g.
Proof.
  destruct e as [[u v] w]. intros [He|He]; apply edge_vertices in He; simpl in *; tauto.
Qed.

(** The invariant of the loop of [kruskal] once the edges [processed] have
    been looked at. *)
Record kruskal_inv (processed : list (V * V * Z)) (st : kruskal_state (V := V)) : Prop :=
  mk_kruskal_inv {
  ki_wf : ds_wf (vertices g) (length (ks_edges st)) (ks_ds st);
  ki_len : length (ks_edges st) ≤ length processed;
  ki_same : ∀ x y, x ∈ vertices g → y ∈ vertices g →
            same_set (ds_parent (ks_ds st)) x y ↔ conn (ks_edges st) x y;
  ki_total : ks_total st = weight (ks_edges st);
  ki_sub : ∀ e, e ∈ ks_edges st → e ∈ processed;
  ki_conn : ∀ a b w, (a, b, w) ∈ processed → conn (ks_edges st) a b;
  ki_prom : promising g (ks_edges st)
}.

Lemma kruskal_init_inv :
  kruskal_inv [] (mkKruskal (DisjointSet_init vs) [] 0).
Proof.
  assert (Hnd : NoDup vs).
  { unfold get_vertices in Hvs. rewrite Hvs. apply NoDup_elements. }
  assert (Hin : ∀ v, v ∈ vs ↔ v ∈ vertices g).
  { intros v. unfold get_vertices in Hvs. rewrite Hvs. apply elem_of_elements. }
  assert (Hpar : ∀ x p, ds_parent (DisjointSet_init vs) !! x = Some p ↔ (x ∈ vs ∧ p = x)).
  { intros x p. simpl. rewrite <- elem_of_list_to_map.
    - rewrite list_elem_of_fmap. split.
      + intros (y & [= -> ->] & Hy). done.
      + intros [Hx ->]. by exists x.
    - rewrite <- list_fmap_compose. simpl. by rewrite list_fmap_id. }
  assert (Hrk : ∀ x, x ∈ vs → ds_rank (DisjointSet_init vs) !! x = Some 0).
  { intros x Hx. simpl. apply elem_of_list_to_map.
    - rewrite <- list_fmap_compose. simpl. by rewrite list_fmap_id.
    - apply list_elem_of_fmap. by exists x. }
  assert (Hrank0 : ∀ x, rank_of (DisjointSet_init vs) x = 0).
  { intros x. unfold rank_of. destruct (ds_rank _ !! x) as [k|] eqn:Hk; [|done].
    simpl in Hk. apply elem_of_list_to_map_2, list_elem_of_fmap in Hk as (y & [= -> ->] & _).
    done. }
  split; simpl.
  - split.
    + intros v Hv. exists v. split; [|done]. apply Hpar. split; [by apply Hin|done].
    + intros v Hv. rewrite Hrk; [eauto|by apply Hin].
    + intros v. by rewrite Hrank0.
    + intros x p [_ ->]%Hpar. done.
  - done.
  - intros x y Hx Hy. split.
    + intros (r & Hxr & Hyr).
      assert (Hroot : ∀ a b, ds_root (ds_parent (DisjointSet_init vs)) a b → a = b).
      { intros a b. induction 1 as [|a p b Ha%Hpar Hne]; [done|]. by destruct Ha. }
      apply Hroot in Hxr, Hyr. by subst.
    + intros ->%conn_nil. exists y. split; constructor; apply Hpar; by rewrite Hin.
  - done.
  - by intros e ?%elem_of_nil.
  - by intros a b w ?%elem_of_nil.
  - apply promising_nil.
Qed.

Lemma kruskal_edge_spec (processed todo : list (V * V * Z)) (e : V * V * Z)
    (st : kruskal_state) :
  sorted_by_weight (edges g) = processed ++ e :: todo →
  kruskal_inv processed st →
  ∃ st', kruskal_edge fuel e st = Some st' ∧ kruskal_inv (processed ++ [e]) st'.
Proof.
  intros Hsorted [Hdw Hlen Hsame Htot Hsub Hconn Hprom].
  destruct e as [[u v] w].
  assert (Hperm : edges g ≡ₚ processed ++ (u, v, w) :: todo).
  { rewrite <- Hsorted. symmetry. apply sorted_by_weight_perm. }
  assert (Hplen : length processed < length (edges g)).
  { rewrite Hperm, length_app. simpl. lia. }
  destruct (edge_vertices u v w) as [Hu Hv].
  { rewrite Hperm. apply elem_of_app. right. by left. }
  unfold kruskal_edge.
  destruct (ds_find_spec (vertices g) _ fuel _ u Hdw Hu)
    as (r1 & ds1 & Hrun1 & Hroot1 & Hwf1 & Hrk1 & Hs1); [lia|].
  rewrite Hrun1. simpl.
  destruct (ds_find_spec (vertices g) _ fuel _ v Hwf1 Hv)
    as (r2 & ds2 & Hrun2 & Hroot2 & Hwf2 & Hrk2 & Hs2); [lia|].
  rewrite Hrun2. simpl.
  assert (Hroots : ∀ y r', ds_root (ds_parent ds2) y r' ↔ ds_root (ds_parent (ks_ds st)) y r').
  { intros y r'. by rewrite Hs2, Hs1. }
  assert (Hss : ∀ x y, same_set (ds_parent ds2) x y ↔ same_set (ds_parent (ks_ds st)) x y).
  { intros x y. unfold same_set. by setoid_rewrite Hroots. }
  assert (Hroot2' : ds_root (ds_parent (ks_ds st)) v r2) by by apply Hs1.
  assert (Hold : ∀ a b c, (a, b, c) ∈ processed ++ [(u, v, w)] →
            ∀ F', (∀ x y, conn (ks_edges st) x y → conn F' x y) → conn F' u v →
            conn F' a b).
  { intros a b c [Hin|Hin%list_elem_of_singleton]%elem_of_app F' Hm Huv.
    - apply Hm. by eapply Hconn.
    - by injection Hin as -> -> ->. }
  destruct (decide (r1 ≠ r2)) as [Hne|Heq].
  - destruct (ds_union_spec (vertices g) _ fuel ds2 u v Hwf2 Hu Hv) as (ds' & Hrun & Hwf' & Hch);
      [lia|].
    rewrite Hrun. simpl. eexists. split; [done|].
    assert (Hnconn : ¬ conn (ks_edges st) u v).
    { intros (r & Hur & Hvr)%Hsame; [|done|done]. apply Hne.
      rewrite (ds_root_det (vertices g) _ _ _ _ Hroot1 Hur). by rewrite (ds_root_det (vertices g) _ _ _ _ Hroot2' Hvr). }
    assert (Hmono : ∀ x y, conn (ks_edges st) x y → conn (ks_edges st ++ [(u, v, w)]) x y).
    { intros x y. apply conn_mono. intros f Hf. apply elem_of_app. by left. }
    split; simpl.
    + by rewrite length_app, Nat.add_comm.
    + rewrite !length_app. simpl. lia.
    + intros x y Hx Hy. rewrite Hch, !Hss.
      rewrite (conn_perm (ks_edges st ++ [(u, v, w)]) ((u, v, w) :: ks_edges st))
        by (by rewrite Permutation_app_comm).
      rewrite conn_cons. by rewrite !Hsame.
    + rewrite weight_app, Htot. simpl. lia.
    + intros f [Hf|Hf]%elem_of_app; apply elem_of_app; [left; by apply Hsub|by right].
    + intros a b c Hin. eapply Hold; [done|done|].
      eapply conn_edge. apply elem_of_app. right. by left.
    + apply (promising_add g (ks_edges st) (λ x, conn (ks_edges st) u x) (u, v, w));
        simpl; try done.
      * intros [[a b] c] Hf. pose proof (Hconn a b c (Hsub _ Hf)) as Hab.
        intros [[Ha Hb]|[Hb Ha]]; simpl in *.
        -- apply Hb. by etrans.
        -- apply Ha. etrans; [done|by symmetry].
      * left. rewrite Hperm. apply elem_of_app. right. by left.
      * intros [[a b] c] Hf Hcross. simpl.
        assert (Hin : (a, b, c) ∈ (u, v, w) :: todo ∨ (b, a, c) ∈ (u, v, w) :: todo).
        { destruct Hf as [Hf|Hf]; simpl in Hf; rewrite Hperm in Hf;
            apply elem_of_app in Hf as [Hf|Hf]; [|by left| |by right];
            exfalso; pose proof (Hconn _ _ _ Hf) as Hab;
            destruct Hcross as [[Ha Hb]|[Hb Ha]]; simpl in *.
          - apply Hb. by etrans.
          - apply Ha. etrans; [done|by symmetry].
          - apply Hb. etrans; [done|by symmetry].
          - apply Ha. by etrans. }
        pose proof (sorted_split processed todo (u, v, w)) as Hsp.
        rewrite <- Hsorted in Hsp. specialize (Hsp (sorted_by_weight_sorted _)).
        rewrite Forall_forall in Hsp.
        destruct Hin as [Hin|Hin]; apply Hsp in Hin; by unfold weight_le in Hin.
  - assert (r1 = r2) as <- by (destruct (decide (r1 = r2)); [done|by destruct Heq]).
    eexists. split; [done|].
    assert (Huv : conn (ks_edges st) u v).
    { apply Hsame; [done|done|]. by exists r1. }
    split; simpl; try done.
    + rewrite length_app. simpl. lia.
    + intros x y Hx Hy. by rewrite Hss, Hsame.
    + intros f Hf. apply elem_of_app. left. by apply Hsub.
    + intros a b c Hin. by eapply Hold.
Qed.

Lemma kruskal_loop_spec (todo processed : list (V * V * Z)) (st : kruskal_state) :
  sorted_by_weight (edges g) = processed ++ todo →
  kruskal_inv processed st →
  ∃ st', for_each (kruskal_edge fuel) todo st = Some st'
         ∧ kruskal_inv (sorted_by_weight (edges g)) st'.
Proof.
  revert processed st. induction todo as [|e todo IH]; intros processed st Hs Hinv.
  { exists st. split; [done|]. by rewrite Hs, app_nil_r. }
  destruct (kruskal_edge_spec processed todo e st Hs Hinv) as (s1 & Hrun & Hinv1).
  simpl. rewrite Hrun. apply (IH (processed ++ [e])); [|done].
  by rewrite <- app_assoc.
Qed.

(** [kruskal] returns edges of the graph that connect whatever the graph
    connects and that every spanning tree can be traded for. *)
Lemma kruskal_run :
  ∃ K, kruskal (MST_init g vs) fuel = Some (K, weight K, MST_init g vs)
    ∧ promising g K
    ∧ (∀ e, e ∈ K → edge_of g e)
    ∧ (∀ x y, conn (edges g) x y → conn K x y).
Proof.
  destruct (kruskal_loop_spec (sorted_by_weight (edges g)) []
              (mkKruskal (DisjointSet_init vs) [] 0) eq_refl kruskal_init_inv)
    as (st & Hrun & [_ _ _ Htot Hsub Hconn Hprom]).
  exists (ks_edges st). unfold kruskal. simpl. unfold get_edges. rewrite Hrun. simpl.
  rewrite Htot. split; [done|]. split; [done|]. split.
  - intros e He. left. rewrite <- (sorted_by_weight_perm (edges g)). by apply Hsub.
  - intros x y. apply conn_sub. intros a b [w Hw]. apply (Hconn a b w).
    by rewrite sorted_by_weight_perm.
Qed.

End Kruskal.

(** *** Prim's algorithm *)

Lemma extract_min_least {A : Type} (leb : A → A → bool) (key : A → Z) (x : A) (l : list A) :
  (∀ a b, leb a b = true → (key a ≤ key b)%Z) →
  (∀ a b, leb a b = false → (key b ≤ key a)%Z) →
  ∀ y, y ∈ x :: l → (key (extract_min leb x l).1 ≤ key y)%Z.
Proof.
  intros Ht Hf. revert x. induction l as [|z l IH]; intros x y Hy; simpl.
  { apply list_elem_of_singleton in Hy as ->. lia. }
  specialize (IH z). destruct (extract_min leb z l) as [m r]. simpl in IH.
  destruct (leb x m) eqn:Hle; simpl.
  - apply Ht in Hle. apply elem_of_cons in Hy as [->|Hy]; [lia|].
    specialize (IH y Hy). lia.
  - apply Hf in Hle. apply elem_of_cons in Hy as [->|Hy]; [lia|by apply IH].
Qed.

Lemma heappop_least {A : Type} (leb : A → A → bool) (key : A → Z) (h r : list A) (m : A) :
  (∀ a b, leb a b = true → (key a ≤ key b)%Z) →
  (∀ a b, leb a b = false → (key b ≤ key a)%Z) →
  heappop leb h = Some (m, r) → ∀ y, y ∈ h → (key m ≤ key y)%Z.
Proof.
  intros Ht Hf. destruct h as [|x l]; simpl; [done|]. intros [= Heq] y Hy.
  pose proof (extract_min_least leb key x l Ht Hf y Hy) as Hmin. by rewrite Heq in Hmin.
Qed.

Section Prim.

Context {V : Type} `{Countable V}.
Context (vleb : V → V → bool).
Context (g : Graph (V := V)) (Hwf : wf_graph g) (Hund : directed g = false).

Lemma adj_undirected (a b : V) (w : Z) :
  (b, w) ∈ adj_of (adj_list g) a ↔ edge_of g (a, b, w).
Proof.
  rewrite (wf_adj g Hwf), Hund, list_elem_of_In, in_flat_map. unfold edge_of. simpl. split.
  - intros ([[x y] c] & Hin%list_elem_of_In & Hent%list_elem_of_In).
    unfold edge_entries in Hent. simpl in Hent.
    apply elem_of_app in Hent as [Hent|Hent]; destruct (decide _) as [->|];
      try (by apply elem_of_nil in Hent);
      apply list_elem_of_singleton in Hent; injection Hent as -> ->; eauto.
  - intros [Hin|Hin]; eexists; (split; [apply list_elem_of_In; exact Hin|]);
      apply list_elem_of_In; unfold edge_entries; simpl; apply elem_of_app.
    + left. rewrite decide_True by done. by left.
    + right. rewrite decide_True by done. by left.
Qed.

Lemma edge_of_flip (a b : V) (w : Z) : edge_of g (a, b, w) → edge_of g (b, a, w).
Proof. unfold edge_of. simpl. tauto. Qed.

Lemma edge_leb_true (a b : Z * V * V) : edge_leb vleb a b = true → (a.1.1 ≤ b.1.1)%Z.
Proof.
  unfold edge_leb. intros [Hlt|[Heq _]%andb_prop]%orb_prop.
  - apply Z.ltb_lt in Hlt. lia.
  - apply Z.eqb_eq in Heq. lia.
Qed.

Lemma edge_leb_false (a b : Z * V * V) : edge_leb vleb a b = false → (b.1.1 ≤ a.1.1)%Z.
Proof.
  unfold edge_leb. intros [Hlt _]%orb_false_elim. apply Z.ltb_ge in Hlt. lia.
Qed.

Lemma prim_push_elem (v : V) (visited : gset V) (nbrs : list (V * Z))
    (heap : list (Z * V * V)) (x : Z * V * V) :
  x ∈ prim_push v visited nbrs heap
  ↔ x ∈ heap ∨ ∃ e, e ∈ nbrs ∧ (e.1 ∉ visited) ∧ x = (e.2, v, e.1).
Proof.
  unfold prim_push. revert heap. induction nbrs as [|e nbrs IH]; intros heap; simpl.
  - split; [by left|]. intros [?|(e & ?%elem_of_nil & _)]; done.
  - rewrite IH. destruct (decide (e.1 ∈ visited)) as [Hin|Hnin].
    + split.
      * intros [?|(f & Hf & ?)]; [by left|]. right. exists f. split; [by right|done].
      * intros [?|(f & [->|Hf]%elem_of_cons & Hnf & ->)]; [by left|done|]. right. eauto.
    + unfold heappush. rewrite elem_of_app, list_elem_of_singleton. split.
      * intros [[?| ->]|(f & Hf & ?)]; [by left| |].
        -- right. exists e. split; [by left|done].
        -- right. exists f. split; [by right|done].
      * intros [?|(f & [->|Hf]%elem_of_cons & Hnf & ->)]; [by left; left|by left; right|].
        right. eauto.
Qed.

Lemma prim_push_length (v : V) (visited : gset V) (nbrs : list (V * Z))
    (heap : list (Z * V * V)) :
  length (prim_push v visited nbrs heap) ≤ length heap + length nbrs.
Proof.
  unfold prim_push. revert heap. induction nbrs as [|e nbrs IH]; intros heap; simpl; [lia|].
  etrans; [apply IH|]. destruct (decide _); [lia|]. unfold heappush.
  rewrite length_app. simpl. lia.
Qed.

Context (start : V) (Hstart : start ∈ vertices g).

(** The loop invariant. *)
Record prim_inv (st : prim_state (V := V)) : Prop := mk_prim_inv {
  pi_view : ∀ u, adj_of (pr_adj st) u = adj_of (adj_list g) u;
  pi_start : start ∈ pr_visited st;
  pi_sub : pr_visited st ⊆ vertices g;
  pi_size : length (pr_edges st) + 1 = size (pr_visited st);
  pi_conn : ∀ x, x ∈ pr_visited st → conn (pr_edges st) start x;
  pi_inside : ∀ e, e ∈ pr_edges st →
              e.1.1 ∈ pr_visited st ∧ e.1.2 ∈ pr_visited st ∧ edge_of g e;
  pi_total : pr_total st = weight (pr_edges st);
  pi_heap : ∀ w a b, (w, a, b) ∈ pr_heap st →
            a ∈ pr_visited st ∧ (b, w) ∈ adj_of (adj_list g) a;
  pi_complete : ∀ a b w, a ∈ pr_visited st → (b, w) ∈ adj_of (adj_list g) a →
                b ∉ pr_visited st → (w, a, b) ∈ pr_heap st;
  pi_prom : promising g (pr_edges st)
}.

Definition prim_measure (st : prim_state (V := V)) : nat * nat :=
  (size (vertices g ∖ pr_visited st), length (pr_heap st)).

(** One round of the loop: it stops, when every vertex is visited or the heap
    is empty, or it goes on with the invariant kept and the measure decreased. *)
Lemma prim_body_cases (st : prim_state) :
  prim_inv st →
  (prim_body vleb (size (vertices g)) st = Some (inr (pr_edges st, pr_total st, pr_adj st))
   ∧ (size (vertices g) ≤ size (pr_visited st) ∨ pr_heap st = []))
  ∨ (∃ st', prim_body vleb (size (vertices g)) st = Some (inl st') ∧ prim_inv st'
            ∧ dist_lt (prim_measure st') (prim_measure st)).
Proof.
  intros Hinv. unfold prim_body.
  destruct (decide (size (pr_visited st) < size (vertices g))) as [Hlt|Hge];
    [|left; split; [done|left; lia]].
  destruct (heappop _ _) as [[[[w a] b] heap]|] eqn:Hpop.
  2:{ left. split; [done|right]. by destruct (pr_heap st). }
  right. pose proof (heappop_perm _ _ _ _ Hpop) as Hperm.
  pose proof (heappop_least _ (λ x : Z * V * V, x.1.1) _ _ _
                (edge_leb_true) (edge_leb_false) Hpop) as Hmin. simpl in Hmin.
  destruct Hinv as [Hview Hst Hsub Hsize Hcn Hin Htot Hheap Hcomp Hprom].
  destruct (Hheap w a b) as [Ha Hab]; [rewrite Hperm; by left|].
  assert (Hlen : length (pr_heap st) = S (length heap)) by by rewrite Hperm.
  destruct (decide (b ∈ pr_visited st)) as [Hb|Hb].
  - eexists. split; [done|]. split.
    + split; simpl; try done.
      * intros w' a' b' Hin'. apply Hheap. rewrite Hperm. by right.
      * intros a' b' w' Ha' Hab' Hb'. specialize (Hcomp a' b' w' Ha' Hab' Hb').
        rewrite Hperm in Hcomp. apply elem_of_cons in Hcomp as [[= -> -> ->]|?]; done.
    + unfold prim_measure. simpl. apply right_slex. lia.
  - eexists. split; [done|].
    assert (Hbv : b ∈ vertices g) by by apply (adj_edge_vertices g Hwf a b); exists w.
    split.
    + split; simpl.
      * intros u. by rewrite adj_of_touch.
      * set_solver.
      * set_solver.
      * rewrite length_app, size_union, size_singleton by set_solver. simpl. lia.
      * intros x [->%elem_of_singleton|Hx]%elem_of_union.
        -- etrans; [eapply conn_mono; [|by apply Hcn]|].
           { intros f Hf. apply elem_of_app. by left. }
           eapply conn_edge. apply elem_of_app. right. by left.
        -- eapply conn_mono; [|by apply Hcn]. intros f Hf. apply elem_of_app. by left.
      * intros e [He|He%list_elem_of_singleton]%elem_of_app.
        -- destruct (Hin e He) as (? & ? & ?). split_and!; [set_solver|set_solver|done].
        -- subst e. simpl. split_and!; [set_solver|set_solver|by apply adj_undirected].
      * rewrite weight_app, Htot. simpl. lia.
      * intros w' a' b' [Hin'|(e & He & Hne & [= -> -> ->])]%prim_push_elem.
        -- destruct (Hheap w' a' b') as [? ?]; [rewrite Hperm; by right|].
           split; [set_solver|done].
        -- split; [set_solver|]. rewrite Hview in He. by destruct e.
      * intros a' b' w' Ha' Hab' Hb'. apply prim_push_elem.
        apply elem_of_union in Ha' as [->%elem_of_singleton|Ha'].
        -- right. exists (b', w'). split; [by rewrite Hview|done].
        -- left. assert (Hb'' : b' ∉ pr_visited st) by set_solver.
           specialize (Hcomp a' b' w' Ha' Hab' Hb''). rewrite Hperm in Hcomp.
           apply elem_of_cons in Hcomp as [[= -> -> ->]|?]; [|done]. set_solver.
      * apply (promising_add g (pr_edges st) (λ x, x ∈ pr_visited st) (a, b, w));
          simpl; try done.
        -- intros e He [[_ Hc]|[_ Hc]]; apply Hc; by apply Hin.
        -- by apply adj_undirected.
        -- by apply Hsub.
        -- intros [[x y] c] Hf [[Hx Hy]|[Hy Hx]]; simpl in *.
           ++ apply (Hmin (c, x, y)). apply Hcomp; [done|by apply adj_undirected|done].
           ++ apply (Hmin (c, y, x)).
              apply Hcomp; [done|by apply adj_undirected, edge_of_flip|done].
    + unfold prim_measure. simpl. apply left_slex. apply subset_size.
      split; [set_solver|]. intros Hs. specialize (Hs b). set_solver.
Qed.

Lemma prim_init_inv :
  prim_inv (mkPrim (dd_touch (adj_list g) start) {[start]} [] 0
              (fold_left (λ (h : list (Z * V * V)) (e : V * Z), heappush h (e.2, start, e.1))
                 (adj_of (adj_list g) start) [])).
Proof.
  assert (Hpush : ∀ nbrs h x,
            x ∈ fold_left (λ (h : list (Z * V * V)) (e : V * Z),
                             heappush h (e.2, start, e.1)) nbrs h
            ↔ x ∈ h ∨ ∃ e, e ∈ nbrs ∧ x = (e.2, start, e.1)).
  { induction nbrs as [|e nbrs IH]; intros h x; simpl.
    - split; [by left|]. intros [?|(e & ?%elem_of_nil & _)]; done.
    - rewrite IH. unfold heappush. rewrite elem_of_app, list_elem_of_singleton. split.
      + intros [[?| ->]|(f & Hf & ->)]; [by left| |].
        * right. exists e. split; [by left|done].
        * right. exists f. split; [by right|done].
      + intros [?|(f & [->|Hf]%elem_of_cons & ->)]; [by left; left|by left; right|].
        right. eauto. }
  split; cbn [pr_adj pr_visited pr_edges pr_total pr_heap length].
  - intros u. by rewrite adj_of_touch.
  - set_solver.
  - set_solver.
  - by rewrite size_singleton.
  - intros x ->%elem_of_singleton. done.
  - by intros e ?%elem_of_nil.
  - done.
  - intros w a b [?%elem_of_nil|([n c] & He & [= -> -> ->])]%Hpush; [done|].
    split; [set_solver|done].
  - intros a b w ->%elem_of_singleton Hab _. apply Hpush. right. by exists (b, w).
  - apply promising_nil.
Qed.

Context (Hconn : ∀ u v, u ∈ vertices g → v ∈ vertices g → conn (edges g) u v).

(** The result of the loop. *)
Definition prim_done (r : list (V * V * Z) * Z * gmap V (list (V * Z))) : Prop :=
  r.1.2 = weight r.1.1
  ∧ spanning_tree g r.1.1
  ∧ ∀ T, spanning_tree g T → (weight r.1.1 ≤ weight T)%Z.

Lemma prim_exit (st : prim_state) :
  prim_inv st →
  (size (vertices g) ≤ size (pr_visited st) ∨ pr_heap st = []) →
  prim_done (pr_edges st, pr_total st, pr_adj st).
Proof.
  intros [Hview Hst Hsub Hsize Hcn Hin Htot Hheap Hcomp Hprom] Hexit.
  assert (Hall : ∀ x, x ∈ vertices g → x ∈ pr_visited st).
  { destruct Hexit as [Hsz|Hempty].
    - intros x Hx. assert (Heq : pr_visited st ≡ vertices g); [|by apply Heq].
      apply set_subseteq_size_equiv; [done|lia].
    - intros x Hx. pose proof (Hconn start x Hstart Hx) as Hc.
      assert (Hclosed : ∀ a b, a ∈ pr_visited st → sc (edge_rel (edges g)) a b →
                b ∈ pr_visited st).
      { intros a b Ha Hab. destruct (decide (b ∈ pr_visited st)) as [|Hb]; [done|].
        assert (∃ w, (b, w) ∈ adj_of (adj_list g) a) as [w Hw].
        { destruct Hab as [[w Hw]|[w Hw]]; exists w; apply adj_undirected;
            [by left|by right]. }
        specialize (Hcomp a b w Ha Hw Hb). rewrite Hempty in Hcomp.
        by apply elem_of_nil in Hcomp. }
      clear -Hc Hst Hclosed. revert Hst.
      induction Hc as [y|y z x Hyz _ IH]; [done|]. intros Hy. apply IH.
      by eapply Hclosed. }
  assert (Heq : pr_visited st = vertices g) by (apply set_eq; intros x; split; auto).
  assert (Htree : spanning_tree g (pr_edges st)).
  { split.
    - intros e He. by apply Hin.
    - by rewrite Hsize, Heq.
    - intros u v Hu Hv. etrans; [symmetry; by apply Hcn, Hall|by apply Hcn, Hall]. }
  split; [done|]. split; [done|]. simpl.
  intros T HT. destruct (Hprom T HT) as (T' & rest & HT' & Hw & Hperm).
  pose proof (st_size g T' HT') as Hsz'. pose proof (st_size g _ Htree) as Hsz.
  rewrite Hperm, length_app in Hsz'.
  destruct rest; [|simpl in Hsz'; lia]. rewrite app_nil_r in Hperm.
  by rewrite <- (weight_perm _ _ Hperm).
Qed.

Lemma prim_body_spec (st : prim_state) :
  prim_inv st →
  (∃ r, prim_body vleb (size (vertices g)) st = Some (inr r) ∧ prim_done r)
  ∨ (∃ st', prim_body vleb (size (vertices g)) st = Some (inl st') ∧ prim_inv st'
            ∧ dist_lt (prim_measure st') (prim_measure st)).
Proof.
  intros Hinv. destruct (prim_body_cases st Hinv) as [[Hb Hexit]|Hstep]; [left|by right].
  eexists. split; [exact Hb|]. by apply prim_exit.
Qed.

(** The loop of [prim] returns, and whatever it returns is a minimum
    spanning tree together with its weight. *)
Lemma prim_loop_run (st : prim_state) :
  prim_inv st →
  (∃ r, returns (λ fuel, while_loop (prim_body vleb (size (vertices g))) fuel st) r)
  ∧ ∀ r, returns (λ fuel, while_loop (prim_body vleb (size (vertices g))) fuel st) r →
         prim_done r.
Proof.
  intros Hinv. split.
  - destruct (while_loop_terminates (prim_body vleb (size (vertices g))) dist_lt
                prim_measure prim_inv) with (s := st) as (n & r & Hr).
    + apply wf_slexprod; apply lt_wf.
    + intros s Hs.
      destruct (prim_body_spec s Hs) as [(r & Hr & _)|(s' & Hs' & ? & ?)]; [left|right]; eauto.
    + done.
    + by exists r, n.
  - intros r [n Hr].
    eapply (while_loop_invariant _ prim_inv prim_done); [| |exact Hinv|exact Hr].
    + intros s s' Hs Hb.
      destruct (prim_body_spec s Hs) as [(r0 & Hr0 & _)|(s0 & Hs0 & ? & _)]; congruence.
    + intros s r' Hs Hb.
      destruct (prim_body_spec s Hs) as [(r0 & Hr0 & ?)|(s0 & Hs0 & _)]; congruence.
Qed.

Lemma prim_run_from (vs : list V) (sv : option V) :
  get_vertices g vs →
  (∀ first rest, vs = first :: rest → default first sv = start) →
  (∃ r, returns (prim vleb (MST_init g vs) sv) r)
  ∧ ∀ r, returns (prim vleb (MST_init g vs) sv) r →
         r.1.2 = weight r.1.1
         ∧ spanning_tree g r.1.1
         ∧ ∀ T, spanning_tree g T → (weight r.1.1 ≤ weight T)%Z.
Proof.
  intros Hvs Hsv.
  assert (Hlen : length vs = size (vertices g)) by (by rewrite Hvs).
  destruct vs as [|first rest] eqn:Hv.
  { apply elem_of_elements in Hstart. rewrite <- Hvs in Hstart.
    by apply elem_of_nil in Hstart. }
  unfold prim. cbn [MST_init mst_vertices mst_graph mst_edges]. rewrite (Hsv _ _ eq_refl).
  unfold dd_get. rewrite Hlen.
  destruct (prim_loop_run _ prim_init_inv) as [(r & n & Hr) Hall]. split.
  - eexists. exists n. rewrite Hr. reflexivity.
  - intros r' [m Hm].
    destruct (while_loop _ m _) as [r0|] eqn:Hr0; [|done]. simpl in Hm.
    injection Hm as <-. apply (Hall r0). by exists m.
Qed.

End Prim.

Lemma prim_run {V : Type} `{Countable V} (vleb : V → V → bool) (g : Graph (V := V))
    (Hwf : wf_graph g) (Hund : directed g = false)
    (Hconn : ∀ u v, u ∈ vertices g → v ∈ vertices g → conn (edges g) u v)
    (start : V) (Hstart : start ∈ vertices g) (vs : list V) (sv : option V) :
  get_vertices g vs →
  (∀ first rest, vs = first :: rest → default first sv = start) →
  (∃ r, returns (prim vleb (MST_init g vs) sv) r)
  ∧ ∀ r, returns (prim vleb (MST_init g vs) sv) r →
         r.1.2 = weight r.1.1
         ∧ spanning_tree g r.1.1
         ∧ ∀ T, spanning_tree g T → (weight r.1.1 ≤ weight T)%Z.
Proof. exact (prim_run_from vleb g Hwf Hund start Hstart Hconn vs sv). Qed.

(** *** Fuel of Kruskal's algorithm *)

Section KruskalFuel.

Context {V : Type} `{Countable V}.

Lemma ds_find_mono (n m : nat) (ds : DisjointSet) (v : V) (r : V * DisjointSet) :
  ds_find n ds v = Some r → n ≤ m → ds_find m ds v = Some r.
Proof.
  revert m ds v r. induction n as [|n IH]; intros m ds v r Hrun Hle; [done|].
  destruct m as [|m]; [lia|]. simpl in *.
  destruct (ds_parent ds !! v) as [p|]; [|done]. simpl in *.
  destruct (decide (p ≠ v)); [|done].
  destruct (ds_find n ds p) as [r0|] eqn:Hr0; [|done].
  by rewrite (IH m _ _ _ Hr0) by lia.
Qed.

Lemma ds_union_mono (n m : nat) (ds ds' : DisjointSet (V := V)) (u v : V) :
  ds_union n ds u v = Some ds' → n ≤ m → ds_union m ds u v = Some ds'.
Proof.
  unfold ds_union. intros Hrun Hle.
  destruct (ds_find n ds u) as [r1|] eqn:Hr1; [|done]. simpl in Hrun.
  destruct (ds_find n r1.2 v) as [r2|] eqn:Hr2; [|done]. simpl in Hrun.
  rewrite (ds_find_mono _ _ _ _ _ Hr1 Hle). simpl.
  by rewrite (ds_find_mono _ _ _ _ _ Hr2 Hle).
Qed.

Lemma kruskal_edge_mono (n m : nat) (e : V * V * Z) (st st' : kruskal_state) :
  n ≤ m → kruskal_edge n e st = Some st' → kruskal_edge m e st = Some st'.
Proof.
  unfold kruskal_edge. destruct e as [[u v] w]. intros Hle Hrun.
  destruct (ds_find n (ks_ds st) u) as [r1|] eqn:Hr1; [|done]. simpl in Hrun.
  destruct (ds_find n r1.2 v) as [r2|] eqn:Hr2; [|done]. simpl in Hrun.
  rewrite (ds_find_mono _ _ _ _ _ Hr1 Hle). simpl.
  rewrite (ds_find_mono _ _ _ _ _ Hr2 Hle). simpl.
  destruct (decide (r1.1 ≠ r2.1)); [|done].
  destruct (ds_union n r2.2 u v) as [ds|] eqn:Hds; [|done].
  by rewrite (ds_union_mono _ _ _ _ _ _ Hds Hle).
Qed.

Lemma kruskal_mono (n m : nat) (mst : MST (V := V)) (r : list (V * V * Z) * Z * MST) :
  kruskal mst n = Some r → n ≤ m → kruskal mst m = Some r.
Proof.
  unfold kruskal. intros Hrun Hle.
  destruct (for_each (kruskal_edge n) _ _) as [st|] eqn:Hst; [|done].
  by rewrite (for_each_mono _ (kruskal_edge m) _ _ _ (λ x t t', kruskal_edge_mono n m x t t' Hle) Hst).
Qed.

End KruskalFuel.

Section MinimumSpanningTrees.

Context {V : Type} `{Countable V}.
Context (vleb : V → V → bool).

(** Every two vertices are joined by a chain of edges. *)
Definition connected (g : Graph (V := V)) : Prop :=
  ∀ u v, u ∈ vertices g → v ∈ vertices g → conn (edges g) u v.

(** C7 (amended). On a connected undirected graph with integer weights, built by the
    graph's own methods, [kruskal()] and [prim()] (from the default or from any
    given start vertex of the graph) both return; whatever they return, the
    reported totals are the weights of the returned edge lists and the two
    totals are equal, and [kruskal] leaves the object as it was. *)
Theorem kruskal_prim_agree (g : Graph (V := V)) (vs : list V) (start_vertex : option V) :
  wf_graph g → directed g = false → get_vertices g vs → connected g →
  (∀ s, start_vertex = Some s → s ∈ vertices g) →
  (∃ rk, returns (kruskal (MST_init g vs)) rk)
  ∧ (∃ rp, returns (prim vleb (MST_init g vs) start_vertex) rp)
  ∧ ∀ rk rp,
      returns (kruskal (MST_init g vs)) rk →
      returns (prim vleb (MST_init g vs) start_vertex) rp →
      rk.2 = MST_init g vs
      ∧ rk.1.2 = weight rk.1.1
      ∧ rp.1.2 = weight rp.1.1
      ∧ rk.1.2 = rp.1.2.
Proof.
  intros Hwf Hund Hvs Hconn Hsv.
  destruct (kruskal_run g Hwf vs Hvs (S (length (edges g))) (Nat.lt_succ_diag_r _))
    as (K & HK & Hprom & HKe & HKc).
  assert (HKall : ∀ rk, returns (kruskal (MST_init g vs)) rk →
                        rk = (K, weight K, MST_init g vs)).
  { intros rk [n Hn].
    apply (kruskal_mono _ (n `max` S (length (edges g)))) in Hn; [|lia].
    apply (kruskal_mono _ (n `max` S (length (edges g)))) in HK; [|lia]. congruence. }
  split; [by eexists; eexists|].
  destruct vs as [|first rest] eqn:Hv.
  - assert (Hempty : ∀ x, x ∉ vertices g).
    { intros x Hx%elem_of_elements. rewrite <- Hvs in Hx. by apply elem_of_nil in Hx. }
    assert (HK0 : K = []).
    { destruct K as [|e K]; [done|]. exfalso.
      destruct (edge_of_vertices g Hwf [] Hvs _ (Nat.lt_succ_diag_r _) e
                  (HKe e (list_elem_of_here _ _))) as [He _].
      by apply Hempty in He. }
    subst K. split; [by exists ([], 0%Z, MST_init g []), 0|].
    intros rk rp Hrk [n Hrp]. rewrite (HKall rk Hrk). simpl in Hrp.
    injection Hrp as <-. done.
  - set (start := default first start_vertex).
    assert (Hstart : start ∈ vertices g).
    { unfold start. destruct start_vertex as [s|]; simpl; [by apply Hsv|].
      apply elem_of_elements. rewrite <- Hvs. by left. }
    destruct (prim_run vleb g Hwf Hund Hconn start Hstart (first :: rest) start_vertex Hvs)
      as [Hret Hall].
    { by intros f r [= <- <-]. }
    split; [done|]. intros rk rp Hrk Hrp. rewrite (HKall rk Hrk). simpl.
    destruct (Hall rp Hrp) as (Hw & Htree & Hmin).
    destruct (promising_minimal g K Hprom) as [HKtree HKmin].
    + intros u v Hu Hv'. apply HKc. by apply Hconn.
    + done.
    + by exists rp.1.1.
    + split_and!; [done|done|done|]. rewrite Hw.
      specialize (Hmin K HKtree). specialize (HKmin _ Htree). lia.
Qed.

End MinimumSpanningTrees.

(** The graph of the module's demonstration. *)
Definition mst_main_graph : Graph (V := string) :=
  build false
    [AddEdge "A" "B" 4; AddEdge "A" "C" 2; AddEdge "B" "C" 1; AddEdge "B" "D" 5;
     AddEdge "C" "D" 8; AddEdge "C" "E" 10; AddEdge "D" "E" 2; AddEdge "E" "F" 5;
     AddEdge "D" "F" 6; AddEdge "B" "F" 2]%string%Z.

Lemma mst_main_graph_connected : connected mst_main_graph.
Proof.
  assert (Hedge : ∀ u v w, bool_decide ((u, v, w) ∈ edges mst_main_graph) = true →
                  conn (edges mst_main_graph) u v).
  { intros u v w Hin. apply (conn_edge _ u v w). by apply bool_decide_eq_true in Hin. }
  assert (HB : conn (edges mst_main_graph) "A" "B") by (by apply (Hedge _ _ 4%Z)).
  assert (HC : conn (edges mst_main_graph) "A" "C") by (by apply (Hedge _ _ 2%Z)).
  assert (HD : conn (edges mst_main_graph) "A" "D").
  { etrans; [exact HB|]. by apply (Hedge _ _ 5%Z). }
  assert (HE : conn (edges mst_main_graph) "A" "E").
  { etrans; [exact HD|]. by apply (Hedge _ _ 2%Z). }
  assert (HF : conn (edges mst_main_graph) "A" "F").
  { etrans; [exact HB|]. by apply (Hedge _ _ 2%Z). }
  assert (Hall : Forall (conn (edges mst_main_graph) "A") (elements (vertices mst_main_graph))).
  { let l := eval vm_compute in (elements (vertices mst_main_graph)) in
    change (Forall (conn (edges mst_main_graph) "A"%string) l).
    repeat constructor; assumption || reflexivity. }
  rewrite Forall_forall in Hall.
  intros u v Hu%elem_of_elements%Hall Hv%elem_of_elements%Hall.
  etrans; [symmetry; exact Hu|exact Hv].
Qed.

Lemma kruskal_prim_agree_witness :
  (∃ rk, returns (kruskal (MST_init mst_main_graph (elements (vertices mst_main_graph)))) rk)
  ∧ (∃ rp, returns (prim String.leb
                      (MST_init mst_main_graph (elements (vertices mst_main_graph))) None) rp)
  ∧ ∀ rk rp,
      returns (kruskal (MST_init mst_main_graph (elements (vertices mst_main_graph)))) rk →
      returns (prim String.leb
                 (MST_init mst_main_graph (elements (vertices mst_main_graph))) None) rp →
      rk.2 = MST_init mst_main_graph (elements (vertices mst_main_graph))
      ∧ rk.1.2 = weight rk.1.1
      ∧ rp.1.2 = weight rp.1.1
      ∧ rk.1.2 = rp.1.2.
Proof.
  apply (kruskal_prim_agree String.leb mst_main_graph
           (elements (vertices mst_main_graph)) None).
  - apply wf_graph_build.
  - reflexivity.
  - unfold get_vertices. reflexivity.
  - apply mst_main_graph_connected.
  - intros s Hs. discriminate Hs.
Defined.

(** On the demonstration graph both algorithms report the total 12. *)
Example mst_main_totals :
  let m := MST_init mst_main_graph (elements (vertices mst_main_graph)) in
  (r ← kruskal m 20; Some r.1.2) = Some 12%Z
  ∧ (r ← prim String.leb m None 20; Some r.1.2) = Some 12%Z.
Proof. split; vm_compute; reflexivity. Qed.

(** ** Weights that are floats

    The embedding above takes weights in [Z], where addition is exact.  A
    Python weight may as well be a [float], which [+] rounds, and [kruskal]
    and [prim] add the weights of the tree they build in different orders.
    This section embeds [add_edge], [kruskal] and [prim] once more, with
    weights in the kernel's binary64 floats ([PrimFloat.add] is IEEE 754
    addition rounded to nearest, which is Python's [+] on floats); only the
    returned pair [(mst_edges, total_weight)] is modelled.  [total_weight]
    starts as the integer [0], which [+] converts to the float [0.0]. *)

Section FloatWeights.

Import PrimFloat.

Context {V : Type} `{Countable V}.
Context (vleb : V → V → bool).

Record Graph_float := mkGraphFloat {
  directed_float : bool;
  adj_list_float : gmap V (list (V * float));
  vertices_float : gset V;
  edges_float : list (V * V * float)
}.

(** [d[v]] on the [defaultdict(list)] of a graph with float weights. *)
Definition adj_of_float (d : gmap V (list (V * float))) (v : V) : list (V * float) :=
  default [] (d !! v).

Definition add_edge_float (g : Graph_float) (from_vertex to_vertex : V) (weight : float)
  : Graph_float :=
  let vs := {[to_vertex]} ∪ ({[from_vertex]} ∪ vertices_float g) in
  let d1 := <[from_vertex := adj_of_float (adj_list_float g) from_vertex
                               ++ [(to_vertex, weight)]]> (adj_list_float g) in
  let es := edges_float g ++ [(from_vertex, to_vertex, weight)] in
  let d2 := if directed_float g then d1
            else <[to_vertex := adj_of_float d1 to_vertex ++ [(from_vertex, weight)]]> d1 in
  mkGraphFloat (directed_float g) d2 vs es.

(** [sorted(self.edges, key=lambda x: x[2])] on float weights. *)
Fixpoint insert_by_weight_float (e : V * V * float) (l : list (V * V * float))
  : list (V * V * float) :=
  match l with
  | [] => [e]
  | x :: l' =>
      if PrimFloat.leb e.2 x.2 then e :: x :: l' else x :: insert_by_weight_float e l'
  end.

Definition sorted_by_weight_float (l : list (V * V * float)) : list (V * V * float) :=
  foldr insert_by_weight_float [] l.

(** The body of the loop of [kruskal]: the state is the disjoint set,
    [mst_edges] and [total_weight]. *)
Definition kruskal_edge_float (fuel : nat) (e : V * V * float)
    (st : DisjointSet (V := V) * list (V * V * float) * float)
  : option (DisjointSet (V := V) * list (V * V * float) * float) :=
  let '(from_vertex, to_vertex, weight) := e in
  r1 ← ds_find fuel st.1.1 from_vertex;
  r2 ← ds_find fuel r1.2 to_vertex;
  if decide (r1.1 ≠ r2.1) then
    ds ← ds_union fuel r2.2 from_vertex to_vertex;
    Some (ds, st.1.2 ++ [(from_vertex, to_vertex, weight)], PrimFloat.add st.2 weight)
  else Some (r2.2, st.1.2, st.2).

(** [MST(graph).kruskal()], with [vs] what [graph.get_vertices()] returned. *)
Definition kruskal_float (g : Graph_float) (vs : list V) (fuel : nat)
  : option (list (V * V * float) * float) :=
  st ← for_each (kruskal_edge_float fuel) (sorted_by_weight_float (edges_float g))
         (DisjointSet_init vs, [], PrimFloat.zero);
  Some (st.1.2, st.2).

(** Python's [<=] on the tuples [(weight, from_vertex, to_vertex)]. *)
Definition edge_leb_float (a b : float * V * V) : bool :=
  PrimFloat.ltb a.1.1 b.1.1
  || (PrimFloat.eqb a.1.1 b.1.1
      && (vltb vleb a.1.2 b.1.2 || (bool_decide (a.1.2 = b.1.2) && vleb a.2 b.2))).

Definition prim_push_float (vertex : V) (visited : gset V) (nbrs : list (V * float))
    (heap : list (float * V * V)) : list (float * V * V) :=
  fold_left
    (λ (h : list (float * V * V)) (e : V * float),
       if decide (e.1 ∈ visited) then h else heappush h (e.2, vertex, e.1))
    nbrs heap.

(** The body of the loop of [prim]: the state is [visited], [mst_edges],
    [total_weight] and the heap [edges]. *)
Definition prim_body_float (g : Graph_float) (n_vertices : nat)
    (st : gset V * list (V * V * float) * float * list (float * V * V))
  : option (gset V * list (V * V * float) * float * list (float * V * V)
            + list (V * V * float) * float) :=
  let '(visited, mst_edges, total_weight, edges) := st in
  let stop := Some (inr (mst_edges, total_weight)) in
  if decide (size visited < n_vertices) then
    match heappop edge_leb_float edges with
    | None => stop
    | Some ((weight, from_vertex, to_vertex), heap) =>
        if decide (to_vertex ∈ visited) then
          Some (inl (visited, mst_edges, total_weight, heap))
        else
          let visited' := {[to_vertex]} ∪ visited in
          Some (inl (visited', mst_edges ++ [(from_vertex, to_vertex, weight)],
                     PrimFloat.add total_weight weight,
                     prim_push_float to_vertex visited'
                       (adj_of_float (adj_list_float g) to_vertex) heap))
    end
  else stop.

(** [MST(graph).prim(start_vertex)]; [None] is the default argument. *)
Definition prim_float (g : Graph_float) (vs : list V) (start_vertex : option V)
    (fuel : nat) : option (list (V * V * float) * float) :=
  match vs with
  | [] => Some ([], PrimFloat.zero)
  | first :: _ =>
      let start := default first start_vertex in
      let heap := fold_left (λ (h : list (float * V * V)) (e : V * float),
                               heappush h (e.2, start, e.1))
                    (adj_of_float (adj_list_float g) start) [] in
      while_loop (prim_body_float g (length vs)) fuel
        ({[start]}, [], PrimFloat.zero, heap)
  end.

End FloatWeights.

Section FloatExample.

Import PrimFloat.
#[local] Set Warnings "-inexact-float".

(** The undirected path [0 - 1 - 2 - 3] with the weights [0.3], [0.2] and
    [0.1]. *)
Definition float_path_graph : Graph_float (V := nat) :=
  add_edge_float
    (add_edge_float
       (add_edge_float (mkGraphFloat false ∅ ∅ []) 0 1 0.3%float)
       1 2 0.2%float)
    2 3 0.1%float.

(** C7 (as stated).  With weights that are floats the two totals need not be
    equal.  On the path [0 - 1 - 2 - 3] with the weights [0.3], [0.2] and
    [0.1], [kruskal] adds [0.1], [0.2], [0.3] and returns the total
    [0.6000000000000001]; [prim], starting (by default or on request) at the
    vertex [0], adds [0.3], [0.2], [0.1] and returns [0.6]; both return the
    three edges of the path, and Python's [==] on the two totals is
    [False]. *)
Theorem kruskal_prim_float_totals_differ :
  directed_float float_path_graph = false
  ∧ elements (vertices_float float_path_graph) ≡ₚ [0; 1; 2; 3]
  ∧ kruskal_float float_path_graph [0; 1; 2; 3] 10
    = Some ([(2, 3, 0.1%float); (1, 2, 0.2%float); (0, 1, 0.3%float)],
            0.6000000000000001%float)
  ∧ prim_float Nat.leb float_path_graph [0; 1; 2; 3] None 10
    = Some ([(0, 1, 0.3%float); (1, 2, 0.2%float); (2, 3, 0.1%float)], 0.6%float)
  ∧ prim_float Nat.leb float_path_graph [0; 1; 2; 3] (Some 0) 10
    = Some ([(0, 1, 0.3%float); (1, 2, 0.2%float); (2, 3, 0.1%float)], 0.6%float)
  ∧ PrimFloat.eqb 0.6000000000000001%float 0.6%float = false
  ∧ 0.6000000000000001%float ≠ 0.6%float.
Proof.
  split; [reflexivity|]. split.
  { apply NoDup_Permutation; [apply NoDup_elements|by apply (bool_decide_unpack _)|].
    intros x. rewrite elem_of_elements. unfold float_path_graph, add_edge_float. simpl.
    set_solver. }
  split; [vm_compute; reflexivity|]. split; [vm_compute; reflexivity|].
  split; [vm_compute; reflexivity|]. split; [vm_compute; reflexivity|].
  intros Heq. apply (f_equal (λ x, PrimFloat.eqb x 0.6%float)) in Heq.
  vm_compute in Heq. discriminate Heq.
Qed.

End FloatExample.

(** * Further properties

    What else the code of the four modules guarantees, beyond the claims of
    the specification. *)

(** ** graphs.py *)


Section BuildFacts.

Context {V : Type} `{Countable V}.

Lemma directed_build (b : bool) (ops : list graph_op) : directed (build (V := V) b ops) = b.
Proof.
  unfold build. apply (fold_left_invariant apply_op (λ g, directed g = b)); [|done].
  by intros [v|u v w] g _ Hg.
Qed.

(** X1. The adjacency lists and the edge list stay in step.  After any
    sequence of [add_vertex] and [add_edge] calls on a fresh graph, the list
    under [u] holds the entry [(v, w)] exactly when [(u, v, w)] was added as
    an edge or, on an undirected graph, [(v, u, w)] was. *)
Theorem build_adjacency_matches_edges (is_directed : bool) (ops : list graph_op)
    (u v : V) (w : Z) :
  (v, w) ∈ adj_of (adj_list (build is_directed ops)) u
  ↔ (u, v, w) ∈ edges (build is_directed ops)
    ∨ (is_directed = false ∧ (v, u, w) ∈ edges (build is_directed ops)).
Proof.
  rewrite (wf_adj _ (wf_graph_build is_directed ops)), directed_build.
  rewrite list_elem_of_In, in_flat_map. unfold edge_entries. split.
  - intros ([[a b] c] & Hin%list_elem_of_In & Hent%list_elem_of_In). simpl in Hent.
    apply elem_of_app in Hent as [Hent|Hent].
    + destruct (decide (a = u)) as [->|]; [|by apply elem_of_nil in Hent].
      apply list_elem_of_singleton in Hent. injection Hent as -> ->. by left.
    + destruct is_directed; [by apply elem_of_nil in Hent|].
      destruct (decide (b = u)) as [->|]; [|by apply elem_of_nil in Hent].
      apply list_elem_of_singleton in Hent. injection Hent as -> ->. by right.
  - intros [Hin|[-> Hin]]; eexists; (split; [apply list_elem_of_In; exact Hin|]);
      apply list_elem_of_In; simpl; apply elem_of_app.
    + left. rewrite decide_True by done. by left.
    + right. rewrite decide_True by done. by left.
Qed.

End BuildFacts.

Section AdjacencyMatrix.

Context {V : Type} `{Countable V}.

(** The edge [e] is written to the cell of [(u, v)]. *)
Definition joins (is_directed : bool) (u v : V) (e : V * V * Z) : bool :=
  bool_decide (e.1.1 = u ∧ e.1.2 = v)
  || (negb is_directed && bool_decide (e.1.1 = v ∧ e.1.2 = u)).

(** The weight of the last edge of the list written to the cell of
    [(u, v)], [0] without such an edge. *)
Definition last_weight (is_directed : bool) (es : list (V * V * Z)) (u v : V) : Z :=
  fold_left (λ (acc : Z) (e : V * V * Z), if joins is_directed u v e then e.2 else acc) es 0%Z.

Definition cell (matrix : list (list Z)) (i j : nat) : option Z :=
  row ← matrix !! i; row !! j.

Lemma insert_vertex_perm (vleb : V → V → bool) (x : V) (l : list V) : insert_vertex vleb x l ≡ₚ x :: l.
Proof.
  induction l as [|y l IH]; simpl; [done|]. destruct (vltb _ _ _); [|done].
  rewrite IH. apply Permutation_swap.
Qed.

Lemma sorted_vertices_perm (vleb : V → V → bool) (vs : list V) : sorted_vertices vleb vs ≡ₚ vs.
Proof.
  induction vs as [|x vs IH]; simpl; [done|]. by rewrite insert_vertex_perm, IH.
Qed.

Lemma vertex_to_index_from (l : list V) (m : gmap V nat) (k : nat) (v : V) :
  NoDup l →
  (∀ i, l !! i = Some v →
     fold_left (λ (m : gmap V nat) (iv : nat * V), <[iv.2 := iv.1]> m)
       (enumerate_from k l) m !! v = Some (k + i))
  ∧ (v ∉ l →
     fold_left (λ (m : gmap V nat) (iv : nat * V), <[iv.2 := iv.1]> m)
       (enumerate_from k l) m !! v = m !! v).
Proof.
  intros Hnd. revert m k. induction Hnd as [|x l Hx Hnd IH]; intros m k; simpl.
  { split; [by intros i ?|done]. }
  destruct (IH (<[x := k]> m) (S k)) as [IH1 IH2]. split.
  - intros [|i] Hi; simpl in Hi.
    + injection Hi as ->. rewrite IH2 by done. rewrite lookup_insert_eq. f_equal. lia.
    + rewrite (IH1 i Hi). f_equal. lia.
  - intros Hv. rewrite IH2 by set_solver. rewrite lookup_insert_ne; [done|]. set_solver.
Qed.

Lemma vertex_to_index_lookup (l : list V) (v : V) (i : nat) :
  NoDup l → l !! i = Some v → vertex_to_index l !! v = Some i.
Proof.
  intros Hnd Hi. unfold vertex_to_index.
  by rewrite (proj1 (vertex_to_index_from l ∅ 0 v Hnd) i Hi).
Qed.

Definition square (n : nat) (matrix : list (list Z)) : Prop :=
  length matrix = n ∧ ∀ row, row ∈ matrix → length row = n.

Lemma matrix_set_spec (n : nat) (matrix : list (list Z)) (i j : nat) (w : Z) :
  square n matrix → i < n → j < n →
  ∃ m', matrix_set matrix i j w = Some m'
    ∧ square n m'
    ∧ ∀ i' j', i' < n → j' < n →
        cell m' i' j' = if decide (i' = i ∧ j' = j) then Some w else cell matrix i' j'.
Proof.
  intros [Hlen Hrows] Hi Hj. unfold matrix_set.
  destruct (lookup_lt_is_Some_2 matrix i) as [row Hrow]; [lia|].
  assert (Hrl : length row = n) by (apply Hrows; by eapply list_elem_of_lookup_2).
  rewrite Hrow. simpl. rewrite decide_True by lia. eexists. split; [done|]. split.
  - split; [by rewrite length_insert|].
    intros r [k Hk]%list_elem_of_lookup_1. destruct (decide (k = i)) as [->|Hne].
    + rewrite list_lookup_insert_eq in Hk by lia. injection Hk as <-.
      by rewrite length_insert.
    + rewrite list_lookup_insert_ne in Hk by done. apply Hrows.
      by eapply list_elem_of_lookup_2.
  - intros i' j' Hi' Hj'. unfold cell. destruct (decide (i' = i)) as [->|Hne].
    + rewrite list_lookup_insert_eq by lia. simpl. rewrite Hrow. simpl.
      destruct (decide (j' = j)) as [->|Hnj].
      * rewrite decide_True by done. apply list_lookup_insert_eq. lia.
      * rewrite decide_False by tauto. by apply list_lookup_insert_ne.
    + rewrite list_lookup_insert_ne by done. rewrite decide_False by tauto. done.
Qed.

Lemma matrix_edge_spec (is_directed : bool) (vl : list V) (matrix : list (list Z))
    (a b : V) (w : Z) (cells : V → V → Z) :
  NoDup vl → a ∈ vl → b ∈ vl →
  square (length vl) matrix →
  (∀ i j u v, vl !! i = Some u → vl !! j = Some v → cell matrix i j = Some (cells u v)) →
  ∃ m', matrix_edge is_directed (vertex_to_index vl) (a, b, w) matrix = Some m'
    ∧ square (length vl) m'
    ∧ ∀ i j u v, vl !! i = Some u → vl !! j = Some v →
        cell m' i j = Some (if joins is_directed u v (a, b, w) then w else cells u v).
Proof.
  intros Hnd [ia Hia]%list_elem_of_lookup_1 [ib Hib]%list_elem_of_lookup_1 Hsq Hcells.
  unfold matrix_edge.
  rewrite (vertex_to_index_lookup vl a ia Hnd Hia), (vertex_to_index_lookup vl b ib Hnd Hib).
  simpl.
  pose proof (lookup_lt_Some _ _ _ Hia) as Hla. pose proof (lookup_lt_Some _ _ _ Hib) as Hlb.
  destruct (matrix_set_spec _ matrix ia ib w Hsq Hla Hlb) as (m1 & Hm1 & Hsq1 & Hc1).
  rewrite Hm1. simpl.
  assert (Hidx : ∀ i u x ix, vl !! i = Some u → vl !! ix = Some x → (i = ix ↔ x = u)).
  { intros i u x ix Hi Hx. split; [intros ->; congruence|].
    intros ->. by eapply NoDup_lookup. }
  destruct is_directed.
  - eexists. split; [done|]. split; [done|]. intros i j u v Hi Hj.
    rewrite Hc1 by (by eapply lookup_lt_Some). unfold joins. simpl. rewrite orb_false_r.
    rewrite (Hcells i j u v Hi Hj).
    destruct (decide (i = ia ∧ j = ib)) as [[-> ->]|Hne].
    + rewrite bool_decide_eq_true_2; [done|]. split; congruence.
    + rewrite bool_decide_eq_false_2; [done|]. intros [<- <-]. apply Hne.
      split; by eapply NoDup_lookup.
  - destruct (matrix_set_spec _ m1 ib ia w Hsq1 Hlb Hla) as (m2 & Hm2 & Hsq2 & Hc2).
    rewrite Hm2. eexists. split; [done|]. split; [done|]. intros i j u v Hi Hj.
    rewrite Hc2, Hc1 by (by eapply lookup_lt_Some). unfold joins. simpl.
    rewrite (Hcells i j u v Hi Hj).
    destruct (decide (i = ib ∧ j = ia)) as [[-> ->]|Hne2].
    + rewrite (bool_decide_eq_true_2 (a = v ∧ b = u)) by (split; congruence).
      by rewrite orb_true_r.
    + rewrite (bool_decide_eq_false_2 (a = v ∧ b = u)).
      2:{ intros [<- <-]. apply Hne2. split; by eapply NoDup_lookup. }
      rewrite orb_false_r. destruct (decide (i = ia ∧ j = ib)) as [[-> ->]|Hne].
      * rewrite bool_decide_eq_true_2; [done|]. split; congruence.
      * rewrite bool_decide_eq_false_2; [done|]. intros [<- <-]. apply Hne.
        split; by eapply NoDup_lookup.
Qed.

Lemma matrix_loop_spec (is_directed : bool) (vl : list V) (todo done : list (V * V * Z))
    (matrix : list (list Z)) :
  NoDup vl → (∀ a b w, (a, b, w) ∈ todo → a ∈ vl ∧ b ∈ vl) →
  square (length vl) matrix →
  (∀ i j u v, vl !! i = Some u → vl !! j = Some v →
     cell matrix i j = Some (last_weight is_directed done u v)) →
  ∃ m', for_each (matrix_edge is_directed (vertex_to_index vl)) todo matrix = Some m'
    ∧ square (length vl) m'
    ∧ ∀ i j u v, vl !! i = Some u → vl !! j = Some v →
        cell m' i j = Some (last_weight is_directed (done ++ todo) u v).
Proof.
  intros Hnd. revert done matrix.
  induction todo as [|[[a b] w] todo IH]; intros done matrix Hin Hsq Hcells.
  { exists matrix. rewrite app_nil_r. done. }
  destruct (Hin a b w) as [Ha Hb]; [by left|].
  destruct (matrix_edge_spec is_directed vl matrix a b w (last_weight is_directed done)
              Hnd Ha Hb Hsq Hcells) as (m1 & Hm1 & Hsq1 & Hc1).
  cbn [for_each]. rewrite Hm1.
  destruct (IH (done ++ [(a, b, w)]) m1) as (m' & Hrun & Hsq' & Hc'); [|done| |].
  - intros a' b' w' Hin'. apply (Hin a' b' w'). by right.
  - intros i j u v Hi Hj. rewrite (Hc1 i j u v Hi Hj). unfold last_weight.
    by rewrite fold_left_app.
  - exists m'. by rewrite <- app_assoc in Hc'.
Qed.

Lemma get_adjacency_matrix_run (vleb : V → V → bool) (g : Graph (V := V)) (vs : list V) :
  wf_graph g → get_vertices g vs →
  ∃ matrix vl,
    get_adjacency_matrix vleb g vs = Some (matrix, vl)
    ∧ vl ≡ₚ elements (vertices g)
    ∧ square (length vl) matrix
    ∧ ∀ i j u v, vl !! i = Some u → vl !! j = Some v →
        cell matrix i j = Some (last_weight (directed g) (edges g) u v).
Proof.
  intros Hwf Hvs. unfold get_adjacency_matrix.
  set (vl := sorted_vertices vleb vs).
  assert (Hperm : vl ≡ₚ elements (vertices g)).
  { unfold vl. by rewrite sorted_vertices_perm. }
  assert (Hnd : NoDup vl) by (rewrite Hperm; apply NoDup_elements).
  destruct (matrix_loop_spec (directed g) vl (edges g) []
              (replicate (length vl) (replicate (length vl) 0%Z))) as (m & Hrun & Hsq & Hc).
  - done.
  - intros a b w Hin. destruct (wf_closed g Hwf) as [He _].
    destruct (He a b w Hin) as [Ha Hb]. rewrite !Hperm, !elem_of_elements. done.
  - split; [by rewrite length_replicate|].
    intros row [-> _]%elem_of_replicate. by rewrite length_replicate.
  - intros i j u v Hi%lookup_lt_Some Hj%lookup_lt_Some. unfold cell.
    rewrite lookup_replicate_2 by done. simpl. by rewrite lookup_replicate_2.
  - rewrite Hrun. simpl. exists m, vl. done.
Qed.

Lemma joins_sym (u v : V) (e : V * V * Z) : joins false u v e = joins false v u e.
Proof. unfold joins. simpl. apply orb_comm. Qed.

Lemma last_weight_sym (es : list (V * V * Z)) (u v : V) :
  last_weight false es u v = last_weight false es v u.
Proof.
  unfold last_weight. generalize 0%Z.
  induction es as [|e es IH]; intros acc; simpl; [done|]. by rewrite joins_sym, IH.
Qed.

Lemma last_weight_snoc (b : bool) (es : list (V * V * Z)) (e : V * V * Z) (u v : V) :
  last_weight b (es ++ [e]) u v = if joins b u v e then e.2 else last_weight b es u v.
Proof. unfold last_weight. by rewrite fold_left_app. Qed.

Lemma last_weight_edge (b : bool) (es : list (V * V * Z)) (u v : V) :
  (last_weight b es u v ≠ 0%Z →
   ∃ e, e ∈ es ∧ joins b u v e = true ∧ e.2 = last_weight b es u v)
  ∧ ((∀ e, e ∈ es → joins b u v e = false) → last_weight b es u v = 0%Z).
Proof.
  induction es as [|e es [IH1 IH2]] using rev_ind; [done|].
  rewrite last_weight_snoc. split.
  - destruct (joins b u v e) eqn:He.
    + intros _. exists e. split; [|done]. apply elem_of_app. right. by left.
    + intros (f & Hf & Hj & Hw)%IH1. exists f. split; [|done]. apply elem_of_app. by left.
  - intros Hno. rewrite (Hno e) by (apply elem_of_app; right; by left).
    apply IH2. intros f Hf. apply Hno, elem_of_app. by left.
Qed.

End AdjacencyMatrix.

Section AdjacencyMatrixTheorems.

Context {V : Type} `{Countable V}.
Context (vleb : V → V → bool).

(** X2. [get_adjacency_matrix] on a graph built by the graph's methods:
    it returns (no index or key is ever missing); the vertex list it returns
    lists the vertices of the graph once each; the matrix is square, of that
    size; and the cell of row [u] and column [v] holds the weight of the last
    edge added from [u] to [v] (on an undirected graph: between [u] and
    [v]), or [0] when there is none.  So parallel edges overwrite each other
    and an edge of weight [0] reads like no edge. *)
Theorem adjacency_matrix_cells (g : Graph (V := V)) (vs : list V) :
  wf_graph g → get_vertices g vs →
  ∃ matrix vl,
    get_adjacency_matrix vleb g vs = Some (matrix, vl)
    ∧ vl ≡ₚ elements (vertices g)
    ∧ length matrix = length vl
    ∧ (∀ row, row ∈ matrix → length row = length vl)
    ∧ ∀ i j u v, vl !! i = Some u → vl !! j = Some v →
        cell matrix i j = Some (last_weight (directed g) (edges g) u v).
Proof.
  intros Hwf Hvs.
  destruct (get_adjacency_matrix_run vleb g vs Hwf Hvs) as (m & vl & Hrun & Hp & [Hl Hr] & Hc).
  exists m, vl. done.
Qed.

(** X3. The adjacency matrix of an undirected graph is symmetric. *)
Theorem adjacency_matrix_symmetric (g : Graph (V := V)) (vs : list V) :
  wf_graph g → directed g = false → get_vertices g vs →
  ∃ matrix vl,
    get_adjacency_matrix vleb g vs = Some (matrix, vl)
    ∧ ∀ i j, i < length vl → j < length vl → cell matrix i j = cell matrix j i.
Proof.
  intros Hwf Hund Hvs.
  destruct (get_adjacency_matrix_run vleb g vs Hwf Hvs) as (m & vl & Hrun & Hp & _ & Hc).
  exists m, vl. split; [done|]. intros i j Hi Hj.
  destruct (lookup_lt_is_Some_2 vl i Hi) as [u Hu].
  destruct (lookup_lt_is_Some_2 vl j Hj) as [v Hv].
  rewrite (Hc i j u v Hu Hv), (Hc j i v u Hv Hu), Hund. by rewrite last_weight_sym.
Qed.

(** X4. What a cell says about the edges: a cell that is not [0] holds
    the weight of an edge of the graph from the vertex of the row to the
    vertex of the column (on an undirected graph, in either direction), and
    a cell whose two vertices share no edge is [0]. *)
Theorem adjacency_matrix_edges (g : Graph (V := V)) (vs : list V) :
  wf_graph g → get_vertices g vs →
  ∃ matrix vl,
    get_adjacency_matrix vleb g vs = Some (matrix, vl)
    ∧ ∀ i j u v, vl !! i = Some u → vl !! j = Some v →
        ∃ w, cell matrix i j = Some w
          ∧ (w ≠ 0%Z →
             (u, v, w) ∈ edges g ∨ (directed g = false ∧ (v, u, w) ∈ edges g))
          ∧ ((∀ c, ((u, v, c) ∉ edges g) ∧ ((v, u, c) ∉ edges g)) → w = 0%Z).
Proof.
  intros Hwf Hvs.
  destruct (get_adjacency_matrix_run vleb g vs Hwf Hvs) as (m & vl & Hrun & Hp & _ & Hc).
  exists m, vl. split; [done|]. intros i j u v Hu Hv.
  exists (last_weight (directed g) (edges g) u v). split; [by apply Hc|].
  destruct (last_weight_edge (directed g) (edges g) u v) as [Hnz Hz]. split.
  - intros ([[a b] c] & Hin & Hj & Hw)%Hnz. simpl in Hw. subst c.
    unfold joins in Hj. simpl in Hj.
    apply orb_prop in Hj as [[-> ->]%bool_decide_eq_true|[Hd [-> ->]%bool_decide_eq_true]%andb_prop].
    + by left.
    + right. split; [|done]. by destruct (directed g).
  - intros Hno. apply Hz. intros [[a b] c] Hin. unfold joins. simpl.
    destruct (Hno c) as [H1 H2].
    rewrite bool_decide_eq_false_2 by (intros [-> ->]; done).
    rewrite (bool_decide_eq_false_2 (a = v ∧ b = u)) by (intros [-> ->]; done).
    by rewrite andb_false_r.
Qed.

End AdjacencyMatrixTheorems.

Lemma adjacency_matrix_cells_witness :
  ∃ matrix vl,
    get_adjacency_matrix String.leb main_graph (elements (vertices main_graph))
    = Some (matrix, vl)
    ∧ vl ≡ₚ elements (vertices main_graph)
    ∧ length matrix = length vl
    ∧ (∀ row, row ∈ matrix → length row = length vl)
    ∧ ∀ i j u v, vl !! i = Some u → vl !! j = Some v →
        cell matrix i j = Some (last_weight (directed main_graph) (edges main_graph) u v).
Proof.
  apply (adjacency_matrix_cells String.leb main_graph (elements (vertices main_graph))).
  - apply wf_graph_build.
  - unfold get_vertices. reflexivity.
Defined.

Lemma adjacency_matrix_symmetric_witness :
  ∃ matrix vl,
    get_adjacency_matrix String.leb mst_main_graph (elements (vertices mst_main_graph))
    = Some (matrix, vl)
    ∧ ∀ i j, i < length vl → j < length vl → cell matrix i j = cell matrix j i.
Proof.
  apply (adjacency_matrix_symmetric String.leb mst_main_graph
           (elements (vertices mst_main_graph))).
  - apply wf_graph_build.
  - reflexivity.
  - unfold get_vertices. reflexivity.
Defined.

Lemma adjacency_matrix_edges_witness :
  ∃ matrix vl,
    get_adjacency_matrix String.leb main_graph (elements (vertices main_graph))
    = Some (matrix, vl)
    ∧ ∀ i j u v, vl !! i = Some u → vl !! j = Some v →
        ∃ w, cell matrix i j = Some w
          ∧ (w ≠ 0%Z →
             (u, v, w) ∈ edges main_graph
             ∨ (directed main_graph = false ∧ (v, u, w) ∈ edges main_graph))
          ∧ ((∀ c, ((u, v, c) ∉ edges main_graph) ∧ ((v, u, c) ∉ edges main_graph))
             → w = 0%Z).
Proof.
  apply (adjacency_matrix_edges String.leb main_graph (elements (vertices main_graph))).
  - apply wf_graph_build.
  - unfold get_vertices. reflexivity.
Defined.

(** The matrix of the demonstration of [graphs.py]. *)
Example main_adjacency_matrix :
  get_adjacency_matrix String.leb main_graph (elements (vertices main_graph))
  = Some ([[0; 4; 2; 0; 0]; [0; 0; 1; 5; 0]; [0; 0; 0; 8; 10]; [0; 0; 0; 0; 2];
           [0; 0; 0; 7; 0]]%Z,
          ["A"; "B"; "C"; "D"; "E"]%string).
Proof. vm_compute. reflexivity. Qed.

Lemma for_each_fmap {A S T : Type} (φ : S → T) (f : A → S → option S)
    (f' : A → T → option T) (l : list A) (s : S) :
  (∀ x t, φ <$> f x t = f' x (φ t)) →
  φ <$> for_each f l s = for_each f' l (φ s).
Proof.
  intros Hf. revert s. induction l as [|x l IH]; intros s; simpl; [done|].
  rewrite <- Hf. destruct (f x s) as [s1|]; simpl; [apply IH|done].
Qed.


Section Traversals.

Context {V : Type} `{Countable V}.
Context (g : Graph (V := V)) (Hwf : wf_graph g).
Context (start : V) (Hstart : start ∈ vertices g).

(** What both traversals return: every vertex that the start vertex reaches
    along adjacency entries, once, the start vertex first. *)
Definition traversal_of (order : list V) : Prop :=
  NoDup order
  ∧ head order = Some start
  ∧ ∀ v, v ∈ order ↔ rtc (adj_edge g) start v.

(** ** bfs *)

Lemma bfs_neighbors_spec (nbrs : list (V * Z)) (visited : gset V) (queue : list V) :
  ∃ new,
    bfs_neighbors nbrs visited queue = (visited ∪ list_to_set new, queue ++ new)
    ∧ NoDup new
    ∧ (∀ x, x ∈ new → (x ∉ visited) ∧ ∃ w, (x, w) ∈ nbrs)
    ∧ (∀ e, e ∈ nbrs → e.1 ∈ visited ∪ list_to_set new).
Proof.
  unfold bfs_neighbors. revert visited queue.
  induction nbrs as [|[n c] nbrs IH]; intros visited queue; simpl.
  { exists []. rewrite app_nil_r. split_and!.
    - f_equal. set_solver.
    - constructor.
    - by intros x ?%elem_of_nil.
    - by intros e ?%elem_of_nil. }
  destruct (decide (n ∈ visited)) as [Hn|Hn].
  - destruct (IH visited queue) as (new & Hrun & Hnd & Hnew & Hall).
    exists new. rewrite Hrun. split_and!; [done|done| |].
    + intros x Hx. destruct (Hnew x Hx) as [? [w Hw]]. split; [done|]. exists w. by right.
    + intros e [->|He]%elem_of_cons; [set_solver|by apply Hall].
  - destruct (IH ({[n]} ∪ visited) (queue ++ [n])) as (new & Hrun & Hnd & Hnew & Hall).
    exists (n :: new). rewrite Hrun. split_and!.
    + rewrite <- app_assoc. f_equal. set_solver.
    + apply NoDup_cons. split; [|done]. intros Hin. apply Hnew in Hin. set_solver.
    + intros x [->|Hx]%elem_of_cons.
      * split; [done|]. exists c. by left.
      * destruct (Hnew x Hx) as [? [w Hw]]. split; [set_solver|]. exists w. by right.
    + intros e [->|He]%elem_of_cons; [set_solver|]. apply Hall in He. set_solver.
Qed.

Record bfs_inv (st : bfs_state (V := V)) : Prop := mk_bfs_inv {
  bi_view : ∀ u, adj_of (bfs_adj st) u = adj_of (adj_list g) u;
  bi_nodup : NoDup (bfs_order st ++ bfs_queue st);
  bi_visited : ∀ x, x ∈ bfs_visited st ↔ x ∈ bfs_order st ++ bfs_queue st;
  bi_reach : ∀ x, x ∈ bfs_visited st → rtc (adj_edge g) start x;
  bi_closed : ∀ u v, u ∈ bfs_order st → adj_edge g u v → v ∈ bfs_visited st;
  bi_head : head (bfs_order st ++ bfs_queue st) = Some start;
  bi_vertices : bfs_visited st ⊆ vertices g
}.

Definition bfs_measure (st : bfs_state (V := V)) : nat :=
  size (vertices g ∖ list_to_set (bfs_order st)).

Lemma bfs_body_spec (st : bfs_state) :
  bfs_inv st →
  (∃ order, bfs_body st = Some (inr order) ∧ traversal_of order)
  ∨ (∃ st', bfs_body st = Some (inl st') ∧ bfs_inv st'
            ∧ bfs_measure st' < bfs_measure st).
Proof.
  intros [Hview Hnd Hvis Hreach Hclosed Hhead Hsub]. unfold bfs_body.
  destruct (bfs_queue st) as [|vertex queue] eqn:Hq.
  - left. eexists. split; [done|]. rewrite app_nil_r in *.
    split; [done|]. split; [done|]. intros v. split.
    + intros Hv. by apply Hreach, Hvis.
    + assert (Hs : start ∈ bfs_order st).
      { destruct (bfs_order st); [done|]. injection Hhead as ->. by left. }
      assert (Hcl : ∀ a b, rtc (adj_edge g) a b → a ∈ bfs_order st → b ∈ bfs_order st).
      { intros a b Hab. induction Hab as [x|x y z Hxy _ IH]; [done|].
        intros Hx. apply IH, Hvis. by eapply Hclosed. }
      intros Hr. by apply (Hcl start).
  - right. unfold dd_get.
    destruct (bfs_neighbors_spec (adj_of (bfs_adj st) vertex) (bfs_visited st) queue)
      as (new & Hrun & Hndn & Hnew & Hall).
    rewrite Hrun. eexists. split; [done|].
    assert (Hvx : vertex ∈ bfs_visited st).
    { apply Hvis, elem_of_app. right. by left. }
    assert (Horder : (bfs_order st ++ [vertex]) ++ queue ++ new
                     = (bfs_order st ++ vertex :: queue) ++ new).
    { by rewrite <- !app_assoc. }
    apply NoDup_app in Hnd as Hnd'. destruct Hnd' as (Hndo & Hdisj & Hndq).
    apply NoDup_cons in Hndq as [Hvq Hndq].
    split; [split; simpl|].
    + intros u. by rewrite adj_of_touch.
    + rewrite Horder. apply NoDup_app. split; [done|]. split; [|done].
      intros x Hx Hx'. apply Hnew in Hx' as [Hx' _]. by apply Hx', Hvis.
    + intros x. rewrite Horder, elem_of_union, elem_of_list_to_set, Hvis.
      by rewrite (elem_of_app _ new).
    + intros x [Hx|Hx%elem_of_list_to_set]%elem_of_union; [by apply Hreach|].
      destruct (Hnew x Hx) as [_ [w Hw]]. eapply rtc_r; [by apply Hreach|].
      exists w. by rewrite <- Hview.
    + intros u v [Hu|Hu%list_elem_of_singleton]%elem_of_app Huv; [|subst u].
      * apply elem_of_union. left. by eapply Hclosed.
      * destruct Huv as [w Hw]. rewrite <- Hview in Hw. by apply (Hall (v, w)).
    + rewrite Horder. destruct (bfs_order st ++ vertex :: queue); [done|]. done.
    + intros x [Hx|Hx%elem_of_list_to_set]%elem_of_union; [by apply Hsub|].
      destruct (Hnew x Hx) as [_ [w Hw]]. rewrite Hview in Hw.
      apply (adj_edge_vertices g Hwf vertex x). by exists w.
    + unfold bfs_measure. simpl. apply subset_size.
      assert (Hvo : vertex ∉ bfs_order st).
      { intros Hin. apply (Hdisj vertex Hin). by left. }
      assert (Hvv : vertex ∈ vertices g) by by apply Hsub.
      split.
      * intros x. rewrite !elem_of_difference, !elem_of_list_to_set, elem_of_app. tauto.
      * intros Hs. specialize (Hs vertex).
        rewrite !elem_of_difference, !elem_of_list_to_set, elem_of_app in Hs.
        destruct Hs as [_ Hs]; [done|]. apply Hs. right. by left.
Qed.

Lemma bfs_init_inv : bfs_inv (mkBfs (adj_list g) {[start]} [start] []).
Proof.
  split; simpl.
  - done.
  - apply NoDup_singleton.
  - intros x. rewrite elem_of_singleton, list_elem_of_singleton. done.
  - by intros x ->%elem_of_singleton.
  - by intros u v ?%elem_of_nil.
  - done.
  - set_solver.
Qed.

Lemma bfs_run :
  (∃ order, returns (bfs g start) order)
  ∧ ∀ order, returns (bfs g start) order → traversal_of order.
Proof.
  split.
  - destruct (while_loop_terminates bfs_body lt bfs_measure bfs_inv lt_wf)
      with (s := mkBfs (adj_list g) {[start]} [start] []) as (n & r & Hr).
    + intros s Hs.
      destruct (bfs_body_spec s Hs) as [(r & Hr & _)|(s' & Hs' & ? & ?)]; [left|right]; eauto.
    + apply bfs_init_inv.
    + exists r, n. unfold bfs. by rewrite decide_True.
  - intros order [n Hr]. unfold bfs in Hr. rewrite decide_True in Hr by done.
    revert Hr. apply (while_loop_invariant _ bfs_inv); [| |apply bfs_init_inv].
    + intros s s' Hs Hb.
      destruct (bfs_body_spec s Hs) as [(r0 & Hr0 & _)|(s0 & Hs0 & ? & _)]; congruence.
    + intros s r' Hs Hb.
      destruct (bfs_body_spec s Hs) as [(r0 & Hr0 & ?)|(s0 & Hs0 & _)]; congruence.
Qed.

(** ** dfs *)

(** [dfs_recursive] is the second pass of Kosaraju's algorithm on another
    record. *)
Definition dfs_pass (st : dfs_state (V := V)) : pass_state :=
  mkPass (dfs_adj st) (dfs_visited st) (dfs_order st).

Lemma dfs_recursive_pass (n : nat) (v : V) (st : dfs_state) :
  dfs_pass <$> dfs_recursive n v st = dfs_second_pass n v (dfs_pass st).
Proof.
  revert v st. induction n as [|n IH]; intros v st; [done|]. simpl.
  apply (for_each_fmap dfs_pass). intros e t. simpl.
  destruct (decide _); [done|apply IH].
Qed.

Lemma dfs_as_pass (fuel : nat) :
  dfs g start fuel = ps_out <$> dfs_second_pass fuel start (mkPass (adj_list g) ∅ []).
Proof.
  unfold dfs. rewrite decide_True by done.
  change (mkPass (adj_list g) ∅ []) with (dfs_pass (mkDfs (adj_list g) ∅ [])).
  rewrite <- dfs_recursive_pass. by destruct (dfs_recursive _ _ _).
Qed.

Lemma dfs_second_pass_grows (n : nat) (v : V) (st st' : pass_state) :
  dfs_second_pass n v st = Some st' → ∃ l, ps_out st' = ps_out st ++ v :: l.
Proof.
  revert v st st'. induction n as [|n IH]; intros v st st' Hrun; [done|]. simpl in Hrun.
  assert (∃ l, ps_out st' = (ps_out st ++ [v]) ++ l) as [l Hl].
  { revert Hrun. apply (for_each_invariant _ (λ s, ∃ l, ps_out s = (ps_out st ++ [v]) ++ l)).
    - intros e s s' _ [l Hl]. destruct (decide _); [by intros [= <-]; eauto|].
      intros [l' Hl']%IH. exists (l ++ e.1 :: l'). by rewrite Hl', Hl, <- !app_assoc.
    - exists []. by rewrite app_nil_r. }
  exists l. by rewrite Hl, <- app_assoc.
Qed.

Lemma dfs_run :
  (∃ order, returns (dfs g start) order)
  ∧ ∀ order, returns (dfs g start) order → traversal_of order.
Proof.
  destruct (second_pass_spec (adj_of (adj_list g)) (vertices g)) with
    (n := size (vertices g)) (v := start) (st := mkPass (adj_list g) ∅ [])
    as (st' & N & Hrun & [_ _ Hnd Hreach] & Hout & _).
  - intros u v w Hin. apply (adj_edge_vertices g Hwf u v). by exists w.
  - done.
  - done.
  - set_solver.
  - unfold remaining. simpl. apply subseteq_size. set_solver.
  - simpl in Hout, Hreach.
    assert (Hres : traversal_of (ps_out st')).
    { rewrite Hout. split; [done|]. split.
      - destruct (dfs_second_pass_grows _ _ _ _ Hrun) as [l Hl]. simpl in Hl.
        rewrite Hout in Hl. by rewrite Hl.
      - intros v. rewrite Hreach. split; [apply ra_rtc|apply rtc_ra]. }
    split.
    + exists (ps_out st'), (size (vertices g)). by rewrite dfs_as_pass, Hrun.
    + intros order [n Hn]. rewrite dfs_as_pass in Hn.
      destruct (dfs_second_pass n _ _) as [s|] eqn:Hs; [|done]. injection Hn as <-.
      apply (dfs_second_pass_mono _ (n `max` size (vertices g))) in Hs; [|lia].
      apply (dfs_second_pass_mono _ (n `max` size (vertices g))) in Hrun; [|lia].
      by assert (s = st') as -> by congruence.
Qed.

(** ** bfs: the order of discovery *)

(** [hops n v]: some walk of [n] adjacency entries leads from the start
    vertex to [v]. *)
Inductive hops : nat → V → Prop :=
| hops_O : hops 0 start
| hops_S n u v : hops n u → adj_edge g u v → hops (S n) v.

(** [n] is the least number of entries on a walk from the start vertex to
    [v]. *)
Definition hop_dist (v : V) (n : nat) : Prop := hops n v ∧ ∀ m, hops m v → n ≤ m.

Definition level_le (a b : V) : Prop :=
  ∀ na nb, hop_dist a na → hop_dist b nb → na ≤ nb.

Lemma hop_dist_fun (v : V) (n m : nat) : hop_dist v n → hop_dist v m → n = m.
Proof. intros [Hn Hmin] [Hm Hmin']. apply Hmin in Hm. apply Hmin' in Hn. lia. Qed.

Lemma StronglySorted_same_level (l : list V) (n : nat) :
  (∀ x, x ∈ l → hop_dist x n) → StronglySorted level_le l.
Proof.
  induction l as [|x l IH]; intros Hl; constructor.
  - apply IH. intros y Hy. apply Hl. by right.
  - apply Forall_forall. intros y Hy na nb Ha Hb.
    rewrite (hop_dist_fun x na n Ha) by (apply Hl; by left).
    rewrite (hop_dist_fun y nb n Hb); [done|]. apply Hl. by right.
Qed.

Record bfs_levels (st : bfs_state (V := V)) : Prop := mk_bfs_levels {
  bl_dist : ∀ x, x ∈ bfs_order st ++ bfs_queue st → ∃ n, hop_dist x n;
  bl_sorted : StronglySorted level_le (bfs_order st ++ bfs_queue st);
  bl_near : ∀ q0 rest y n0 ny,
      bfs_queue st = q0 :: rest → y ∈ rest → hop_dist q0 n0 → hop_dist y ny → ny ≤ n0 + 1;
  bl_below : ∀ q0 rest n0 y k,
      bfs_queue st = q0 :: rest → hop_dist q0 n0 → hops k y → k ≤ n0 →
      y ∈ bfs_order st ++ bfs_queue st
}.

Lemma bfs_body_levels (st st' : bfs_state) :
  bfs_inv st → bfs_levels st → bfs_body st = Some (inl st') → bfs_levels st'.
Proof.
  intros Hinv [Hdist Hsorted Hnear Hbelow] Hbody.
  assert (Hinv' : bfs_inv st').
  { destruct (bfs_body_spec st Hinv) as [(r0 & Hr0 & _)|(s0 & Hs0 & ? & _)]; congruence. }
  revert Hbody Hinv'. unfold bfs_body.
  destruct (bfs_queue st) as [|q0 rest] eqn:Hq; [done|]. unfold dd_get.
  destruct (bfs_neighbors_spec (adj_of (bfs_adj st) q0) (bfs_visited st) rest)
    as (new & Hrun & Hndn & Hnew & Hall).
  rewrite Hrun. intros [= <-] Hinv'.
  destruct Hinv as [Hview _ Hvis _ _ _ _]. rewrite Hq in Hvis.
  destruct (Hdist q0) as [n0 Hn0]; [apply elem_of_app; right; by left|].
  set (S0 := bfs_order st ++ q0 :: rest) in *.
  assert (Horder : (bfs_order st ++ [q0]) ++ rest ++ new = S0 ++ new).
  { unfold S0. by rewrite <- !app_assoc. }
  assert (Hnewd : ∀ x, x ∈ new → hop_dist x (S n0)).
  { intros x Hx. destruct (Hnew x Hx) as [Hxv [w Hw]]. rewrite Hview in Hw. split.
    - eapply hops_S; [apply Hn0|]. by exists w.
    - intros m Hm. destruct (decide (m ≤ n0)) as [Hle|]; [|lia].
      exfalso. apply Hxv, Hvis. by eapply (Hbelow q0 rest n0 x m). }
  assert (Hq0r : Forall (level_le q0) rest).
  { apply StronglySorted_app_1_r in Hsorted. by apply StronglySorted_cons in Hsorted as [? _]. }
  rewrite Forall_forall in Hq0r.
  assert (HS : ∀ a na, a ∈ S0 → hop_dist a na → na ≤ n0 + 1).
  { intros a na [Ha|[->|Ha]%elem_of_cons]%elem_of_app Hna.
    - pose proof (StronglySorted_app_1_elem_of _ _ _ a q0 Hsorted Ha) as Hle.
      specialize (Hle ltac:(by left) na n0 Hna Hn0). lia.
    - rewrite (hop_dist_fun _ _ _ Hna Hn0). lia.
    - by eapply (Hnear q0 rest a n0 na). }
  assert (Hqueue : ∀ y ny, y ∈ rest ++ new → hop_dist y ny → n0 ≤ ny ∧ ny ≤ n0 + 1).
  { intros y ny [Hy|Hy]%elem_of_app Hny.
    - split; [by apply (Hq0r y Hy n0 ny)|by eapply (Hnear q0 rest y n0 ny)].
    - rewrite (hop_dist_fun _ _ _ Hny (Hnewd y Hy)). lia. }
  split; simpl.
  - rewrite Horder. intros x [Hx|Hx]%elem_of_app; [by apply Hdist|]. exists (S n0).
    by apply Hnewd.
  - rewrite Horder. apply StronglySorted_app_2; [|done|by eapply StronglySorted_same_level].
    intros a b Ha Hb na nb Hna Hnb.
    rewrite (hop_dist_fun _ _ _ Hnb (Hnewd b Hb)). specialize (HS a na Ha Hna). lia.
  - intros q1 rest' y n1 ny Hq' Hy Hn1 Hny.
    assert (Hq1 : q1 ∈ rest ++ new) by (rewrite Hq'; by left).
    assert (Hy' : y ∈ rest ++ new) by (rewrite Hq'; by right).
    destruct (Hqueue q1 n1 Hq1 Hn1). destruct (Hqueue y ny Hy' Hny). lia.
  - intros q1 rest' n1 y k Hq' Hn1 Hk Hle. rewrite Horder.
    assert (Hq1 : q1 ∈ rest ++ new) by (rewrite Hq'; by left).
    destruct (Hqueue q1 n1 Hq1 Hn1) as [Hlo Hhi].
    destruct (decide (k ≤ n0)) as [Hk0|Hk0].
    { apply elem_of_app. left. by eapply (Hbelow q0 rest n0 y k). }
    assert (k = S n0) as -> by lia. assert (n1 = S n0) as -> by lia.
    inversion Hk as [|n p y' Hp Hpy]; subst.
    assert (HpS : p ∈ S0) by by eapply (Hbelow q0 rest n0 p n0).
    destruct (Hdist p HpS) as [np Hnp].
    assert (Hnp0 : np ≤ n0) by (destruct Hnp as [_ Hmin]; by apply Hmin).
    assert (Hpo : p ∈ bfs_order st ++ [q0]).
    { unfold S0 in HpS. apply elem_of_app in HpS as [?|[->|Hpr]%elem_of_cons].
      - apply elem_of_app. by left.
      - apply elem_of_app. right. by left.
      - exfalso. destruct rest as [|r1 rest1]; [by apply elem_of_nil in Hpr|].
        simpl in Hq'. injection Hq' as -> <-.
        apply elem_of_cons in Hpr as [->|Hpr].
        + pose proof (hop_dist_fun _ _ _ Hnp Hn1). lia.
        + apply StronglySorted_app_1_r in Hsorted.
          apply StronglySorted_cons in Hsorted as [_ Hsorted].
          apply StronglySorted_cons in Hsorted as [Hr1 _]. rewrite Forall_forall in Hr1.
          specialize (Hr1 p Hpr _ _ Hn1 Hnp). lia. }
    rewrite <- Horder.
    apply (bi_visited _ Hinv'). apply (bi_closed _ Hinv' p y); [done|done].
Qed.

Lemma bfs_init_levels : bfs_levels (mkBfs (adj_list g) {[start]} [start] []).
Proof.
  assert (H0 : hop_dist start 0) by (split; [constructor|lia]).
  split; simpl.
  - intros x ->%list_elem_of_singleton. by exists 0.
  - repeat constructor.
  - intros q0 rest y n0 ny [= <- <-] Hy. by apply elem_of_nil in Hy.
  - intros q0 rest n0 y k [= <- <-] Hn0 Hk Hle.
    rewrite (hop_dist_fun _ _ _ Hn0 H0) in Hle. assert (k = 0) as -> by lia.
    inversion Hk. by left.
Qed.

(** Every vertex of the list has a least number of hops, and the list is
    in non-decreasing order of it. *)
Definition level_order (order : list V) : Prop :=
  StronglySorted level_le order ∧ ∀ v, v ∈ order → ∃ n, hop_dist v n.

Lemma bfs_levels_run (order : list V) :
  returns (bfs g start) order → level_order order.
Proof.
  intros [n Hr]. unfold bfs in Hr. rewrite decide_True in Hr by done.
  revert Hr. apply (while_loop_invariant _ (λ st, bfs_inv st ∧ bfs_levels st) level_order).
  - intros s s' [Hi Hl] Hb. split; [|by eapply bfs_body_levels].
    destruct (bfs_body_spec s Hi) as [(r0 & Hr0 & _)|(s0 & Hs0 & ? & _)]; congruence.
  - intros s r' [Hi [Hdist Hsorted _ _]]. unfold bfs_body.
    destruct (bfs_queue s) as [|q0 rest] eqn:Hq.
    + intros [= <-]. rewrite app_nil_r in *. done.
    + unfold dd_get. by destruct (bfs_neighbors _ _ _).
  - split; [apply bfs_init_inv|apply bfs_init_levels].
Qed.

End Traversals.

Section TraversalTheorems.

Context {V : Type} `{Countable V}.

(** X5.  [bfs] from a vertex of the graph returns, and the list it returns
    holds exactly the vertices that the start vertex reaches along adjacency
    entries (on a directed graph: along edges; on an undirected one: along
    edges taken either way), each of them once, the start vertex first. *)
Theorem bfs_visits_reachable (g : Graph (V := V)) (start_vertex : V) :
  wf_graph g → start_vertex ∈ vertices g →
  (∃ order, returns (bfs g start_vertex) order)
  ∧ ∀ order, returns (bfs g start_vertex) order → traversal_of g start_vertex order.
Proof. intros Hwf Hs. by apply bfs_run. Qed.

(** X6.  [bfs] lists the vertices by distance: every vertex of the list
    it returns has a least number of hops from the start vertex, and no
    vertex stands before one that is fewer hops away. *)
Theorem bfs_level_order (g : Graph (V := V)) (start_vertex : V) :
  wf_graph g → start_vertex ∈ vertices g →
  (∃ order, returns (bfs g start_vertex) order)
  ∧ ∀ order, returns (bfs g start_vertex) order → level_order g start_vertex order.
Proof.
  intros Hwf Hs. split; [by apply bfs_run|]. intros order Hr. by apply bfs_levels_run.
Qed.

(** X7.  [dfs] from a vertex of the graph returns, and the list it returns
    holds exactly the vertices that the start vertex reaches along adjacency
    entries, each of them once, the start vertex first. *)
Theorem dfs_visits_reachable (g : Graph (V := V)) (start_vertex : V) :
  wf_graph g → start_vertex ∈ vertices g →
  (∃ order, returns (dfs g start_vertex) order)
  ∧ ∀ order, returns (dfs g start_vertex) order → traversal_of g start_vertex order.
Proof. intros Hwf Hs. by apply dfs_run. Qed.

(** X8.  [bfs] and [dfs] from the same vertex of the graph both return,
    and they return the same vertices: each list is a rearrangement of the
    other. *)
Theorem bfs_dfs_same_vertices (g : Graph (V := V)) (start_vertex : V) :
  wf_graph g → start_vertex ∈ vertices g →
  (∃ b, returns (bfs g start_vertex) b)
  ∧ (∃ d, returns (dfs g start_vertex) d)
  ∧ ∀ b d, returns (bfs g start_vertex) b → returns (dfs g start_vertex) d → b ≡ₚ d.
Proof.
  intros Hwf Hs.
  destruct (bfs_run g Hwf start_vertex Hs) as [Hb Hball].
  destruct (dfs_run g Hwf start_vertex Hs) as [Hd Hdall].
  split; [done|]. split; [done|]. intros b d Hrb Hrd.
  destruct (Hball b Hrb) as (Hnb & _ & Hinb). destruct (Hdall d Hrd) as (Hnd & _ & Hind).
  apply NoDup_Permutation; [done|done|]. intros v. by rewrite Hinb, Hind.
Qed.

End TraversalTheorems.

Lemma bfs_visits_reachable_witness :
  (∃ order, returns (bfs main_graph "A"%string) order)
  ∧ ∀ order, returns (bfs main_graph "A"%string) order →
      traversal_of main_graph "A"%string order.
Proof.
  apply (bfs_visits_reachable main_graph "A"%string).
  - apply wf_graph_build.
  - apply (bool_decide_unpack _). vm_compute. exact I.
Defined.

Lemma bfs_level_order_witness :
  (∃ order, returns (bfs main_graph "A"%string) order)
  ∧ ∀ order, returns (bfs main_graph "A"%string) order →
      level_order main_graph "A"%string order.
Proof.
  apply (bfs_level_order main_graph "A"%string).
  - apply wf_graph_build.
  - apply (bool_decide_unpack _). vm_compute. exact I.
Defined.

Lemma dfs_visits_reachable_witness :
  (∃ order, returns (dfs main_graph "A"%string) order)
  ∧ ∀ order, returns (dfs main_graph "A"%string) order →
      traversal_of main_graph "A"%string order.
Proof.
  apply (dfs_visits_reachable main_graph "A"%string).
  - apply wf_graph_build.
  - apply (bool_decide_unpack _). vm_compute. exact I.
Defined.

Lemma bfs_dfs_same_vertices_witness :
  (∃ b, returns (bfs main_graph "A"%string) b)
  ∧ (∃ d, returns (dfs main_graph "A"%string) d)
  ∧ ∀ b d, returns (bfs main_graph "A"%string) b → returns (dfs main_graph "A"%string) d →
      b ≡ₚ d.
Proof.
  apply (bfs_dfs_same_vertices main_graph "A"%string).
  - apply wf_graph_build.
  - apply (bool_decide_unpack _). vm_compute. exact I.
Defined.

(** The two orders of the demonstration of [graphs.py]. *)
Example main_traversals :
  bfs main_graph "A"%string 10 = Some ["A"; "B"; "C"; "D"; "E"]%string
  ∧ dfs main_graph "A"%string 10 = Some ["A"; "B"; "C"; "D"; "E"]%string.
Proof. split; vm_compute; reflexivity. Qed.

Lemma for_each_prefix_invariant {A S : Type} (f : A → S → option S)
    (P : list A → S → Prop) (l : list A) :
  (∀ pre x s s', x ∈ l → P pre s → f x s = Some s' → P (pre ++ [x]) s') →
  ∀ pre s s', P pre s → for_each f l s = Some s' → P (pre ++ l) s'.
Proof.
  induction l as [|x l IH]; intros Hf pre s s' Hs Hrun; simpl in Hrun.
  { rewrite app_nil_r. congruence. }
  destruct (f x s) as [s1|] eqn:Hx; [|done].
  replace (pre ++ x :: l) with ((pre ++ [x]) ++ l) by (by rewrite <- app_assoc).
  eapply IH; [|by eapply (Hf pre x); [left| |]|done].
  intros pre' y t t' Hy. apply Hf. by right.
Qed.


Section DijkstraShortest.

Context {V : Type} `{Countable V}.
Context (vleb : V → V → bool).
Context (g : Graph (V := V)) (start : V).
Context (Hwf : wf_graph g) (Hnn : nonneg_weights g).

Local Open Scope Z_scope.

(** The distance [n] recorded for [v] is the least weight of a walk from
    the start vertex to [v], or no such walk exists. *)
Definition shortest (v : V) (n : num) : Prop :=
  match n with
  | Fin d => (∃ p, walk_to g start p v d) ∧ ∀ p' d', walk_to g start p' v d' → d ≤ d'
  | Inf => ∀ p' d', ¬ walk_to g start p' v d'
  end.

(** The result gives every vertex its shortest distance and a walk of that
    weight, or the infinite distance and the empty path. *)
Definition dijkstra_optimal (r : dijkstra_result (V := V)) : Prop :=
  match r with
  | DijkstraEmpty => False
  | DijkstraPair distances paths =>
      ∀ v, v ∈ vertices g →
        ∃ n p, distances !! v = Some n ∧ paths !! v = Some p ∧ shortest v n
               ∧ (∀ d, n = Fin d → walk_to g start p v d)
               ∧ (n = Inf → p = [])
  end.

(** No adjacency entry of [u] improves on the recorded distances. *)
Definition relaxed_at (dist : gmap V num) (u : V) (d : Z) : Prop :=
  ∀ v w, (v, w) ∈ adj_of (adj_list g) u →
    ∃ dv, dist !! v = Some (Fin dv) ∧ dv ≤ d + w.

(** Every vertex with a finite distance, [skip] apart, still waits in the
    queue with that distance or has all its entries relaxed. *)
Definition dj_settled (skip : option V) (st : dijkstra_state (V := V)) : Prop :=
  (∃ d0, dj_distances st !! start = Some (Fin d0) ∧ d0 ≤ 0)
  ∧ ∀ u d, dj_distances st !! u = Some (Fin d) → Some u ≠ skip →
      (d, u) ∈ dj_queue st ∨ relaxed_at (dj_distances st) u d.

Lemma num_ltb_false (x : Z) (n : num) :
  num_ltb (Fin x) n = false → ∃ d, n = Fin d ∧ d ≤ x.
Proof. destruct n as [d|]; simpl; [|done]. intros Hlt%Z.ltb_ge. eauto. Qed.

Lemma dijkstra_relax_settled (cd : Z) (cv : V) (e : V * Z) (done : list (V * Z))
    (st st' : dijkstra_state) :
  dj_inv g start st → dj_distances st !! cv = Some (Fin cd) →
  e ∈ adj_of (adj_list g) cv →
  dj_settled (Some cv) st →
  (∀ v w, (v, w) ∈ done → ∃ dv, dj_distances st !! v = Some (Fin dv) ∧ dv ≤ cd + w) →
  dijkstra_relax cd cv e st = Some st' →
  dj_settled (Some cv) st'
  ∧ ∀ v w, (v, w) ∈ done ++ [e] →
      ∃ dv, dj_distances st' !! v = Some (Fin dv) ∧ dv ≤ cd + w.
Proof.
  intros Hinv Hcv He [Hs0 Hset] Hdone. destruct e as [n w]. unfold dijkstra_relax.
  assert (Hn : n ∈ vertices g) by (apply (adj_edge_vertices g Hwf cv n); by exists w).
  destruct (dji_dom g start st Hinv n Hn) as [dn Hdn]. rewrite Hdn. cbn [mbind option_bind].
  destruct (num_ltb (Fin (cd + w)) dn) eqn:Hlt.
  - destruct (dj_paths st !! cv) as [pc|]; [|done]. simpl. intros [= <-].
    unfold dj_settled. cbn [dj_distances dj_queue dj_paths dj_adj].
    assert (Hlow : ∀ v dv, dj_distances st !! v = Some (Fin dv) →
              ∃ dv', <[n := Fin (cd + w)]> (dj_distances st) !! v = Some (Fin dv') ∧ dv' ≤ dv).
    { intros v dv Hv. destruct (decide (n = v)) as [->|Hne].
      - rewrite lookup_insert_eq. rewrite Hv in Hdn. injection Hdn as <-.
        simpl in Hlt. apply Z.ltb_lt in Hlt. eexists. split; [done|lia].
      - rewrite lookup_insert_ne by done. eexists. split; [done|lia]. }
    split; [split|].
    + destruct Hs0 as (d0 & Hd0 & Hle). destruct (Hlow _ _ Hd0) as (d0' & ? & ?).
      exists d0'. split; [done|lia].
    + intros u d Hu Hne. destruct (decide (n = u)) as [->|Hnu].
      * rewrite lookup_insert_eq in Hu. injection Hu as <-.
        left. apply elem_of_app. right. by left.
      * rewrite lookup_insert_ne in Hu by done.
        destruct (Hset u d Hu Hne) as [Hq|Hr]; [left; apply elem_of_app; by left|].
        right. intros v c Hvc. destruct (Hr v c Hvc) as (dv & Hdv & Hle).
        destruct (Hlow _ _ Hdv) as (dv' & ? & ?). exists dv'. split; [done|lia].
    + intros v c [Hin|Hin%list_elem_of_singleton]%elem_of_app.
      * destruct (Hdone v c Hin) as (dv & Hdv & Hle).
        destruct (Hlow _ _ Hdv) as (dv' & ? & ?). exists dv'. split; [done|lia].
      * injection Hin as -> ->. rewrite lookup_insert_eq. eexists. split; [done|lia].
  - intros [= <-]. split; [done|].
    intros v c [Hin|Hin%list_elem_of_singleton]%elem_of_app; [by apply Hdone|].
    injection Hin as -> ->. apply num_ltb_false in Hlt as (d & -> & Hle). eauto.
Qed.

Lemma dijkstra_body_settled (st st' : dijkstra_state) :
  dj_inv g start st → dj_settled None st →
  dijkstra_body vleb st = Some (inl st') → dj_settled None st'.
Proof.
  intros Hinv [Hs0 Hset]. unfold dijkstra_body.
  destruct (heappop _ _) as [[[cd cv] queue]|] eqn:Hpop; [|done].
  apply heappop_perm in Hpop.
  destruct (dji_queue g start st Hinv cd cv) as (d' & Hd' & Hle); [rewrite Hpop; left|].
  rewrite Hd'. simpl.
  assert (Hq : ∀ d u, (d, u) ∈ dj_queue st → (d, u) ≠ (cd, cv) → (d, u) ∈ queue).
  { intros d u Hin Hne. rewrite Hpop in Hin. by apply elem_of_cons in Hin as [?|?]. }
  destruct (d' <? cd) eqn:Hlt.
  - apply Z.ltb_lt in Hlt. intros [= <-]. split; [done|]. simpl.
    intros u d Hu _. destruct (Hset u d Hu) as [Hin|Hr]; [done| |by right].
    left. apply Hq; [done|]. intros [= -> ->]. rewrite Hd' in Hu. injection Hu as ->. lia.
  - apply Z.ltb_ge in Hlt. assert (d' = cd) as -> by lia. unfold dd_get.
    destruct (for_each _ _ _) as [s1|] eqn:Hrun; [|done]. simpl. intros [= <-].
    set (s0 := mkDijkstra (dd_touch (dj_adj st) cv) (dj_distances st) (dj_paths st) queue)
      in Hrun.
    assert (Hinv0 : dj_inv g start s0).
    { destruct Hinv as [Ha Hdom Hfin Hinf Hqu]. split; simpl; [|done|done|done|].
      - intros u. by rewrite adj_of_touch.
      - intros d v Hin. apply Hqu. rewrite Hpop. by right. }
    pose proof (for_each_prefix_invariant (dijkstra_relax cd cv)
      (λ done s, dj_inv g start s ∧ dj_distances s !! cv = Some (Fin cd)
                 ∧ dj_settled (Some cv) s
                 ∧ ∀ v w, (v, w) ∈ done →
                     ∃ dv, dj_distances s !! v = Some (Fin dv) ∧ dv ≤ cd + w)
      (adj_of (dj_adj st) cv)) as Hloop.
    destruct (Hloop) with (pre := @nil (V * Z)) (s := s0) (s' := s1)
      as (Hinv1 & Hcv1 & [Hs1 Hset1] & Hdone1); [| |done|].
    + intros pre e s s' He (Hi & Hc & Hst & Hd) Hstep.
      rewrite (dji_adj g start st Hinv) in He.
      destruct (dijkstra_relax_spec vleb g start Hwf Hnn cd cv e s Hi Hc He)
        as (s2 & Hs2 & Hi2 & Hc2 & _).
      assert (s2 = s') as -> by congruence.
      destruct (dijkstra_relax_settled cd cv e pre s s' Hi Hc He Hst Hd Hstep) as [? ?].
      done.
    + split; [done|]. split; [done|]. split; [|by intros v w ?%elem_of_nil].
      split; [done|]. simpl. intros u d Hu Hne.
      destruct (Hset u d Hu) as [Hin|Hr]; [done| |by right].
      left. apply Hq; [done|]. intros [= -> ->]. done.
    + split; [done|]. intros u d Hu _. destruct (decide (u = cv)) as [->|Hne].
      * right. rewrite Hcv1 in Hu. injection Hu as <-. intros v w Hvw.
        apply Hdone1. simpl. by rewrite (dji_adj g start st Hinv).
      * apply Hset1; [done|]. by intros [= ->].
Qed.

Lemma settled_lower_bound (dist : gmap V num) :
  (∃ d0, dist !! start = Some (Fin d0) ∧ d0 ≤ 0) →
  (∀ u d, dist !! u = Some (Fin d) → relaxed_at dist u d) →
  ∀ p v d, walk_to g start p v d → ∃ dv, dist !! v = Some (Fin dv) ∧ dv ≤ d.
Proof.
  intros Hs0 Hrel p v d. induction 1 as [|p u v w d Hw (du & Hdu & Hle) He]; [done|].
  destruct (Hrel u du Hdu v w He) as (dv & Hdv & Hle'). exists dv. split; [done|lia].
Qed.

Lemma dijkstra_body_exit_shortest (st : dijkstra_state) (r : dijkstra_result) :
  dj_inv g start st → dj_settled None st → dijkstra_body vleb st = Some (inr r) →
  dijkstra_optimal r.
Proof.
  intros Hinv [Hs0 Hset]. unfold dijkstra_body.
  destruct (heappop _ _) as [[[cd cv] queue]|] eqn:Hpop.
  { destruct (dj_distances st !! cv) as [dc|]; simpl; [|done].
    destruct (num_ltb _ _); [done|]. by destruct (for_each _ _ _). }
  intros [= <-]. simpl.
  assert (Hempty : dj_queue st = []).
  { destruct (dj_queue st); [done|]. done. }
  assert (Hrel : ∀ u d, dj_distances st !! u = Some (Fin d)
                 → relaxed_at (dj_distances st) u d).
  { intros u d Hu. destruct (Hset u d Hu) as [Hin|Hr]; [done| |done].
    rewrite Hempty in Hin. by apply elem_of_nil in Hin. }
  pose proof (settled_lower_bound _ Hs0 Hrel) as Hlow.
  intros v Hv. destruct (dji_dom g start st Hinv v Hv) as [[d|] Hd].
  - destruct (dji_fin g start st Hinv v d Hd) as (_ & _ & p & Hp & Hwalk).
    exists (Fin d), p. split_and!; [done|done| |by intros ? [= <-]|done].
    split; [by exists p|]. intros p' d' Hw'.
    destruct (Hlow p' v d' Hw') as (dv & Hdv & Hle). rewrite Hd in Hdv. injection Hdv as <-.
    done.
  - exists Inf, []. split_and!; [done|by apply (dji_inf g start st Hinv)| |done|done].
    intros p' d' Hw'. destruct (Hlow p' v d' Hw') as (dv & Hdv & _). congruence.
Qed.

Lemma dijkstra_init_settled :
  start ∈ vertices g → dj_settled None (dijkstra_init g start).
Proof.
  intros Hs. split; simpl.
  - exists 0. by rewrite lookup_insert_eq.
  - intros u d Hu _. left. destruct (decide (start = u)) as [->|Hne].
    + rewrite lookup_insert_eq in Hu. injection Hu as <-. by left.
    + rewrite lookup_insert_ne in Hu by done.
      by apply lookup_gset_to_gmap_Some in Hu as [_ ?].
Qed.

End DijkstraShortest.

Section DijkstraShortestTheorem.

Context {V : Type} `{Countable V}.

(** X9.  [dijkstra] returns shortest distances.  On a graph with
    non-negative weights and for a start vertex of the graph, the distance
    returned for a vertex is the least total weight over all walks from the
    start vertex to it along adjacency entries, the path returned for it is
    such a walk of that weight, and the distance is infinite (with the empty
    path) exactly for the vertices that no walk reaches. *)
Theorem dijkstra_shortest (vleb : V → V → bool) (g : Graph (V := V)) (start_vertex : V) :
  wf_graph g → nonneg_weights g → start_vertex ∈ vertices g →
  (∃ r, returns (dijkstra vleb g start_vertex) r)
  ∧ ∀ r, returns (dijkstra vleb g start_vertex) r →
      dijkstra_optimal g start_vertex r.
Proof.
  intros Hwf Hnn Hs. split.
  - destruct (while_loop_terminates (dijkstra_body vleb) (dj_lt) (dj_measure g)
                (dj_inv g start_vertex) (dj_lt_wf)
                (dijkstra_body_spec vleb g start_vertex Hwf Hnn)
                (dijkstra_init g start_vertex)) as (n & r & Hrun).
    { by apply dijkstra_init_inv. }
    exists r, n. unfold dijkstra. by rewrite decide_True.
  - intros r [fuel Hr]. unfold dijkstra in Hr. rewrite decide_True in Hr by done.
    revert Hr.
    apply (while_loop_invariant _
             (λ st, dj_inv g start_vertex st ∧ dj_settled g start_vertex None st)).
    + intros s s' [Hi Hst] Hb. split.
      * by eapply dijkstra_body_step.
      * by eapply dijkstra_body_settled.
    + intros s r' [Hi Hst] Hb. by eapply dijkstra_body_exit_shortest.
    + split; [by apply dijkstra_init_inv|by apply dijkstra_init_settled].
Qed.

End DijkstraShortestTheorem.

Lemma dijkstra_shortest_witness :
  (∃ r, returns (dijkstra String.leb main_graph "A"%string) r)
  ∧ ∀ r, returns (dijkstra String.leb main_graph "A"%string) r →
      dijkstra_optimal main_graph "A"%string r.
Proof.
  apply (dijkstra_shortest String.leb main_graph "A"%string).
  - apply wf_graph_build.
  - apply nonneg_weights_Forall. apply (bool_decide_unpack _). vm_compute. exact I.
  - apply (bool_decide_unpack _). vm_compute. exact I.
Defined.

(** ** minimum_spanning_trees.py *)


Section DisjointSetScript.

Context {V : Type} `{Countable V}.

(** A run of [union] calls on a fresh [DisjointSet(vs)]. *)
Definition union_all (fuel : nat) (pairs : list (V * V)) (ds : DisjointSet (V := V))
  : option DisjointSet :=
  for_each (λ (p : V * V) (d : DisjointSet), ds_union fuel d p.1 p.2) pairs ds.

(** [x] and [y] are joined by a chain of the pairs, taken in either
    direction. *)
Definition linked (pairs : list (V * V)) : relation V :=
  rtsc (λ a b, (a, b) ∈ pairs).

Lemma linked_conn (pairs : list (V * V)) (x y : V) :
  linked pairs x y ↔ conn ((λ p : V * V, (p.1, p.2, 0%Z)) <$> pairs) x y.
Proof.
  assert (Hrel : ∀ a b, (a, b) ∈ pairs
                 ↔ edge_rel ((λ p : V * V, (p.1, p.2, 0%Z)) <$> pairs) a b).
  { intros a b. unfold edge_rel. split.
    - intros Hin. exists 0%Z. apply list_elem_of_fmap. by exists (a, b).
    - intros (w & [[a' b'] [[= -> -> ->] Hin]]%list_elem_of_fmap). done. }
  unfold linked, conn, rtsc. split; apply rtc_subrel; intros a b [Hab|Hab]; [left|right|left|right];
    by apply Hrel.
Qed.

Lemma linked_snoc (pairs : list (V * V)) (u v x y : V) :
  linked (pairs ++ [(u, v)]) x y
  ↔ linked pairs x y ∨ (linked pairs x u ∧ linked pairs v y)
    ∨ (linked pairs x v ∧ linked pairs u y).
Proof.
  rewrite !linked_conn, fmap_app. simpl.
  rewrite (conn_perm _ ((u, v, 0%Z) :: ((λ p : V * V, (p.1, p.2, 0%Z)) <$> pairs)))
    by (by rewrite Permutation_app_comm).
  apply conn_cons.
Qed.

Lemma DisjointSet_init_parent (vs : list V) (x p : V) :
  ds_parent (DisjointSet_init vs) !! x = Some p ↔ x ∈ vs ∧ p = x.
Proof.
  simpl. split.
  - intros Hin%elem_of_list_to_map_2. apply list_elem_of_fmap in Hin as (y & [= -> ->] & Hy).
    done.
  - intros [Hx ->].
    destruct (list_to_map (M := gmap V V) ((λ v, (v, v)) <$> vs) !! x) as [q|] eqn:Hq.
    + apply elem_of_list_to_map_2, list_elem_of_fmap in Hq as (y & [= -> ->] & _). done.
    + apply not_elem_of_list_to_map in Hq. exfalso. apply Hq.
      rewrite <- list_fmap_compose. simpl. by rewrite list_fmap_id.
Qed.

Lemma DisjointSet_init_rank (vs : list V) (x : V) :
  x ∈ vs → ds_rank (DisjointSet_init vs) !! x = Some 0.
Proof.
  intros Hx. simpl.
  destruct (list_to_map (M := gmap V nat) ((λ v, (v, 0)) <$> vs) !! x) as [q|] eqn:Hq.
  - apply elem_of_list_to_map_2, list_elem_of_fmap in Hq as (y & [= -> ->] & _). done.
  - apply not_elem_of_list_to_map in Hq. exfalso. apply Hq.
    rewrite <- list_fmap_compose. simpl. by rewrite list_fmap_id.
Qed.

Lemma DisjointSet_init_wf (vs : list V) : ds_wf (list_to_set vs) 0 (DisjointSet_init vs).
Proof.
  split.
  - intros v Hv. exists v. split; [|done]. apply DisjointSet_init_parent. set_solver.
  - intros v Hv. rewrite DisjointSet_init_rank; [eauto|set_solver].
  - intros v. unfold rank_of.
    destruct (ds_rank (DisjointSet_init vs) !! v) as [k|] eqn:Hk; [|done]. simpl in Hk.
    apply elem_of_list_to_map_2, list_elem_of_fmap in Hk as (y & [= -> ->] & _). done.
  - intros x p [_ ->]%DisjointSet_init_parent. done.
Qed.

Lemma DisjointSet_init_same (vs : list V) (x y : V) :
  x ∈ vs → (same_set (ds_parent (DisjointSet_init vs)) x y ↔ x = y).
Proof.
  intros Hx.
  assert (Hroot : ∀ a b, ds_root (ds_parent (DisjointSet_init vs)) a b → a = b).
  { intros a b. induction 1 as [|a p b Ha%DisjointSet_init_parent Hne]; [done|].
    by destruct Ha. }
  split.
  - intros (r & Hxr & Hyr). apply Hroot in Hxr, Hyr. by subst.
  - intros <-. exists x. split; constructor; by apply DisjointSet_init_parent.
Qed.

Lemma union_all_spec (vs : list V) (fuel : nat) (todo done : list (V * V))
    (ds : DisjointSet) :
  (∀ p, p ∈ todo → p.1 ∈ vs ∧ p.2 ∈ vs) →
  length done + length todo < fuel →
  ds_wf (list_to_set vs) (length done) ds →
  (∀ x y, x ∈ vs → y ∈ vs → same_set (ds_parent ds) x y ↔ linked done x y) →
  ∃ ds', union_all fuel todo ds = Some ds'
    ∧ ds_wf (list_to_set vs) (length (done ++ todo)) ds'
    ∧ ∀ x y, x ∈ vs → y ∈ vs →
        same_set (ds_parent ds') x y ↔ linked (done ++ todo) x y.
Proof.
  revert done ds. induction todo as [|[u v] todo IH]; intros done ds Hin Hfuel Hwf Hsame.
  { exists ds. rewrite app_nil_r. done. }
  destruct (Hin (u, v)) as [Hu Hv]; [by left|]. simpl in Hu, Hv, Hfuel.
  destruct (ds_union_spec (list_to_set vs) (length done) fuel ds u v Hwf) as (ds1 & Hrun & Hwf1 & Hch).
  { set_solver. }
  { set_solver. }
  { lia. }
  unfold union_all. simpl. rewrite Hrun.
  destruct (IH (done ++ [(u, v)]) ds1) as (ds' & Hrun' & Hwf' & Hsame').
  - intros p Hp. apply Hin. by right.
  - rewrite length_app. simpl. lia.
  - rewrite length_app. simpl. by rewrite Nat.add_comm.
  - intros x y Hx Hy. rewrite Hch, linked_snoc, !Hsame by done. done.
  - exists ds'. rewrite <- app_assoc in Hwf', Hsame'. done.
Qed.

(** X10.  Union-find against the equivalence it stands for: after any run of
    [union] calls on a fresh [DisjointSet(vs)], over members of [vs],
    [find(x)] and [find(y)] (the second on the structure as the first left
    it, path compression included) return the same root exactly when [x] and
    [y] are joined by a chain of united pairs. *)
Theorem disjoint_set_unions (vs : list V) (pairs : list (V * V)) (fuel : nat) (x y : V) :
  (∀ p, p ∈ pairs → p.1 ∈ vs ∧ p.2 ∈ vs) → length pairs < fuel →
  x ∈ vs → y ∈ vs →
  ∃ ds rx dsx ry dsy,
    union_all fuel pairs (DisjointSet_init vs) = Some ds
    ∧ ds_find fuel ds x = Some (rx, dsx)
    ∧ ds_find fuel dsx y = Some (ry, dsy)
    ∧ (rx = ry ↔ linked pairs x y).
Proof.
  intros Hin Hfuel Hx Hy.
  destruct (union_all_spec vs fuel pairs [] (DisjointSet_init vs))
    as (ds & Hrun & Hwf & Hsame); [done|simpl; lia|apply DisjointSet_init_wf| |].
  { intros a b Ha Hb. rewrite DisjointSet_init_same by done. split.
    - by intros ->.
    - unfold linked. intros Hl. apply linked_conn in Hl. by apply conn_nil in Hl. }
  simpl in Hwf, Hsame.
  destruct (ds_find_spec (list_to_set vs) _ fuel ds x Hwf)
    as (rx & dsx & Hfx & Hrx & Hwfx & _ & Hsx); [set_solver|lia|].
  destruct (ds_find_spec (list_to_set vs) _ fuel dsx y Hwfx)
    as (ry & dsy & Hfy & Hry & _ & _ & _); [set_solver|lia|].
  exists ds, rx, dsx, ry, dsy. split_and!; [done..|].
  apply Hsx in Hry. rewrite <- Hsame by done. split.
  - intros <-. by exists rx.
  - intros (r & Hxr & Hyr).
    rewrite (ds_root_det (list_to_set vs) _ _ _ _ Hrx Hxr).
    by rewrite (ds_root_det (list_to_set vs) _ _ _ _ Hry Hyr).
Qed.

End DisjointSetScript.

Lemma disjoint_set_unions_witness :
  ∃ ds rx dsx ry dsy,
    union_all 2 [("A", "B")]%string (DisjointSet_init ["A"; "B"; "C"]%string) = Some ds
    ∧ ds_find 2 ds "A"%string = Some (rx, dsx)
    ∧ ds_find 2 dsx "B"%string = Some (ry, dsy)
    ∧ (rx = ry ↔ linked [("A", "B")]%string "A"%string "B"%string).
Proof.
  apply (disjoint_set_unions ["A"; "B"; "C"]%string [("A", "B")]%string 2
           "A"%string "B"%string).
  - intros p Hp. apply list_elem_of_singleton in Hp as ->. simpl.
    split; [by left|right; by left].
  - simpl. lia.
  - by left.
  - right. by left.
Defined.

Section KruskalForest.

Context {V : Type} `{Countable V}.
Context (g : Graph (V := V)) (Hwf : wf_graph g).
Context (vs : list V) (Hvs : get_vertices g vs).
Context (fuel : nat) (Hfuel : length (edges g) < fuel).

(** No edge of the list closes a cycle with the edges before it. *)
Definition forest (F : list (V * V * Z)) : Prop :=
  ∀ F1 e F2, F = F1 ++ e :: F2 → ¬ conn F1 e.1.1 e.1.2.

Lemma forest_nil : forest [].
Proof. intros F1 e F2 Heq. by destruct F1. Qed.

Lemma forest_snoc (F : list (V * V * Z)) (e : V * V * Z) :
  forest F → ¬ conn F e.1.1 e.1.2 → forest (F ++ [e]).
Proof.
  intros HF He F1 e' F2 Heq. destruct F2 as [|x F2 _] using rev_ind.
  - apply app_inj_tail in Heq as [-> ->]. done.
  - rewrite app_comm_cons, app_assoc in Heq. apply app_inj_tail in Heq as [-> _].
    by eapply HF.
Qed.

Lemma kruskal_edge_forest (processed todo : list (V * V * Z)) (e : V * V * Z)
    (st st' : kruskal_state) :
  sorted_by_weight (edges g) = processed ++ e :: todo →
  kruskal_inv g processed st → forest (ks_edges st) →
  kruskal_edge fuel e st = Some st' → forest (ks_edges st').
Proof.
  intros Hsorted [Hdw Hlen Hsame Htot Hsub Hconn Hprom] Hforest.
  destruct e as [[u v] w].
  assert (Hperm : edges g ≡ₚ processed ++ (u, v, w) :: todo).
  { rewrite <- Hsorted. symmetry. apply sorted_by_weight_perm. }
  assert (Hplen : length processed < length (edges g)).
  { rewrite Hperm, length_app. simpl. lia. }
  destruct (edge_vertices g Hwf vs Hvs fuel Hfuel u v w) as [Hu Hv].
  { rewrite Hperm. apply elem_of_app. right. by left. }
  unfold kruskal_edge.
  destruct (ds_find_spec (vertices g) _ fuel _ u Hdw Hu)
    as (r1 & ds1 & Hrun1 & Hroot1 & Hwf1 & Hrk1 & Hs1); [lia|].
  rewrite Hrun1. simpl.
  destruct (ds_find_spec (vertices g) _ fuel _ v Hwf1 Hv)
    as (r2 & ds2 & Hrun2 & Hroot2 & Hwf2 & Hrk2 & Hs2); [lia|].
  rewrite Hrun2. simpl.
  assert (Hroot2' : ds_root (ds_parent (ks_ds st)) v r2) by by apply Hs1.
  destruct (decide (r1 ≠ r2)) as [Hne|Heq]; [|by intros [= <-]].
  destruct (ds_union fuel ds2 u v) as [ds'|]; [|done]. simpl. intros [= <-]. simpl.
  apply forest_snoc; [done|]. simpl.
  intros (r & Hur & Hvr)%Hsame; [|done|done]. apply Hne.
  rewrite (ds_root_det (vertices g) _ _ _ _ Hroot1 Hur).
  by rewrite (ds_root_det (vertices g) _ _ _ _ Hroot2' Hvr).
Qed.

Lemma kruskal_loop_forest (todo processed : list (V * V * Z)) (st st' : kruskal_state) :
  sorted_by_weight (edges g) = processed ++ todo →
  kruskal_inv g processed st → forest (ks_edges st) →
  for_each (kruskal_edge fuel) todo st = Some st' →
  kruskal_inv g (sorted_by_weight (edges g)) st' ∧ forest (ks_edges st').
Proof.
  revert processed st. induction todo as [|e todo IH]; intros processed st Hs Hinv Hf.
  { simpl. intros [= <-]. split; [|done]. by rewrite Hs, app_nil_r. }
  destruct (kruskal_edge_spec g Hwf vs Hvs fuel Hfuel processed todo e st Hs Hinv)
    as (s1 & Hrun & Hinv1).
  simpl. rewrite Hrun. apply (IH (processed ++ [e])); [|done|].
  - by rewrite <- app_assoc.
  - by eapply kruskal_edge_forest.
Qed.

Lemma kruskal_forest_run :
  ∃ K, kruskal (MST_init g vs) fuel = Some (K, weight K, MST_init g vs)
    ∧ (∀ e, e ∈ K → e ∈ edges g)
    ∧ (∀ x y, conn K x y ↔ conn (edges g) x y)
    ∧ forest K.
Proof.
  destruct (kruskal_loop_spec g Hwf vs Hvs fuel Hfuel (sorted_by_weight (edges g)) []
              (mkKruskal (DisjointSet_init vs) [] 0) eq_refl
              (kruskal_init_inv g Hwf vs Hvs fuel Hfuel))
    as (st & Hrun & _).
  destruct (kruskal_loop_forest (sorted_by_weight (edges g)) [] _ st eq_refl
              (kruskal_init_inv g Hwf vs Hvs fuel Hfuel) forest_nil Hrun)
    as [[_ _ _ Htot Hsub Hconn _] Hforest].
  assert (Hin : ∀ e, e ∈ ks_edges st → e ∈ edges g).
  { intros e He. rewrite <- (sorted_by_weight_perm (edges g)). by apply Hsub. }
  exists (ks_edges st). unfold kruskal. simpl. unfold get_edges. rewrite Hrun. simpl.
  rewrite Htot. split; [done|]. split; [done|]. split; [|done].
  intros x y. split.
  - by apply conn_mono.
  - apply conn_sub. intros a b [w Hw]. apply (Hconn a b w).
    by rewrite sorted_by_weight_perm.
Qed.

End KruskalForest.

Section MstResults.

Context {V : Type} `{Countable V}.

(** X11.  [kruskal] on any graph, connected or not, directed or not: it
    returns; the edges it returns are edges of the graph, they join exactly
    the pairs of vertices that the edges of the graph join (directions
    ignored), none of them closes a cycle with the ones returned before it,
    and the reported total is their weight. *)
Theorem kruskal_spanning_forest (g : Graph (V := V)) (vs : list V) :
  wf_graph g → get_vertices g vs →
  (∃ r, returns (kruskal (MST_init g vs)) r)
  ∧ ∀ r, returns (kruskal (MST_init g vs)) r →
      r.1.2 = weight r.1.1
      ∧ (∀ e, e ∈ r.1.1 → e ∈ edges g)
      ∧ (∀ x y, conn r.1.1 x y ↔ conn (edges g) x y)
      ∧ forest r.1.1.
Proof.
  intros Hwf Hvs.
  destruct (kruskal_forest_run g Hwf vs Hvs (S (length (edges g))) (Nat.lt_succ_diag_r _))
    as (K & HK & Hsub & Hc & Hf).
  split; [by eexists; eexists|].
  intros r [n Hn].
  apply (kruskal_mono _ (n `max` S (length (edges g)))) in Hn; [|lia].
  apply (kruskal_mono _ (n `max` S (length (edges g)))) in HK; [|lia].
  assert (r = (K, weight K, MST_init g vs)) as -> by congruence. done.
Qed.

(** X12.  On a connected undirected graph with at least one vertex,
    [kruskal] returns a minimum spanning tree: edges of the graph, one fewer
    than there are vertices, that join every two vertices, with a total
    weight that no spanning tree of the graph undercuts. *)
Theorem kruskal_minimum_spanning_tree (g : Graph (V := V)) (vs : list V) :
  wf_graph g → directed g = false → get_vertices g vs → connected g → vs ≠ [] →
  (∃ r, returns (kruskal (MST_init g vs)) r)
  ∧ ∀ r, returns (kruskal (MST_init g vs)) r →
      r.1.2 = weight r.1.1
      ∧ spanning_tree g r.1.1
      ∧ ∀ T, spanning_tree g T → (weight r.1.1 ≤ weight T)%Z.
Proof.
  intros Hwf Hund Hvs Hconn Hne.
  destruct (kruskal_run g Hwf vs Hvs (S (length (edges g))) (Nat.lt_succ_diag_r _))
    as (K & HK & Hprom & HKe & HKc).
  split; [by eexists; eexists|].
  intros r [n Hn].
  apply (kruskal_mono _ (n `max` S (length (edges g)))) in Hn; [|lia].
  apply (kruskal_mono _ (n `max` S (length (edges g)))) in HK; [|lia].
  assert (r = (K, weight K, MST_init g vs)) as -> by congruence. simpl.
  split; [done|].
  destruct vs as [|first rest] eqn:Hv; [done|].
  assert (Hstart : first ∈ vertices g).
  { apply elem_of_elements. rewrite <- Hvs. by left. }
  destruct (prim_run (λ _ _, true) g Hwf Hund Hconn first Hstart (first :: rest) None Hvs)
    as [[rp Hrp] Hall].
  { by intros f r [= <- <-]. }
  destruct (Hall rp Hrp) as (_ & Htree & _).
  apply (promising_minimal g K Hprom); [|done|by exists rp.1.1].
  intros u v Hu Hv'. apply HKc. by apply Hconn.
Qed.

(** X13.  On a connected undirected graph, [prim], from the default start
    vertex or from any vertex of the graph, returns a minimum spanning tree
    and its weight. *)
Theorem prim_minimum_spanning_tree (vleb : V → V → bool) (g : Graph (V := V))
    (vs : list V) (start_vertex : option V) :
  wf_graph g → directed g = false → get_vertices g vs → connected g → vs ≠ [] →
  (∀ s, start_vertex = Some s → s ∈ vertices g) →
  (∃ r, returns (prim vleb (MST_init g vs) start_vertex) r)
  ∧ ∀ r, returns (prim vleb (MST_init g vs) start_vertex) r →
      r.1.2 = weight r.1.1
      ∧ spanning_tree g r.1.1
      ∧ ∀ T, spanning_tree g T → (weight r.1.1 ≤ weight T)%Z.
Proof.
  intros Hwf Hund Hvs Hconn Hne Hsv.
  destruct vs as [|first rest] eqn:Hv; [done|].
  apply (prim_run vleb g Hwf Hund Hconn (default first start_vertex)); [|done|].
  - destruct start_vertex as [s|]; simpl; [by apply Hsv|].
    apply elem_of_elements. rewrite <- Hvs. by left.
  - by intros f r [= <- <-].
Qed.

End MstResults.

Section PrimComponent.

Context {V : Type} `{Countable V}.
Context (vleb : V → V → bool).
Context (g : Graph (V := V)) (Hwf : wf_graph g) (Hund : directed g = false).
Context (start : V) (Hstart : start ∈ vertices g).

(** [F] is a tree on the vertices that the edges of the graph join to the
    start vertex. *)
Definition component_tree (F : list (V * V * Z)) : Prop :=
  (∀ e, e ∈ F → edge_of g e)
  ∧ ∃ C : gset V,
      (∀ x, x ∈ C ↔ conn (edges g) start x)
      ∧ length F + 1 = size C
      ∧ ∀ x, x ∈ C → conn F start x.

Lemma edge_of_conn (F : list (V * V * Z)) (x y : V) :
  (∀ e, e ∈ F → edge_of g e) → conn F x y → conn (edges g) x y.
Proof.
  intros HF. apply conn_sub. intros a b [w Hw].
  destruct (HF _ Hw) as [He|He]; simpl in He.
  - by eapply conn_edge.
  - symmetry. by eapply conn_edge.
Qed.

Lemma prim_component_exit (st : prim_state) :
  prim_inv g start st →
  (size (vertices g) ≤ size (pr_visited st) ∨ pr_heap st = []) →
  pr_total st = weight (pr_edges st) ∧ component_tree (pr_edges st).
Proof.
  intros [Hview Hst Hsub Hsize Hcn Hin Htot Hheap Hcomp Hprom] Hexit.
  split; [done|].
  assert (HF : ∀ e, e ∈ pr_edges st → edge_of g e) by (intros e He; by apply Hin).
  split; [done|]. exists (pr_visited st). split; [|done].
  assert (Hclosed : ∀ a b, a ∈ pr_visited st → sc (edge_rel (edges g)) a b →
            b ∈ pr_visited st).
  { intros a b Ha Hab. destruct (decide (b ∈ pr_visited st)) as [|Hb]; [done|].
    destruct Hexit as [Hsz|Hempty].
    - assert (Heq : pr_visited st ≡ vertices g).
      { apply set_subseteq_size_equiv; [done|lia]. }
      apply Heq. destruct (wf_closed g Hwf) as [He _].
      destruct Hab as [[w Hw]|[w Hw]]; apply He in Hw; tauto.
    - assert (∃ w, (b, w) ∈ adj_of (adj_list g) a) as [w Hw].
      { destruct Hab as [[w Hw]|[w Hw]]; exists w; apply (adj_undirected vleb g Hwf Hund);
          [by left|by right]. }
      specialize (Hcomp a b w Ha Hw Hb). rewrite Hempty in Hcomp.
      by apply elem_of_nil in Hcomp. }
  intros x. split.
  - intros Hx. apply (edge_of_conn (pr_edges st)); [done|by apply Hcn].
  - intros Hc. revert Hst. clear -Hc Hclosed.
    induction Hc as [y|y z x Hyz _ IH]; [done|]. intros Hy. apply IH. by eapply Hclosed.
Qed.

Lemma prim_component_loop (st : prim_state) :
  prim_inv g start st →
  (∃ r, returns (λ fuel, while_loop (prim_body vleb (size (vertices g))) fuel st) r)
  ∧ ∀ r, returns (λ fuel, while_loop (prim_body vleb (size (vertices g))) fuel st) r →
         r.1.2 = weight r.1.1 ∧ component_tree r.1.1.
Proof.
  intros Hinv. split.
  - destruct (while_loop_terminates (prim_body vleb (size (vertices g))) dist_lt
                (prim_measure g) (prim_inv g start)) with (s := st) as (n & r & Hr).
    + apply wf_slexprod; apply lt_wf.
    + intros s Hs.
      destruct (prim_body_cases vleb g Hwf Hund start Hstart s Hs)
        as [[Hb _]|(s' & Hs' & ? & ?)]; [left|right]; eauto.
    + done.
    + by exists r, n.
  - intros r [n Hr].
    eapply (while_loop_invariant _ (prim_inv g start)
              (λ r, r.1.2 = weight r.1.1 ∧ component_tree r.1.1));
      [| |exact Hinv|exact Hr].
    + intros s s' Hs Hb.
      destruct (prim_body_cases vleb g Hwf Hund start Hstart s Hs)
        as [[Hb' _]|(s0 & Hs0 & ? & _)]; congruence.
    + intros s r' Hs Hb.
      destruct (prim_body_cases vleb g Hwf Hund start Hstart s Hs)
        as [[Hb' Hexit]|(s0 & Hs0 & _)]; [|congruence].
      rewrite Hb in Hb'. injection Hb' as ->. by apply prim_component_exit.
Qed.

Lemma prim_component_run (vs : list V) (sv : option V) :
  get_vertices g vs →
  (∀ first rest, vs = first :: rest → default first sv = start) →
  (∃ r, returns (prim vleb (MST_init g vs) sv) r)
  ∧ ∀ r, returns (prim vleb (MST_init g vs) sv) r →
         r.1.2 = weight r.1.1 ∧ component_tree r.1.1.
Proof.
  intros Hvs Hsv.
  assert (Hlen : length vs = size (vertices g)) by (by rewrite Hvs).
  destruct vs as [|first rest] eqn:Hv.
  { apply elem_of_elements in Hstart. rewrite <- Hvs in Hstart.
    by apply elem_of_nil in Hstart. }
  unfold prim. cbn [MST_init mst_vertices mst_graph mst_edges]. rewrite (Hsv _ _ eq_refl).
  unfold dd_get. rewrite Hlen.
  destruct (prim_component_loop _ (prim_init_inv vleb g Hwf Hund start Hstart))
    as [(r & n & Hr) Hall]. split.
  - eexists. exists n. rewrite Hr. reflexivity.
  - intros r' [m Hm].
    destruct (while_loop _ m _) as [r0|] eqn:Hr0; [|done]. simpl in Hm.
    injection Hm as <-. apply (Hall r0). by exists m.
Qed.

End PrimComponent.

Section PrimResults.

Context {V : Type} `{Countable V}.
Context (vleb : V → V → bool).

(** X14.  [prim] on an undirected graph that need not be connected, from a
    start vertex of the graph (the first of the vertex list by default): it
    returns, without any sign that vertices were left out, a tree on the
    vertices joined to the start vertex: edges of the graph, one fewer than
    there are such vertices, that join the start vertex to each of them; the
    reported total is their weight. *)
Theorem prim_spans_component (g : Graph (V := V)) (vs : list V)
    (start_vertex : option V) (start : V) :
  wf_graph g → directed g = false → get_vertices g vs →
  start ∈ vertices g →
  start_vertex = Some start ∨ (start_vertex = None ∧ head vs = Some start) →
  (∃ r, returns (prim vleb (MST_init g vs) start_vertex) r)
  ∧ ∀ r, returns (prim vleb (MST_init g vs) start_vertex) r →
      r.1.2 = weight r.1.1 ∧ component_tree g start r.1.1.
Proof.
  intros Hwf Hund Hvs Hstart Hsv.
  apply (prim_component_run vleb g Hwf Hund start Hstart vs start_vertex Hvs).
  intros first rest ->. destruct Hsv as [->|[-> Hhd]]; [done|]. simpl in *. congruence.
Qed.

(** X15.  [prim] without anything to span: on a graph without vertices, and
    from a start vertex that is not in the graph, it returns no edges and
    the weight 0; in the second case the read of the start vertex's adjacency
    list leaves the key in the graph's dictionary, bound to the empty list. *)
Theorem prim_nothing_to_span (g : Graph (V := V)) (vs : list V) (s : V) (fuel : nat) :
  wf_graph g → get_vertices g vs → s ∉ vertices g → 0 < fuel →
  prim vleb (MST_init g vs) (Some s) fuel
  = Some ([], 0%Z,
          mkMST (if decide (vs = []) then g
                 else set_adj_list g (<[s := []]> (adj_list g))) vs (edges g)).
Proof.
  intros Hwf Hvs Hs Hfuel. unfold prim. simpl.
  destruct vs as [|first rest]; [done|]. simpl.
  assert (Hnone : adj_list g !! s = None).
  { destruct (adj_list g !! s) as [l|] eqn:Hl; [|done].
    destruct (wf_closed g Hwf) as [_ Ha]. by destruct (Ha s l Hl). }
  unfold dd_get, adj_of, dd_touch. rewrite Hnone. simpl.
  destruct fuel as [|fuel]; [lia|]. simpl. unfold prim_body. simpl.
  by destruct (decide _).
Qed.

End PrimResults.

Lemma kruskal_spanning_forest_witness :
  (∃ r, returns (kruskal (MST_init main_graph (elements (vertices main_graph)))) r)
  ∧ ∀ r, returns (kruskal (MST_init main_graph (elements (vertices main_graph)))) r →
      r.1.2 = weight r.1.1
      ∧ (∀ e, e ∈ r.1.1 → e ∈ edges main_graph)
      ∧ (∀ x y, conn r.1.1 x y ↔ conn (edges main_graph) x y)
      ∧ forest r.1.1.
Proof.
  apply (kruskal_spanning_forest main_graph (elements (vertices main_graph))).
  - apply wf_graph_build.
  - unfold get_vertices. reflexivity.
Defined.

Lemma mst_main_vertices_nonempty : elements (vertices mst_main_graph) ≠ [].
Proof.
  intros Heq. assert (Hin : "A"%string ∈ elements (vertices mst_main_graph)).
  { apply elem_of_elements. apply (bool_decide_unpack _). vm_compute. exact I. }
  rewrite Heq in Hin. by apply elem_of_nil in Hin.
Qed.

Lemma kruskal_minimum_spanning_tree_witness :
  (∃ r, returns (kruskal (MST_init mst_main_graph (elements (vertices mst_main_graph)))) r)
  ∧ ∀ r, returns (kruskal (MST_init mst_main_graph (elements (vertices mst_main_graph)))) r →
      r.1.2 = weight r.1.1
      ∧ spanning_tree mst_main_graph r.1.1
      ∧ ∀ T, spanning_tree mst_main_graph T → (weight r.1.1 ≤ weight T)%Z.
Proof.
  apply (kruskal_minimum_spanning_tree mst_main_graph (elements (vertices mst_main_graph))).
  - apply wf_graph_build.
  - reflexivity.
  - unfold get_vertices. reflexivity.
  - apply mst_main_graph_connected.
  - apply mst_main_vertices_nonempty.
Defined.

Lemma prim_minimum_spanning_tree_witness :
  (∃ r, returns (prim String.leb
                   (MST_init mst_main_graph (elements (vertices mst_main_graph))) None) r)
  ∧ ∀ r, returns (prim String.leb
                    (MST_init mst_main_graph (elements (vertices mst_main_graph))) None) r →
      r.1.2 = weight r.1.1
      ∧ spanning_tree mst_main_graph r.1.1
      ∧ ∀ T, spanning_tree mst_main_graph T → (weight r.1.1 ≤ weight T)%Z.
Proof.
  apply (prim_minimum_spanning_tree String.leb mst_main_graph
           (elements (vertices mst_main_graph)) None).
  - apply wf_graph_build.
  - reflexivity.
  - unfold get_vertices. reflexivity.
  - apply mst_main_graph_connected.
  - apply mst_main_vertices_nonempty.
  - intros s Hs. discriminate Hs.
Defined.

(** A graph in two pieces, [A - B - C] and [D - E]. *)
Definition two_islands_graph : Graph (V := string) :=
  build false [AddEdge "A" "B" 3; AddEdge "B" "C" 1; AddEdge "A" "C" 2;
               AddEdge "D" "E" 7]%string%Z.

Lemma prim_spans_component_witness :
  (∃ r, returns (prim String.leb
                   (MST_init two_islands_graph (elements (vertices two_islands_graph)))
                   (Some "A"%string)) r)
  ∧ ∀ r, returns (prim String.leb
                    (MST_init two_islands_graph (elements (vertices two_islands_graph)))
                    (Some "A"%string)) r →
      r.1.2 = weight r.1.1 ∧ component_tree two_islands_graph "A"%string r.1.1.
Proof.
  apply (prim_spans_component String.leb two_islands_graph
           (elements (vertices two_islands_graph)) (Some "A"%string) "A"%string).
  - apply wf_graph_build.
  - reflexivity.
  - unfold get_vertices. reflexivity.
  - apply (bool_decide_unpack _). vm_compute. exact I.
  - by left.
Defined.

(** On the graph in two pieces [prim] stops after the piece of its start
    vertex, with the weight 3 of the tree on [A], [B], [C]. *)
Example two_islands_prim :
  (r ← prim String.leb
         (MST_init two_islands_graph (elements (vertices two_islands_graph)))
         (Some "A"%string) 10;
   Some r.1) = Some ([("A", "C", 2); ("C", "B", 1)]%string%Z, 3%Z).
Proof. vm_compute. reflexivity. Qed.

Lemma prim_nothing_to_span_witness :
  prim String.leb (MST_init mst_main_graph (elements (vertices mst_main_graph)))
    (Some "Z"%string) 1
  = Some ([], 0%Z,
          mkMST (if decide (elements (vertices mst_main_graph) = []) then mst_main_graph
                 else set_adj_list mst_main_graph
                        (<["Z"%string := []]> (adj_list mst_main_graph)))
            (elements (vertices mst_main_graph)) (edges mst_main_graph)).
Proof.
  apply (prim_nothing_to_span String.leb mst_main_graph
           (elements (vertices mst_main_graph)) "Z"%string 1).
  - apply wf_graph_build.
  - unfold get_vertices. reflexivity.
  - apply (bool_decide_unpack _). vm_compute. exact I.
  - lia.
Defined.

(** ** advanced_graph_algorithms.py *)


Section AdvancedFacts.

Context {V : Type} `{Countable V}.

(** X16.  [_reverse_graph] turns every adjacency entry around and adds
    nothing else: the reversed list of [v] holds [(u, w)] exactly when the
    list of [u] holds [(v, w)]; the graph's own lists are read, not
    changed. *)
Theorem reverse_graph_flips (g : Graph (V := V)) (vs : list V) (u v : V) (w : Z) :
  wf_graph g → get_vertices g vs →
  ((u, w) ∈ adj_of (reverse_graph vs (adj_list g)).2 v ↔ (v, w) ∈ adj_of (adj_list g) u)
  ∧ adj_of (reverse_graph vs (adj_list g)).1 u = adj_of (adj_list g) u.
Proof.
  intros Hwf Hvs. split.
  - unfold reverse_graph. rewrite reverse_graph_spec. split.
    + intros [?%elem_of_nil|[_ ?]]; done.
    + intros Hin. right. split; [|done]. rewrite Hvs, elem_of_elements.
      apply (adj_edge_vertices g Hwf u v). by exists w.
  - destruct (reverse_graph_adj (λ _ _, true) vs (adj_list g)) as [_ Hd]. apply Hd.
Qed.

Lemma topological_sort_adj_run (g : Graph (V := V)) (vs : list V) :
  wf_graph g → get_vertices g vs →
  ∃ r a', topological_sort (AGA_init g vs) (size (vertices g)) = Some (r, a')
    ∧ match r with
      | None => ∃ v, tc (adj_edge g) v v
      | Some order =>
          order ≡ₚ vs ∧ (∀ u v, adj_edge g u v → before order u v)
          ∧ ¬ ∃ v, tc (adj_edge g) v v
      end.
Proof.
  intros Hwf Hvs. unfold topological_sort. simpl.
  destruct (topo_roots_spec g Hwf (size (vertices g)) vs (mkTopo (adj_list g) ∅ ∅ []))
    as (b & st & Hrun & Hres).
  - split; simpl; [done|set_solver|set_solver|set_solver|constructor|done].
  - done.
  - intros v Hv. apply elem_of_elements. by rewrite <- Hvs.
  - simpl. by rewrite unvisited_empty.
  - rewrite Hrun. simpl. do 2 eexists. split; [done|]. destruct b; [done|].
    destruct Hres as [(Hi & Ht & _ & _) Hall]. simpl in Ht.
    assert (Hvis : ∀ u, u ∈ ts_visited st ↔ u ∈ ts_order st).
    { intros u. rewrite (ti_visited g st Hi), Ht. set_solver. }
    assert (Hin : ∀ u, u ∈ vertices g → u ∈ ts_order st).
    { intros u Hu. apply Hvis, Hall. rewrite Hvs. by apply elem_of_elements. }
    split; [|split].
    + apply NoDup_Permutation; [apply (ti_nodup g st Hi)|rewrite Hvs; apply NoDup_elements|].
      intros u. rewrite Hvs, elem_of_elements. split; [|by apply Hin].
      intros Hu%Hvis. by apply (ti_vertices g st Hi).
    + intros u v Huv. apply (topo_ok_before g); [apply (ti_ok g st Hi)| |done].
      apply Hin. by apply (adj_edge_vertices g Hwf u v).
    + intros [v Hv].
      apply (before_irrefl g (ts_order st) v); [apply (ti_nodup g st Hi)|].
      apply (topo_ok_tc_before g); [apply (ti_ok g st Hi)|apply (ti_nodup g st Hi)| |done].
      assert (∃ y, adj_edge g v y) as [y Hy] by (inversion Hv; eauto).
      apply Hin. by apply (adj_edge_vertices g Hwf v y).
Qed.

(** X17.  Whenever [topological_sort] returns an order, on whatever graph,
    the order lists every vertex of the graph exactly once. *)
Theorem topological_sort_permutation (g : Graph (V := V)) (vs : list V) :
  wf_graph g → get_vertices g vs →
  (∃ r, returns (topological_sort (AGA_init g vs)) r)
  ∧ ∀ order a', returns (topological_sort (AGA_init g vs)) (Some order, a') →
      order ≡ₚ elements (vertices g).
Proof.
  intros Hwf Hvs.
  destruct (topological_sort_adj_run g vs Hwf Hvs) as (r0 & a0 & Hrun & Hres).
  split; [by exists (r0, a0), (size (vertices g))|].
  intros order a' Hr.
  assert ((Some order, a') = (r0, a0)) as [= <- <-].
  { eapply topological_sort_det; [done|by exists (size (vertices g))]. }
  destruct Hres as [Hperm _]. by rewrite Hperm.
Qed.

(** X18.  [topological_sort] on an undirected graph: every edge is stored
    in both directions and so counts as a cycle; the function returns [None]
    as soon as the graph has an edge, and an order of the vertices only when
    it has none. *)
Theorem topological_sort_undirected (g : Graph (V := V)) (vs : list V) :
  wf_graph g → directed g = false → get_vertices g vs →
  (∃ r, returns (topological_sort (AGA_init g vs)) r)
  ∧ ∀ r a', returns (topological_sort (AGA_init g vs)) (r, a') →
      (r = None ↔ edges g ≠ []).
Proof.
  intros Hwf Hund Hvs.
  destruct (topological_sort_adj_run g vs Hwf Hvs) as (r0 & a0 & Hrun & Hres).
  split; [by exists (r0, a0), (size (vertices g))|].
  intros r a' Hr.
  assert ((r, a') = (r0, a0)) as [= -> ->].
  { eapply topological_sort_det; [done|by exists (size (vertices g))]. }
  assert (Hadj : ∀ u v, adj_edge g u v ↔ ∃ w, (u, v, w) ∈ edges g ∨ (v, u, w) ∈ edges g).
  { intros u v. unfold adj_edge. split; intros [w Hw]; exists w.
    - by apply (adj_undirected (λ _ _, true) g Hwf Hund) in Hw.
    - by apply (adj_undirected (λ _ _, true) g Hwf Hund). }
  destruct r0 as [order|].
  - destruct Hres as (_ & _ & Hno). split; [done|]. intros Hne. exfalso. apply Hno.
    destruct (edges g) as [|[[u v] w] es] eqn:He; [done|]. exists u.
    eapply tc_l; [|apply tc_once]; apply Hadj; exists w; rewrite ?He.
    + left. by left.
    + right. by left.
  - split; [|done]. intros _ He. destruct Hres as [v Hv].
    assert (∃ y, adj_edge g v y) as [y [w Hw]%Hadj] by (inversion Hv; eauto).
    rewrite He in Hw. destruct Hw as [?%elem_of_nil|?%elem_of_nil]; done.
Qed.

End AdvancedFacts.

Lemma reverse_graph_flips_witness :
  (("A"%string, 1%Z)
     ∈ adj_of (reverse_graph (elements (vertices scc_graph)) (adj_list scc_graph)).2
         "B"%string
   ↔ ("B"%string, 1%Z) ∈ adj_of (adj_list scc_graph) "A"%string)
  ∧ adj_of (reverse_graph (elements (vertices scc_graph)) (adj_list scc_graph)).1 "A"%string
    = adj_of (adj_list scc_graph) "A"%string.
Proof.
  apply (reverse_graph_flips scc_graph (elements (vertices scc_graph))
           "A"%string "B"%string 1%Z).
  - apply wf_graph_build.
  - unfold get_vertices. reflexivity.
Defined.

Lemma topological_sort_permutation_witness :
  (∃ r, returns (topological_sort (AGA_init dag_graph (elements (vertices dag_graph)))) r)
  ∧ ∀ order a',
      returns (topological_sort (AGA_init dag_graph (elements (vertices dag_graph))))
        (Some order, a') →
      order ≡ₚ elements (vertices dag_graph).
Proof.
  apply (topological_sort_permutation dag_graph (elements (vertices dag_graph))).
  - apply wf_graph_build.
  - unfold get_vertices. reflexivity.
Defined.

Lemma topological_sort_undirected_witness :
  (∃ r, returns (topological_sort
                   (AGA_init mst_main_graph (elements (vertices mst_main_graph)))) r)
  ∧ ∀ r a',
      returns (topological_sort
                 (AGA_init mst_main_graph (elements (vertices mst_main_graph)))) (r, a') →
      (r = None ↔ edges mst_main_graph ≠ []).
Proof.
  apply (topological_sort_undirected mst_main_graph (elements (vertices mst_main_graph))).
  - apply wf_graph_build.
  - reflexivity.
  - unfold get_vertices. reflexivity.
Defined.

Section SccOrder.

Context {V : Type} `{Countable V}.
Context (g : Graph (V := V)) (Hwf : wf_graph g).
Context (vs : list V) (Hvs : get_vertices g vs).

(** Every edge into a component listed in [l1] starts in a component listed
    in [l1], for every initial part [l1] of the list. *)
Definition pred_closed (sccs : list (list V)) : Prop :=
  ∀ l1 l2, sccs = l1 ++ l2 →
    ∀ x y, y ∈ mjoin l1 → adj_edge g x y → x ∈ mjoin l1.

Record order_inv (rev0 : gmap V (list (V * Z)))
    (st : gmap V (list (V * Z)) * gset V * list (list V)) : Prop := mk_order_inv {
  oi_view : ∀ u, adj_of st.1.1 u = adj_of rev0 u;
  oi_visited : st.1.2 = list_to_set (mjoin st.2);
  oi_vertices : st.1.2 ⊆ vertices g;
  oi_closed : pred_closed st.2
}.

Lemma second_loop_order (fuel : nat) (rev0 : gmap V (list (V * Z))) (roots : list V) :
  size (vertices g) ≤ fuel →
  (∀ v u, adj_rel (adj_of rev0) v u ↔ adj_edge g u v) →
  (∀ r, r ∈ roots → r ∈ vertices g) →
  ∀ st st', order_inv rev0 st →
    for_each (second_pass_root fuel) roots st = Some st' → order_inv rev0 st'.
Proof.
  intros Hfuel Hrev.
  assert (HA : ∀ u v w, (v, w) ∈ adj_of rev0 u → v ∈ vertices g).
  { intros u v w Hin. apply (adj_edge_vertices g Hwf v u). apply Hrev. by exists w. }
  induction roots as [|r roots IH]; intros Hroots st st' Hinv Hrun.
  { simpl in Hrun. by injection Hrun as <-. }
  cbn [for_each] in Hrun. destruct st as [[rev W] sccs]. unfold second_pass_root at 1 in Hrun.
  destruct (decide (r ∈ W)) as [HrW|HrW].
  { eapply IH; [intros x Hx; apply Hroots; by right|exact Hinv|exact Hrun]. }
  destruct (second_pass_spec (adj_of rev0) (vertices g) HA fuel r (mkPass rev W []))
    as (s1 & N & Hs1 & [Hview1 Hvis1 Hnd1 Hreach1] & Hout & _).
  { intros u. apply (oi_view _ _ Hinv). }
  { apply Hroots. by left. }
  { done. }
  { simpl. etrans; [|exact Hfuel]. unfold remaining. apply subseteq_size. set_solver. }
  rewrite Hs1 in Hrun. cbn [mbind option_bind] in Hrun. simpl in Hout, Hvis1, Hreach1. subst N.
  eapply IH; [intros x Hx; apply Hroots; by right| |exact Hrun].
  destruct Hinv as [Hv Hvis Hsub Hcl]. simpl in *.
  assert (Hin : ∀ y, y ∈ ps_out s1 → y ∈ vertices g).
  { assert (Hstay : ∀ a b, rtc (adj_rel (adj_of rev0)) a b → a ∈ vertices g → b ∈ vertices g).
    { induction 1 as [|a b c Hab _ IHy]; [done|]. intros _. apply IHy.
      apply Hrev in Hab. by apply (adj_edge_vertices g Hwf b a). }
    intros y Hy%Hreach1%ra_rtc. apply (Hstay r y Hy). apply Hroots. by left. }
  split; simpl.
  - done.
  - rewrite Hvis1, Hvis, join_app, list_to_set_app_L. simpl. by rewrite app_nil_r.
  - rewrite Hvis1. intros y [Hy|Hy%elem_of_list_to_set]%elem_of_union; [by apply Hsub|].
    by apply Hin.
  - intros l1 l2 Heq x y Hy Hxy.
    destruct (decide (l2 = [])) as [-> |Hne].
    + rewrite app_nil_r in Heq. subst l1. rewrite join_app in Hy |- *. simpl in *.
      rewrite app_nil_r in Hy |- *. apply elem_of_app in Hy as [Hy|Hy]; apply elem_of_app.
      * left. apply (Hcl sccs [] (eq_sym (app_nil_r _)) x y); done.
      * destruct (decide (x ∈ W)) as [HxW|HxW].
        { left. rewrite Hvis in HxW. by apply elem_of_list_to_set in HxW. }
        right. apply Hreach1. eapply ra_snoc; [by apply Hreach1|by apply Hrev|done].
    + destruct (exists_last Hne) as (l2' & c & ->).
      rewrite app_assoc in Heq. apply app_inj_tail in Heq as [Heq _].
      by apply (Hcl l1 l2' Heq x y).
Qed.

Lemma find_scc_order (sccs : list (list V)) (a' : AdvancedGraphAlgorithms) :
  returns (find_scc (AGA_init g vs)) (sccs, a') → pred_closed sccs.
Proof.
  intros [n Hn].
  apply (find_scc_mono _ _ (n `max` size (vertices g))) in Hn; [|lia].
  unfold find_scc in Hn. simpl in Hn.
  destruct (first_loop_spec g Hwf vs Hvs (n `max` size (vertices g)))
    as (p1 & Hrun1 & Hview1 & Hnd1 & HL & _); [lia|].
  rewrite Hrun1 in Hn. simpl in Hn.
  pose proof (reverse_graph_edges g Hwf vs Hvs (ps_adj p1)) as Hrev.
  destruct (reverse_graph vs (ps_adj p1)) as [d rev] eqn:Hrg. simpl in Hrev.
  destruct (for_each (second_pass_root _) _ _) as [p2|] eqn:Hrun2; [|done].
  simpl in Hn. injection Hn as <- _.
  apply (second_loop_order _ rev (reverse (ps_out p1))) in Hrun2.
  - apply (oi_closed _ _ Hrun2).
  - lia.
  - intros v u. by apply Hrev.
  - intros r Hr. rewrite elem_of_reverse in Hr. by apply HL.
  - split; simpl; [done|done|set_solver|].
    intros l1 l2 Heq. destruct l1; [|done]. by intros x y ?%elem_of_nil.
Qed.

End SccOrder.

Section SccOrderTheorem.

Context {V : Type} `{Countable V}.

(** X25.  [find_scc] on a directed graph lists the components in an order
    that the edges respect: an edge into a vertex of a component starts in
    that component or in a component listed before it. *)
Theorem find_scc_topological_order (g : Graph (V := V)) (vs : list V) :
  wf_graph g → directed g = true → get_vertices g vs →
  (∃ r, returns (find_scc (AGA_init g vs)) r)
  ∧ ∀ sccs a', returns (find_scc (AGA_init g vs)) (sccs, a') →
      ∀ before c after x y,
        sccs = before ++ c :: after → y ∈ c → graph_edge g x y →
        x ∈ c ∨ ∃ c', c' ∈ before ∧ x ∈ c'.
Proof.
  intros Hwf Hd Hvs.
  destruct (find_scc_run g Hwf vs Hvs Hd) as (sccs0 & a0 & Hrun & _).
  split; [by exists (sccs0, a0), (size (vertices g))|].
  intros sccs a' Hr before c after x y Heq Hy Hxy.
  pose proof (find_scc_order g Hwf vs Hvs sccs a' Hr (before ++ [c]) after) as Hcl.
  rewrite <- app_assoc in Hcl. specialize (Hcl Heq x y).
  rewrite join_app in Hcl. simpl in Hcl. rewrite app_nil_r in Hcl.
  assert (Hx : x ∈ mjoin before ++ c).
  { apply Hcl; [apply elem_of_app; by right|by apply (adj_edge_directed g Hwf)]. }
  apply elem_of_app in Hx as [Hx|Hx]; [right|by left].
  apply list_elem_of_join in Hx as (c' & Hx & Hc'). by exists c'.
Qed.

End SccOrderTheorem.

Lemma find_scc_topological_order_witness :
  (∃ r, returns (find_scc (AGA_init scc_graph (elements (vertices scc_graph)))) r)
  ∧ ∀ sccs a',
      returns (find_scc (AGA_init scc_graph (elements (vertices scc_graph)))) (sccs, a') →
      ∀ before c after x y,
        sccs = before ++ c :: after → y ∈ c → graph_edge scc_graph x y →
        x ∈ c ∨ ∃ c', c' ∈ before ∧ x ∈ c'.
Proof.
  apply (find_scc_topological_order scc_graph (elements (vertices scc_graph))).
  - apply wf_graph_build.
  - reflexivity.
  - unfold get_vertices. reflexivity.
Defined.

(** ** maximum_flow.py *)

Section NestedDicts.

Context {V : Type} `{Countable V}.

(** [d[u].get(v)] on a dictionary of dictionaries. *)
Definition ddd_lookup (d : gmap V (list (V * Z))) (u v : V) : option Z :=
  od_get (ddd_row d u) v.

Lemma od_get_set {A : Type} (d : list (V * A)) (k k' : V) (a : A) :
  od_get (od_set d k a) k' = if decide (k' = k) then Some a else od_get d k'.
Proof.
  induction d as [|[x b] d IH]; simpl.
  - destruct (decide (k' = k)); [done|]. done.
  - destruct (decide (k = x)) as [->|Hne]; simpl.
    + destruct (decide (k' = x)); done.
    + destruct (decide (k' = x)) as [->|Hne'].
      * rewrite decide_False by done. done.
      * done.
Qed.

Lemma ddd_lookup_set (d : gmap V (list (V * Z))) (u v u' v' : V) (c : Z) :
  ddd_lookup (ddd_set d u v c) u' v'
  = if decide (u' = u ∧ v' = v) then Some c else ddd_lookup d u' v'.
Proof.
  unfold ddd_lookup, ddd_set, ddd_row. destruct (decide (u' = u)) as [->|Hne].
  - rewrite lookup_insert_eq. simpl. rewrite od_get_set.
    destruct (decide (v' = v)) as [->|Hnv].
    + by rewrite decide_True.
    + rewrite decide_False by tauto. done.
  - rewrite lookup_insert_ne by done. rewrite decide_False by tauto. done.
Qed.

Lemma ddd_lookup_new_row (d : gmap V (list (V * Z))) (n u v : V) :
  d !! n = None → ddd_lookup (<[n := []]> d) u v = ddd_lookup d u v.
Proof.
  intros Hn. unfold ddd_lookup, ddd_row. destruct (decide (n = u)) as [->|Hne].
  - by rewrite lookup_insert_eq, Hn.
  - by rewrite lookup_insert_ne.
Qed.

Lemma ddd_add_spec (d d' : gmap V (list (V * Z))) (u v : V) (c : Z) :
  ddd_add d u v c = Some d' ↔
  ∃ old, ddd_lookup d u v = Some old ∧ d' = ddd_set d u v (old + c).
Proof.
  unfold ddd_add, ddd_lookup, ddd_set. destruct (od_get _ _) as [old|]; simpl.
  - split; [intros [= <-]; eauto|]. by intros (o & [= <-] & ->).
  - split; [done|]. by intros (o & ? & _).
Qed.

Lemma init_residual_edge_lookup (res : gmap V (list (V * Z))) (x n : V) (c : Z) (u v : V) :
  ddd_lookup (init_residual_edge x (n, c) res) u v
  = if decide (u = n ∧ v = x) then Some 0%Z
    else if decide (u = x ∧ v = n) then Some c
    else ddd_lookup res u v.
Proof.
  unfold init_residual_edge. rewrite ddd_lookup_set.
  destruct (decide (u = n ∧ v = x)); [done|].
  destruct (decide (is_Some (ddd_set res x n c !! n))) as [|Hnone].
  - apply ddd_lookup_set.
  - rewrite ddd_lookup_new_row; [apply ddd_lookup_set|].
    by apply eq_None_not_Some.
Qed.

Lemma od_get_Some_elem (d : list (V * Z)) (k : V) (a : Z) :
  od_get d k = Some a → (k, a) ∈ d.
Proof.
  induction d as [|[x b] d IH]; simpl; [done|].
  destruct (decide (k = x)) as [-> |Hne]; [intros [= ->]; by left|].
  intros Hg. right. by apply IH.
Qed.

Lemma od_get_elem_Some (d : list (V * Z)) (k : V) (a : Z) :
  NoDup d.*1 → (k, a) ∈ d → od_get d k = Some a.
Proof.
  induction d as [|[x b] d IH]; simpl; [by intros _ ?%elem_of_nil|].
  intros [Hx Hnd]%NoDup_cons [[= -> ->]|Hin]%elem_of_cons.
  - by rewrite decide_True.
  - destruct (decide (k = x)) as [-> |Hne]; [|by apply IH].
    exfalso. apply Hx. apply list_elem_of_fmap. by exists (x, a).
Qed.

Lemma od_get_is_Some (d : list (V * Z)) (k : V) :
  is_Some (od_get d k) ↔ k ∈ d.*1.
Proof.
  induction d as [|[x b] d IH]; simpl.
  - split; [by intros [? ?]|by intros ?%elem_of_nil].
  - destruct (decide (k = x)) as [-> |Hne].
    + split; [intros _; by left|by eexists].
    + rewrite IH. split; [by right|]. by intros [?|?]%elem_of_cons.
Qed.

Lemma od_set_keys_NoDup (d : list (V * Z)) (k : V) (a : Z) :
  NoDup d.*1 → NoDup (od_set d k a).*1.
Proof.
  assert (Hin : ∀ (d : list (V * Z)) x, x ∈ (od_set d k a).*1 → x = k ∨ x ∈ d.*1).
  { clear d. intros d x. induction d as [|[y b] d IH]; simpl.
    - intros ->%list_elem_of_singleton. by left.
    - destruct (decide (k = y)) as [-> |Hne]; simpl.
      + intros [-> |?]%elem_of_cons; [by left|right; by right].
      + intros [-> |Hx]%elem_of_cons; [right; by left|].
        destruct (IH Hx) as [?|?]; [by left|right; by right]. }
  induction d as [|[y b] d IH]; simpl; [intros _; apply NoDup_singleton|].
  intros [Hy Hnd]%NoDup_cons. destruct (decide (k = y)) as [-> |Hne]; simpl.
  - by apply NoDup_cons.
  - apply NoDup_cons. split; [|by apply IH].
    intros [?|?]%Hin; [by subst|done].
Qed.

(** The rows of [d[u][v] = c]. *)
Lemma ddd_row_set (d : gmap V (list (V * Z))) (u v x : V) (c : Z) :
  ddd_row (ddd_set d u v c) x
  = if decide (x = u) then od_set (ddd_row d u) v c else ddd_row d x.
Proof.
  unfold ddd_set, ddd_row. destruct (decide (x = u)) as [-> |Hne].
  - by rewrite lookup_insert_eq.
  - by rewrite lookup_insert_ne.
Qed.

Lemma ddd_row_new (d : gmap V (list (V * Z))) (n x : V) :
  d !! n = None → ddd_row (<[n := []]> d) x = ddd_row d x.
Proof.
  intros Hn. unfold ddd_row. destruct (decide (n = x)) as [-> |Hne].
  - by rewrite lookup_insert_eq, Hn.
  - by rewrite lookup_insert_ne.
Qed.

End NestedDicts.

Section ResidualInit.

Context {V : Type} `{Countable V}.
Context (g : Graph (V := V)) (Hwf : wf_graph g) (Hdir : directed g = true).
Context (vs : list V) (Hvs : get_vertices g vs).
Context (Hanti : ∀ u v c c', (u, v, c) ∈ edges g → (v, u, c') ∉ edges g).
Context (Huniq : ∀ u v c c', (u, v, c) ∈ edges g → (u, v, c') ∈ edges g → c = c').

(** The residual graph holds, for the edges in [P], the capacity forward and
    [0] backward, and nothing else. *)
Definition residual_for (P : list (V * V * Z)) (res : gmap V (list (V * Z))) : Prop :=
  ∀ u v c, ddd_lookup res u v = Some c
           ↔ (u, v, c) ∈ P ∨ (c = 0%Z ∧ ∃ c', (v, u, c') ∈ P).

Lemma adj_directed (u v : V) (w : Z) :
  (v, w) ∈ adj_of (adj_list g) u ↔ (u, v, w) ∈ edges g.
Proof.
  rewrite (wf_adj g Hwf), Hdir, list_elem_of_In, in_flat_map. unfold edge_entries. split.
  - intros ([[a b] c] & Hin%list_elem_of_In & Hent%list_elem_of_In). simpl in Hent.
    rewrite app_nil_r in Hent. destruct (decide (a = u)) as [->|]; [|by apply elem_of_nil in Hent].
    apply list_elem_of_singleton in Hent. by injection Hent as -> ->.
  - intros Hin. exists (u, v, w). split; [by apply list_elem_of_In|].
    apply list_elem_of_In. simpl. rewrite decide_True by done. by left.
Qed.

Lemma residual_for_edge (P : list (V * V * Z)) (res : gmap V (list (V * Z)))
    (x n : V) (c : Z) :
  (∀ e, e ∈ P → e ∈ edges g) → (x, n, c) ∈ edges g →
  residual_for P res →
  residual_for (P ++ [(x, n, c)]) (init_residual_edge x (n, c) res).
Proof.
  intros HP He Hres u v c0. rewrite init_residual_edge_lookup.
  assert (HP' : ∀ e, e ∈ P ++ [(x, n, c)] → e ∈ edges g).
  { intros e [?| ->%list_elem_of_singleton]%elem_of_app; [by apply HP|done]. }
  destruct (decide (u = n ∧ v = x)) as [[-> ->]|Hne1].
  { split.
    - intros [= <-]. right. split; [done|]. exists c. apply elem_of_app. right. by left.
    - intros [Hin|[-> _]]; [|done]. apply HP' in Hin. by destruct (Hanti x n c c0 He). }
  destruct (decide (u = x ∧ v = n)) as [[-> ->]|Hne2].
  { split.
    - intros [= <-]. left. apply elem_of_app. right. by left.
    - intros [Hin|[-> [c' Hin]]].
      + apply HP' in Hin. by rewrite (Huniq x n c c0 He Hin).
      + apply HP' in Hin. by destruct (Hanti x n c c' He). }
  rewrite (Hres u v c0). split.
  - intros [Hin|[-> [c' Hin]]]; [left|right; split; [done|exists c']];
      apply elem_of_app; by left.
  - intros [[Hin|Hin%list_elem_of_singleton]%elem_of_app
           |[-> [c' [Hin|Hin%list_elem_of_singleton]%elem_of_app]]].
    + by left.
    + injection Hin as -> -> ->. by destruct Hne2.
    + right. eauto.
    + injection Hin as -> -> ->. by destruct Hne1.
Qed.

Lemma residual_for_vertex (P : list (V * V * Z)) (res : gmap V (list (V * Z)))
    (x : V) (nbrs : list (V * Z)) :
  (∀ e, e ∈ P → e ∈ edges g) → (∀ e, e ∈ nbrs → (x, e.1, e.2) ∈ edges g) →
  residual_for P res →
  residual_for (P ++ ((λ e : V * Z, (x, e.1, e.2)) <$> nbrs))
    (fold_left (λ (res : gmap V (list (V * Z))) (e : V * Z), init_residual_edge x e res)
       nbrs res).
Proof.
  revert P res. induction nbrs as [|[n c] nbrs IH]; intros P res HP Hn Hres.
  { simpl. by rewrite app_nil_r. }
  change (residual_for (P ++ (x, n, c) :: ((λ e : V * Z, (x, e.1, e.2)) <$> nbrs))
            (fold_left (λ (res : gmap V (list (V * Z))) (e : V * Z),
                          init_residual_edge x e res) nbrs
               (init_residual_edge x (n, c) res))).
  replace (P ++ (x, n, c) :: ((λ e : V * Z, (x, e.1, e.2)) <$> nbrs))
    with ((P ++ [(x, n, c)]) ++ ((λ e : V * Z, (x, e.1, e.2)) <$> nbrs))
    by (by rewrite <- app_assoc).
  apply (IH (P ++ [(x, n, c)]) (init_residual_edge x (n, c) res)).
  - intros e [?| ->%list_elem_of_singleton]%elem_of_app; [by apply HP|].
    apply (Hn (n, c)). by left.
  - intros e He. apply Hn. by right.
  - apply residual_for_edge; [done| |done]. apply (Hn (n, c)). by left.
Qed.

Lemma residual_for_graph (todo : list V) (P : list (V * V * Z))
    (d res : gmap V (list (V * Z))) :
  (∀ u, adj_of d u = adj_of (adj_list g) u) →
  (∀ e, e ∈ P → e ∈ edges g) →
  residual_for P res →
  residual_for
    (P ++ flat_map (λ x, (λ e : V * Z, (x, e.1, e.2)) <$> adj_of (adj_list g) x) todo)
    (fold_left init_residual_vertex todo (d, res)).2.
Proof.
  revert P d res. induction todo as [|x todo IH]; intros P d res Hd HP Hres; simpl.
  { by rewrite app_nil_r. }
  unfold init_residual_vertex at 2. simpl. rewrite app_assoc.
  apply (IH (P ++ ((λ e : V * Z, (x, e.1, e.2)) <$> adj_of (adj_list g) x))
            (dd_touch d x)).
  - intros u. by rewrite adj_of_touch.
  - intros e [?|([n c] & -> & Hin)%list_elem_of_fmap]%elem_of_app; [by apply HP|].
    simpl. by apply adj_directed.
  - rewrite Hd. apply residual_for_vertex; [done| |done].
    intros [n c] Hin. by apply adj_directed.
Qed.

Lemma MaxFlow_init_residual :
  residual_for (edges g) (residual_graph (MaxFlow_init g vs)).
Proof.
  unfold MaxFlow_init, initialize_residual_graph. simpl.
  pose proof (residual_for_graph vs [] (adj_list g) ∅) as Hres.
  destruct (fold_left init_residual_vertex vs (adj_list g, ∅)) as [d res] eqn:Hfold.
  simpl in *. 
  assert (Hall : residual_for
            (flat_map (λ x, (λ e : V * Z, (x, e.1, e.2)) <$> adj_of (adj_list g) x) vs) res).
  { apply Hres; [done|by intros e ?%elem_of_nil|].
    intros u v c. unfold ddd_lookup, ddd_row. rewrite lookup_empty. simpl. split; [done|].
    intros [?%elem_of_nil|[_ [c' ?%elem_of_nil]]]; done. }
  assert (Hmem : ∀ e, e ∈ flat_map (λ x, (λ e : V * Z, (x, e.1, e.2))
                                            <$> adj_of (adj_list g) x) vs
                      ↔ e ∈ edges g).
  { intros [[u v] c]. rewrite list_elem_of_In, in_flat_map. split.
    - intros (x & Hx & ([n c'] & [= -> -> ->] & Hin)%list_elem_of_In%list_elem_of_fmap).
      by apply adj_directed.
    - intros Hin. exists u. split.
      + apply list_elem_of_In. rewrite Hvs, elem_of_elements.
        destruct (wf_closed g Hwf) as [He _]. by destruct (He u v c Hin).
      + apply list_elem_of_In, list_elem_of_fmap. exists (v, c). split; [done|].
        by apply adj_directed. }
  intros u v c. rewrite (Hall u v c). rewrite Hmem. by setoid_rewrite Hmem.
Qed.

End ResidualInit.
Section FlowSums.

Context {V : Type} `{Countable V}.
Implicit Types (d res flow : gmap V (list (V * Z))) (L path : list V).

(** [d[u].get(v, 0)]. *)
Definition entry d (u v : V) : Z := default 0%Z (ddd_lookup d u v).

Definition vsum (f : V → Z) (l : list V) : Z := foldr (λ v acc, (f v + acc)%Z) 0%Z l.

(** What the dictionary [flow] sends out of [u] and into [u], over the
    vertices in [L]. *)
Definition flow_out flow L (u : V) : Z := vsum (λ v, entry flow u v) L.
Definition flow_in flow L (u : V) : Z := vsum (λ v, entry flow v u) L.

(** The sum of the positive entries of a row. *)
Definition pos_sum (row : list (V * Z)) : Z :=
  foldr (λ e acc, (Z.max 0 e.2 + acc)%Z) 0%Z row.

Definition adjacent (a b : V) path : Prop := ∃ l1 l2, path = l1 ++ a :: b :: l2.

Lemma vsum_ext (f f' : V → Z) (l : list V) :
  (∀ v, v ∈ l → f' v = f v) → vsum f' l = vsum f l.
Proof.
  induction l as [|x l IH]; intros Hf; simpl; [done|].
  rewrite Hf by (by left). rewrite IH; [done|]. intros v Hv. apply Hf. by right.
Qed.

Lemma vsum_zero_const (l : list V) : vsum (λ _, 0%Z) l = 0%Z.
Proof. induction l as [|x l IH]; simpl; lia. Qed.

Lemma vsum_zero (f : V → Z) (l : list V) : (∀ v, f v = 0%Z) → vsum f l = 0%Z.
Proof. intros Hf. induction l as [|x l IH]; simpl; [done|]. rewrite Hf, IH. done. Qed.

Lemma vsum_update (f f' : V → Z) (l : list V) (x : V) :
  NoDup l → x ∈ l → (∀ v, v ∈ l → v ≠ x → f' v = f v) →
  vsum f' l = (vsum f l + (f' x - f x))%Z.
Proof.
  intros Hnd Hx Hf. induction l as [|y l IH]; [by apply elem_of_nil in Hx|].
  apply NoDup_cons in Hnd as [Hy Hnd]. simpl.
  apply elem_of_cons in Hx as [-> |Hx].
  - rewrite (vsum_ext f f' l); [lia|]. intros v Hv. apply Hf; [by right|]. by intros ->.
  - rewrite IH; [|done|done|intros v Hv; apply Hf; by right].
    rewrite (Hf y); [lia|by left|]. by intros ->.
Qed.

Lemma vsum_add (f f' : V → Z) (l : list V) :
  vsum (λ v, (f v + f' v)%Z) l = (vsum f l + vsum f' l)%Z.
Proof. induction l as [|x l IH]; simpl; lia. Qed.

Lemma vsum_sub (f f' : V → Z) (l : list V) :
  vsum (λ v, (f v - f' v)%Z) l = (vsum f l - vsum f' l)%Z.
Proof. induction l as [|x l IH]; simpl; lia. Qed.

Lemma vsum_le (f f' : V → Z) (l : list V) :
  (∀ v, v ∈ l → (f v ≤ f' v)%Z) → (vsum f l ≤ vsum f' l)%Z.
Proof.
  induction l as [|x l IH]; intros Hf; simpl; [done|].
  specialize (Hf x (list_elem_of_here _ _)) as Hx.
  assert (vsum f l ≤ vsum f' l)%Z; [|lia]. apply IH. intros v Hv. apply Hf. by right.
Qed.

Lemma vsum_swap (h : V → V → Z) (A B : list V) :
  vsum (λ u, vsum (λ v, h u v) B) A = vsum (λ v, vsum (λ u, h u v) A) B.
Proof.
  induction A as [|a A IH]; simpl.
  - induction B as [|b B IHB]; simpl; [done|]. by rewrite <- IHB.
  - rewrite IH. by rewrite <- vsum_add.
Qed.

Lemma vsum_filter (P : V → Prop) `{∀ v, Decision (P v)} (f : V → Z) (l : list V) :
  vsum f l = (vsum f (filter P l) + vsum f (filter (λ v, ¬ P v) l))%Z.
Proof.
  induction l as [|x l IH]; [done|]. rewrite !filter_cons. simpl.
  destruct (decide (P x)); destruct (decide (¬ P x)); try tauto; simpl; lia.
Qed.

(** The net amount that [h] sends out of [s] crosses every cut between [s]
    and [t]. *)
Lemma cut_excess (h : V → V → Z) (l : list V) (S : gset V) (s t : V) :
  NoDup l → s ∈ l → s ∈ S → t ∉ S →
  (∀ x, x ≠ s → x ≠ t → vsum (λ v, h x v) l = vsum (λ v, h v x) l) →
  (vsum (λ v, h s v) l - vsum (λ v, h v s) l)%Z
  = vsum (λ u, vsum (λ v, (h u v - h v u)%Z) (filter (λ v, ¬ v ∈ S) l))
      (filter (λ v, v ∈ S) l).
Proof.
  intros Hnd Hsl HsS Ht Hcons.
  set (A := filter (λ v, v ∈ S) l). set (B := filter (λ v, ¬ v ∈ S) l).
  assert (Hsplit : ∀ u, (vsum (λ v, h u v) l - vsum (λ v, h v u) l)%Z
                        = (vsum (λ v, (h u v - h v u)%Z) A
                           + vsum (λ v, (h u v - h v u)%Z) B)%Z).
  { intros u. rewrite <- vsum_sub. apply (vsum_filter (λ v, v ∈ S)). }
  assert (Hinner : vsum (λ u, vsum (λ v, (h u v - h v u)%Z) A) A = 0%Z).
  { rewrite (vsum_ext (λ u, (vsum (λ v, h u v) A - vsum (λ v, h v u) A)%Z));
      [|intros; apply vsum_sub].
    rewrite vsum_sub. rewrite (vsum_swap (λ u v, h v u) A A). lia. }
  transitivity (vsum (λ u, (vsum (λ v, h u v) l - vsum (λ v, h v u) l)%Z) A).
  - rewrite (vsum_update (λ _, 0%Z) _ A s).
    + rewrite vsum_zero_const. lia.
    + by apply NoDup_filter.
    + by apply list_elem_of_filter.
    + intros v [Hv _]%list_elem_of_filter Hne. apply Z.sub_move_0_r, Hcons; [done|].
      by intros ->.
  - rewrite (vsum_ext (λ u, (vsum (λ v, (h u v - h v u)%Z) A
                             + vsum (λ v, (h u v - h v u)%Z) B)%Z)); [|intros; apply Hsplit].
    rewrite vsum_add, Hinner. lia.
Qed.

Lemma pos_sum_nonneg (row : list (V * Z)) : (0 ≤ pos_sum row)%Z.
Proof. induction row as [|e row IH]; simpl; lia. Qed.

Lemma pos_sum_od_set (row : list (V * Z)) (v : V) (c c' : Z) :
  od_get row v = Some c →
  pos_sum (od_set row v c') = (pos_sum row - Z.max 0 c + Z.max 0 c')%Z.
Proof.
  induction row as [|[x b] row IH]; simpl; [done|].
  destruct (decide (v = x)) as [-> |Hne]; simpl.
  - intros [= ->]. lia.
  - intros Hg. rewrite (IH Hg). lia.
Qed.

Lemma adjacent_cons (a b u : V) path :
  adjacent a b path → adjacent a b (u :: path).
Proof. intros (l1 & l2 & ->). by exists (u :: l1), l2. Qed.

Lemma adjacent_app (a b : V) path (l : list V) :
  adjacent a b path → adjacent a b (path ++ l).
Proof. intros (l1 & l2 & ->). exists l1, (l2 ++ l). by rewrite <- app_assoc. Qed.

Lemma adjacent_last (a b : V) path : last path = Some a → adjacent a b (path ++ [b]).
Proof.
  intros Hl. destruct (decide (path = [])) as [-> |Hne]; [done|].
  destruct (exists_last Hne) as (l' & z & ->). rewrite last_snoc in Hl. injection Hl as ->.
  exists l', []. by rewrite <- app_assoc.
Qed.

Lemma adjacent_elem_of (a b : V) path : adjacent a b path → a ∈ path ∧ b ∈ path.
Proof. intros (l1 & l2 & ->). set_solver. Qed.

Lemma adjacent_snoc (a b v : V) path :
  adjacent a b (path ++ [v]) → adjacent a b path ∨ (last path = Some a ∧ b = v).
Proof.
  intros (l1 & l2 & Heq). destruct (decide (l2 = [])) as [-> |Hne].
  - right. replace (l1 ++ [a; b]) with ((l1 ++ [a]) ++ [b]) in Heq by (by rewrite <- app_assoc).
    apply app_inj_tail in Heq as [-> ->]. by rewrite last_snoc.
  - left. destruct (exists_last Hne) as (l2' & z & ->).
    replace (l1 ++ a :: b :: l2' ++ [z]) with ((l1 ++ a :: b :: l2') ++ [z]) in Heq
      by (by rewrite <- app_assoc).
    apply app_inj_tail in Heq as [-> _]. by exists l1, l2'.
Qed.

(** [d[u][v] += c] when the entry is there. *)
Lemma ddd_add_present d (u v : V) (c : Z) :
  is_Some (ddd_lookup d u v) →
  ∃ d', ddd_add d u v c = Some d'
    ∧ (∀ a b, is_Some (ddd_lookup d' a b) ↔ is_Some (ddd_lookup d a b))
    ∧ (∀ a b, entry d' a b
              = if decide (a = u ∧ b = v) then (entry d u v + c)%Z else entry d a b)
    ∧ (∀ x, NoDup (ddd_row d x).*1 → NoDup (ddd_row d' x).*1)
    ∧ (∀ x, x ≠ u → ddd_row d' x = ddd_row d x)
    ∧ ddd_row d' u = od_set (ddd_row d u) v (entry d u v + c)%Z.
Proof.
  intros [old Hold]. exists (ddd_set d u v (old + c)).
  assert (Hent : entry d u v = old) by (unfold entry; by rewrite Hold).
  split; [apply ddd_add_spec; eauto|]. split_and!.
  - intros a b. rewrite ddd_lookup_set. destruct (decide (a = u ∧ b = v)) as [[-> ->]|]; [|done].
    rewrite Hold. split; by eexists.
  - intros a b. unfold entry at 1. rewrite ddd_lookup_set.
    destruct (decide (a = u ∧ b = v)); [simpl; by rewrite Hent|done].
  - intros x Hnd. rewrite ddd_row_set. destruct (decide (x = u)) as [-> |]; [|done].
    by apply od_set_keys_NoDup.
  - intros x Hx. rewrite ddd_row_set. by rewrite decide_False.
  - rewrite ddd_row_set, decide_True by done. by rewrite Hent.
Qed.

(** What one pass of the update loop of [ford_fulkerson] does. *)
Record augmented L (m : Z) path res flow res' flow' : Prop := mk_augmented {
  au_res_keys : ∀ a b, is_Some (ddd_lookup res' a b) ↔ is_Some (ddd_lookup res a b);
  au_flow_keys : ∀ a b, is_Some (ddd_lookup flow' a b) ↔ is_Some (ddd_lookup flow a b);
  au_nodup : ∀ x, NoDup (ddd_row res x).*1 → NoDup (ddd_row res' x).*1;
  au_net : ∀ a b,
    (entry flow' a b - entry flow' b a - (entry flow a b - entry flow b a)
     = entry res a b - entry res' a b)%Z;
  au_flow_mono : ∀ a b, (entry flow a b ≤ entry flow' a b)%Z;
  au_res_nonneg : ∀ a b, (0 ≤ entry res a b)%Z → (0 ≤ entry res' a b)%Z;
  au_excess : ∀ x,
    (flow_out flow' L x - flow_in flow' L x
     = flow_out flow L x - flow_in flow L x
       + (if decide (head path = Some x) then m else 0)
       - (if decide (last path = Some x) then m else 0))%Z;
  au_frame : ∀ x, x ∉ path → ddd_row res' x = ddd_row res x;
  au_head : ∀ hd nx rest, path = hd :: nx :: rest →
    (pos_sum (ddd_row res' hd) + m = pos_sum (ddd_row res hd))%Z
}.

Lemma augment_spec L (m : Z) :
  NoDup L → (0 < m)%Z →
  ∀ path res flow,
    NoDup path → (∀ x, x ∈ path → x ∈ L) →
    (∀ a b, adjacent a b path →
       (∃ c, ddd_lookup res a b = Some c ∧ (m ≤ c)%Z)
       ∧ is_Some (ddd_lookup res b a) ∧ is_Some (ddd_lookup flow a b)) →
    ∃ res' flow', augment path m (res, flow) = Some (res', flow')
      ∧ augmented L m path res flow res' flow'.
Proof.
  intros HL Hm path. induction path as [|u path IH]; intros res flow Hnd HpL Hadj.
  { exists res, flow. split; [done|]. split; try done; try (intros; lia).
    intros x. cbn [head last]. destruct (decide (None = Some x)); [done|lia]. }
  destruct path as [|v rest].
  { exists res, flow. split; [done|]. split; try done; try (intros; lia).
    intros x. cbn [head last]. destruct (decide (Some u = Some x)); lia. }
  apply NoDup_cons in Hnd as [Hu Hnd].
  assert (Huv : u ≠ v) by (intros ->; apply Hu; by left).
  destruct (Hadj u v) as ((c & Hc & Hmc) & Hback & Hflow); [by exists [], rest|].
  destruct (ddd_add_present res u v (- m)) as (res1 & Hr1 & Hk1 & He1 & Hn1 & Hf1 & Hrow1);
    [by eexists|].
  destruct (ddd_add_present res1 v u m) as (res2 & Hr2 & Hk2 & He2 & Hn2 & Hf2 & Hrow2);
    [by apply Hk1|].
  destruct (ddd_add_present flow u v m) as (flow1 & Hfl & Hkf & Hef & _); [done|].
  assert (Hcu : entry res u v = c) by (unfold entry; by rewrite Hc).
  destruct (IH res2 flow1 Hnd) as (res' & flow' & Hrun & Hau).
  { intros x Hx. apply HpL. by right. }
  { intros a b Hab. destruct (adjacent_elem_of a b _ Hab) as [Ha Hb].
    assert (a ≠ u) by (intros ->; by apply Hu).
    assert (b ≠ u) by (intros ->; by apply Hu).
    destruct (Hadj a b (adjacent_cons a b u _ Hab)) as ((c' & Hc' & Hmc') & Hb' & Hf').
    split_and!.
    - exists c'. split; [|done].
      assert (Hent : ∀ d, ddd_lookup d a b = Some c' ↔
                (is_Some (ddd_lookup d a b) ∧ entry d a b = c')).
      { intros d. unfold entry. split.
        - intros ->. split; [by eexists|done].
        - intros [[z Hz] He]. rewrite Hz in He. simpl in He. by subst. }
      apply Hent. split; [apply Hk2, Hk1; by eexists|].
      rewrite He2, decide_False by tauto. rewrite He1, decide_False by tauto.
      unfold entry. by rewrite Hc'.
    - by apply Hk2, Hk1.
    - by apply Hkf. }
  exists res', flow'. split.
  { cbn [augment]. cbn [fst snd]. rewrite Hr1. cbn [mbind option_bind].
    rewrite Hr2. cbn [mbind option_bind]. rewrite Hfl. cbn [mbind option_bind]. exact Hrun. }
  assert (HuL : u ∈ L) by (apply HpL; by left).
  assert (HvL : v ∈ L) by (apply HpL; right; by left).
  assert (Hout : ∀ x, flow_out flow1 L x
                      = (flow_out flow L x + if decide (x = u) then m else 0)%Z).
  { intros x. unfold flow_out. destruct (decide (x = u)) as [-> |Hne].
    - rewrite (vsum_update (λ w, entry flow u w) (λ w, entry flow1 u w) L v HL HvL).
      + rewrite Hef, decide_True by done. lia.
      + intros w _ Hw. rewrite Hef, decide_False by tauto. done.
    - rewrite (vsum_ext (λ w, entry flow x w)); [lia|].
      intros w _. rewrite Hef, decide_False by tauto. done. }
  assert (Hin : ∀ x, flow_in flow1 L x
                     = (flow_in flow L x + if decide (x = v) then m else 0)%Z).
  { intros x. unfold flow_in. destruct (decide (x = v)) as [-> |Hne].
    - rewrite (vsum_update (λ w, entry flow w v) (λ w, entry flow1 w v) L u HL HuL).
      + rewrite Hef, decide_True by done. lia.
      + intros w _ Hw. rewrite Hef, decide_False by tauto. done.
    - rewrite (vsum_ext (λ w, entry flow w x)); [lia|].
      intros w _. rewrite Hef, decide_False by tauto. done. }
  assert (E2 : ∀ a b, entry res2 a b
                      = (entry res a b + (if decide (a = u ∧ b = v) then - m else 0)
                         + (if decide (a = v ∧ b = u) then m else 0))%Z).
  { intros a b. rewrite He2, !He1. rewrite (decide_False (P := v = u ∧ u = v)) by tauto.
    destruct (decide (a = v ∧ b = u)) as [[-> ->]|].
    - rewrite decide_False by tauto. lia.
    - destruct (decide (a = u ∧ b = v)) as [[-> ->]|]; lia. }
  assert (Ef : ∀ a b, entry flow1 a b
                      = (entry flow a b + (if decide (a = u ∧ b = v) then m else 0))%Z).
  { intros a b. rewrite Hef. destruct (decide (a = u ∧ b = v)) as [[-> ->]|]; lia. }
  destruct Hau as [Ak Afk And Anet Amono Ann Aex Afr Ahd]. split.
  - intros a b. by rewrite Ak, Hk2, Hk1.
  - intros a b. by rewrite Afk, Hkf.
  - intros x Hx. by apply And, Hn2, Hn1.
  - intros a b. specialize (Anet a b). rewrite E2, !Ef in Anet.
    destruct (decide (a = u ∧ b = v)) as [[? ?]|Hne1];
      destruct (decide (a = v ∧ b = u)) as [[? ?]|Hne2];
      destruct (decide (b = u ∧ a = v)) as [[? ?]|Hne3];
      destruct (decide (b = v ∧ a = u)) as [[? ?]|Hne4];
      try lia; try congruence; try tauto.
  - intros a b. etrans; [|apply Amono]. rewrite Ef. destruct (decide _); lia.
  - intros a b Hab. apply Ann. rewrite E2.
    destruct (decide (a = u ∧ b = v)) as [[? ?]|]; destruct (decide _) as [[? ?]|];
      subst; try lia; congruence.
  - intros x. rewrite (Aex x), (Hout x), (Hin x). cbn [head].
    assert (Hlast : last (u :: v :: rest) = last (v :: rest)) by done.
    rewrite Hlast.
    destruct (decide (Some v = Some x)) as [[= ->]|Hvx];
      destruct (decide (Some u = Some x)) as [[= ->]|Hux];
      repeat (destruct (decide _) as [?|?]); try lia; try congruence.
  - intros x Hx. rewrite Afr by (intros ?; apply Hx; by right).
    assert (x ≠ u) by (intros ->; apply Hx; by left).
    assert (x ≠ v) by (intros ->; apply Hx; right; by left).
    by rewrite Hf2, Hf1.
  - intros hd nx rest' [= <- <- <-]. rewrite Afr by done. rewrite Hf2 by done.
    rewrite Hrow1. rewrite (pos_sum_od_set _ _ c) by exact Hc. rewrite Hcu. lia.
Qed.

End FlowSums.
Lemma while_loop_bounded {S R : Type} (body : S → option (S + R)) (μ : S → nat)
    (P : S → Prop) (Q : R → Prop) :
  (∀ s, P s → (∃ r, body s = Some (inr r) ∧ Q r)
              ∨ (∃ s', body s = Some (inl s') ∧ P s' ∧ μ s' < μ s)) →
  ∀ n s, P s → μ s < n → ∃ r, while_loop body n s = Some r ∧ Q r.
Proof.
  intros Hstep n. induction n as [|n IH]; intros s Hs Hn; [lia|].
  destruct (Hstep s Hs) as [(r & Hr & HQ)|(s' & Hb & Hs' & Hlt)]; simpl.
  - rewrite Hr. eauto.
  - rewrite Hb. apply IH; [done|lia].
Qed.

Section AugmentingPath.

Context {V : Type} `{Countable V}.
Context (res0 : gmap V (list (V * Z))) (source sink : V).
Context (U : gset V).
Context (Hsrc : source ∈ U).
Context (HU : ∀ u v c, (v, c) ∈ ddd_row res0 u → v ∈ U).

(** [l] leads from the source to [v] along entries of positive residual
    capacity, the least of which is [mc]. *)
Inductive rpath : list V → V → num → Prop :=
| rpath_src : rpath [source] source Inf
| rpath_step l p mc v c :
    rpath l p mc → (v, c) ∈ ddd_row res0 p → (0 < c)%Z →
    rpath (l ++ [v]) v (num_min mc (Fin c)).

(** Following [parent] from [v] back to the source gives [l] reversed. *)
Inductive chain (parent : gmap V (option V)) : V → list V → Prop :=
| chain_src : parent !! source = Some None → chain parent source [source]
| chain_step v p l :
    parent !! v = Some (Some p) → chain parent p l → chain parent v (l ++ [v]).

Lemma chain_insert (parent : gmap V (option V)) (n : V) (x : option V) (v : V)
    (l : list V) :
  parent !! n = None → chain parent v l → chain (<[n := x]> parent) v l.
Proof.
  intros Hn. induction 1 as [Hs|v p l Hv _ IH].
  - apply chain_src. rewrite lookup_insert_ne; [done|]. intros ->. congruence.
  - apply chain_step with p; [|done]. rewrite lookup_insert_ne; [done|]. intros ->. congruence.
Qed.

Lemma reconstruct_chain (parent : gmap V (option V)) (v : V) (l : list V) :
  chain parent v l →
  ∀ acc fuel, length l < fuel →
    while_loop (reconstruct_body parent) fuel (Some v, acc) = Some (l ++ reverse acc).
Proof.
  induction 1 as [Hs|v p l Hv _ IH]; intros acc fuel Hfuel.
  - destruct fuel as [|[|fuel]]; [simpl in Hfuel; lia..|]. simpl.
    unfold reconstruct_body at 1. simpl. rewrite Hs. simpl.
    by rewrite reverse_app.
  - rewrite length_app in Hfuel. simpl in Hfuel.
    destruct fuel as [|fuel]; [lia|]. simpl.
    unfold reconstruct_body at 1. simpl. rewrite Hv. simpl.
    rewrite IH by lia. rewrite reverse_app. simpl. by rewrite <- app_assoc.
Qed.

Record aug_inv (cur : option V) (st : aug_state (V := V)) : Prop := mk_aug_inv {
  ai_rows : ∀ u, ddd_row (aug_res st) u = ddd_row res0 u;
  ai_keys : ∀ v, v ∈ dom (aug_parent st) →
      ∃ l mc, chain (aug_parent st) v l ∧ rpath l v mc
        ∧ aug_min_capacity st !! v = Some mc
        ∧ NoDup l ∧ ∀ x, x ∈ l → x ∈ dom (aug_parent st);
  ai_src : source ∈ dom (aug_parent st);
  ai_U : dom (aug_parent st) ⊆ U;
  ai_sink : sink ∈ dom (aug_parent st) → sink = source;
  ai_queue : ∀ x, x ∈ aug_queue st → x ∈ dom (aug_parent st);
  ai_closed : ∀ u, u ∈ dom (aug_parent st) → u ∉ aug_queue st → Some u ≠ cur →
      ∀ v c, (v, c) ∈ ddd_row res0 u → (0 < c)%Z → v ∈ dom (aug_parent st)
}.

Definition aug_measure (st : aug_state (V := V)) : nat :=
  size (U ∖ dom (aug_parent st)) + length (aug_queue st).

(** What a search that finds the sink returns. *)
Definition found_ok (r : list V * num) : Prop :=
  rpath r.1 sink r.2 ∧ NoDup r.1 ∧ ∃ m, r.2 = Fin m.

(** What a search that finds nothing has established: a set of vertices that
    holds the source, not the sink, and that no entry of positive capacity
    leaves. *)
Definition none_ok : Prop :=
  ∃ S : gset V,
    source ∈ S ∧ (sink ∈ S → sink = source) ∧ S ⊆ U
    ∧ ∀ u v c, u ∈ S → (v, c) ∈ ddd_row res0 u → (0 < c)%Z → v ∈ S.

Definition search_ok (r : gmap V (list (V * Z)) * option (list V * num)) : Prop :=
  (∀ u, ddd_row r.1 u = ddd_row res0 u)
  ∧ match r.2 with Some found => found_ok found | None => none_ok end.

Lemma aug_scan_spec (fuel : nat) (current : V) (items : list (V * Z))
    (st : aug_state) :
  size U < fuel →
  aug_inv (Some current) st → current ∈ dom (aug_parent st) →
  (∀ e, e ∈ items → e ∈ ddd_row res0 current) →
  ∃ r, aug_scan fuel sink current items st = Some r
    ∧ match r with
      | inl st' =>
          aug_inv (Some current) st' ∧ aug_measure st' = aug_measure st
          ∧ aug_res st' = aug_res st
          ∧ (∀ x, x ∈ aug_queue st → x ∈ aug_queue st')
          ∧ (∀ x, x ∈ aug_queue st' → x ∈ aug_queue st ∨ x ∈ items.*1)
          ∧ dom (aug_parent st) ⊆ dom (aug_parent st')
          ∧ ∀ e, e ∈ items → (0 < e.2)%Z → e.1 ∈ dom (aug_parent st')
      | inr found => found_ok found
      end.
Proof.
  intros Hfuel. revert st. induction items as [|[n c] items IH]; intros st Hinv Hcur Hitems.
  { exists (inl st). split; [done|]. split_and!; try done.
    - by left.
    - by intros e ?%elem_of_nil. }
  assert (Hrest : ∀ e, e ∈ items → e ∈ ddd_row res0 current).
  { intros e He. apply Hitems. by right. }
  assert (Hnc : (n, c) ∈ ddd_row res0 current) by (apply Hitems; by left).
  cbn [aug_scan].
  destruct (bool_decide (0 < c)%Z && bool_decide (aug_parent st !! n = None)) eqn:Hcond.
  2:{ destruct (IH st Hinv Hcur Hrest) as (r & Hrun & Hr). exists r. split; [done|].
      destruct r as [st'|found]; [|done].
      destruct Hr as (Hi & Hm & Hres & Hq & Hq' & Hdom & Hdone). split_and!; try done.
      - intros x Hx. destruct (Hq' x Hx) as [?|?]; [by left|right]. simpl. by right.
      - intros e [-> |He]%elem_of_cons Hpos; [|by apply Hdone]. simpl in *.
        apply Hdom. apply andb_false_iff in Hcond as [Hc|Hc].
        + apply bool_decide_eq_false in Hc. lia.
        + apply bool_decide_eq_false in Hc. apply elem_of_dom.
          by apply not_eq_None_Some. }
  apply andb_prop in Hcond as [Hpos%bool_decide_eq_true Hnew%bool_decide_eq_true].
  destruct (ai_keys _ _ Hinv current Hcur) as (lc & mc & Hchain & Hpath & Hmc & Hndl & Hldom).
  rewrite Hmc. cbn [mbind option_bind].
  assert (Hn_dom : n ∉ dom (aug_parent st)) by (by apply not_elem_of_dom).
  assert (Hchain' : chain (<[n := Some current]> (aug_parent st)) n (lc ++ [n])).
  { apply chain_step with current; [by rewrite lookup_insert_eq|by apply chain_insert]. }
  assert (Hpath' : rpath (lc ++ [n]) n (num_min mc (Fin c))) by by eapply rpath_step.
  assert (Hnd' : NoDup (lc ++ [n])).
  { apply NoDup_app. split; [done|]. split; [|apply NoDup_singleton].
    intros x Hx ->%list_elem_of_singleton. by apply Hn_dom, Hldom. }
  assert (HnU : n ∈ U) by by eapply HU.
  destruct (decide (n = sink)) as [-> |Hns].
  - assert (Hlen : length (lc ++ [sink]) < fuel).
    { rewrite length_app. simpl.
      assert (length lc ≤ size (dom (aug_parent st))).
      { rewrite <- (size_list_to_set (C := gset V) lc) by done. apply subseteq_size.
        intros x Hx%elem_of_list_to_set. by apply Hldom. }
      assert (size (dom (aug_parent st)) < size U); [|lia].
      apply subset_size. split; [apply (ai_U _ _ Hinv)|].
      intros Hsub. apply Hn_dom. by apply Hsub. }
    rewrite (reconstruct_chain _ _ _ Hchain' [] fuel Hlen). cbn [mbind option_bind].
    rewrite lookup_insert_eq. cbn [mbind option_bind]. eexists. split; [done|].
    rewrite app_nil_r. split_and!; [done..|]. simpl.
    destruct mc as [z|]; [|by eexists]. unfold num_min. by destruct (num_ltb _ _); eexists.
  - set (st1 := mkAug (aug_res st) (<[n := Some current]> (aug_parent st))
                  (<[n := num_min mc (Fin c)]> (aug_min_capacity st))
                  (aug_queue st ++ [n])).
    assert (Hinv1 : aug_inv (Some current) st1).
    { destruct Hinv as [Hr Hk Hs HUd Hsk Hq Hcl]. split; simpl.
      - done.
      - intros v Hv. rewrite dom_insert in Hv.
        apply elem_of_union in Hv as [->%elem_of_singleton |Hv].
        + exists (lc ++ [n]), (num_min mc (Fin c)). split_and!; [done|done| |done|].
          * by rewrite lookup_insert_eq.
          * intros x [Hx| ->%list_elem_of_singleton]%elem_of_app; rewrite dom_insert;
              [|set_solver]. apply elem_of_union. right. by apply Hldom.
        + destruct (Hk v Hv) as (l & m & Hc & Hp & Hm & Hnd & Hld).
          exists l, m. split_and!; [by apply chain_insert|done| |done|].
          * rewrite lookup_insert_ne; [done|]. by intros ->.
          * intros x Hx. rewrite dom_insert. apply elem_of_union. right. by apply Hld.
      - rewrite dom_insert. set_solver.
      - rewrite dom_insert. set_solver.
      - rewrite dom_insert. intros [->%elem_of_singleton |Hv]%elem_of_union; [done|auto].
      - intros x [Hx| ->%list_elem_of_singleton]%elem_of_app; rewrite dom_insert; set_solver.
      - intros u Hu Huq Huc v c' Hin Hpos'. rewrite dom_insert in Hu |- *.
        apply elem_of_union in Hu as [->%elem_of_singleton |Hu].
        + exfalso. apply Huq. apply elem_of_app. right. by left.
        + apply elem_of_union. right. apply (Hcl u Hu) with c'; [|done|done|done].
          intros Hq'. apply Huq. apply elem_of_app. by left. }
    destruct (IH st1 Hinv1) as (r & Hrun & Hr); [simpl; rewrite dom_insert; set_solver|done|].
    exists r. split; [done|]. destruct r as [st'|found]; [|done].
    destruct Hr as (Hi & Hm & Hres & Hq & Hq' & Hdom & Hdone).
    assert (Hd1 : dom (aug_parent st) ⊆ dom (aug_parent st')).
    { etrans; [|exact Hdom]. simpl. rewrite dom_insert. set_solver. }
    split_and!; try done.
    + rewrite Hm. unfold aug_measure. simpl. rewrite dom_insert, length_app. simpl.
      assert (size (U ∖ dom (aug_parent st))
              = S (size (U ∖ ({[n]} ∪ dom (aug_parent st))))); [|lia].
      assert (Heq : U ∖ dom (aug_parent st)
                    ≡ {[n]} ∪ U ∖ ({[n]} ∪ dom (aug_parent st))).
      { intros x. destruct (decide (x = n)) as [-> |]; set_solver. }
      rewrite Heq, size_union, size_singleton by set_solver. done.
    + intros x Hx. apply Hq. simpl. apply elem_of_app. by left.
    + intros x Hx. destruct (Hq' x Hx) as [[?| ->%list_elem_of_singleton]%elem_of_app|?].
      * by left.
      * right. simpl. by left.
      * right. simpl. by right.
    + intros e [-> |He]%elem_of_cons Hpos'; [|by apply Hdone]. simpl.
      apply Hdom. simpl. rewrite dom_insert. set_solver.
Qed.

Lemma aug_body_spec (fuel : nat) (st : aug_state) :
  size U < fuel →
  aug_inv None st →
  (∃ r, aug_body fuel sink st = Some (inr r) ∧ search_ok r)
  ∨ (∃ st', aug_body fuel sink st = Some (inl st') ∧ aug_inv None st'
            ∧ aug_measure st' < aug_measure st).
Proof.
  intros Hfuel Hinv. unfold aug_body.
  destruct (aug_queue st) as [|current queue] eqn:Hq.
  { left. eexists. split; [done|]. split; [apply (ai_rows _ _ Hinv)|]. simpl.
    exists (dom (aug_parent st)). split_and!.
    - apply (ai_src _ _ Hinv).
    - apply (ai_sink _ _ Hinv).
    - apply (ai_U _ _ Hinv).
    - intros u v c Hu Hin Hpos. apply (ai_closed _ _ Hinv u) with c; [done| |done|done|done].
      rewrite Hq. by intros ?%elem_of_nil. }
  set (res := if decide (is_Some (aug_res st !! current)) then aug_res st
              else <[current := []]> (aug_res st)).
  assert (Hres : ∀ u, ddd_row res u = ddd_row (aug_res st) u).
  { intros u. unfold res. destruct (decide _) as [|Hnone]; [done|].
    apply eq_None_not_Some in Hnone. unfold ddd_row.
    destruct (decide (current = u)) as [-> |Hne].
    - by rewrite lookup_insert_eq, Hnone.
    - by rewrite lookup_insert_ne. }
  set (s1 := mkAug res (aug_parent st) (aug_min_capacity st) queue).
  assert (Hcur : current ∈ dom (aug_parent st)).
  { apply (ai_queue _ _ Hinv). rewrite Hq. by left. }
  assert (Hinv1 : aug_inv (Some current) s1).
  { destruct Hinv as [Hr Hk Hs HUd Hsk Hqu Hcl]. split; simpl; try done.
    - intros u. by rewrite Hres.
    - intros x Hx. apply Hqu. rewrite Hq. by right.
    - intros u Hu Huq Huc. apply Hcl; [done| |done].
      rewrite Hq. intros [-> |?]%elem_of_cons; [by apply Huc|done]. }
  destruct (aug_scan_spec fuel current (ddd_row (aug_res st) current) s1 Hfuel Hinv1 Hcur)
    as (r & Hrun & Hr).
  { intros e. by rewrite (ai_rows _ _ Hinv). }
  rewrite Hrun. cbn [mbind option_bind]. destruct r as [st'|found].
  - right. exists st'. split; [done|].
    destruct Hr as (Hi & Hm & Hres' & Hq1 & Hq2 & Hdom & Hdone). split.
    + destruct Hi as [Hr Hk Hs HUd Hsk Hqu Hcl]. split; try done.
      intros u Hu Huq _ v c Hin Hpos.
      destruct (decide (u = current)) as [-> |Hne];
        [|by apply (Hcl u) with c; [| |intros [= ->]| |]].
      apply (Hdone (v, c)); [|done]. by rewrite (ai_rows _ _ Hinv).
    + rewrite Hm. unfold aug_measure. simpl. rewrite Hq. simpl. lia.
  - left. eexists. split; [done|]. split; [|done]. simpl.
    intros u. rewrite Hres. apply (ai_rows _ _ Hinv).
Qed.

Lemma aug_init_inv :
  aug_inv None (mkAug res0 {[source := None]} {[source := Inf]} [source]).
Proof.
  split; simpl.
  - done.
  - intros v Hv. rewrite dom_singleton in Hv. apply elem_of_singleton in Hv as ->.
    exists [source], Inf. split_and!.
    + apply chain_src. by rewrite lookup_singleton_eq.
    + constructor.
    + by rewrite lookup_singleton_eq.
    + apply NoDup_singleton.
    + intros x ->%list_elem_of_singleton. rewrite dom_singleton. set_solver.
  - rewrite dom_singleton. set_solver.
  - rewrite dom_singleton. set_solver.
  - rewrite dom_singleton. by intros ->%elem_of_singleton.
  - intros x ->%list_elem_of_singleton. rewrite dom_singleton. set_solver.
  - intros u Hu Huq. rewrite dom_singleton in Hu. apply elem_of_singleton in Hu as ->.
    exfalso. apply Huq. by left.
Qed.

(** [bfs_augmenting_path] returns as soon as the fuel exceeds the number of
    vertices, with a path to the sink or with a cut. *)
Lemma bfs_augmenting_path_spec (fuel : nat) :
  size U < fuel →
  ∃ r, bfs_augmenting_path res0 source sink fuel = Some r ∧ search_ok r.
Proof.
  intros Hfuel. unfold bfs_augmenting_path.
  apply (while_loop_bounded (aug_body fuel sink) aug_measure (aug_inv None) search_ok).
  - intros s Hs. destruct (aug_body_spec fuel s Hfuel Hs) as [?|?]; [by left|by right].
  - apply aug_init_inv.
  - unfold aug_measure. simpl. rewrite dom_singleton.
    assert (size (U ∖ {[source]}) < size U); [|lia].
    apply subset_size. split; [set_solver|]. intros Hsub. specialize (Hsub source). set_solver.
Qed.

End AugmentingPath.
Section PathFacts.

Context {V : Type} `{Countable V}.
Context (res : gmap V (list (V * Z))) (source : V).

(** What a path of the search is: it starts at the source, ends at its end
    point, and its bottleneck is positive and at most every capacity on it. *)
Lemma rpath_facts (l : list V) (v : V) (mc : num) :
  rpath res source l v mc →
  head l = Some source ∧ last l = Some v
  ∧ (∀ m, mc = Fin m → (0 < m)%Z ∧ ∃ nx rest, l = source :: nx :: rest)
  ∧ (∀ m, mc = Fin m → ∃ a b, adjacent a b l ∧ (b, m) ∈ ddd_row res a)
  ∧ (mc = Inf → l = [source])
  ∧ (∀ x, x ∈ l → x = source ∨ ∃ p c, (x, c) ∈ ddd_row res p)
  ∧ ∀ a b, adjacent a b l →
      ∃ c, (b, c) ∈ ddd_row res a ∧ (0 < c)%Z ∧ ∀ m, mc = Fin m → (m ≤ c)%Z.
Proof.
  induction 1 as [|l p mc v c Hl IH Hin Hpos].
  { split_and!; try done.
    - intros x ->%list_elem_of_singleton. by left.
    - intros a b (l1 & l2 & Heq). destruct l1 as [|? [|? ?]]; done. }
  destruct IH as (Hhd & Hlast & Hfin & Hatt & Hinf & Hmem & Hadj).
  destruct l as [|s l']; [done|]. injection Hhd as ->.
  assert (Hmin : ∀ m, num_min mc (Fin c) = Fin m →
            (m ≤ c)%Z ∧ (0 < m)%Z ∧ ∀ m0, mc = Fin m0 → (m ≤ m0)%Z).
  { intros m. unfold num_min. destruct mc as [m0|]; simpl.
    - destruct (Z.ltb_spec c m0); intros [= <-].
      + split_and!; [lia..|]. intros ? [= <-]. lia.
      + destruct (Hfin m0 eq_refl) as [? _]. split_and!; [lia..|]. intros ? [= <-]. lia.
    - intros [= <-]. split_and!; [lia..|done]. }
  split_and!.
  - done.
  - by rewrite last_snoc.
  - intros m Hm. destruct (Hmin m Hm) as (_ & ? & _). split; [done|].
    destruct l' as [|nx rest]; [by exists v, []|]. by exists nx, (rest ++ [v]).
  - intros m. unfold num_min. destruct mc as [m0|]; simpl.
    + destruct (c <? m0)%Z; intros [= <-].
      * exists p, v. split; [by apply (adjacent_last p v (source :: l'))|done].
      * destruct (Hatt m0 eq_refl) as (a & b & Hab & Hin'). exists a, b.
        split; [by apply (adjacent_app a b (source :: l'))|done].
    + intros [= <-]. exists p, v. split; [by apply (adjacent_last p v (source :: l'))|done].
  - unfold num_min. destruct mc as [m0|]; simpl; [|done]. by destruct (c <? m0)%Z.
  - intros x [Hx| ->%list_elem_of_singleton]%elem_of_app; [by apply Hmem|]. right. eauto.
  - intros a b [Hab|[Ha ->]]%adjacent_snoc.
    + destruct (Hadj a b Hab) as (c0 & Hc0 & Hpos0 & Hle). exists c0. split_and!; [done..|].
      intros m Hm. destruct (Hmin m Hm) as (_ & _ & Hm0).
      destruct mc as [m0|].
      * specialize (Hle m0 eq_refl). specialize (Hm0 m0 eq_refl). lia.
      * rewrite (Hinf eq_refl) in Hab.
        destruct Hab as (l1 & l2 & Heq'). destruct l1 as [|? [|? ?]]; done.
    + rewrite Hlast in Ha. injection Ha as ->. exists c. split_and!; [done..|].
      intros m Hm. by destruct (Hmin m Hm).
Qed.

End PathFacts.

Section FordFulkersonLoop.

Context {V : Type} `{Countable V}.
Context (R0 : gmap V (list (V * Z))) (L : list V) (source sink : V).
Context (HL : NoDup L).
Context (HK : ∀ u v, is_Some (ddd_lookup R0 u v) →
                u ∈ L ∧ v ∈ L ∧ is_Some (ddd_lookup R0 v u)).

(** What the main loop of [ford_fulkerson] keeps true. *)
Record ff_inv (st : ff_state (V := V)) : Prop := mk_ff_inv {
  fi_nodup : ∀ x, NoDup (ddd_row (ff_res st) x).*1;
  fi_keys : ∀ a b, is_Some (ddd_lookup (ff_res st) a b) ↔ is_Some (ddd_lookup R0 a b);
  fi_flow_keys : ∀ a b, is_Some (ddd_lookup (ff_flow st) a b) ↔ is_Some (ddd_lookup R0 a b);
  fi_net : ∀ a b,
    (entry (ff_flow st) a b - entry (ff_flow st) b a
     = entry R0 a b - entry (ff_res st) a b)%Z;
  fi_flow_nonneg : ∀ a b, (0 ≤ entry (ff_flow st) a b)%Z;
  fi_res_nonneg : (∀ a b, (0 ≤ entry R0 a b)%Z) → ∀ a b, (0 ≤ entry (ff_res st) a b)%Z;
  fi_cons : ∀ x, x ≠ source → x ≠ sink →
    flow_out (ff_flow st) L x = flow_in (ff_flow st) L x;
  fi_value :
    ff_max_flow st = (flow_out (ff_flow st) L source - flow_in (ff_flow st) L source)%Z;
  fi_sink : source ≠ sink →
    ff_max_flow st = (flow_in (ff_flow st) L sink - flow_out (ff_flow st) L sink)%Z;
  fi_value_nonneg : (0 ≤ ff_max_flow st)%Z;
  fi_started :
    (source ≠ sink ∧ source ∈ L ∧ sink ∈ L)
    ∨ (ff_max_flow st = 0%Z ∧ ∀ a b, entry (ff_flow st) a b = 0%Z)
}.

(** No entry of positive residual capacity leaves the set [S], which holds
    the source and not the sink. *)
Definition saturated (res : gmap V (list (V * Z))) : Prop :=
  ∃ S : gset V,
    source ∈ S ∧ (sink ∈ S → sink = source)
    ∧ ∀ u v, u ∈ S → (0 < entry res u v)%Z → v ∈ S.

Definition ff_done (r : Z * gmap V (list (V * Z)) * gmap V (list (V * Z))) : Prop :=
  ff_inv (mkFF r.2 r.1.2 r.1.1) ∧ saturated r.2.

Definition ff_measure (st : ff_state (V := V)) : nat :=
  Z.to_nat (pos_sum (ddd_row (ff_res st) source)).

Lemma ff_body_spec (fuel : nat) (st : ff_state) :
  S (length L) < fuel →
  ff_inv st →
  (∃ r, ff_body fuel source sink st = Some (inr r) ∧ ff_done r)
  ∨ (∃ st', ff_body fuel source sink st = Some (inl st') ∧ ff_inv st'
            ∧ ff_measure st' < ff_measure st).
Proof.
  intros Hfuel Hinv. unfold ff_body.
  assert (Hrow_key : ∀ (d : gmap V (list (V * Z))) (u v : V) (c : Z),
            (v, c) ∈ ddd_row d u → is_Some (ddd_lookup d u v)).
  { intros d u v c Hin. apply od_get_is_Some, list_elem_of_fmap. by exists (v, c). }
  destruct (bfs_augmenting_path_spec (ff_res st) source sink
              ({[source]} ∪ list_to_set L)) with (fuel := fuel)
    as ([res1 found] & Hrun & Hrows & Hfound).
  { set_solver. }
  { intros u v c Hin%Hrow_key. apply (fi_keys _ Hinv), HK in Hin as (_ & Hv & _).
    set_solver. }
  { assert (size ({[source]} ∪ list_to_set (C := gset V) L) ≤ S (length L)); [|lia].
    rewrite size_union_alt, size_singleton.
    assert (size (list_to_set (C := gset V) L ∖ {[source]}) ≤ length L); [|lia].
    rewrite <- (size_list_to_set (C := gset V) L) by done. apply subseteq_size. set_solver. }
  rewrite Hrun. cbn [mbind option_bind fst snd]. simpl in Hrows, Hfound.
  assert (Hl1 : ∀ a b, ddd_lookup res1 a b = ddd_lookup (ff_res st) a b).
  { intros a b. unfold ddd_lookup. by rewrite Hrows. }
  assert (He1 : ∀ a b, entry res1 a b = entry (ff_res st) a b).
  { intros a b. unfold entry. by rewrite Hl1. }
  destruct found as [[path mc]|].
  2:{ left. eexists. split; [done|]. split.
      - destruct Hinv as [I1 I2 I3 I4 I5 I6 I7 I8 I9 I10 I11]. split; simpl; try done.
        + intros x. by rewrite Hrows.
        + intros a b. by rewrite Hl1.
        + intros a b. by rewrite He1.
        + intros Hnn a b. rewrite He1. by apply I6.
      - destruct Hfound as (S & Hs & Ht & _ & Hclosed). exists S. split_and!; [done..|].
        simpl. intros u v Hu Hpos. rewrite He1 in Hpos. unfold entry in Hpos.
        destruct (ddd_lookup (ff_res st) u v) as [c|] eqn:Hc; simpl in Hpos; [|lia].
        apply (Hclosed u v c); [done| |done]. by apply od_get_Some_elem. }
  destruct Hfound as (Hpath & Hnd & m & Hm). simpl in Hpath, Hnd, Hm. subst mc.
  destruct (rpath_facts _ _ _ _ _ Hpath) as (Hhd & Hlast & Hfin & _ & _ & Hmem & Hadj).
  destruct (Hfin m eq_refl) as (Hpos & nx & rest & Hshape).
  assert (Hlook : ∀ a b, adjacent a b path →
            ∃ c, ddd_lookup (ff_res st) a b = Some c ∧ (m ≤ c)%Z).
  { intros a b Hab. destruct (Hadj a b Hab) as (c & Hin & _ & Hle). exists c.
    split; [|by apply Hle]. apply od_get_elem_Some; [apply (fi_nodup _ Hinv)|done]. }
  assert (HsL : source ∈ L).
  { destruct (Hlook source nx) as (c & Hc & _); [exists [], rest; by rewrite Hshape|].
    assert (Hs : is_Some (ddd_lookup (ff_res st) source nx)) by by eexists.
    apply (fi_keys _ Hinv), HK in Hs. tauto. }
  assert (Hne : source ≠ sink).
  { intros <-. rewrite Hshape in Hnd, Hlast. apply NoDup_cons in Hnd as [Hnot _].
    apply Hnot. apply last_Some_elem_of. exact Hlast. }
  destruct (augment_spec L m HL Hpos path res1 (ff_flow st) Hnd)
    as (res' & flow' & Haug & Hau).
  { intros x Hx. destruct (Hmem x Hx) as [-> |(p & c & Hin%Hrow_key)]; [done|].
    apply (fi_keys _ Hinv), HK in Hin. tauto. }
  { intros a b Hab. destruct (Hlook a b Hab) as (c & Hc & Hle).
    assert (Hs : is_Some (ddd_lookup (ff_res st) a b)) by by eexists.
    split_and!.
    - exists c. by rewrite Hl1.
    - rewrite Hl1. apply (fi_keys _ Hinv). apply (fi_keys _ Hinv), HK in Hs. tauto.
    - apply (fi_flow_keys _ Hinv). by apply (fi_keys _ Hinv). }
  rewrite Haug. cbn [mbind option_bind fst snd]. right. eexists. split; [done|].
  destruct Hau as [Ak Afk And Anet Amono Ann Aex Afr Ahd].
  assert (HtL : sink ∈ L).
  { destruct (Hmem sink) as [-> |(p & c & Hin%Hrow_key)]; [by eapply last_Some_elem_of|done|].
    apply (fi_keys _ Hinv), HK in Hin. tauto. }
  destruct Hinv as [I1 I2 I3 I4 I5 I6 I7 I8 I9 I10 I11]. split.
  - split; simpl.
    + intros x. apply And. rewrite Hrows. apply I1.
    + intros a b. by rewrite Ak, Hl1.
    + intros a b. by rewrite Afk.
    + intros a b. specialize (Anet a b). specialize (I4 a b). rewrite He1 in Anet. lia.
    + intros a b. specialize (Amono a b). specialize (I5 a b). lia.
    + intros Hnn a b. apply Ann. rewrite He1. by apply I6.
    + intros x Hxs Hxt. specialize (Aex x). rewrite Hhd, Hlast in Aex.
      rewrite !decide_False in Aex by congruence. specialize (I7 x Hxs Hxt). lia.
    + specialize (Aex source). rewrite Hhd, Hlast in Aex.
      rewrite decide_True, decide_False in Aex by congruence. lia.
    + intros _. specialize (Aex sink). rewrite Hhd, Hlast in Aex.
      rewrite decide_False, decide_True in Aex by congruence. specialize (I9 Hne). lia.
    + lia.
    + by left.
  - unfold ff_measure. simpl. specialize (Ahd source nx rest Hshape).
    rewrite Hrows in Ahd. pose proof (pos_sum_nonneg (ddd_row res' source)). lia.
Qed.

(** The loop ends, having kept its invariant, when no path is left. *)
Lemma ff_loop_run (fuel : nat) (st : ff_state) :
  S (length L) < fuel → ff_measure st < fuel → ff_inv st →
  ∃ r, while_loop (ff_body fuel source sink) fuel st = Some r ∧ ff_done r.
Proof.
  intros Hfuel Hm Hinv.
  apply (while_loop_bounded (ff_body fuel source sink) ff_measure ff_inv ff_done);
    [|done|done].
  intros s Hs. apply ff_body_spec; done.
Qed.

End FordFulkersonLoop.
Section ResidualShape.

Context {V : Type} `{Countable V}.
Context (g : Graph (V := V)) (Hwf : wf_graph g).

(** The shape of a residual graph: every row lists a key once, the keys are
    vertices, every entry has its reverse entry, and no entry is negative when
    no capacity is. *)
Definition res_shape (res : gmap V (list (V * Z))) : Prop :=
  (∀ x, NoDup (ddd_row res x).*1)
  ∧ (∀ u v, is_Some (ddd_lookup res u v) →
       u ∈ vertices g ∧ v ∈ vertices g ∧ is_Some (ddd_lookup res v u))
  ∧ (nonneg_weights g → ∀ u v, (0 ≤ entry res u v)%Z).

Lemma adj_entry_vertices (x n : V) (c : Z) :
  (n, c) ∈ adj_of (adj_list g) x → x ∈ vertices g ∧ n ∈ vertices g.
Proof.
  intros (l & Hl & Hin)%adj_of_elem.
  destruct (wf_closed g Hwf) as [_ Ha]. destruct (Ha x l Hl) as [Hx Hn].
  split; [done|by eapply Hn].
Qed.

Lemma adj_entry_nonneg (x n : V) (c : Z) :
  nonneg_weights g → (n, c) ∈ adj_of (adj_list g) x → (0 ≤ c)%Z.
Proof.
  intros Hnn. rewrite (wf_adj g Hwf). rewrite list_elem_of_In, in_flat_map.
  intros ([[a b] w] & Hin%list_elem_of_In & Hent%list_elem_of_In).
  specialize (Hnn a b w Hin). unfold edge_entries in Hent. simpl in Hent.
  apply elem_of_app in Hent as [Hent|Hent].
  - destruct (decide _); [|by apply elem_of_nil in Hent].
    apply list_elem_of_singleton in Hent. by injection Hent as _ ->.
  - destruct (directed g); [by apply elem_of_nil in Hent|].
    destruct (decide _); [|by apply elem_of_nil in Hent].
    apply list_elem_of_singleton in Hent. by injection Hent as _ ->.
Qed.

Lemma res_shape_edge (res : gmap V (list (V * Z))) (x n : V) (c : Z) :
  x ∈ vertices g → n ∈ vertices g → (nonneg_weights g → (0 ≤ c)%Z) →
  res_shape res → res_shape (init_residual_edge x (n, c) res).
Proof.
  intros Hx Hn Hc (Hnd & Hkeys & Hnn). split_and!.
  - intros y. unfold init_residual_edge. rewrite ddd_row_set.
    assert (Hrow : ∀ z, NoDup (ddd_row
              (if decide (is_Some (ddd_set res x n c !! n)) then ddd_set res x n c
               else <[n := []]> (ddd_set res x n c)) z).*1).
    { intros z. destruct (decide _) as [|Hnone].
      - rewrite ddd_row_set. destruct (decide (z = x)); [by apply od_set_keys_NoDup|done].
      - rewrite ddd_row_new by (by apply eq_None_not_Some). rewrite ddd_row_set.
        destruct (decide (z = x)); [by apply od_set_keys_NoDup|done]. }
    destruct (decide (y = n)); [by apply od_set_keys_NoDup|done].
  - intros u v. rewrite !init_residual_edge_lookup.
    destruct (decide (u = n ∧ v = x)) as [[-> ->]|Hne1].
    { intros _. split_and!; [done..|]. destruct (decide (x = n ∧ n = x)); [by eexists|].
      rewrite decide_True by done. by eexists. }
    destruct (decide (u = x ∧ v = n)) as [[-> ->]|Hne2].
    { intros _. split_and!; [done..|]. rewrite decide_True by done. by eexists. }
    intros Huv. destruct (Hkeys u v Huv) as (? & ? & ?). split_and!; [done..|].
    destruct (decide (v = n ∧ u = x)); [by eexists|].
    destruct (decide (v = x ∧ u = n)); [by eexists|done].
  - intros Hnw u v. unfold entry. rewrite init_residual_edge_lookup.
    destruct (decide (u = n ∧ v = x)); [simpl; lia|].
    destruct (decide (u = x ∧ v = n)); [simpl; by apply Hc|]. by apply Hnn.
Qed.

Lemma res_shape_vertex (x : V) (nbrs : list (V * Z)) (res : gmap V (list (V * Z))) :
  (∀ e, e ∈ nbrs → e ∈ adj_of (adj_list g) x) →
  res_shape res →
  res_shape (fold_left (λ (res : gmap V (list (V * Z))) (e : V * Z),
                          init_residual_edge x e res) nbrs res).
Proof.
  revert res. induction nbrs as [|[n c] nbrs IH]; intros res Hn Hres; [done|].
  cbn [fold_left]. apply IH; [intros e He; apply Hn; by right|].
  assert (Hin : (n, c) ∈ adj_of (adj_list g) x) by (apply Hn; by left).
  destruct (adj_entry_vertices x n c Hin). apply res_shape_edge; [done..| |done].
  intros Hnn. by eapply adj_entry_nonneg.
Qed.

Lemma res_shape_graph (todo : list V) (d res : gmap V (list (V * Z))) :
  (∀ u, adj_of d u = adj_of (adj_list g) u) →
  res_shape res →
  res_shape (fold_left init_residual_vertex todo (d, res)).2.
Proof.
  revert d res. induction todo as [|x todo IH]; intros d res Hd Hres; [done|].
  cbn [fold_left]. unfold init_residual_vertex at 2. cbn [dd_get fst snd].
  apply IH.
  - intros u. by rewrite adj_of_touch.
  - apply res_shape_vertex; [|done]. intros e. by rewrite Hd.
Qed.

Lemma MaxFlow_init_shape (vs : list V) : res_shape (residual_graph (MaxFlow_init g vs)).
Proof.
  unfold MaxFlow_init, initialize_residual_graph. cbn [mf_vertices mf_graph residual_graph].
  pose proof (res_shape_graph vs (adj_list g) ∅) as Hres.
  destruct (fold_left init_residual_vertex vs (adj_list g, ∅)) as [d res] eqn:Hfold.
  cbn [residual_graph]. apply Hres; [done|]. split_and!.
  - intros x. unfold ddd_row. rewrite lookup_empty. simpl. constructor.
  - intros u v [c Hc]. unfold ddd_lookup, ddd_row in Hc. by rewrite lookup_empty in Hc.
  - intros _ u v. unfold entry, ddd_lookup, ddd_row. by rewrite lookup_empty.
Qed.

End ResidualShape.

Section FlowNetworkInit.

Context {V : Type} `{Countable V}.

Lemma init_flow_row (vertex : V) (row : list (V * Z)) (flow : gmap V (list (V * Z)))
    (a b : V) :
  ddd_lookup
    (fold_left (λ (flow : gmap V (list (V * Z))) (e : V * Z), ddd_set flow vertex e.1 0)
       row flow) a b
  = if decide (a = vertex ∧ b ∈ row.*1) then Some 0%Z else ddd_lookup flow a b.
Proof.
  revert flow. induction row as [|[k c] row IH]; intros flow.
  { cbn [fold_left]. rewrite decide_False; [done|]. intros [_ ?%elem_of_nil]. done. }
  cbn [fold_left]. rewrite IH, ddd_lookup_set. cbn [fst fmap list_fmap].
  destruct (decide (a = vertex ∧ b ∈ row.*1)) as [[-> Hb]|Hne].
  - rewrite decide_True; [done|]. split; [done|by right].
  - destruct (decide (a = vertex ∧ b = k)) as [[-> ->]|Hne'].
    + rewrite decide_True; [done|]. split; [done|by left].
    + rewrite decide_False; [done|]. intros [-> [-> |Hb]%elem_of_cons]; tauto.
Qed.

Lemma init_flow_network_from (todo : list V) (res flow cur : gmap V (list (V * Z))) :
  (∀ u, ddd_row cur u = ddd_row res u) →
  let r := fold_left
    (λ (st : gmap V (list (V * Z)) * gmap V (list (V * Z))) vertex,
       let row := ddd_row st.2 vertex in
       let res' := if decide (is_Some (st.2 !! vertex)) then st.2 else <[vertex := []]> st.2 in
       (fold_left (λ (flow : gmap V (list (V * Z))) (e : V * Z), ddd_set flow vertex e.1 0)
          row st.1, res'))
    todo (flow, cur) in
  (∀ u, ddd_row r.2 u = ddd_row res u)
  ∧ ∀ a b, ddd_lookup r.1 a b
           = if decide (a ∈ todo ∧ is_Some (ddd_lookup res a b)) then Some 0%Z
             else ddd_lookup flow a b.
Proof.
  revert flow cur. induction todo as [|x todo IH]; intros flow cur Hcur.
  { cbn [fold_left]. split; [done|]. intros a b. rewrite decide_False; [done|].
    intros [?%elem_of_nil _]. done. }
  cbn [fold_left fst snd].
  set (cur' := if decide (is_Some (cur !! x)) then cur else <[x := []]> cur).
  assert (Hcur' : ∀ u, ddd_row cur' u = ddd_row res u).
  { intros u. unfold cur'. destruct (decide _) as [|Hnone]; [done|].
    rewrite ddd_row_new by (by apply eq_None_not_Some). done. }
  destruct (IH (fold_left (λ (flow : gmap V (list (V * Z))) (e : V * Z),
                             ddd_set flow x e.1 0) (ddd_row cur x) flow) cur' Hcur')
    as [Hrows Hlook].
  split; [exact Hrows|]. intros a b. rewrite Hlook, init_flow_row, Hcur.
  destruct (decide (a ∈ todo ∧ is_Some (ddd_lookup res a b))) as [[Ha Hs]|Hne].
  - rewrite decide_True; [done|]. split; [by right|done].
  - destruct (decide (a = x ∧ b ∈ (ddd_row res x).*1)) as [[-> Hb]|Hne'].
    + rewrite decide_True; [done|]. split; [by left|]. by apply od_get_is_Some.
    + rewrite decide_False; [done|]. intros [[-> |Ha]%elem_of_cons Hs]; [|tauto].
      apply Hne'. split; [done|]. by apply od_get_is_Some.
Qed.

Lemma init_flow_network_spec (vs : list V) (res : gmap V (list (V * Z))) :
  (∀ u, ddd_row (init_flow_network vs res).2 u = ddd_row res u)
  ∧ ∀ a b, ddd_lookup (init_flow_network vs res).1 a b
           = if decide (a ∈ vs ∧ is_Some (ddd_lookup res a b)) then Some 0%Z else None.
Proof.
  destruct (init_flow_network_from vs res ∅ res (λ _, eq_refl)) as [Hrows Hlook].
  split; [exact Hrows|]. intros a b. unfold init_flow_network. rewrite Hlook.
  destruct (decide _); [done|]. unfold ddd_lookup, ddd_row. by rewrite lookup_empty.
Qed.

End FlowNetworkInit.

Section FuelMonotone.

Context {V : Type} `{Countable V}.

Lemma while_loop_mono_body {S R : Type} (body body' : S → option (S + R)) (n m : nat)
    (s : S) (r : R) :
  (∀ s x, body s = Some x → body' s = Some x) → n ≤ m →
  while_loop body n s = Some r → while_loop body' m s = Some r.
Proof.
  intros Hb. revert m s. induction n as [|n IH]; intros m s Hle Hn; [done|].
  destruct m as [|m]; [lia|]. simpl in *.
  destruct (body s) as [x|] eqn:Hx; [|done]. rewrite (Hb _ _ Hx).
  destruct x as [s'|r']; [|done]. apply IH; [lia|done].
Qed.

Lemma aug_scan_mono (n m : nat) (sink current : V) (items : list (V * Z))
    (st : aug_state) (r : aug_state + list V * num) :
  n ≤ m → aug_scan n sink current items st = Some r →
  aug_scan m sink current items st = Some r.
Proof.
  intros Hle. revert st. induction items as [|[k c] items IH]; intros st; [done|].
  cbn [aug_scan]. destruct (_ && _); [|apply IH].
  destruct (aug_min_capacity st !! current) as [mc|]; [|done]. cbn [mbind option_bind].
  destruct (decide (k = sink)); [|apply IH].
  destruct (while_loop _ n _) as [path|] eqn:Hp; [|done].
  by rewrite (while_loop_mono _ _ _ _ _ Hp Hle).
Qed.

Lemma aug_body_mono (n m : nat) (sink : V) (st : aug_state)
    (x : aug_state + gmap V (list (V * Z)) * option (list V * num)) :
  n ≤ m → aug_body n sink st = Some x → aug_body m sink st = Some x.
Proof.
  intros Hle. unfold aug_body. destruct (aug_queue st) as [|current queue]; [done|].
  destruct (aug_scan n _ _ _ _) as [r|] eqn:Hr; [|done].
  by rewrite (aug_scan_mono _ _ _ _ _ _ _ Hle Hr).
Qed.

Lemma bfs_augmenting_path_mono (res : gmap V (list (V * Z))) (source sink : V)
    (n m : nat) (r : gmap V (list (V * Z)) * option (list V * num)) :
  n ≤ m → bfs_augmenting_path res source sink n = Some r →
  bfs_augmenting_path res source sink m = Some r.
Proof.
  intros Hle. unfold bfs_augmenting_path. apply while_loop_mono_body; [|done].
  intros s x. by apply aug_body_mono.
Qed.

Lemma ff_body_mono (n m : nat) (source sink : V) (st : ff_state)
    (x : ff_state + Z * gmap V (list (V * Z)) * gmap V (list (V * Z))) :
  n ≤ m → ff_body n source sink st = Some x → ff_body m source sink st = Some x.
Proof.
  intros Hle. unfold ff_body.
  destruct (bfs_augmenting_path _ _ _ n) as [r|] eqn:Hr; [|done].
  by rewrite (bfs_augmenting_path_mono _ _ _ _ _ _ Hle Hr).
Qed.

Lemma ford_fulkerson_mono (mf : MaxFlow) (source sink : V) (n m : nat)
    (r : Z * gmap V (list (V * Z)) * MaxFlow) :
  n ≤ m → ford_fulkerson mf source sink n = Some r →
  ford_fulkerson mf source sink m = Some r.
Proof.
  intros Hle. unfold ford_fulkerson. destruct (init_flow_network _ _) as [flow res].
  destruct (while_loop _ n _) as [x|] eqn:Hx; [|done].
  rewrite (while_loop_mono_body _ (ff_body m source sink) _ _ _ _
             (λ s y, ff_body_mono n m source sink s y Hle) Hle Hx). done.
Qed.

Lemma ford_fulkerson_det (mf : MaxFlow) (source sink : V)
    (r r' : Z * gmap V (list (V * Z)) * MaxFlow) :
  returns (ford_fulkerson mf source sink) r → returns (ford_fulkerson mf source sink) r' →
  r = r'.
Proof.
  intros [n Hn] [m Hm].
  apply (ford_fulkerson_mono _ _ _ _ (n `max` m)) in Hn; [|lia].
  apply (ford_fulkerson_mono _ _ _ _ (n `max` m)) in Hm; [|lia]. congruence.
Qed.

Lemma bfs_augmenting_path_det (res : gmap V (list (V * Z))) (source sink : V)
    (r r' : gmap V (list (V * Z)) * option (list V * num)) :
  returns (bfs_augmenting_path res source sink) r →
  returns (bfs_augmenting_path res source sink) r' → r = r'.
Proof.
  intros [n Hn] [m Hm].
  apply (bfs_augmenting_path_mono _ _ _ _ (n `max` m)) in Hn; [|lia].
  apply (bfs_augmenting_path_mono _ _ _ _ (n `max` m)) in Hm; [|lia]. congruence.
Qed.

End FuelMonotone.

Lemma get_vertices_NoDup {V : Type} `{Countable V} (g : Graph (V := V)) (vs : list V) :
  get_vertices g vs → NoDup vs.
Proof. intros Hvs. unfold get_vertices in Hvs. rewrite Hvs. apply NoDup_elements. Qed.

Lemma get_vertices_elem {V : Type} `{Countable V} (g : Graph (V := V)) (vs : list V)
    (v : V) :
  get_vertices g vs → v ∈ vs ↔ v ∈ vertices g.
Proof. intros Hvs. unfold get_vertices in Hvs. by rewrite Hvs, elem_of_elements. Qed.

Section FordFulkersonRun.

Context {V : Type} `{Countable V}.
Context (g : Graph (V := V)) (Hwf : wf_graph g).
Context (vs : list V) (Hvs : get_vertices g vs).
Context (source sink : V).

Lemma residual_keys (u v : V) :
  is_Some (ddd_lookup (residual_graph (MaxFlow_init g vs)) u v) →
  u ∈ vs ∧ v ∈ vs ∧ is_Some (ddd_lookup (residual_graph (MaxFlow_init g vs)) v u).
Proof.
  intros Huv. destruct (MaxFlow_init_shape g Hwf vs) as (_ & Hk & _).
  destruct (Hk u v Huv) as (? & ? & ?). by rewrite !(get_vertices_elem g vs) by done.
Qed.

Lemma ff_init_inv :
  ff_inv (residual_graph (MaxFlow_init g vs)) vs source sink
    (mkFF (init_flow_network vs (residual_graph (MaxFlow_init g vs))).2
          (init_flow_network vs (residual_graph (MaxFlow_init g vs))).1 0).
Proof.
  destruct (init_flow_network_spec vs (residual_graph (MaxFlow_init g vs))) as [Hrows Hflow].
  destruct (MaxFlow_init_shape g Hwf vs) as (Hnd & Hk & Hnn).
  assert (Hzero : ∀ a b, entry (init_flow_network vs (residual_graph (MaxFlow_init g vs))).1
                           a b = 0%Z).
  { intros a b. unfold entry. rewrite Hflow. by destruct (decide _). }
  assert (Hl : ∀ a b,
            ddd_lookup (init_flow_network vs (residual_graph (MaxFlow_init g vs))).2 a b
            = ddd_lookup (residual_graph (MaxFlow_init g vs)) a b).
  { intros a b. unfold ddd_lookup. by rewrite Hrows. }
  split; cbn [ff_res ff_flow ff_max_flow].
  - intros x. rewrite Hrows. apply Hnd.
  - intros a b. by rewrite Hl.
  - intros a b. rewrite Hflow. destruct (decide _) as [[_ Hs]|Hne].
    + split; [done|by eexists].
    + split; [by intros [? ?]|]. intros Hs. destruct Hne. split; [|done].
      by destruct (residual_keys a b Hs).
  - intros a b. rewrite !Hzero. unfold entry. rewrite Hl. lia.
  - intros a b. by rewrite Hzero.
  - intros Hall a b. unfold entry. rewrite Hl. apply Hall.
  - intros x _ _. unfold flow_out, flow_in. by rewrite !vsum_zero.
  - unfold flow_out, flow_in. by rewrite !vsum_zero.
  - intros _. unfold flow_out, flow_in. by rewrite !vsum_zero.
  - done.
  - by right.
Qed.

(** [ford_fulkerson] returns for every fuel from some bound on, and what it
    returns satisfies the invariant of its loop and leaves no augmenting
    path. *)
Lemma ford_fulkerson_run :
  ∃ N, ∀ fuel, N ≤ fuel →
    ∃ value flow mf',
      ford_fulkerson (MaxFlow_init g vs) source sink fuel = Some (value, flow, mf')
      ∧ ff_done (residual_graph (MaxFlow_init g vs)) vs source sink
          (value, flow, residual_graph mf').
Proof.
  set (st0 := mkFF (init_flow_network vs (residual_graph (MaxFlow_init g vs))).2
                   (init_flow_network vs (residual_graph (MaxFlow_init g vs))).1 0).
  exists (S (S (length vs)) `max` S (ff_measure source st0)). intros fuel Hfuel.
  destruct (ff_loop_run (residual_graph (MaxFlow_init g vs)) vs source sink
              (get_vertices_NoDup g vs Hvs) residual_keys fuel st0) as ([[value flow] res] & Hrun & Hdone);
    [lia|lia|apply ff_init_inv|].
  exists value, flow, (mkMaxFlow (mf_graph (MaxFlow_init g vs))
                         (mf_vertices (MaxFlow_init g vs)) res).
  split; [|done]. unfold ford_fulkerson.
  assert (Hvs' : mf_vertices (MaxFlow_init g vs) = vs).
  { unfold MaxFlow_init, initialize_residual_graph. cbn [mf_vertices mf_graph residual_graph].
    by destruct (fold_left _ _ _). }
  rewrite Hvs'. unfold st0 in Hrun.
  destruct (init_flow_network vs (residual_graph (MaxFlow_init g vs))) as [flow0 res0].
  cbn [fst snd] in Hrun. rewrite Hrun. done.
Qed.

Lemma ford_fulkerson_result :
  (∃ r, returns (ford_fulkerson (MaxFlow_init g vs) source sink) r)
  ∧ ∀ r, returns (ford_fulkerson (MaxFlow_init g vs) source sink) r →
      ff_done (residual_graph (MaxFlow_init g vs)) vs source sink
        (r.1.1, r.1.2, residual_graph r.2).
Proof.
  destruct ford_fulkerson_run as (N & HN).
  destruct (HN N (le_n _)) as (value & flow & mf' & Hrun & Hdone).
  split; [by exists (value, flow, mf'), N|].
  intros r Hr. by rewrite (ford_fulkerson_det _ _ _ _ _ Hr (ex_intro _ N Hrun)).
Qed.

End FordFulkersonRun.
Section SimpleNetworks.

Context {V : Type} `{Countable V}.
Implicit Types (g : Graph (V := V)).

(** A network without parallel and without antiparallel edges (so without
    self-loops too). *)
Definition simple_network g : Prop :=
  NoDup (edges g).*1
  ∧ ∀ u v c c', (u, v, c) ∈ edges g → (v, u, c') ∉ edges g.

Lemma no_antiparallel_Forall (E : list (V * V * Z)) :
  Forall (λ e, (e.1.2, e.1.1) ∉ E.*1) E →
  ∀ u v c c', (u, v, c) ∈ E → (v, u, c') ∉ E.
Proof.
  intros Hall u v c c' Hin Hin'. rewrite Forall_forall in Hall.
  apply (Hall _ Hin). simpl. apply list_elem_of_fmap. by exists (v, u, c').
Qed.

Lemma NoDup_fst_unique {A B : Type} (l : list (A * B)) (a : A) (b b' : B) :
  NoDup l.*1 → (a, b) ∈ l → (a, b') ∈ l → b = b'.
Proof.
  induction l as [|[x y] l IH]; simpl; [by intros _ ?%elem_of_nil|].
  intros [Hx Hnd]%NoDup_cons Hb Hb'.
  assert (Hfst : ∀ z, (x, z) ∈ l → False).
  { intros z Hz. apply Hx. apply list_elem_of_fmap. by exists (x, z). }
  apply elem_of_cons in Hb as [Hb|Hb]; apply elem_of_cons in Hb' as [Hb'|Hb'];
    simplify_eq; try done; try (by destruct (Hfst _ Hb)); try (by destruct (Hfst _ Hb')).
  by apply IH.
Qed.

Lemma capacity_of_cons (u v : V) (e : V * V * Z) (E : list (V * V * Z)) :
  foldr Z.add 0%Z
    (omap (λ e : V * Z, if decide (e.1 = v) then Some e.2 else None)
       (flat_map (edge_entries true u) (e :: E)))
  = ((if decide (e.1.1 = u ∧ e.1.2 = v) then e.2 else 0)
     + foldr Z.add 0%Z
         (omap (λ e : V * Z, if decide (e.1 = v) then Some e.2 else None)
            (flat_map (edge_entries true u) E)))%Z.
Proof.
  cbn [flat_map]. rewrite omap_app, foldr_app.
  generalize (foldr Z.add 0%Z
    (omap (λ e : V * Z, if decide (e.1 = v) then Some e.2 else None)
       (flat_map (edge_entries true u) E))) as rest.
  intros rest. unfold edge_entries.
  rewrite app_nil_r. destruct (decide (e.1.1 = u)) as [Hu|Hu]; simpl.
  - destruct (decide (e.1.2 = v)) as [Hv|Hv]; simpl.
    + rewrite decide_True by done. done.
    + rewrite decide_False by tauto. done.
  - rewrite decide_False by tauto. done.
Qed.

Lemma capacity_of_none (u v : V) (E : list (V * V * Z)) :
  (∀ c, (u, v, c) ∉ E) →
  foldr Z.add 0%Z
    (omap (λ e : V * Z, if decide (e.1 = v) then Some e.2 else None)
       (flat_map (edge_entries true u) E)) = 0%Z.
Proof.
  induction E as [|[[a b] w] E IH]; intros Hno; [done|].
  rewrite capacity_of_cons. rewrite IH by (intros c Hc; apply (Hno c); by right).
  simpl. destruct (decide (a = u ∧ b = v)) as [[-> ->]|]; [|done].
  destruct (Hno w). by left.
Qed.

Lemma capacity_of_edge (u v : V) (c : Z) (E : list (V * V * Z)) :
  NoDup E.*1 → (u, v, c) ∈ E →
  foldr Z.add 0%Z
    (omap (λ e : V * Z, if decide (e.1 = v) then Some e.2 else None)
       (flat_map (edge_entries true u) E)) = c.
Proof.
  induction E as [|[[a b] w] E IH]; [by intros _ ?%elem_of_nil|].
  intros [Hx Hnd]%NoDup_cons Hin. rewrite capacity_of_cons. simpl.
  apply elem_of_cons in Hin as [[= <- <- <-]|Hin].
  - rewrite decide_True by done. rewrite capacity_of_none; [lia|].
    intros c' Hc'. apply Hx. apply list_elem_of_fmap. by exists (u, v, c').
  - rewrite IH by done. destruct (decide (a = u ∧ b = v)) as [[-> ->]|]; [|lia].
    destruct Hx. apply list_elem_of_fmap. by exists (u, v, c).
Qed.

(** On a simple directed network the residual graph starts out as the
    capacities. *)
Lemma residual_init_capacity_of g (vs : list V) (u v : V) :
  wf_graph g → directed g = true → get_vertices g vs → simple_network g →
  entry (residual_graph (MaxFlow_init g vs)) u v = capacity_of g u v.
Proof.
  intros Hwf Hdir Hvs [Hnd Hanti].
  assert (Huniq : ∀ u v c c', (u, v, c) ∈ edges g → (u, v, c') ∈ edges g → c = c').
  { intros a b c c'. apply NoDup_fst_unique, Hnd. }
  pose proof (MaxFlow_init_residual g Hwf Hdir vs Hvs Hanti Huniq) as Hres.
  unfold capacity_of. rewrite (wf_adj g Hwf), Hdir. unfold entry.
  destruct (ddd_lookup _ u v) as [c|] eqn:Hc; simpl.
  - apply Hres in Hc as [Hin|[-> [c' Hin]]].
    + symmetry. by apply capacity_of_edge.
    + symmetry. apply capacity_of_none. intros c Hc. by apply (Hanti v u c' c).
  - symmetry. apply capacity_of_none. intros c Hin.
    assert (Hs : ddd_lookup (residual_graph (MaxFlow_init g vs)) u v = Some c)
      by (apply Hres; by left).
    congruence.
Qed.

End SimpleNetworks.

(** The first network of [main]. *)
Definition graph1 : Graph (V := string) :=
  build true
    [AddEdge "S" "A" 10; AddEdge "S" "B" 8; AddEdge "A" "C" 4; AddEdge "A" "D" 2;
     AddEdge "B" "C" 9; AddEdge "B" "D" 9; AddEdge "C" "T" 10; AddEdge "D" "T" 10]%string%Z.

Section MaximumFlowTheorems.

Context {V : Type} `{Countable V}.
Implicit Types (g : Graph (V := V)) (res flow : gmap V (list (V * Z))).

(** X19.  [MaxFlow(graph)] on a directed graph in which no pair of vertices
    is joined in both directions, and no pair by two edges of different
    capacity: the residual graph holds exactly the capacity of every edge
    under the edge's pair and [0] under the reversed pair. *)
Theorem residual_init_capacities g (vs : list V) (u v : V) (c : Z) :
  wf_graph g → directed g = true → get_vertices g vs →
  (∀ u v c c', (u, v, c) ∈ edges g → (v, u, c') ∉ edges g) →
  (∀ u v c c', (u, v, c) ∈ edges g → (u, v, c') ∈ edges g → c = c') →
  residual_of (MaxFlow_init g vs) u v = Some c
  ↔ (u, v, c) ∈ edges g ∨ (c = 0%Z ∧ ∃ c', (v, u, c') ∈ edges g).
Proof.
  intros Hwf Hdir Hvs Hanti Huniq.
  apply (MaxFlow_init_residual g Hwf Hdir vs Hvs Hanti Huniq).
Qed.

(** One step along an entry of positive residual capacity. *)
Definition residual_step res (a b : V) : Prop :=
  ∃ c, (b, c) ∈ ddd_row res a ∧ (0 < c)%Z.

(** [path] is an augmenting path with bottleneck [mc]. *)
Definition augmenting_path res (source sink : V) (path : list V) (mc : num) : Prop :=
  head path = Some source ∧ last path = Some sink ∧ NoDup path ∧ source ≠ sink
  ∧ ∃ m, mc = Fin m ∧ (0 < m)%Z
      ∧ (∀ a b, adjacent a b path → ∃ c, (b, c) ∈ ddd_row res a ∧ (m ≤ c)%Z)
      ∧ ∃ a b, adjacent a b path ∧ (b, m) ∈ ddd_row res a.

(** X20.  [bfs_augmenting_path] always returns, and changes no entry of the
    residual graph.  A path it returns leads from the source to the sink,
    visits no vertex twice and uses only entries of positive capacity, and the
    capacity returned with it is the least on the path.  It returns no path
    only if the source is the sink or the sink cannot be reached along
    entries of positive capacity. *)
Theorem bfs_augmenting_path_correct res (source sink : V) :
  (∃ r, returns (bfs_augmenting_path res source sink) r)
  ∧ ∀ r, returns (bfs_augmenting_path res source sink) r →
      (∀ u, ddd_row r.1 u = ddd_row res u)
      ∧ match r.2 with
        | Some (path, mc) => augmenting_path res source sink path mc
        | None => source = sink ∨ ¬ rtc (residual_step res) source sink
        end.
Proof.
  set (U := ({[source]} ∪ ⋃ ((λ row : list (V * Z), list_to_set row.*1)
                               <$> (map_to_list res).*2)) : gset V).
  assert (HU : ∀ u v c, (v, c) ∈ ddd_row res u → v ∈ U).
  { intros u v c Hin. unfold ddd_row in Hin.
    destruct (res !! u) as [row|] eqn:Hrow; simpl in Hin; [|by apply elem_of_nil in Hin].
    apply elem_of_union. right. apply elem_of_union_list.
    exists (list_to_set row.*1). split.
    - apply list_elem_of_fmap. exists row. split; [done|].
      apply list_elem_of_fmap. exists (u, row). split; [done|].
      by apply elem_of_map_to_list.
    - apply elem_of_list_to_set, list_elem_of_fmap. by exists (v, c). }
  destruct (bfs_augmenting_path_spec res source sink U) with (fuel := S (size U))
    as (r0 & Hrun & Hrows & Hok); [set_solver|done|lia|].
  split; [by exists r0, (S (size U))|].
  intros r Hr. rewrite (bfs_augmenting_path_det _ _ _ _ _ Hr (ex_intro _ _ Hrun)).
  split; [done|]. destruct r0 as [res1 [[path mc]|]]; simpl in *.
  - destruct Hok as (Hpath & Hnd & m & Hm). simpl in Hpath, Hnd, Hm. subst mc.
    destruct (rpath_facts _ _ _ _ _ Hpath) as (Hhd & Hlast & Hfin & Hatt & _ & _ & Hadj).
    destruct (Hfin m eq_refl) as (Hpos & nx & rest & Hshape).
    split_and!; [done..| |].
    + intros <-. rewrite Hshape in Hnd, Hlast. apply NoDup_cons in Hnd as [Hnot _].
      apply Hnot. by eapply last_Some_elem_of.
    + exists m. split_and!; [done..| |by apply Hatt].
      intros a b Hab. destruct (Hadj a b Hab) as (c & Hin & _ & Hle). exists c.
      split; [done|by apply Hle].
  - destruct Hok as (S & Hs & Ht & _ & Hclosed).
    destruct (decide (source = sink)) as [|Hne]; [by left|right].
    intros Hreach. apply Hne. symmetry. apply Ht.
    assert (Hcl : ∀ a b, rtc (residual_step res) a b → a ∈ S → b ∈ S).
    { induction 1 as [|a b c' [c [Hin Hpos]] _ IH]; [done|].
      intros Ha. apply IH. by eapply Hclosed. }
    by apply (Hcl source sink).
Qed.

(** X21.  [ford_fulkerson] returns for every source and sink.  The flow
    network it returns has no negative entry; at every vertex other than the
    source and the sink it records as much flow in as out; and the value
    returned is what the source sends out beyond what it receives, which is
    what the sink receives beyond what it sends out. *)
Theorem ford_fulkerson_conserves g (vs : list V) (source sink : V) :
  wf_graph g → get_vertices g vs →
  (∃ r, returns (ford_fulkerson (MaxFlow_init g vs) source sink) r)
  ∧ ∀ r, returns (ford_fulkerson (MaxFlow_init g vs) source sink) r →
      (0 ≤ r.1.1)%Z
      ∧ (∀ u v, (0 ≤ entry r.1.2 u v)%Z)
      ∧ (∀ x, x ≠ source → x ≠ sink → flow_out r.1.2 vs x = flow_in r.1.2 vs x)
      ∧ r.1.1 = (flow_out r.1.2 vs source - flow_in r.1.2 vs source)%Z
      ∧ (source ≠ sink → r.1.1 = (flow_in r.1.2 vs sink - flow_out r.1.2 vs sink)%Z).
Proof.
  intros Hwf Hvs. destruct (ford_fulkerson_result g Hwf vs Hvs source sink) as [Hex Hall].
  split; [done|]. intros r Hr. destruct (Hall r Hr) as [Hinv _].
  destruct Hinv as [I1 I2 I3 I4 I5 I6 I7 I8 I9 I10 I11]. simpl in *. done.
Qed.


(** X23.  When the source is the sink, or one of them is not a vertex of the
    graph, [ford_fulkerson] returns the value [0] and a flow network without
    flow. *)
Theorem ford_fulkerson_no_route g (vs : list V) (source sink : V) :
  wf_graph g → get_vertices g vs →
  source = sink ∨ source ∉ vertices g ∨ sink ∉ vertices g →
  (∃ r, returns (ford_fulkerson (MaxFlow_init g vs) source sink) r)
  ∧ ∀ r, returns (ford_fulkerson (MaxFlow_init g vs) source sink) r →
      r.1.1 = 0%Z ∧ ∀ u v, entry r.1.2 u v = 0%Z.
Proof.
  intros Hwf Hvs Hbad.
  destruct (ford_fulkerson_result g Hwf vs Hvs source sink) as [Hex Hall].
  split; [done|]. intros r Hr. destruct (Hall r Hr) as [Hinv _].
  destruct (fi_started _ _ _ _ _ Hinv) as [(Hne & Hs & Ht)|Hzero]; [|done].
  rewrite !(get_vertices_elem g vs) in * by done. tauto.
Qed.

(** A flow on the graph: between [0] and the capacity on every pair, and
    conserved at every vertex other than the source and the sink. *)
Record feasible_flow g (vs : list V) (source sink : V) (f : V → V → Z) : Prop :=
  mk_feasible_flow {
    feasible_nonneg : ∀ u v, (0 ≤ f u v)%Z;
    feasible_capacity : ∀ u v, (f u v ≤ capacity_of g u v)%Z;
    feasible_conserved : ∀ x, x ≠ source → x ≠ sink →
      vsum (λ v, f x v) vs = vsum (λ v, f v x) vs
  }.

(** What the flow [f] sends out of the source beyond what it sends in. *)
Definition flow_value (vs : list V) (source : V) (f : V → V → Z) : Z :=
  (vsum (λ v, f source v) vs - vsum (λ v, f v source) vs)%Z.

(** The flow that a flow network records on a pair once it is cancelled
    against the flow on the reversed pair. *)
Definition net_flow flow (u v : V) : Z :=
  Z.max 0 (entry flow u v - entry flow v u).

Lemma net_flow_excess flow (vs : list V) (x : V) :
  (vsum (λ v, net_flow flow x v) vs - vsum (λ v, net_flow flow v x) vs)%Z
  = (flow_out flow vs x - flow_in flow vs x)%Z.
Proof.
  unfold flow_out, flow_in. rewrite <- !vsum_sub. apply vsum_ext.
  intros v _. unfold net_flow. lia.
Qed.

(** X24.  On a simple directed network with capacities that are not
    negative, and with the source different from the sink, the value that
    [ford_fulkerson] returns is the value of a maximum flow: the flow
    network, with the flow on reversed pairs cancelled, is a flow on the graph
    of that value, and no flow on the graph has a larger value. *)
Theorem ford_fulkerson_max_flow g (vs : list V) (source sink : V) :
  wf_graph g → directed g = true → get_vertices g vs →
  simple_network g → nonneg_weights g → source ≠ sink →
  (∃ r, returns (ford_fulkerson (MaxFlow_init g vs) source sink) r)
  ∧ ∀ r, returns (ford_fulkerson (MaxFlow_init g vs) source sink) r →
      feasible_flow g vs source sink (net_flow r.1.2)
      ∧ flow_value vs source (net_flow r.1.2) = r.1.1
      ∧ ∀ f, feasible_flow g vs source sink f → (flow_value vs source f ≤ r.1.1)%Z.
Proof.
  intros Hwf Hdir Hvs Hsimple Hnn Hne.
  destruct (ford_fulkerson_result g Hwf vs Hvs source sink) as [Hex Hall].
  split; [done|]. intros [[value flow] mf'] Hr. destruct (Hall _ Hr) as [Hinv Hsat].
  destruct Hinv as [I1 I2 I3 I4 I5 I6 I7 I8 I9 I10 I11]. simpl in *.
  pose proof (residual_init_capacity_of g vs) as Hcap.
  destruct (MaxFlow_init_shape g Hwf vs) as (_ & Hkeys & Hn0).
  specialize (Hn0 Hnn). specialize (I6 Hn0).
  split_and!.
  - split.
    + intros u v. unfold net_flow. lia.
    + intros u v. rewrite <- (Hcap u v) by done. unfold net_flow.
      specialize (I4 u v). specialize (I6 u v). specialize (Hn0 u v). lia.
    + intros x Hxs Hxt. apply Z.sub_move_0_r. rewrite net_flow_excess.
      rewrite (I7 x Hxs Hxt). lia.
  - unfold flow_value. rewrite net_flow_excess. by rewrite I8.
  - intros f [Hf0 Hfc Hfcons]. unfold flow_value.
    destruct (decide (source ∈ vs)) as [Hs|Hs].
    2:{ assert (Hz : ∀ v, f source v = 0%Z ∧ f v source = 0%Z).
        { intros v. assert (Hnone : ∀ a b, a ∉ vs ∨ b ∉ vs →
                    entry (residual_graph (MaxFlow_init g vs)) a b = 0%Z).
          { intros a b Hab. unfold entry.
            destruct (ddd_lookup _ a b) as [c|] eqn:Hc; [|done].
            destruct (Hkeys a b) as (Ha & Hb & _); [by eexists|].
            rewrite <- !(get_vertices_elem g vs) in * by done. tauto. }
          pose proof (Hfc source v) as H1. pose proof (Hfc v source) as H2.
          rewrite <- Hcap in H1, H2 by done. rewrite Hnone in H1, H2 by tauto.
          pose proof (Hf0 source v). pose proof (Hf0 v source). lia. }
        rewrite !vsum_zero by (intros v; by destruct (Hz v)). lia. }
    destruct Hsat as (S & HsS & Ht & Hclosed).
    assert (HtS : sink ∉ S) by (intros Hin; by apply Hne; symmetry; apply Ht).
    rewrite (cut_excess f vs S source sink (get_vertices_NoDup g vs Hvs) Hs HsS HtS Hfcons).
    assert (Hval : value = (flow_out flow vs source - flow_in flow vs source)%Z) by done.
    rewrite Hval. unfold flow_out, flow_in.
    rewrite (cut_excess (entry flow) vs S source sink (get_vertices_NoDup g vs Hvs)
               Hs HsS HtS I7).
    apply vsum_le. intros u [Hu _]%list_elem_of_filter.
    apply vsum_le. intros v [Hv _]%list_elem_of_filter.
    assert (Hsatuv : entry (residual_graph mf') u v = 0%Z).
    { specialize (I6 u v). destruct (decide (0 < entry (residual_graph mf') u v)%Z) as [Hp|];
        [|lia]. destruct Hv. by apply (Hclosed u v). }
    specialize (I4 u v). rewrite Hsatuv in I4. rewrite I4, Hcap by done.
    specialize (Hfc u v). specialize (Hf0 v u). lia.
Qed.

End MaximumFlowTheorems.
Lemma graph1_simple : simple_network graph1.
Proof.
  split.
  - apply (bool_decide_unpack _). vm_compute. exact I.
  - apply no_antiparallel_Forall. apply (bool_decide_unpack _). vm_compute. exact I.
Defined.

Lemma residual_init_capacities_witness :
  residual_of (MaxFlow_init graph1 (elements (vertices graph1))) "S"%string "A"%string
    = Some 10%Z
  ↔ ("S"%string, "A"%string, 10%Z) ∈ edges graph1
    ∨ (10%Z = 0%Z ∧ ∃ c', ("A"%string, "S"%string, c') ∈ edges graph1).
Proof.
  apply (residual_init_capacities graph1 (elements (vertices graph1))).
  - apply wf_graph_build.
  - reflexivity.
  - unfold get_vertices. reflexivity.
  - apply graph1_simple.
  - intros u v c c'. apply NoDup_fst_unique. apply graph1_simple.
Defined.

Lemma ford_fulkerson_conserves_witness :
  (∃ r, returns (ford_fulkerson (MaxFlow_init graph1 (elements (vertices graph1)))
                   "S"%string "T"%string) r)
  ∧ ∀ r, returns (ford_fulkerson (MaxFlow_init graph1 (elements (vertices graph1)))
                    "S"%string "T"%string) r →
      (0 ≤ r.1.1)%Z
      ∧ (∀ u v, (0 ≤ entry r.1.2 u v)%Z)
      ∧ (∀ x, x ≠ "S"%string → x ≠ "T"%string →
           flow_out r.1.2 (elements (vertices graph1)) x
           = flow_in r.1.2 (elements (vertices graph1)) x)
      ∧ r.1.1 = (flow_out r.1.2 (elements (vertices graph1)) "S"%string
                 - flow_in r.1.2 (elements (vertices graph1)) "S"%string)%Z
      ∧ ("S"%string ≠ "T"%string →
         r.1.1 = (flow_in r.1.2 (elements (vertices graph1)) "T"%string
                  - flow_out r.1.2 (elements (vertices graph1)) "T"%string)%Z).
Proof.
  apply (ford_fulkerson_conserves graph1 (elements (vertices graph1))).
  - apply wf_graph_build.
  - unfold get_vertices. reflexivity.
Defined.


Lemma ford_fulkerson_no_route_witness :
  (∃ r, returns (ford_fulkerson (MaxFlow_init graph1 (elements (vertices graph1)))
                   "S"%string "Z"%string) r)
  ∧ ∀ r, returns (ford_fulkerson (MaxFlow_init graph1 (elements (vertices graph1)))
                    "S"%string "Z"%string) r →
      r.1.1 = 0%Z ∧ ∀ u v, entry r.1.2 u v = 0%Z.
Proof.
  apply (ford_fulkerson_no_route graph1 (elements (vertices graph1))).
  - apply wf_graph_build.
  - unfold get_vertices. reflexivity.
  - right. right. apply (bool_decide_unpack _). vm_compute. exact I.
Defined.

Lemma ford_fulkerson_max_flow_witness :
  (∃ r, returns (ford_fulkerson (MaxFlow_init graph1 (elements (vertices graph1)))
                   "S"%string "T"%string) r)
  ∧ ∀ r, returns (ford_fulkerson (MaxFlow_init graph1 (elements (vertices graph1)))
                    "S"%string "T"%string) r →
      feasible_flow graph1 (elements (vertices graph1)) "S"%string "T"%string
        (net_flow r.1.2)
      ∧ flow_value (elements (vertices graph1)) "S"%string (net_flow r.1.2) = r.1.1
      ∧ ∀ f, feasible_flow graph1 (elements (vertices graph1)) "S"%string "T"%string f →
             (flow_value (elements (vertices graph1)) "S"%string f ≤ r.1.1)%Z.
Proof.
  apply (ford_fulkerson_max_flow graph1 (elements (vertices graph1))).
  - apply wf_graph_build.
  - reflexivity.
  - unfold get_vertices. reflexivity.
  - apply graph1_simple.
  - apply nonneg_weights_Forall. apply (bool_decide_unpack _). vm_compute. exact I.
  - discriminate.
Defined.

(** The first example of [main]: the value printed is [14]. *)
Example main_max_flow1 :
  ∃ flow mf,
    ford_fulkerson (MaxFlow_init graph1 ["S"; "A"; "B"; "C"; "D"; "T"]%string)
      "S"%string "T"%string 30 = Some (14%Z, flow, mf).
Proof.
  assert (Hrun : (r ← ford_fulkerson (MaxFlow_init graph1
                        ["S"; "A"; "B"; "C"; "D"; "T"]%string) "S"%string "T"%string 30;
                  Some r.1.1) = Some 14%Z) by (vm_compute; reflexivity).
  destruct (ford_fulkerson _ _ _ _) as [[[value flow] mf]|]; [|discriminate Hrun].
  simpl in Hrun. injection Hrun as ->. by exists flow, mf.
Qed.
